(** * FTPClient-python: protocol codec, control channel, pools and task queue

    Part I is a shallow embedding of the client: the reply and address codec
    of [common/protocol.py], the control channel and the transfer commands
    of [client/ftp_client.py], the two connection pools, and the task and
    queue of [client/transfer_queue.py], with the heap that the library
    keeps under the queue; then the permission strings of
    [common/utils.py], the two listing parsers, the connection, login and
    directory commands, and the users of the pools and of the queue.
    Part II states and proves the properties of the specification about
    them, followed by further properties of the code.

    Conventions.
    - A Python [str] is a [string]: a sequence of characters whose code
      points are below 256.  Text literals of the source are kept as they
      are written there.
    - A Python [int] is a [Z]; [//] is [Z.div] and [%] is [Z.modulo] (both
      floor, as in Python, for the positive divisors the code uses).
    - An exception is a value of [exn]; code that can raise returns a
      [result].  Stateful code threads its state explicitly, and what the
      network, the file system or the clock decide is an argument of the
      call or a field of the state. *)

From Stdlib Require Import ZArith QArith List String Ascii Lia Bool.
From Stdlib Require Import DecimalString DecimalN.
From stdpp Require Import base option list gmap strings.

Local Open Scope string_scope.
Local Open Scope Z_scope.

(** ** Exceptions and results *)

(** The exception classes the modelled code raises or catches.  The classes
    of [common/exceptions.py] shadow the builtins of the same name inside
    the client; [SocketTimeout] and [SocketError] are [socket.timeout] and
    [socket.error], [QueueEmpty] and [QueueFull] are [queue.Empty] and
    [queue.Full]. *)
Inductive exn : Type :=
  | ValueError
  | IndexError
  | TypeError
  | UnicodeDecodeError
  | FileNotFoundError
  | OSError
  | SocketTimeout
  | SocketError
  | ConnectionError
  | TimeoutError
  | AuthenticationError
  | CommandError (message : string)
  | FileTransferError
  | QueueEmpty
  | QueueFull.

Inductive result (A : Type) : Type :=
  | Ok (a : A)
  | Raise (e : exn).
Arguments Ok {A} a.
Arguments Raise {A} e.

(** ** Python string primitives *)

Module Py.

Definition code (c : ascii) : N := N_of_ascii c.

(** [str.isspace] on code points below 256; [str.strip] and [str.split]
    without arguments use this class. *)
Definition isspace (c : ascii) : bool :=
  let n := code c in
  ((9 <=? n) && (n <=? 13) || (28 <=? n) && (n <=? 32)
   || (n =? 133) || (n =? 160))%N.

(** The white space [int] accepts around a literal: the ASCII class of the
    C library plus the two non-ASCII spaces, which [int] first turns into
    blanks.  The separators 0x1c-0x1f are white space for [strip] but not
    for [int]. *)
Definition int_space (c : ascii) : bool :=
  let n := code c in
  ((9 <=? n) && (n <=? 13) || (n =? 32) || (n =? 133) || (n =? 160))%N.

(** [\d] of [re] and the digits of [int], below 256: '0'..'9'. *)
Definition isdigit (c : ascii) : bool :=
  let n := code c in ((48 <=? n) && (n <=? 57))%N.

(** [s[:n]] and [s[n:]] for [n >= 0]: never raise, clip at the end. *)
Fixpoint take (n : nat) (s : string) : string :=
  match n, s with
  | S k, String c r => String c (take k r)
  | _, _ => EmptyString
  end.

Fixpoint drop (n : nat) (s : string) : string :=
  match n, s with
  | S k, String _ r => drop k r
  | _, _ => s
  end.

Fixpoint lstrip (s : string) : string :=
  match s with
  | String c r => if isspace c then lstrip r else s
  | EmptyString => EmptyString
  end.

Fixpoint rstrip (s : string) : string :=
  match s with
  | String c r =>
      match rstrip r with
      | EmptyString => if isspace c then EmptyString else String c EmptyString
      | r' => String c r'
      end
  | EmptyString => EmptyString
  end.

(** [s.strip()] *)
Definition strip (s : string) : string := rstrip (lstrip s).

(** [s.startswith(p)] *)
Fixpoint startswith (p s : string) : bool :=
  match p, s with
  | EmptyString, _ => true
  | String a p', String b s' => if Ascii.eqb a b then startswith p' s' else false
  | String _ _, EmptyString => false
  end.

(** The maximal run of digits at the head of [s], and what follows it. *)
Fixpoint span_digits (s : string) : string * string :=
  match s with
  | String c r =>
      if isdigit c then let '(d, t) := span_digits r in (String c d, t)
      else (EmptyString, s)
  | EmptyString => (EmptyString, EmptyString)
  end.

Fixpoint all_int_space (s : string) : bool :=
  match s with
  | String c r => int_space c && all_int_space r
  | EmptyString => true
  end.

Fixpoint int_lstrip (s : string) : string :=
  match s with
  | String c r => if int_space c then int_lstrip r else s
  | EmptyString => EmptyString
  end.

(** The digits of an [int] literal after its first digit: digits, each
    optionally preceded by one underscore.  Returns the digits read
    (underscores removed) and the rest. *)
Fixpoint int_more_digits (s : string) : string * string :=
  match s with
  | String c r =>
      if isdigit c then
        let '(d, t) := int_more_digits r in (String c d, t)
      else if Ascii.eqb c "_" then
        match r with
        | String c' r' =>
            if isdigit c' then
              let '(d, t) := int_more_digits r' in (String c' d, t)
            else (EmptyString, s)
        | EmptyString => (EmptyString, s)
        end
      else (EmptyString, s)
  | EmptyString => (EmptyString, EmptyString)
  end.

(** Value of a string of decimal digits. *)
Definition digits_value (d : string) : option Z :=
  match d with
  | EmptyString => None
  | _ => (fun u => Z.of_N (N.of_uint u)) <$> NilEmpty.uint_of_string d
  end.

(** [sys.get_int_max_str_digits()] as the interpreter starts: the most
    digits a decimal literal may have for [int] to convert it. *)
Definition int_max_str_digits : Z := 4300.

(** Unsigned part of an [int] literal: a digit, more digits, trailing
    white space, end of string.  The digits are counted against the cap,
    leading zeros included; underscores, the sign and white space are
    not. *)
Definition int_unsigned (s : string) : option Z :=
  match s with
  | String c r =>
      if isdigit c then
        let '(d, t) := int_more_digits r in
        if all_int_space t then
          if Z.of_nat (String.length (String c d)) <=? int_max_str_digits
          then digits_value (String c d)
          else None
        else None
      else None
  | EmptyString => None
  end.

(** [int(s)] for a string [s], base ten: [None] stands for [ValueError],
    the only exception [int] raises on a string, for a malformed literal
    and for one with more digits than the cap. *)
Definition int (s : string) : option Z :=
  match int_lstrip s with
  | String "+" r => int_unsigned r
  | String "-" r => Z.opp <$> int_unsigned r
  | t => int_unsigned t
  end.

(** [str(n)] for an integer of at most [int_max_str_digits] digits, as
    are the ports, counters and sizes it is applied to here. *)
Definition str (n : Z) : string :=
  match n with
  | Z.neg p => String "-" (NilEmpty.string_of_uint (N.to_uint (Npos p)))
  | _ => NilEmpty.string_of_uint (N.to_uint (Z.to_N n))
  end.

(** [s.split(sep)] for a one-character separator. *)
Fixpoint split (sep : ascii) (s : string) : list string :=
  match s with
  | EmptyString => [EmptyString]
  | String c r =>
      if Ascii.eqb c sep then EmptyString :: split sep r
      else match split sep r with
           | w :: ws => String c w :: ws
           | [] => [String c EmptyString]
           end
  end.

(** [sep.join(parts)] *)
Fixpoint join (sep : string) (parts : list string) : string :=
  match parts with
  | [] => EmptyString
  | [w] => w
  | w :: ws => w ++ sep ++ join sep ws
  end.

(** [c.lower()] for a character below 256: the letters A-Z and the
    accented capitals 0xC0-0xDE, the multiplication sign left out. *)
Definition lower_char (c : ascii) : ascii :=
  let n := code c in
  if ((65 <=? n) && (n <=? 90)
      || (192 <=? n) && (n <=? 222) && negb (n =? 215))%N
  then ascii_of_N (n + 32) else c.

(** [s.lower()] *)
Fixpoint lower (s : string) : string :=
  match s with
  | String c r => String (lower_char c) (lower r)
  | EmptyString => EmptyString
  end.

(** Vocabulary for statements about strings. *)
Fixpoint all_digits (s : string) : bool :=
  match s with
  | String c r => isdigit c && all_digits r
  | EmptyString => true
  end.

Fixpoint has_char (x : ascii) (s : string) : bool :=
  match s with
  | String c r => Ascii.eqb c x || has_char x r
  | EmptyString => false
  end.

Definition starts_with_digit (s : string) : bool :=
  match s with
  | String c _ => isdigit c
  | EmptyString => false
  end.

Definition starts_with_space (s : string) : bool :=
  match s with
  | String c _ => isspace c
  | EmptyString => false
  end.

Fixpoint ends_with_space (s : string) : bool :=
  match s with
  | String c EmptyString => isspace c
  | String _ r => ends_with_space r
  | EmptyString => false
  end.

(** The number a decimal digit stands for. *)
Definition digit (c : ascii) : Z := Z.of_N (code c) - 48.

(** The characters an [int] literal is made of: digits, the white space
    around it, a sign, underscores. *)
Definition int_char (c : ascii) : bool :=
  isdigit c || int_space c || Ascii.eqb c "+" || Ascii.eqb c "-"
  || Ascii.eqb c "_".

End Py.

(** ** The error monad *)

Definition rbind {A B : Type} (m : result A) (k : A -> result B) : result B :=
  match m with
  | Ok a => k a
  | Raise e => Raise e
  end.

(** [try: body except <classes matched by handles>: handler] *)
Definition try_except {A : Type} (body : result A) (handles : exn -> bool)
    (handler : exn -> result A) : result A :=
  match body with
  | Ok a => Ok a
  | Raise e => if handles e then handler e else Raise e
  end.

Declare Scope result_scope.
Delimit Scope result_scope with result.
Notation "'let*' x ':=' m 'in' k" := (rbind m (fun x => k))
  (at level 10, x pattern, m at level 100, k at level 200) : result_scope.

(** [int(s)], raising *)
Definition int_ (s : string) : result Z :=
  match Py.int s with
  | Some n => Ok n
  | None => Raise ValueError
  end.

(** [l[i]], raising *)
Definition index_ {A : Type} (l : list A) (i : nat) : result A :=
  match l !! i with
  | Some a => Ok a
  | None => Raise IndexError
  end.

Fixpoint mapM_ {A B : Type} (f : A -> result B) (l : list A) : result (list B) :=
  match l with
  | [] => Ok []
  | a :: r =>
      (let* b := f a in let* bs := mapM_ f r in Ok (b :: bs))%result
  end.

(** ** Regular expressions of the codec

    [re] is a backtracking matcher.  The fragment the codec uses: a
    capturing group of one or more digits, greedy, and a literal character. *)

Module Re.

Inductive item : Type :=
  | Digits            (* (\d+) *)
  | Lit (c : ascii).  (* a literal character *)

(** Try [f k], [f (k-1)], ..., [f 1]: the greedy quantifier giving back one
    character at a time. *)
Fixpoint backtrack {A : Type} (f : nat -> option A) (k : nat) : option A :=
  match k with
  | O => None
  | S k' =>
      match f k with
      | Some r => Some r
      | None => backtrack f k'
      end
  end.

(** Match the pattern at the head of [s]; the captured groups in order. *)
Fixpoint match_here (p : list item) (s : string) : option (list string) :=
  match p with
  | [] => Some []
  | Lit c :: p' =>
      match s with
      | String c' s' => if Ascii.eqb c c' then match_here p' s' else None
      | EmptyString => None
      end
  | Digits :: p' =>
      backtrack
        (fun k => cons (Py.take k s) <$> match_here p' (Py.drop k s))
        (String.length (fst (Py.span_digits s)))
  end.

(** [re.search]: the leftmost position at which the pattern matches. *)
Fixpoint search (p : list item) (s : string) : option (list string) :=
  match match_here p s with
  | Some g => Some g
  | None =>
      match s with
      | String _ s' => search p s'
      | EmptyString => None
      end
  end.

End Re.

(** ** common/protocol.py *)

Module Protocol.

Local Open Scope result_scope.

(** Reply codes of [FTPProtocolMixin]. *)
Definition POSITIVE_PRELIMINARY : Z := 1.
Definition POSITIVE_COMPLETION : Z := 2.
Definition POSITIVE_INTERMEDIATE : Z := 3.
Definition NEGATIVE_TRANSIENT : Z := 4.
Definition NEGATIVE_PERMANENT : Z := 5.
Definition COMMAND_OK : Z := 200.
Definition READY_FOR_NEW_USER : Z := 220.
Definition LOGGED_IN : Z := 230.
Definition NEED_PASSWORD : Z := 331.
Definition LOGIN_FAILED : Z := 530.
Definition FILE_STATUS_OK : Z := 150.
Definition TRANSFER_COMPLETE : Z := 226.
Definition PATH_CREATED : Z := 257.
Definition PASSIVE_MODE : Z := 227.

Inductive TransferMode : Type := ASCII | BINARY.
Inductive ConnectionMode : Type := ACTIVE | PASSIVE.

(** [TransferMode.value] *)
Definition mode_value (m : TransferMode) : string :=
  match m with ASCII => "A" | BINARY => "I" end.

(** [parse_response]: [None] in the first component is Python's [None]. *)
Definition parse_response (response : string) : result (option Z * string) :=
  try_except
    (let* code := int_ (Py.take 3 response) in
     let message := Py.strip (Py.drop 3 response) in
     Ok (Some code, message))
    (fun e => match e with ValueError | IndexError => true | _ => false end)
    (fun _ => Ok (None, response)).

(** [r'(\d+),(\d+),(\d+),(\d+),(\d+),(\d+)'] *)
Definition pasv_pattern : list Re.item :=
  [Re.Digits; Re.Lit ","; Re.Digits; Re.Lit ","; Re.Digits; Re.Lit ",";
   Re.Digits; Re.Lit ","; Re.Digits; Re.Lit ","; Re.Digits].

Definition parse_pasv_response (response : string) : result (string * Z) :=
  match Re.search pasv_pattern response with
  | None => Raise ValueError
  | Some groups =>
      let* numbers := mapM_ int_ groups in
      let ip := Py.join "." (map Py.str (firstn 4 numbers)) in
      let* n4 := index_ numbers 4 in
      let* n5 := index_ numbers 5 in
      let port := Z.shiftl n4 8 + n5 in
      Ok (ip, port)
  end.

Definition build_port_command (ip : string) (port : Z) : string :=
  let ip_parts := Py.split "." ip in
  let port_hi := port / 256 in
  let port_lo := port mod 256 in
  Py.join "," ip_parts ++ "," ++ Py.str port_hi ++ "," ++ Py.str port_lo.

(** Vocabulary for statements about the codec. *)

(** The dotted-quad text of four numbers, as [socket] prints addresses. *)
Definition dotted_quad (a b c d : Z) : string :=
  Py.join "." (map Py.str [a; b; c; d]).

Definition octet (n : Z) : Prop := 0 <= n <= 255.

(** Text in front of the address that cannot start a match: no digit is
    followed by a comma, and the text does not end in a digit. *)
Fixpoint quiet (s : string) : bool :=
  match s with
  | EmptyString => true
  | String c r =>
      (if Py.isdigit c then
         match r with
         | String c' _ => negb (Ascii.eqb c' ",")
         | EmptyString => false
         end
       else true) && quiet r
  end.

End Protocol.

(** ** client/ftp_client.py: the session *)

Module Client.

Import Protocol.

Definition CRLF : string := String (ascii_of_nat 13) (String (ascii_of_nat 10) EmptyString).

(** [s.encode('utf-8')] on code points below 256. *)
Fixpoint encode_utf8 (s : string) : list Byte.byte :=
  match s with
  | EmptyString => []
  | String c r =>
      let n := Py.code c in
      if (n <? 128)%N then byte_of_ascii c :: encode_utf8 r
      else byte_of_ascii (ascii_of_N (192 + n / 64))
           :: byte_of_ascii (ascii_of_N (128 + n mod 64))
           :: encode_utf8 r
  end.

(** [b.decode('utf-8')] on the encodings of code points below 256; other
    input is cut off (the decoder of the library raises there). *)
Fixpoint decode_utf8 (b : list Byte.byte) : string :=
  match b with
  | [] => EmptyString
  | x :: r =>
      let n := Py.code (ascii_of_byte x) in
      if (n <? 128)%N then String (ascii_of_byte x) (decode_utf8 r)
      else match r with
           | y :: r' =>
               let m := Py.code (ascii_of_byte y) in
               String (ascii_of_N ((n - 192) * 64 + (m - 128))) (decode_utf8 r')
           | [] => EmptyString
           end
  end.

(** [s.split()]: the words of [s] between runs of white space. *)
Fixpoint words_from (cur : string) (s : string) : list string :=
  match s with
  | EmptyString =>
      match cur with EmptyString => [] | _ => [cur] end
  | String c r =>
      if Py.isspace c then
        match cur with
        | EmptyString => words_from EmptyString r
        | _ => cur :: words_from EmptyString r
        end
      else words_from (cur ++ String c EmptyString) r
  end.

Definition split_ws (s : string) : list string := words_from EmptyString s.

Inductive level : Type := DEBUG | INFO | WARNING | ERROR.

(** What the control socket delivers at one turn of the read loop of
    [_read_response]. *)
Inductive recv_event : Type :=
  | Deadline              (* the elapsed-time test at the loop head fires *)
  | Data (line : string)  (* [recv] returns bytes decoding to [line];
                             the empty string is the peer's close *)
  | Undecodable           (* [recv] returns bytes that are not UTF-8 *)
  | RecvTimeout           (* [recv] raises [socket.timeout] *)
  | RecvError.            (* [recv] raises [socket.error] *)

(** Where a data channel was opened. *)
Inductive data_endpoint : Type :=
  | Connected (ip : string) (port : Z)  (* passive: [connect((ip, port))] *)
  | Listening (port : Z).               (* active: [bind], [listen] *)

(** The fields of [FTPClient] the modelled methods use, followed by the
    world the session talks to.  [send_faults] says, for each [sendall] to
    come, whether it raises [socket.error] and with which text;
    [connect_faults] does the same for the data sockets.  Only the log
    records of [_send_command] and [_read_response] are kept. *)
Record FTPClient : Type := mkClient {
  cmd_socket : bool;                 (* [self.cmd_socket is not None] *)
  connected : bool;
  logged_in : bool;
  transfer_mode : TransferMode;
  connection_mode : ConnectionMode;
  last_response : option string;
  last_response_code : option Z;
  incoming : list recv_event;
  send_faults : list (option string);
  connect_faults : list bool;
  local_ip : string;                 (* [cmd_socket.getsockname()[0]] *)
  ephemeral_port : Z;                (* port given to the next listener *)
  sent : list (list Byte.byte);      (* payloads of successful [sendall]s *)
  log : list (level * string);
  data_channels : list data_endpoint
}.

Definition set_connected (b : bool) (c : FTPClient) : FTPClient :=
  mkClient (cmd_socket c) b (logged_in c) (transfer_mode c)
    (connection_mode c) (last_response c) (last_response_code c)
    (incoming c) (send_faults c) (connect_faults c) (local_ip c)
    (ephemeral_port c) (sent c) (log c) (data_channels c).

Definition set_transfer_mode_field (m : TransferMode) (c : FTPClient) : FTPClient :=
  mkClient (cmd_socket c) (connected c) (logged_in c) m
    (connection_mode c) (last_response c) (last_response_code c)
    (incoming c) (send_faults c) (connect_faults c) (local_ip c)
    (ephemeral_port c) (sent c) (log c) (data_channels c).

Definition set_last (r : string) (code : option Z) (c : FTPClient) : FTPClient :=
  mkClient (cmd_socket c) (connected c) (logged_in c) (transfer_mode c)
    (connection_mode c) (Some r) code
    (incoming c) (send_faults c) (connect_faults c) (local_ip c)
    (ephemeral_port c) (sent c) (log c) (data_channels c).

Definition set_incoming (l : list recv_event) (c : FTPClient) : FTPClient :=
  mkClient (cmd_socket c) (connected c) (logged_in c) (transfer_mode c)
    (connection_mode c) (last_response c) (last_response_code c)
    l (send_faults c) (connect_faults c) (local_ip c)
    (ephemeral_port c) (sent c) (log c) (data_channels c).

Definition set_send_faults (l : list (option string)) (c : FTPClient) : FTPClient :=
  mkClient (cmd_socket c) (connected c) (logged_in c) (transfer_mode c)
    (connection_mode c) (last_response c) (last_response_code c)
    (incoming c) l (connect_faults c) (local_ip c)
    (ephemeral_port c) (sent c) (log c) (data_channels c).

Definition set_connect_faults (l : list bool) (c : FTPClient) : FTPClient :=
  mkClient (cmd_socket c) (connected c) (logged_in c) (transfer_mode c)
    (connection_mode c) (last_response c) (last_response_code c)
    (incoming c) (send_faults c) l (local_ip c)
    (ephemeral_port c) (sent c) (log c) (data_channels c).

Definition push_sent (b : list Byte.byte) (c : FTPClient) : FTPClient :=
  mkClient (cmd_socket c) (connected c) (logged_in c) (transfer_mode c)
    (connection_mode c) (last_response c) (last_response_code c)
    (incoming c) (send_faults c) (connect_faults c) (local_ip c)
    (ephemeral_port c) (sent c ++ [b]) (log c) (data_channels c).

Definition push_log (l : level) (msg : string) (c : FTPClient) : FTPClient :=
  mkClient (cmd_socket c) (connected c) (logged_in c) (transfer_mode c)
    (connection_mode c) (last_response c) (last_response_code c)
    (incoming c) (send_faults c) (connect_faults c) (local_ip c)
    (ephemeral_port c) (sent c) (log c ++ [(l, msg)]) (data_channels c).

Definition push_data_channel (d : data_endpoint) (c : FTPClient) : FTPClient :=
  mkClient (cmd_socket c) (connected c) (logged_in c) (transfer_mode c)
    (connection_mode c) (last_response c) (last_response_code c)
    (incoming c) (send_faults c) (connect_faults c) (local_ip c)
    (ephemeral_port c) (sent c) (log c) (data_channels c ++ [d]).

(** A method of the session: it returns or raises, and leaves a session. *)
Definition M (A : Type) : Type := FTPClient -> result A * FTPClient.

Definition ret {A : Type} (a : A) : M A := fun c => (Ok a, c).
Definition raise {A : Type} (e : exn) : M A := fun c => (Raise e, c).
Definition bind {A B : Type} (m : M A) (k : A -> M B) : M B :=
  fun c => match m c with
           | (Ok a, c') => k a c'
           | (Raise e, c') => (Raise e, c')
           end.
Definition get {A : Type} (f : FTPClient -> A) : M A := fun c => (Ok (f c), c).
Definition modify (f : FTPClient -> FTPClient) : M unit := fun c => (Ok tt, f c).
Definition lift {A : Type} (r : result A) : M A := fun c => (r, c).

(** [try: body except <handles>: handler] *)
Definition try_catch {A : Type} (body : M A) (handles : exn -> bool)
    (handler : exn -> M A) : M A :=
  fun c => match body c with
           | (Ok a, c') => (Ok a, c')
           | (Raise e, c') => if handles e then handler e c' else (Raise e, c')
           end.

Declare Scope client_scope.
Delimit Scope client_scope with client.
Notation "'let*' x ':=' m 'in' k" := (bind m (fun x => k))
  (at level 10, x pattern, m at level 100, k at level 200) : client_scope.
Notation "m1 ';;' m2" := (bind m1 (fun _ => m2))
  (at level 100, right associativity) : client_scope.
Local Open Scope client_scope.

(** [_send_command] *)
Definition _send_command (command : string) : M unit := fun c =>
  if negb (cmd_socket c) then (Raise ConnectionError, c)
  else if negb (connected c) then (Raise ConnectionError, c)
  else
    let log_command :=
      if Py.startswith "PASS " command then "PASS ********" else command in
    let cmd_bytes := encode_utf8 (command ++ CRLF) in
    let c := push_log DEBUG ("发送命令: " ++ log_command) c in
    match send_faults c with
    | Some e :: rest =>
        let error_msg := "发送命令失败: " ++ e in
        let c := push_log ERROR error_msg (set_send_faults rest c) in
        (Raise ConnectionError, set_connected false c)
    | None :: rest => (Ok tt, push_sent cmd_bytes (set_send_faults rest c))
    | [] => (Ok tt, push_sent cmd_bytes c)
    end.

(** [line[3:4]] *)
Definition fourth (line : string) : string := Py.take 1 (Py.drop 3 line).

(** [line.startswith('5') and line[3:4] == ' '] *)
Definition is_error_line (line : string) : bool :=
  Py.startswith "5" line && String.eqb (fourth line) " ".

(** [len(line) > 3 and line[3:4] == ' '] *)
Definition is_last_line (line : string) : bool :=
  (3 <? String.length line)%nat && String.eqb (fourth line) " ".

(** The loop of [_read_response], one turn per delivery of the socket.
    When nothing is left to deliver, [recv] runs into the socket's
    timeout.  The result carries what is left of the deliveries. *)
Fixpoint read_loop (events : list recv_event) (response : string)
    (c : FTPClient) : result string * FTPClient :=
  match events with
  | [] => (Raise TimeoutError, set_incoming [] c)
  | Deadline :: rest =>
      (* TimeoutError, caught by the ConnectionError clause *)
      (Raise ConnectionError, set_connected false (set_incoming rest c))
  | Undecodable :: rest => (Raise UnicodeDecodeError, set_incoming rest c)
  | RecvTimeout :: rest => (Raise TimeoutError, set_incoming rest c)
  | RecvError :: rest =>
      (Raise ConnectionError, set_connected false (set_incoming rest c))
  | Data line :: rest =>
      if String.eqb line "" then
        (Raise ConnectionError, set_connected false (set_incoming rest c))
      else
        let response := response ++ line in
        if is_error_line line then
          let error_msg := Py.strip line in
          (Raise (CommandError error_msg),
           push_log ERROR ("服务器返回错误: " ++ error_msg) (set_incoming rest c))
        else if is_last_line line then
          (Ok response, set_incoming rest c)
        else read_loop rest response c
  end.

(** [_read_response] *)
Definition _read_response : M string := fun c =>
  if negb (cmd_socket c) then (Raise ConnectionError, c)
  else if negb (connected c) then (Raise ConnectionError, c)
  else
    match read_loop (incoming c) "" c with
    | (Raise e, c) => (Raise e, c)
    | (Ok response, c) =>
        let c := push_log DEBUG ("接收响应: " ++ Py.strip response) c in
        match parse_response response with
        | Raise e => (Raise e, set_last (Py.strip response) (last_response_code c) c)
        | Ok (code, _) => (Ok response, set_last (Py.strip response) code c)
        end
    end.

(** The session after [__init__], [connect] and [login]: binary and
    passive, with a control socket that will deliver [events]. *)
Definition session (events : list recv_event) : FTPClient :=
  mkClient true true true BINARY PASSIVE None None
    events [] [] "127.0.0.1" 50000 [] [] [].

(** The framing rule in the words of the specification: a line ends a
    reply when it begins with three digits and a space; a line that begins
    with three digits and a hyphen continues it. *)
Definition spec_digits3 (line : string) : bool :=
  (String.length (Py.take 3 line) =? 3)%nat && Py.all_digits (Py.take 3 line).

Definition spec_final_line (line : string) : bool :=
  spec_digits3 line && String.eqb (fourth line) " ".

Definition spec_continuation_line (code line : string) : bool :=
  spec_digits3 line && String.eqb (Py.take 3 line) code
  && String.eqb (fourth line) "-".

(** What the code takes for a continuation: a delivery that is not the
    peer's close and whose fourth character is not a blank. *)
Definition continues (line : string) : bool :=
  negb (String.eqb line "") && negb (String.eqb (fourth line) " ").

(** The lines of a reply put together. *)
Definition whole (lines : list string) (last : string) : string :=
  fold_right String.append last lines.

(** The record that a PASS command leaves in the log. *)
Definition masked : level * string := (DEBUG, "发送命令: PASS ********").

(** A method that opens no data channel. *)
Definition keeps {A : Type} (m : M A) : Prop :=
  forall c, data_channels (snd (m c)) = data_channels c.

(** *** Commands built on the two primitives

    The decorator [ftp_command] only logs and re-raises; the decorated
    methods are modelled by their bodies. *)

Definition code_is (n : Z) (c : FTPClient) : bool :=
  match last_response_code c with
  | Some k => k =? n
  | None => false
  end.

(** [self.last_response_code // 100]; [None // 100] is a [TypeError]. *)
Definition code_class : M Z := fun c =>
  match last_response_code c with
  | Some k => (Ok (k / 100), c)
  | None => (Raise TypeError, c)
  end.

Definition mode_eqb (a b : TransferMode) : bool :=
  match a, b with
  | ASCII, ASCII | BINARY, BINARY => true
  | _, _ => false
  end.

(** [set_transfer_mode]: the membership test on [mode] is vacuous for a
    value of the enumeration. *)
Definition set_transfer_mode (mode : TransferMode) : M unit :=
  let* current := get transfer_mode in
  if mode_eqb current mode then ret tt
  else
    _send_command ("TYPE " ++ mode_value mode) ;;
    let* response := _read_response in
    let* ok := get (code_is COMMAND_OK) in
    if negb ok then raise (CommandError ("无法设置传输模式: " ++ response))
    else modify (set_transfer_mode_field mode).

(** [size] *)
Definition size (remote_path : string) : M Z :=
  _send_command ("SIZE " ++ remote_path) ;;
  let* response := _read_response in
  let* class := code_class in
  if negb (class =? POSITIVE_COMPLETION) then
    raise (CommandError ("获取文件大小失败: " ++ response))
  else
    lift (try_except
            (let* word := index_ (split_ws response) 1 in int_ word)%result
            (fun e => match e with IndexError | ValueError => true | _ => false end)
            (fun _ => Raise (CommandError ("无法解析文件大小: " ++ response)))).

(** Outcome of [connect] (and of the TLS wrapping) of a data socket. *)
Definition data_connect (ip : string) (port : Z) : M data_endpoint := fun c =>
  match connect_faults c with
  | true :: rest => (Raise ConnectionError, set_connect_faults rest c)
  | false :: rest =>
      (Ok (Connected ip port),
       push_data_channel (Connected ip port) (set_connect_faults rest c))
  | [] => (Ok (Connected ip port), push_data_channel (Connected ip port) c)
  end.

Definition _create_passive_connection : M data_endpoint :=
  _send_command "PASV" ;;
  let* response := _read_response in
  let* ok := get (code_is PASSIVE_MODE) in
  if negb ok then raise ConnectionError
  else
    let* (ip, port) := lift (parse_pasv_response response) in
    data_connect ip port.

Definition _create_active_connection : M data_endpoint :=
  let* local_port := get ephemeral_port in
  modify (push_data_channel (Listening local_port)) ;;
  let* ip := get local_ip in
  let port_arg := build_port_command ip local_port in
  _send_command ("PORT " ++ port_arg) ;;
  let* response := _read_response in
  let* ok := get (code_is COMMAND_OK) in
  if negb ok then raise ConnectionError
  else ret (Listening local_port).

Definition _create_data_connection : M data_endpoint :=
  try_catch
    (let* mode := get connection_mode in
     match mode with
     | PASSIVE => _create_passive_connection
     | ACTIVE => _create_active_connection
     end)
    (fun _ => true)
    (fun _ => raise ConnectionError).

Section Transfers.

(** The operating system and the data loops are taken as given:
    [os.path.splitext], the [os.path] queries on a file system that does
    not change during a call, the loop that copies the data channel to the
    local file or the local file to the data channel (with the [accept] of
    active mode before it; it returns the byte count), and the clock. *)
Variable splitext : string -> string * string.
Variable abspath : string -> string.
Variable dirname : string -> string.
Variable exists_ : string -> bool.
Variable getsize : string -> result Z.
Variable makedirs : string -> result unit.
Variable receive_file :
  string -> bool -> Z -> Z -> data_endpoint -> M Z.
Variable send_file :
  string -> bool -> Z -> Z -> data_endpoint -> M Z.
Variable elapsed_time : M Q.

(** [common.utils.is_binary_file] *)
Definition text_extensions : list string :=
  [".txt"; ".md"; ".html"; ".htm"; ".css"; ".js"; ".json";
   ".xml"; ".csv"; ".log"; ".ini"; ".conf"; ".cfg";
   ".py"; ".java"; ".c"; ".cpp"; ".h"; ".sh"; ".bat";
   ".yaml"; ".yml"; ".toml"].

Definition is_binary_file (filename : string) : bool :=
  let '(_, ext) := splitext (Py.lower filename) in
  if existsb (String.eqb ext) text_extensions then false else true.

(** The transfer mode when the caller gives none. *)
Definition auto_mode (mode : option TransferMode) (path : string) : TransferMode :=
  match mode with
  | Some m => m
  | None => if is_binary_file path then BINARY else ASCII
  end.

(** [download]; the result is [(success, size, elapsed)]. *)
Definition download (remote_path local_path : string)
    (mode : option TransferMode) (resume verify : bool) : M (bool * Z * Q) :=
  let* li := get logged_in in
  if negb li then raise AuthenticationError
  else
    let mode := auto_mode mode remote_path in
    set_transfer_mode mode ;;
    let local_path := abspath local_path in
    let local_dir := dirname local_path in
    (if negb (exists_ local_dir) then lift (makedirs local_dir) else ret tt) ;;
    let* remote_size :=
      try_catch (size remote_path)
        (fun e => match e with CommandError _ => true | _ => false end)
        (fun _ => ret 0) in
    let* skip :=
      (if resume && exists_ local_path then
         let* local_size := lift (getsize local_path) in
         ret (local_size, local_size >=? remote_size)
       else ret (0, false)) in
    let '(local_size, done) := skip in
    if done then ret (true, remote_size, 0%Q)
    else
      let* data_sock := _create_data_connection in
      try_catch
        ((if resume && (0 <? local_size) then
            _send_command ("REST " ++ Py.str local_size) ;;
            let* response := _read_response in
            let* class := code_class in
            if negb (class =? POSITIVE_INTERMEDIATE) then
              raise (CommandError ("设置断点续传失败: " ++ response))
            else ret tt
          else ret tt) ;;
         _send_command ("RETR " ++ remote_path) ;;
         let* response := _read_response in
         let* ok := get (code_is FILE_STATUS_OK) in
         if negb ok then raise (CommandError ("下载文件失败: " ++ response))
         else
           let* bytes_received :=
             receive_file local_path resume local_size remote_size data_sock in
           let* response := _read_response in
           let* ok := get (code_is TRANSFER_COMPLETE) in
           if negb ok then
             raise (CommandError ("读取下载完成响应失败: " ++ response))
           else
             let* elapsed := elapsed_time in
             ret (true, local_size + bytes_received, elapsed))
        (fun _ => true)
        (fun _ => raise FileTransferError).

(** [upload] *)
Definition upload (local_path remote_path : string)
    (mode : option TransferMode) (resume verify : bool) : M (bool * Z * Q) :=
  let* li := get logged_in in
  if negb li then raise AuthenticationError
  else if negb (exists_ local_path) then raise FileNotFoundError
  else
    let* local_size := lift (getsize local_path) in
    let mode := auto_mode mode local_path in
    set_transfer_mode mode ;;
    let* skip :=
      (if resume then
         try_catch
           (let* remote_size := size remote_path in
            ret (remote_size, remote_size >=? local_size))
           (fun e => match e with CommandError _ => true | _ => false end)
           (fun _ => ret (0, false))
       else ret (0, false)) in
    let '(remote_size, done) := skip in
    if done then ret (true, local_size, 0%Q)
    else
      let* data_sock := _create_data_connection in
      try_catch
        ((if resume && (0 <? remote_size) then
            _send_command ("REST " ++ Py.str remote_size) ;;
            let* response := _read_response in
            let* class := code_class in
            if negb (class =? POSITIVE_INTERMEDIATE) then
              raise (CommandError ("设置断点续传失败: " ++ response))
            else ret tt
          else ret tt) ;;
         (if resume && (0 <? remote_size) then
            _send_command ("APPE " ++ remote_path)
          else _send_command ("STOR " ++ remote_path)) ;;
         let* response := _read_response in
         let* ok := get (code_is FILE_STATUS_OK) in
         if negb ok then raise (CommandError ("上传文件失败: " ++ response))
         else
           let* bytes_sent :=
             send_file local_path resume local_size remote_size data_sock in
           let* response := _read_response in
           let* ok := get (code_is TRANSFER_COMPLETE) in
           if negb ok then
             raise (CommandError ("读取上传完成响应失败: " ++ response))
           else
             let* elapsed := elapsed_time in
             ret (true, remote_size + bytes_sent, elapsed))
        (fun _ => true)
        (fun _ => raise FileTransferError).

End Transfers.


End Client.

(** ** client/ftp_client.py: FTPConnectionPool

    A session object is identified by a number, fresh at construction.
    What the network decides is given to each call: the verdict of
    [verify_connection] on a session, whether a new session can be
    connected, the [connected] flag of a released session, the clock. *)

Module ConnectionPool.

(** [pool] is the Python list read from its end: [pop()] takes the head
    here and [append] puts one in front. *)
Record FTPConnectionPool : Type := mkPool {
  max_connections : Z;
  idle_timeout : Q;
  pool : list (nat * Q);             (* [(client, last_used_time), ...] *)
  active_connections : Z;
  total_connections_created : Z;
  total_connections_reused : Z;
  total_connections_closed : Z;
  connection_failures : Z;
  next_client : nat                  (* the next [FTPClient(...)] object *)
}.

(** [__init__] *)
Definition init (max_connections : Z) (idle_timeout : Q) : FTPConnectionPool :=
  mkPool max_connections idle_timeout [] 0 0 0 0 0 0%nat.

(** The [while self.pool] loop of [get_connection]: pop sessions until one
    passes [verify_connection]; the others are quit and counted closed. *)
Fixpoint take_idle (alive : nat -> bool) (idle : list (nat * Q)) (closed : Z)
    : option nat * list (nat * Q) * Z :=
  match idle with
  | [] => (None, [], closed)
  | (client, _) :: rest =>
      if alive client then (Some client, rest, closed)
      else take_idle alive rest (closed + 1)
  end.

(** [get_connection]: [alive] answers [verify_connection], [failure] is the
    exception of [connect] or [login] for a new session, if any.  The
    result [Ok None] is the [return None] at the limit. *)
Definition get_connection (alive : nat -> bool) (failure : option exn)
    (p : FTPConnectionPool) : result (option nat) * FTPConnectionPool :=
  match take_idle alive (pool p) (total_connections_closed p) with
  | (Some client, rest, closed) =>
      (Ok (Some client),
       mkPool (max_connections p) (idle_timeout p) rest
         (active_connections p + 1) (total_connections_created p)
         (total_connections_reused p + 1) closed (connection_failures p)
         (next_client p))
  | (None, rest, closed) =>
      if active_connections p >=? max_connections p then
        (Ok None,
         mkPool (max_connections p) (idle_timeout p) rest
           (active_connections p) (total_connections_created p)
           (total_connections_reused p) closed (connection_failures p)
           (next_client p))
      else
        match failure with
        | None =>
            (Ok (Some (next_client p)),
             mkPool (max_connections p) (idle_timeout p) rest
               (active_connections p + 1) (total_connections_created p + 1)
               (total_connections_reused p) closed (connection_failures p)
               (S (next_client p)))
        | Some e =>
            (Raise e,
             mkPool (max_connections p) (idle_timeout p) rest
               (active_connections p) (total_connections_created p)
               (total_connections_reused p) closed (connection_failures p + 1)
               (S (next_client p)))
        end
  end.

(** [release_connection]: [client] is [None] for Python's [None];
    [connected] is [client.connected], [now] is [time.time()]. *)
Definition release_connection (client : option nat) (connected : bool) (now : Q)
    (p : FTPConnectionPool) : FTPConnectionPool :=
  match client with
  | Some c =>
      if connected then
        mkPool (max_connections p) (idle_timeout p) ((c, now) :: pool p)
          (active_connections p - 1) (total_connections_created p)
          (total_connections_reused p) (total_connections_closed p)
          (connection_failures p) (next_client p)
      else
        mkPool (max_connections p) (idle_timeout p) (pool p)
          (Z.max 0 (active_connections p - 1)) (total_connections_created p)
          (total_connections_reused p) (total_connections_closed p)
          (connection_failures p) (next_client p)
  | None =>
      mkPool (max_connections p) (idle_timeout p) (pool p)
        (Z.max 0 (active_connections p - 1)) (total_connections_created p)
        (total_connections_reused p) (total_connections_closed p)
        (connection_failures p) (next_client p)
  end.

(** The sessions [_validate_connections] keeps. *)
Definition still_valid (current_time : Q) (timeout : Q) (alive : nat -> bool)
    (entry : nat * Q) : bool :=
  let '(client, last_used_time) := entry in
  Qle_bool (current_time - last_used_time) timeout && alive client.

(** [_validate_connections] *)
Definition _validate_connections (now : Q) (alive : nat -> bool)
    (p : FTPConnectionPool) : FTPConnectionPool :=
  let valid_connections := filter (fun e => still_valid now (idle_timeout p) alive e = true) (pool p) in
  mkPool (max_connections p) (idle_timeout p) valid_connections
    (active_connections p) (total_connections_created p)
    (total_connections_reused p)
    (total_connections_closed p
     + Z.of_nat (length (pool p)) - Z.of_nat (length valid_connections))
    (connection_failures p) (next_client p).

(** *** The pool with its borrowers

    [held] is the set of sessions handed out and not yet given back. *)
Record system : Type := mkSystem {
  the_pool : FTPConnectionPool;
  held : gset nat
}.

Inductive op : Type :=
  | Checkout (alive : nat -> bool) (failure : option exn)
  | Release (client : nat) (connected : bool) (now : Q)
  | Validate (now : Q) (alive : nat -> bool).

(** One call.  A borrower releases only a session it holds: another
    release is not a step. *)
Definition step (o : op) (s : system) : option system :=
  match o with
  | Checkout alive failure =>
      match get_connection alive failure (the_pool s) with
      | (Ok (Some client), p) => Some (mkSystem p ({[client]} ∪ held s))
      | (_, p) => Some (mkSystem p (held s))
      end
  | Release client connected now =>
      if bool_decide (client ∈ held s) then
        Some (mkSystem (release_connection (Some client) connected now (the_pool s))
                (held s ∖ {[client]}))
      else None
  | Validate now alive =>
      Some (mkSystem (_validate_connections now alive (the_pool s)) (held s))
  end.

Fixpoint run (ops : list op) (s : system) : option system :=
  match ops with
  | [] => Some s
  | o :: rest =>
      match step o s with
      | Some s' => run rest s'
      | None => None
      end
  end.

Definition start (max_connections : Z) (idle_timeout : Q) : system :=
  mkSystem (init max_connections idle_timeout) ∅.

Definition idle (s : system) : list nat := map fst (pool (the_pool s)).

(** What holds of the pool and its borrowers between calls. *)
Record invariant (s : system) : Prop := mkInvariant {
  count_held : active_connections (the_pool s) = Z.of_nat (size (held s));
  bounded :
    Z.of_nat (length (idle s)) + Z.of_nat (size (held s))
    <= max_connections (the_pool s);
  idle_once : NoDup (idle s);
  exclusive : forall c, c ∈ idle s -> c ∉ held s;
  idle_known : forall c, c ∈ idle s -> (c < next_client (the_pool s))%nat;
  held_known : forall c, c ∈ held s -> (c < next_client (the_pool s))%nat
}.

End ConnectionPool.

(** ** client/advanced_client.py: FTPClientPool *)

Module ClientPool.

(** What [_create_client] does: a session, [None] after a caught
    [ConnectionError] or [AuthenticationError], or another exception.  The
    pool is modelled for each of them; which one the method of the source
    yields is settled with [Session._create_client] below. *)
Inductive creation : Type :=
  | Created
  | NoClient
  | Crashed (e : exn).

(** [_pool] is the [Queue(maxsize=pool_size)], its head first;
    [_clients_in_use] is the dictionary keyed by [id(client)]. *)
Record FTPClientPool : Type := mkPool {
  _pool_size : Z;
  _pool : list nat;
  _clients_in_use : gset nat;
  next_client : nat
}.

(** [__init__]: [created] of the [pool_size] sessions could be made. *)
Definition init (pool_size : Z) (created : nat) : FTPClientPool :=
  mkPool pool_size (seq 0 created) ∅ created.

(** [Queue.full()]: a queue with [maxsize <= 0] is never full. *)
Definition full (p : FTPClientPool) : bool :=
  (0 <? _pool_size p) && (_pool_size p <=? Z.of_nat (length (_pool p))).

Definition _create_client (o : creation) (p : FTPClientPool)
    : result (option nat) * FTPClientPool :=
  match o with
  | Created =>
      (Ok (Some (next_client p)),
       mkPool (_pool_size p) (_pool p) (_clients_in_use p) (S (next_client p)))
  | NoClient => (Ok None, p)
  | Crashed e => (Raise e, p)
  end.

(** [get_client]: [alive] answers [_check_client] on the session taken from
    the queue; [first] is the creation inside the [try], [second] the one
    in the handler. *)
Definition get_client (alive : bool) (first second : creation)
    (p : FTPClientPool) : result nat * FTPClientPool :=
  let '(attempt, p) :=
    match _pool p with
    | [] => (Raise QueueEmpty, p)
    | client :: rest =>
        let p := mkPool (_pool_size p) rest (_clients_in_use p) (next_client p) in
        if alive then (Ok (Some client), p) else _create_client first p
    end in
  let '(client, p) :=
    match attempt with
    | Ok client => (Ok client, p)
    | Raise _ => _create_client second p
    end in
  match client with
  | Ok (Some c) =>
      (Ok c, mkPool (_pool_size p) (_pool p) ({[c]} ∪ _clients_in_use p)
               (next_client p))
  | Ok None => (Raise ConnectionError, p)
  | Raise e => (Raise e, p)
  end.

(** [release_client] *)
Definition release_client (client : option nat) (alive : bool)
    (p : FTPClientPool) : FTPClientPool :=
  match client with
  | None => p
  | Some c =>
      if bool_decide (c ∈ _clients_in_use p) then
        let p := mkPool (_pool_size p) (_pool p) (_clients_in_use p ∖ {[c]})
                   (next_client p) in
        if alive && negb (full p) then
          mkPool (_pool_size p) (_pool p ++ [c]) (_clients_in_use p) (next_client p)
        else p
      else p
  end.

Inductive op : Type :=
  | Get (alive : bool) (first second : creation)
  | Release (client : option nat) (alive : bool).

Definition step (o : op) (p : FTPClientPool) : FTPClientPool :=
  match o with
  | Get alive first second => snd (get_client alive first second p)
  | Release client alive => release_client client alive p
  end.

Definition run (ops : list op) (p : FTPClientPool) : FTPClientPool :=
  fold_left (fun p o => step o p) ops p.

(** No [get_client] is made while [pool_size] sessions are out: the
    situation of the queue manager, whose workers are as many as the pool
    is large and hold one session each. *)
Fixpoint callers_bounded (ops : list op) (p : FTPClientPool) : Prop :=
  match ops with
  | [] => True
  | o :: rest =>
      match o with
      | Get _ _ _ => Z.of_nat (size (_clients_in_use p)) < _pool_size p
      | Release _ _ => True
      end
      /\ callers_bounded rest (step o p)
  end.

(** What holds of the pool between calls. *)
Record invariant (p : FTPClientPool) : Prop := mkInvariant {
  idle_once : NoDup (_pool p);
  exclusive : forall c, c ∈ _pool p -> c ∉ _clients_in_use p;
  idle_known : forall c, c ∈ _pool p -> (c < next_client p)%nat;
  used_known : forall c, c ∈ _clients_in_use p -> (c < next_client p)%nat;
  capacity : 0 < _pool_size p -> Z.of_nat (length (_pool p)) <= _pool_size p
}.

(** Idle and busy sessions together are at most [pool_size]. *)
Definition within (p : FTPClientPool) : Prop :=
  Z.of_nat (length (_pool p)) + Z.of_nat (size (_clients_in_use p)) <= _pool_size p.

End ClientPool.

(** ** client/transfer_queue.py

    A [datetime] is its number of microseconds, an integer.  A task object
    is shared by the queue, the dictionaries and the worker that runs it:
    the objects live in a store keyed by task id, and the queue and the
    dictionaries hold ids.  A dictionary is the list of its keys in
    insertion order.  The arguments of the operation are left out of the
    task record, and so are the callbacks: they are taken not to touch the
    task or the queue, and their calls are not recorded.  A callback is
    called at the end of its method, when the task is already marked, so
    the task is the same whether the callback returns or raises; what it
    raises matters to the worker that called the method, and is an input
    of [worker_end]. *)

Module Queue.

Inductive TaskPriority : Type := LOW | NORMAL | HIGH | URGENT.

(** [priority.value] *)
Definition priority_value (p : TaskPriority) : Z :=
  match p with LOW => 0 | NORMAL => 1 | HIGH => 2 | URGENT => 3 end.

Inductive TaskStatus : Type :=
  | PENDING | RUNNING | COMPLETED | FAILED | CANCELED | PAUSED | RETRYING.

Inductive TaskType : Type :=
  | UPLOAD | DOWNLOAD | DELETE | RENAME | MKDIR | RMDIR | LIST.

Definition status_eqb (a b : TaskStatus) : bool :=
  match a, b with
  | PENDING, PENDING | RUNNING, RUNNING | COMPLETED, COMPLETED
  | FAILED, FAILED | CANCELED, CANCELED | PAUSED, PAUSED
  | RETRYING, RETRYING => true
  | _, _ => false
  end.

Record TransferTask : Type := mkTask {
  id : string;
  type : TaskType;
  priority : TaskPriority;
  status : TaskStatus;
  created_time : Z;
  start_time : option Z;
  end_time : option Z;
  progress : Q;
  error : option exn;
  result_ : option string;
  retry_count : Z;
  max_retries : Z;
  retry_delay : Z
}.

(** The task as the constructor and [__post_init__] leave it. *)
Definition new_task (id : string) (type : TaskType) (priority : TaskPriority)
    (now : Z) (max_retries retry_delay : Z) : TransferTask :=
  mkTask id type priority PENDING now None None 0 None None 0
    max_retries retry_delay.

(** [min(a, b)] on floats: [b] when [b < a], else [a]. *)
Definition min_ (a b : Q) : Q := if Qle_bool a b then a else b.

Section Float.

(** Rounding of an exact result to a float.  [current / total] on integers
    gives the float nearest to the quotient, and the product by 100 is
    rounded again.  (A quotient beyond the floats raises [OverflowError]
    before the assignment and leaves the task as it was; that case is left
    out.) *)
Variable round : Q -> Q.

(** [update_progress] *)
Definition update_progress (current total : Z) (t : TransferTask) : TransferTask :=
  let progress :=
    if 0 <? total then
      min_ 100 (round (round (inject_Z current / inject_Z total) * 100))
    else 0%Q in
  mkTask (id t) (type t) (priority t) (status t) (created_time t)
    (start_time t) (end_time t) progress (error t) (result_ t)
    (retry_count t) (max_retries t) (retry_delay t).

(** [mark_running] *)
Definition mark_running (now : Z) (t : TransferTask) : TransferTask :=
  mkTask (id t) (type t) (priority t) RUNNING (created_time t)
    (Some now) (end_time t) (progress t) (error t) (result_ t)
    (retry_count t) (max_retries t) (retry_delay t).

(** [mark_completed] *)
Definition mark_completed (now : Z) (result : option string) (t : TransferTask)
    : TransferTask :=
  mkTask (id t) (type t) (priority t) COMPLETED (created_time t)
    (start_time t) (Some now) 100 (error t) result
    (retry_count t) (max_retries t) (retry_delay t).

(** [mark_failed] *)
Definition mark_failed (now : Z) (error : option exn) (t : TransferTask)
    : TransferTask :=
  mkTask (id t) (type t) (priority t) FAILED (created_time t)
    (start_time t) (Some now) (progress t) error (result_ t)
    (retry_count t) (max_retries t) (retry_delay t).

(** [mark_canceled] *)
Definition mark_canceled (now : Z) (t : TransferTask) : TransferTask :=
  mkTask (id t) (type t) (priority t) CANCELED (created_time t)
    (start_time t) (Some now) (progress t) (error t) (result_ t)
    (retry_count t) (max_retries t) (retry_delay t).

(** [mark_paused] *)
Definition mark_paused (t : TransferTask) : TransferTask :=
  mkTask (id t) (type t) (priority t) PAUSED (created_time t)
    (start_time t) (end_time t) (progress t) (error t) (result_ t)
    (retry_count t) (max_retries t) (retry_delay t).

(** [mark_retrying] *)
Definition mark_retrying (t : TransferTask) : TransferTask :=
  mkTask (id t) (type t) (priority t) RETRYING (created_time t)
    (start_time t) (end_time t) (progress t) (error t) (result_ t)
    (retry_count t + 1) (max_retries t) (retry_delay t).

(** [can_retry] *)
Definition can_retry (t : TransferTask) : bool :=
  status_eqb (status t) FAILED && (retry_count t <? max_retries t).

(** The calls a task receives in its life. *)
Inductive call : Type :=
  | UpdateProgress (current total : Z)
  | MarkRunning (now : Z)
  | MarkCompleted (now : Z) (result : option string)
  | MarkFailed (now : Z) (error : option exn)
  | MarkCanceled (now : Z).

Definition apply_call (c : call) (t : TransferTask) : TransferTask :=
  match c with
  | UpdateProgress current total => update_progress current total t
  | MarkRunning now => mark_running now t
  | MarkCompleted now result => mark_completed now result t
  | MarkFailed now error => mark_failed now error t
  | MarkCanceled now => mark_canceled now t
  end.

Definition apply_calls (calls : list call) (t : TransferTask) : TransferTask :=
  fold_left (fun t c => apply_call c t) calls t.

(** The byte counts of every progress report are non-negative. *)
Definition counts_nonneg (c : call) : Prop :=
  match c with
  | UpdateProgress current total => 0 <= current /\ 0 <= total
  | _ => True
  end.

(** No progress report reaches a task that is COMPLETED. *)
Fixpoint reports_before_completion (calls : list call) (t : TransferTask) : Prop :=
  match calls with
  | [] => True
  | c :: rest =>
      match c with
      | UpdateProgress _ _ => status t <> COMPLETED
      | _ => True
      end
      /\ reports_before_completion rest (apply_call c t)
  end.

(** *** The priority queue

    An entry is the tuple [(-task.priority.value, task.created_time, task)],
    the task by its id.  Entries are compared as Python compares tuples;
    two different tasks are not ordered, so comparing entries that agree on
    priority and creation time raises [TypeError].  Here
    [queue.PriorityQueue] is taken by its contract: [put] adds an entry,
    [get] removes the lowest one, comparing every entry with the lowest so
    far.  The heap that the library keeps, with the comparisons it makes
    and what it leaves behind when one of them raises, is [Heap] below; on
    entries whose keys differ the two return the same entries. *)
Definition entry : Type := Z * Z * string.

Definition entry_of (t : TransferTask) : entry :=
  (- priority_value (priority t), created_time t, id t).

(** [a < b] on entries *)
Definition entry_lt (a b : entry) : result bool :=
  let '(p1, t1, i1) := a in
  let '(p2, t2, i2) := b in
  if negb (p1 =? p2) then Ok (p1 <? p2)
  else if negb (t1 =? t2) then Ok (t1 <? t2)
  else if String.eqb i1 i2 then Ok false
  else Raise TypeError.

Fixpoint lowest (best : entry) (entries : list entry) : result entry :=
  match entries with
  | [] => Ok best
  | e :: rest =>
      (let* less := entry_lt e best in
       lowest (if less then e else best) rest)%result
  end.

Definition entry_eqb (a b : entry) : bool :=
  let '(p1, t1, i1) := a in
  let '(p2, t2, i2) := b in
  (p1 =? p2) && (t1 =? t2) && String.eqb i1 i2.

Fixpoint remove_entry (x : entry) (entries : list entry) : list entry :=
  match entries with
  | [] => []
  | e :: rest => if entry_eqb x e then rest else e :: remove_entry x rest
  end.

Definition put (e : entry) (entries : list entry) : list entry := entries ++ [e].

(** [get(timeout=...)]: [Ok None] is [queue.Empty]. *)
Definition get_entry (entries : list entry)
    : result (option (entry * list entry)) :=
  match entries with
  | [] => Ok None
  | e :: rest =>
      (let* best := lowest e rest in
       Ok (Some (best, remove_entry best entries)))%result
  end.

(** *** TransferQueue *)

Record TransferQueue : Type := mkQueue {
  tasks : gmap string TransferTask;     (* the task objects *)
  task_queue : list entry;
  active_tasks : list string;
  completed_tasks : list string;
  failed_tasks : list string;
  _task_id_counter : Z
}.

Definition empty_queue : TransferQueue := mkQueue ∅ [] [] [] [] 0.

(** [d[key] = value] and [d.pop(key, None)] on the keys of a dictionary *)
Definition dict_set (key : string) (d : list string) : list string :=
  if bool_decide (key ∈ d) then d else d ++ [key].

Definition dict_pop (key : string) (d : list string) : list string :=
  List.filter (fun k => negb (String.eqb k key)) d.

Definition set_task (t : TransferTask) (q : TransferQueue) : TransferQueue :=
  mkQueue (<[id t := t]> (tasks q)) (task_queue q) (active_tasks q)
    (completed_tasks q) (failed_tasks q) (_task_id_counter q).

(** [add_task]: [now] is the clock read by [__post_init__]; [max_retries]
    and [retry_delay] are what [kwargs.get] finds (3 and 5 by default). *)
Definition add_task (task_type : TaskType) (priority : TaskPriority) (now : Z)
    (max_retries retry_delay : Z) (q : TransferQueue) : string * TransferQueue :=
  let counter := _task_id_counter q + 1 in
  let task_id := "task-" ++ Py.str counter in
  let task := new_task task_id task_type priority now max_retries retry_delay in
  (task_id,
   mkQueue (<[task_id := task]> (tasks q)) (put (entry_of task) (task_queue q))
     (active_tasks q) (completed_tasks q) (failed_tasks q) counter).

(** What a worker does with the entry it gets. *)
Inductive worker_event : Type :=
  | Idle                      (* [queue.Empty]: next turn *)
  | Skipped (task_id : string)  (* the task was CANCELED: dropped *)
  | Started (task_id : string). (* marked RUNNING, handed to its handler *)

(** [_worker], from the [get] to the call of the handler.  An exception of
    [get] ends the turn in the outer handler. *)
Definition worker_begin (now : Z) (q : TransferQueue)
    : result worker_event * TransferQueue :=
  match get_entry (task_queue q) with
  | Raise e => (Raise e, q)
  | Ok None => (Ok Idle, q)
  | Ok (Some ((_, _, task_id), rest)) =>
      let q := mkQueue (tasks q) rest (active_tasks q) (completed_tasks q)
                 (failed_tasks q) (_task_id_counter q) in
      match tasks q !! task_id with
      | None => (Raise OSError, q)        (* no such object: not reached *)
      | Some task =>
          if status_eqb (status task) CANCELED then (Ok (Skipped task_id), q)
          else
            let q := set_task (mark_running now task) q in
            (Ok (Started task_id),
             mkQueue (tasks q) (task_queue q) (dict_set task_id (active_tasks q))
               (completed_tasks q) (failed_tasks q) (_task_id_counter q))
      end
  end.

(** What the handler did: the progress it reported through the session's
    callback, then its result or its exception; and what the callbacks of
    the task do when [mark_completed] and [mark_failed] call them at their
    end: [None] where there is no callback or it returns, the exception
    where it raises. *)
Record handler_outcome : Type := mkOutcome {
  reports : list (Z * Z);
  finished : result (option string);
  on_complete : option exn;
  on_error : option exn
}.

(** [_worker], from the handler's return to the end of the turn.  An
    exception of [on_complete] leaves [mark_completed] inside the [try] and
    is handled like one of the handler, on the task already marked.  An
    exception of [on_error] leaves [mark_failed] inside the handler: the
    task is not filed under [failed_tasks] and stays in [active_tasks], and
    the outer handler of the loop logs the exception. *)
Definition worker_end (task_id : string) (now : Z) (o : handler_outcome)
    (q : TransferQueue) : TransferQueue :=
  match tasks q !! task_id with
  | None => q
  | Some task =>
      let task :=
        fold_left (fun t r => update_progress (fst r) (snd r) t) (reports o) task in
      let failed (e : exn) (task : TransferTask) : TransferQueue :=
        let q := set_task (mark_failed now (Some e) task) q in
        match on_error o with
        | Some _ => q
        | None =>
            mkQueue (tasks q) (task_queue q) (dict_pop task_id (active_tasks q))
              (completed_tasks q) (dict_set task_id (failed_tasks q))
              (_task_id_counter q)
        end in
      match finished o with
      | Ok result =>
          let task := mark_completed now result task in
          match on_complete o with
          | Some e => failed e task
          | None =>
              let q := set_task task q in
              mkQueue (tasks q) (task_queue q) (dict_pop task_id (active_tasks q))
                (dict_set task_id (completed_tasks q)) (failed_tasks q)
                (_task_id_counter q)
          end
      | Raise e => failed e task
      end
  end.

(** [cancel_task] *)
Definition cancel_task (task_id : string) (now : Z) (q : TransferQueue)
    : bool * TransferQueue :=
  if bool_decide (task_id ∈ active_tasks q) then (false, q)
  else if bool_decide (task_id ∈ failed_tasks q) then
    match tasks q !! task_id with
    | None => (true, q)
    | Some task =>
        let q := set_task (mark_canceled now task) q in
        (true,
         mkQueue (tasks q) (task_queue q) (active_tasks q)
           (dict_set task_id (completed_tasks q))
           (dict_pop task_id (failed_tasks q)) (_task_id_counter q))
    end
  else if bool_decide (task_id ∈ completed_tasks q) then (false, q)
  else (true, q).

(** [_retry_worker], first half of a round: the failed tasks that can be
    retried are taken out of [failed_tasks]. *)
Definition retryable (q : TransferQueue) (task_id : string) : bool :=
  match tasks q !! task_id with
  | Some task => can_retry task
  | None => false
  end.

Definition retry_collect (q : TransferQueue) : list string * TransferQueue :=
  let retry_tasks := List.filter (retryable q) (failed_tasks q) in
  (retry_tasks,
   mkQueue (tasks q) (task_queue q) (active_tasks q) (completed_tasks q)
     (List.filter (fun k => negb (retryable q k)) (failed_tasks q))
     (_task_id_counter q)).

(** [_retry_worker], second half, for one collected task: [mark_retrying],
    [time.sleep(task.retry_delay)], [put].  The seconds slept are returned. *)
Definition retry_one (task_id : string) (q : TransferQueue) : Z * TransferQueue :=
  match tasks q !! task_id with
  | None => (0, q)
  | Some task =>
      let task := mark_retrying task in
      let q := set_task task q in
      (retry_delay task,
       mkQueue (tasks q) (put (entry_of task) (task_queue q)) (active_tasks q)
         (completed_tasks q) (failed_tasks q) (_task_id_counter q))
  end.

(** One round of [_retry_worker] after its five seconds of sleep: the
    delays slept, in order, and the queue. *)
Definition retry_round (q : TransferQueue) : list Z * TransferQueue :=
  let '(retry_tasks, q) := retry_collect q in
  fold_left
    (fun (acc : list Z * TransferQueue) task_id =>
       let '(slept, q) := retry_one task_id (snd acc) in
       ((fst acc ++ [slept])%list, q))
    retry_tasks ([], q).

End Float.

(** The delay the specification gives for a retry:
    [retry_delay * backoff ^ retry_count]. *)
Definition spec_backoff_delay (backoff : Z) (t : TransferTask) : Z :=
  retry_delay t * backoff ^ retry_count t.

(** Vocabulary for the order of dispatch: [a] goes before [b] when its
    priority is higher, or the priorities are equal and it was created
    earlier. *)
Definition goes_before (a b : TransferTask) : Prop :=
  priority_value (priority a) > priority_value (priority b)
  \/ (priority_value (priority a) = priority_value (priority b)
      /\ created_time a < created_time b).

(** The key of an entry, and the order of keys. *)
Definition key (e : entry) : Z * Z := fst e.

Definition key_lt (a b : entry) : Prop :=
  fst (key a) < fst (key b)
  \/ (fst (key a) = fst (key b) /\ snd (key a) < snd (key b)).

(** No two entries agree on priority and creation time. *)
Definition keys_differ (entries : list entry) : Prop := NoDup (map key entries).

(** What every call keeps. *)
Definition in_range (t : TransferTask) : Prop := (0 <= progress t <= 100)%Q.

Definition complete_at_100 (t : TransferTask) : Prop :=
  status t = COMPLETED -> progress t = 100%Q.

(** The queue in which "task-1", submitted at HIGH priority with a delay of
    5 seconds, has failed, been retried once, and failed again. *)
Definition failed_twice : TransferQueue :=
  let fail := mkOutcome [] (Raise TimeoutError) None None in
  let q := snd (add_task DOWNLOAD HIGH 0 3 5 empty_queue) in
  let q := snd (worker_begin 1 q) in
  let q := worker_end (fun x => x) "task-1" 2 fail q in
  let q := snd (retry_round q) in
  let q := snd (worker_begin 3 q) in
  worker_end (fun x => x) "task-1" 4 fail q.

End Queue.

(** ** The heap under the task queue

    [queue.PriorityQueue] keeps its entries in a list, which [put] and
    [get] hand to [heappush] and [heappop] of [heapq].  [Queue] above takes
    the two by their contract, which is what they do as long as the entries
    they compare can be ordered.  Here is the heap itself, as CPython's
    [_heapq] runs it, to follow entries that agree on priority and
    creation time: which entries are compared, and what is left of the
    list when a comparison raises. *)

Module Heap.

Import Queue.

(** [arr[i], arr[j] = arr[j], arr[i]] *)
Definition swap (i j : nat) (heap : list entry) : list entry :=
  match heap !! i, heap !! j with
  | Some a, Some b => <[i := b]> (<[j := a]> heap)
  | _, _ => heap
  end.

(** [siftdown(heap, startpos, pos)]: the entry at [pos] changes place with
    its parent as long as it is less than the parent; at most [fuel]
    times, and [pos] times are enough. *)
Fixpoint siftdown (fuel : nat) (startpos pos : nat) (heap : list entry)
    : result unit * list entry :=
  match fuel with
  | O => (Ok tt, heap)
  | S fuel =>
      if (pos <=? startpos)%nat then (Ok tt, heap)
      else
        let parentpos := ((pos - 1) / 2)%nat in
        match heap !! pos, heap !! parentpos with
        | Some newitem, Some parent =>
            match entry_lt newitem parent with
            | Raise e => (Raise e, heap)
            | Ok true => siftdown fuel startpos parentpos (swap parentpos pos heap)
            | Ok false => (Ok tt, heap)
            end
        | _, _ => (Raise IndexError, heap)
        end
  end.

(** The loop of [siftup(heap, pos)]: the entry at [pos] changes place with
    its smaller child down to a leaf.  The result is the leaf reached. *)
Fixpoint to_leaf (fuel : nat) (pos : nat) (heap : list entry)
    : result nat * list entry :=
  match fuel with
  | O => (Ok pos, heap)
  | S fuel =>
      let endpos := length heap in
      if (pos <? endpos / 2)%nat then
        let childpos := (2 * pos + 1)%nat in
        let smaller : result nat :=
          if (childpos + 1 <? endpos)%nat then
            match heap !! childpos, heap !! (childpos + 1)%nat with
            | Some a, Some b =>
                (let* less := entry_lt a b in
                 Ok (if less then childpos else (childpos + 1)%nat))%result
            | _, _ => Raise IndexError
            end
          else Ok childpos in
        match smaller with
        | Raise e => (Raise e, heap)
        | Ok childpos => to_leaf fuel childpos (swap childpos pos heap)
        end
      else (Ok pos, heap)
  end.

(** [siftup(heap, pos)]: down to a leaf, then [siftdown] from there. *)
Definition siftup (pos : nat) (heap : list entry) : result unit * list entry :=
  match to_leaf (length heap) pos heap with
  | (Raise e, heap) => (Raise e, heap)
  | (Ok leaf, heap) => siftdown leaf pos leaf heap
  end.

(** [heappush(heap, item)]: the item is appended before it is sifted, and
    stays in the list when a comparison raises. *)
Definition heappush (item : entry) (heap : list entry) : result unit * list entry :=
  siftdown (length heap) 0 (length heap) (heap ++ [item]).

(** [heappop(heap)]: the last entry takes the place of the first, which is
    returned after the sifting; when a comparison raises, the first entry
    is in the list no more and is not returned either. *)
Definition heappop (heap : list entry) : result entry * list entry :=
  match last heap with
  | None => (Raise IndexError, heap)
  | Some lastelt =>
      match take (length heap - 1) heap with
      | [] => (Ok lastelt, [])
      | returnitem :: rest =>
          match siftup 0 (lastelt :: rest) with
          | (Raise e, heap) => (Raise e, heap)
          | (Ok _, heap) => (Ok returnitem, heap)
          end
      end
  end.

(** [PriorityQueue.put(item)], for a queue without a bound. *)
Definition put (item : entry) (heap : list entry) : result unit * list entry :=
  heappush item heap.

(** [PriorityQueue.get(timeout=...)]: [Ok None] is [queue.Empty]. *)
Definition get (heap : list entry) : result (option entry) * list entry :=
  match heap with
  | [] => (Ok None, [])
  | _ :: _ =>
      match heappop heap with
      | (Raise e, heap) => (Raise e, heap)
      | (Ok item, heap) => (Ok (Some item), heap)
      end
  end.

Definition set_task_queue (heap : list entry) (q : TransferQueue) : TransferQueue :=
  mkQueue (tasks q) heap (active_tasks q) (completed_tasks q) (failed_tasks q)
    (_task_id_counter q).

(** [add_task] on this heap.  What [put] raises leaves [add_task], after
    the counter has gone up and the entry of the new task is in the
    list. *)
Definition add_task (task_type : TaskType) (priority : TaskPriority) (now : Z)
    (max_retries retry_delay : Z) (q : TransferQueue)
    : result string * TransferQueue :=
  let counter := _task_id_counter q + 1 in
  let task_id := "task-" ++ Py.str counter in
  let task := new_task task_id task_type priority now max_retries retry_delay in
  let '(outcome, heap) := put (entry_of task) (task_queue q) in
  let q :=
    mkQueue (<[task_id := task]> (tasks q)) heap
      (active_tasks q) (completed_tasks q) (failed_tasks q) counter in
  match outcome with
  | Ok _ => (Ok task_id, q)
  | Raise e => (Raise e, q)
  end.

(** [_worker] on this heap, from the [get] to the call of the handler.
    What [get] raises ends the turn in the outer handler of the loop,
    which logs it. *)
Definition worker_begin (now : Z) (q : TransferQueue)
    : result worker_event * TransferQueue :=
  match get (task_queue q) with
  | (Raise e, heap) => (Raise e, set_task_queue heap q)
  | (Ok None, _) => (Ok Idle, q)
  | (Ok (Some (_, _, task_id)), heap) =>
      let q := set_task_queue heap q in
      match tasks q !! task_id with
      | None => (Raise OSError, q)        (* no such object: not reached *)
      | Some task =>
          if status_eqb (status task) CANCELED then (Ok (Skipped task_id), q)
          else
            let q := set_task (mark_running now task) q in
            (Ok (Started task_id),
             mkQueue (tasks q) (task_queue q) (dict_set task_id (active_tasks q))
               (completed_tasks q) (failed_tasks q) (_task_id_counter q))
      end
  end.

(** [_retry_worker] on this heap, for one collected task: [mark_retrying],
    [time.sleep(task.retry_delay)], which raises [ValueError] on a negative
    number, and [put].  The seconds slept are returned. *)
Definition retry_one (task_id : string) (q : TransferQueue)
    : result Z * TransferQueue :=
  match tasks q !! task_id with
  | None => (Ok 0, q)
  | Some task =>
      let task := mark_retrying task in
      let q := set_task task q in
      if retry_delay task <? 0 then (Raise ValueError, q)
      else
        let '(outcome, heap) := put (entry_of task) (task_queue q) in
        let q := set_task_queue heap q in
        match outcome with
        | Ok _ => (Ok (retry_delay task), q)
        | Raise e => (Raise e, q)
        end
  end.

(** Vocabulary: the place of the parent of an entry in the list, and the
    lists that are heaps: no entry lies below its parent. *)
Definition parent (i : nat) : nat := ((i - 1) / 2)%nat.

Definition heap_ordered (heap : list entry) : Prop :=
  forall i a b,
    (0 < i)%nat -> heap !! i = Some a -> heap !! parent i = Some b -> ~ key_lt a b.

(** A heap but for the entry at [pos], which may lie below its parent and
    above its children, while its children do not lie below its parent:
    what the loop of [siftup] goes through. *)
Definition heap_but (heap : list entry) (pos : nat) : Prop :=
  (forall i a b,
      (0 < i)%nat -> i <> pos -> parent i <> pos ->
      heap !! i = Some a -> heap !! parent i = Some b -> ~ key_lt a b)
  /\ (forall c a b,
         (0 < pos)%nat -> (0 < c)%nat -> parent c = pos ->
         heap !! c = Some a -> heap !! parent pos = Some b -> ~ key_lt a b).

(** The same with the children of [pos] in order: what [siftdown] is
    given. *)
Definition heap_but_up (heap : list entry) (pos : nat) : Prop :=
  (forall i a b,
      (0 < i)%nat -> i <> pos ->
      heap !! i = Some a -> heap !! parent i = Some b -> ~ key_lt a b)
  /\ (forall c a b,
         (0 < pos)%nat -> (0 < c)%nat -> parent c = pos ->
         heap !! c = Some a -> heap !! parent pos = Some b -> ~ key_lt a b).

End Heap.

(** ** common/utils.py: permission strings *)

Module Utils.

(** [s[i] == c] for an index inside [s] *)
Definition char_is (s : string) (i : nat) (c : ascii) : bool :=
  match String.get i s with
  | Some x => Ascii.eqb x c
  | None => false
  end.

(** One turn of the loop of [parse_permissions]: the digit of the three
    characters from [i] on. *)
Definition triad (permission_str : string) (i : nat) : Z :=
  (if char_is permission_str i "r" then 4 else 0)
  + (if char_is permission_str (i + 1) "w" then 2 else 0)
  + (if char_is permission_str (i + 2) "x" then 1 else 0).

(** [parse_permissions]: [None] is Python's [None]. *)
Definition parse_permissions (permission_str : string) : option Z :=
  if String.eqb permission_str "" || negb (String.length permission_str =? 9)%nat
  then None
  else
    let modes := map (triad permission_str) [0; 3; 6]%nat in
    Some (nth 0 modes 0 * 100 + nth 1 modes 0 * 10 + nth 2 modes 0).

(** The three characters [permissions_to_str] adds for one digit. *)
Definition triad_str (m : Z) : string :=
  (if Z.land m 4 =? 0 then "-" else "r")
  ++ (if Z.land m 2 =? 0 then "-" else "w")
  ++ (if Z.land m 1 =? 0 then "-" else "x").

(** [permissions_to_str] *)
Definition permissions_to_str (mode : Z) : string :=
  let owner := (mode / 100) mod 10 in
  let group := (mode / 10) mod 10 in
  let other := mode mod 10 in
  fold_left (fun result m => result ++ triad_str m) [owner; group; other] "".

(** A permission string as [ls] prints it without the special bits: in
    each group of three, [r] or [-], then [w] or [-], then [x] or [-]. *)
Definition plain_triad (s : string) (i : nat) : bool :=
  (char_is s i "r" || char_is s i "-")
  && (char_is s (i + 1) "w" || char_is s (i + 1) "-")
  && (char_is s (i + 2) "x" || char_is s (i + 2) "-").

Definition plain_permissions (s : string) : bool :=
  (String.length s =? 9)%nat
  && plain_triad s 0 && plain_triad s 3 && plain_triad s 6.

(** A mode whose three decimal digits are permission digits. *)
Definition permission_digits (mode : Z) : Prop :=
  exists owner group other,
    0 <= owner <= 7 /\ 0 <= group <= 7 /\ 0 <= other <= 7
    /\ mode = owner * 100 + group * 10 + other.

End Utils.

(** ** Regular expressions of the listing parser and the directory commands

    The fragment: character classes taken once, a fixed number of times,
    or with a greedy [*] or [+]; capturing groups that do not nest; [$].
    Matching is by backtracking: a greedy quantifier takes the longest run
    first and gives characters back one at a time. *)

Module Rx.

Inductive item : Type :=
  | Open                              (* ( *)
  | Close                             (* ) *)
  | One (cls : ascii -> bool)         (* a class *)
  | Times (n : nat) (cls : ascii -> bool)   (* class{n} *)
  | Many (cls : ascii -> bool)        (* class+ *)
  | Star (cls : ascii -> bool)        (* class* *)
  | Eol.                              (* $ *)

(** [\s]: the white space of [str.isspace] *)
Definition space : ascii -> bool := Py.isspace.

(** [\d] *)
Definition digit : ascii -> bool := Py.isdigit.

(** [\w] on code points below 256: the alphanumeric characters and the
    underscore. *)
Definition word (c : ascii) : bool :=
  let n := Py.code c in
  ((48 <=? n) && (n <=? 57) || (65 <=? n) && (n <=? 90) || (n =? 95)
   || (97 <=? n) && (n <=? 122) || (n =? 170) || (178 <=? n) && (n <=? 179)
   || (n =? 181) || (185 <=? n) && (n <=? 186) || (188 <=? n) && (n <=? 190)
   || (192 <=? n) && (n <=? 214) || (216 <=? n) && (n <=? 246)
   || (248 <=? n) && (n <=? 255))%N.

(** [.]: any character but the line feed *)
Definition dot (c : ascii) : bool := negb (Ascii.eqb c (ascii_of_nat 10)).

(** [[...]]: one of the characters of [set] *)
Definition one_of (set : string) (c : ascii) : bool := Py.has_char c set.

(** Length of the longest run of the class at the head of [s]. *)
Fixpoint span (cls : ascii -> bool) (s : string) : nat :=
  match s with
  | String c r => if cls c then S (span cls r) else O
  | EmptyString => O
  end.

(** Match the pattern at the head of [s]; [start] is the input where the
    group that is open began.  The result lists the captured groups. *)
Fixpoint match_here (p : list item) (s start : string) : option (list string) :=
  match p with
  | [] => Some []
  | Open :: p' => match_here p' s s
  | Close :: p' =>
      cons (Py.take (String.length start - String.length s) start)
        <$> match_here p' s start
  | One cls :: p' =>
      match s with
      | String c s' => if cls c then match_here p' s' start else None
      | EmptyString => None
      end
  | Times n cls :: p' =>
      if (n <=? span cls s)%nat then match_here p' (Py.drop n s) start else None
  | Many cls :: p' =>
      Re.backtrack (fun k => match_here p' (Py.drop k s) start) (span cls s)
  | Star cls :: p' =>
      match Re.backtrack (fun k => match_here p' (Py.drop k s) start) (span cls s) with
      | Some r => Some r
      | None => match_here p' s start
      end
  | Eol :: p' =>
      if String.eqb s "" || String.eqb s (String (ascii_of_nat 10) "")
      then match_here p' s start else None
  end.

(** [pattern.match(s)] *)
Definition match_ (p : list item) (s : string) : option (list string) :=
  match_here p s s.

(** [re.search(pattern, s)]: the leftmost match *)
Fixpoint search (p : list item) (s : string) : option (list string) :=
  match match_ p s with
  | Some g => Some g
  | None =>
      match s with
      | String _ s' => search p s'
      | EmptyString => None
      end
  end.

(** Vocabulary for statements about matches: every character of [s] is in
    the class; [s] does not begin with a character of the class. *)
Fixpoint all (cls : ascii -> bool) (s : string) : bool :=
  match s with
  | String c r => cls c && all cls r
  | EmptyString => true
  end.

Definition head_not (cls : ascii -> bool) (s : string) : bool :=
  match s with
  | String c _ => negb (cls c)
  | EmptyString => true
  end.

(** A token: a non-empty run of the class. *)
Definition token (cls : ascii -> bool) (s : string) : Prop :=
  s <> "" /\ all cls s = true.

(** [match.group(k)], for [k >= 1] *)
Definition group (k : nat) (groups : list string) : string :=
  nth (k - 1) groups "".

(** The groups a pattern can still yield: what is left after the match of
    a prefix of a longer pattern. *)
Definition later (p : list item) (G : list string) : Prop :=
  exists s st, match_here p s st = Some G.

End Rx.

(** ** common/protocol.py: the directory listings *)

Module Listing.

Import Rx.
Local Open Scope result_scope.

(** [s.split(sep, 1)] *)
Fixpoint split1 (sep : ascii) (s : string) : list string :=
  match s with
  | EmptyString => [EmptyString]
  | String c r =>
      if Ascii.eqb c sep then [EmptyString; r]
      else match split1 sep r with
           | w :: ws => String c w :: ws
           | [] => [String c EmptyString]
           end
  end.

(** [a, b = l]: a list of another length is a [ValueError]. *)
Definition unpack2 (l : list string) : result (string * string) :=
  match l with
  | [a; b] => Ok (a, b)
  | _ => Raise ValueError
  end.

(** The loop over the facts of one MLSD line. *)
Fixpoint read_facts (parts : list string) (facts : gmap string string)
    : result (gmap string string) :=
  match parts with
  | [] => Ok facts
  | fact :: rest =>
      if String.eqb fact "" then read_facts rest facts
      else
        let* (key, value) := unpack2 (split1 "=" fact) in
        read_facts rest (<[Py.lower key := value]> facts)
  end.

(** The body of the [try] of [parse_mlsd_response], for one line. *)
Definition parse_mlsd_line (line : string) : result (gmap string string) :=
  let* (facts_part, name) := unpack2 (split1 " " (Py.strip line)) in
  let* facts := read_facts (Py.split ";" facts_part) ∅ in
  Ok (<["name" := name]> facts).

(** [parse_mlsd_response]: a line whose parsing raises is logged and left
    out. *)
Fixpoint parse_mlsd_response (response_list : list string)
    : list (gmap string string) :=
  match response_list with
  | [] => []
  | line :: rest =>
      if String.eqb (Py.strip line) "" then parse_mlsd_response rest
      else
        match parse_mlsd_line line with
        | Ok facts => facts :: parse_mlsd_response rest
        | Raise _ => parse_mlsd_response rest
        end
  end.

(** Vocabulary for statements about MLSD lines: the line a server writes
    for a list of facts and a name, each fact followed by a semicolon and
    the name after one blank. *)
Definition fact_text (kv : string * string) : string :=
  fst kv ++ "=" ++ snd kv.

Definition mlsd_line (facts : list (string * string)) (name : string) : string :=
  fold_right (fun kv rest => fact_text kv ++ ";" ++ rest) (" " ++ name) facts.

Fixpoint no_space (s : string) : bool :=
  match s with
  | String c r => negb (Py.isspace c) && no_space r
  | EmptyString => true
  end.

Definition key_ok (k : string) : bool :=
  no_space k && negb (Py.has_char ";" k) && negb (Py.has_char "=" k).

Definition value_ok (v : string) : bool :=
  no_space v && negb (Py.has_char ";" v).

Definition clean (facts : list (string * string)) : Prop :=
  Forall (fun kv => key_ok (fst kv) = true /\ value_ok (snd kv) = true) facts.

(** The dictionary of a list of facts: keys in lower case, a later fact
    replacing an earlier one of the same key. *)
Definition facts_of (facts : list (string * string)) : gmap string string :=
  fold_left (fun m kv => <[Py.lower (fst kv) := snd kv]> m) facts ∅.

(** A value of the dictionaries [parse_list_response] builds. *)
Inductive value : Type :=
  | Str (s : string)
  | Int (n : Z).

(** [[\w:]] *)
Definition time_char (c : ascii) : bool := word c || Ascii.eqb c ":".

(** [^([d-])([rwxst-]{9})\s+(\d+)\s+(\w+)\s+(\w+)\s+(\d+)\s+(\w+\s+\d+\s+[\w:]+)\s+(.+)$] *)
Definition unix_pattern : list item :=
  [Open; One (one_of "d-"); Close;
   Open; Times 9 (one_of "rwxst-"); Close; Many space;
   Open; Many digit; Close; Many space;
   Open; Many word; Close; Many space;
   Open; Many word; Close; Many space;
   Open; Many digit; Close; Many space;
   Open; Many word; Many space; Many digit; Many space;
         Many time_char; Close; Many space;
   Open; Many dot; Close; Eol].

(** The dictionary for a line that matched. *)
Definition unix_info (groups : list string) : result (gmap string value) :=
  let* links := int_ (group 3 groups) in
  let* size := int_ (group 6 groups) in
  Ok (<["name" := Str (group 8 groups)]>
      (<["date" := Str (group 7 groups)]>
       (<["size" := Int size]>
        (<["group" := Str (group 5 groups)]>
         (<["owner" := Str (group 4 groups)]>
          (<["links" := Int links]>
           (<["permissions" := Str (group 2 groups)]>
            (<["type" := Str (if String.eqb (group 1 groups) "d"
                              then "dir" else "file")]> ∅)))))))).

(** The dictionary for a line that did not match. *)
Definition unknown_info (line : string) : gmap string value :=
  <["type" := Str "unknown"]> (<["name" := Str (Py.strip line)]> ∅).

(** [parse_list_response] *)
Fixpoint parse_list_response (response_list : list string)
    : result (list (gmap string value)) :=
  match response_list with
  | [] => Ok []
  | line :: rest =>
      if String.eqb (Py.strip line) "" then parse_list_response rest
      else
        match match_ unix_pattern line with
        | Some groups =>
            let* file_info := unix_info groups in
            let* more := parse_list_response rest in
            Ok (file_info :: more)
        | None =>
            if negb (String.eqb (Py.strip line) "") then
              let* more := parse_list_response rest in
              Ok (unknown_info line :: more)
            else parse_list_response rest
        end
  end.

(** Vocabulary for statements about Unix listings: the line for a file,
    its columns separated by the gaps [g1] ... [g8], and its dictionary. *)
Definition unix_line (kind permissions : string) (links : Z) (owner grp : string)
    (size : Z) (month day time name : string)
    (g1 g2 g3 g4 g5 g6 g7 g8 : string) : string :=
  kind ++ permissions ++ g1 ++ Py.str links ++ g2 ++ owner ++ g3 ++ grp ++ g4
  ++ Py.str size ++ g5 ++ month ++ g6 ++ day ++ g7 ++ time ++ g8 ++ name.

Definition unix_record (kind permissions : string) (links : Z) (owner grp : string)
    (size : Z) (date name : string) : gmap string value :=
  <["name" := Str name]>
  (<["date" := Str date]>
   (<["size" := Int size]>
    (<["group" := Str grp]>
     (<["owner" := Str owner]>
      (<["links" := Int links]>
       (<["permissions" := Str permissions]>
        (<["type" := Str (if String.eqb kind "d" then "dir" else "file")]> ∅))))))).

(** A line that is not blank, and what every dictionary of a listing
    has: a name, a type that is one of three words, and no key [is_dir]. *)
Definition nonblank (line : string) : bool := negb (String.eqb (Py.strip line) "").

(** A run of digits longer than [int] converts. *)
Definition too_long (digits : string) : Prop :=
  Py.int_max_str_digits < Z.of_nat (String.length digits).

Definition entry_shape (r : gmap string value) : Prop :=
  r !! "is_dir" = None
  /\ (exists name, r !! "name" = Some (Str name))
  /\ (exists kind, r !! "type" = Some (Str kind)
                   /\ (kind = "dir" \/ kind = "file" \/ kind = "unknown")).

(** The pattern of [pwd] and [mkd]: a double quote, a group of characters
    that are not double quotes, as many as there are, and a double quote. *)
Definition quote : ascii := ascii_of_nat 34.

Definition quoted_pattern : list item :=
  [One (Ascii.eqb quote); Open; Star (fun c => negb (Ascii.eqb c quote)); Close;
   One (Ascii.eqb quote)].

End Listing.

(** ** client/ftp_client.py: connecting, logging in and the directory commands

    The session of [Client] with the rest of the state these methods use.
    [dials] says what each [socket.create_connection] to come does;
    [slept] records the arguments of [time.sleep].  The list
    [connection_errors] is kept by its length. *)

Module Session.

Import Protocol Client.

(** What [socket.create_connection] does, and for an accepted connection
    whether the TLS wrapping would succeed and what the new control socket
    will deliver. *)
Inductive dial : Type :=
  | Refused
  | Accepted (tls_ok : bool) (events : list recv_event).

Record FTP : Type := mkFTP {
  core : FTPClient;
  host : option string;
  enable_ssl : bool;
  data_socket : bool;                (* [self.data_socket is not None] *)
  username : option string;
  working_directory : option string;
  max_retries : Z;
  retry_delay : Z;
  retry_backoff : Z;
  connection_attempts : Z;
  connection_errors : nat;
  dials : list dial;
  slept : list Z
}.

Definition set_core (c : FTPClient) (s : FTP) : FTP :=
  mkFTP c (host s) (enable_ssl s) (data_socket s) (username s)
    (working_directory s) (max_retries s) (retry_delay s) (retry_backoff s)
    (connection_attempts s) (connection_errors s) (dials s) (slept s).

Definition set_data_socket (b : bool) (s : FTP) : FTP :=
  mkFTP (core s) (host s) (enable_ssl s) b (username s)
    (working_directory s) (max_retries s) (retry_delay s) (retry_backoff s)
    (connection_attempts s) (connection_errors s) (dials s) (slept s).

Definition set_username (u : string) (s : FTP) : FTP :=
  mkFTP (core s) (host s) (enable_ssl s) (data_socket s) (Some u)
    (working_directory s) (max_retries s) (retry_delay s) (retry_backoff s)
    (connection_attempts s) (connection_errors s) (dials s) (slept s).

Definition set_working_directory (d : string) (s : FTP) : FTP :=
  mkFTP (core s) (host s) (enable_ssl s) (data_socket s) (username s)
    (Some d) (max_retries s) (retry_delay s) (retry_backoff s)
    (connection_attempts s) (connection_errors s) (dials s) (slept s).

Definition count_attempt (s : FTP) : FTP :=
  mkFTP (core s) (host s) (enable_ssl s) (data_socket s) (username s)
    (working_directory s) (max_retries s) (retry_delay s) (retry_backoff s)
    (connection_attempts s + 1) (connection_errors s) (dials s) (slept s).

Definition count_error (s : FTP) : FTP :=
  mkFTP (core s) (host s) (enable_ssl s) (data_socket s) (username s)
    (working_directory s) (max_retries s) (retry_delay s) (retry_backoff s)
    (connection_attempts s) (S (connection_errors s)) (dials s) (slept s).

Definition set_dials (l : list dial) (s : FTP) : FTP :=
  mkFTP (core s) (host s) (enable_ssl s) (data_socket s) (username s)
    (working_directory s) (max_retries s) (retry_delay s) (retry_backoff s)
    (connection_attempts s) (connection_errors s) l (slept s).

Definition sleep (seconds : Z) (s : FTP) : FTP :=
  mkFTP (core s) (host s) (enable_ssl s) (data_socket s) (username s)
    (working_directory s) (max_retries s) (retry_delay s) (retry_backoff s)
    (connection_attempts s) (connection_errors s) (dials s)
    (slept s ++ [seconds]).

Definition set_cmd_socket (b : bool) (c : FTPClient) : FTPClient :=
  mkClient b (connected c) (logged_in c) (transfer_mode c)
    (connection_mode c) (last_response c) (last_response_code c)
    (incoming c) (send_faults c) (connect_faults c) (local_ip c)
    (ephemeral_port c) (sent c) (log c) (data_channels c).

Definition set_logged_in (b : bool) (c : FTPClient) : FTPClient :=
  mkClient (cmd_socket c) (connected c) b (transfer_mode c)
    (connection_mode c) (last_response c) (last_response_code c)
    (incoming c) (send_faults c) (connect_faults c) (local_ip c)
    (ephemeral_port c) (sent c) (log c) (data_channels c).

Definition set_connection_mode_field (m : ConnectionMode) (c : FTPClient) : FTPClient :=
  mkClient (cmd_socket c) (connected c) (logged_in c) (transfer_mode c)
    m (last_response c) (last_response_code c)
    (incoming c) (send_faults c) (connect_faults c) (local_ip c)
    (ephemeral_port c) (sent c) (log c) (data_channels c).

(** [FTPClient(host=..., enable_ssl=...)]: the session after [__init__],
    in a world where the control connections will do as [dials] says. *)
Definition new_client (host : option string) (enable_ssl : bool)
    (dials : list dial) : FTP :=
  mkFTP (mkClient false false false BINARY PASSIVE None None
           [] [] [] "127.0.0.1" 50000 [] [] [])
    host enable_ssl false None None 3 2 2 0 0 dials [].

(** A method of the session. *)
Definition S (A : Type) : Type := FTP -> result A * FTP.

Definition ret {A : Type} (a : A) : S A := fun s => (Ok a, s).
Definition raise {A : Type} (e : exn) : S A := fun s => (Raise e, s).
Definition bind {A B : Type} (m : S A) (k : A -> S B) : S B :=
  fun s => match m s with
           | (Ok a, s') => k a s'
           | (Raise e, s') => (Raise e, s')
           end.
Definition gets {A : Type} (f : FTP -> A) : S A := fun s => (Ok (f s), s).
Definition modify (f : FTP -> FTP) : S unit := fun s => (Ok tt, f s).
Definition pure {A : Type} (r : result A) : S A := fun s => (r, s).

(** A method of [Client] run on the session. *)
Definition on_core {A : Type} (m : M A) : S A :=
  fun s => let '(r, c) := m (core s) in (r, set_core c s).

(** [try: body except <handles>: handler] *)
Definition try_catch {A : Type} (body : S A) (handles : exn -> bool)
    (handler : exn -> S A) : S A :=
  fun s => match body s with
           | (Ok a, s') => (Ok a, s')
           | (Raise e, s') => if handles e then handler e s' else (Raise e, s')
           end.

(** [try: body finally: final]; [final] does not raise here. *)
Definition try_finally {A : Type} (body : S A) (final : FTP -> FTP) : S A :=
  fun s => let '(r, s') := body s in (r, final s').

Declare Scope session_scope.
Delimit Scope session_scope with session.
Notation "'let*' x ':=' m 'in' k" := (bind m (fun x => k))
  (at level 10, x pattern, m at level 100, k at level 200) : session_scope.
Notation "m1 ';;' m2" := (bind m1 (fun _ => m2))
  (at level 100, right associativity) : session_scope.
Local Open Scope session_scope.

(** [code == n] for the code of [parse_response], which may be [None] *)
Definition code_eqb (code : option Z) (n : Z) : bool :=
  match code with
  | Some k => k =? n
  | None => false
  end.

(** A command and its reply: [_send_command(command)] followed by
    [_read_response()]. *)
Definition exchange (command : string) : S string :=
  on_core (_send_command command) ;; on_core _read_response.

(** [except Exception]: every class of [exn] *)
Definition any_exception (e : exn) : bool := true.

(** [_close_connection]: the errors of [close] are swallowed. *)
Definition _close_connection (s : FTP) : FTP :=
  let s := if data_socket s then set_data_socket false s else s in
  let c := core s in
  let c := if cmd_socket c then set_cmd_socket false c else c in
  set_core (set_logged_in false (set_connected false c)) s.

(** What [connect] raises: a class of [exn], or the [AttributeError] of
    the call [self.close()], a method the class does not define. *)
Inductive raised : Type :=
  | Std (e : exn)
  | AttributeError.

(** [connect] *)
Definition connect (s : FTP) : (bool + raised) * FTP :=
  let s := count_attempt s in
  if cmd_socket (core s) then (inr AttributeError, s)
  else
    match dials s with
    | [] => (inr (Std ConnectionError), count_error s)
    | Refused :: rest => (inr (Std ConnectionError), count_error (set_dials rest s))
    | Accepted tls_ok events :: rest =>
        let s := set_dials rest
                   (set_core (set_incoming events (set_cmd_socket true (core s))) s) in
        if enable_ssl s && negb tls_ok then (inr (Std ConnectionError), count_error s)
        else
          match on_core _read_response s with
          | (Raise e, s) => (inr (Std e), s)
          | (Ok welcome, s) =>
              match parse_response welcome with
              | Raise e => (inr (Std e), s)
              | Ok (code, msg) =>
                  if negb (code_eqb code READY_FOR_NEW_USER) then
                    (inr (Std ConnectionError), count_error s)
                  else (inl true, set_core (set_connected true (core s)) s)
              end
          end
    end.

(** The classes [_execute_with_retry] retries: [socket.timeout], and
    [ConnectionError] with its subclass [TimeoutError]. *)
Definition retried (e : exn) : bool :=
  match e with
  | SocketTimeout | ConnectionError | TimeoutError => true
  | _ => false
  end.

(** [self.host] is set and not empty *)
Definition has_host (s : FTP) : bool :=
  match host s with
  | Some h => negb (String.eqb h "")
  | None => false
  end.

(** The attempt to connect again between two tries; whatever it raises is
    logged and dropped.  Each class that is retried is a connection error
    or a time-out, so the attempt is made for all of them. *)
Definition reconnect (s : FTP) : FTP :=
  let s := _close_connection s in
  if has_host s then snd (connect s) else s.

(** The loop of [_execute_with_retry]: [attempts] turns are left, [retries]
    have been made.  [None] is the end of the loop without a [return]. *)
Fixpoint retry_loop {A : Type} (operation : S A) (max_retries : Z)
    (attempts : nat) (retries : Z) : S (option A) :=
  match attempts with
  | O => ret None
  | Datatypes.S attempts' =>
      try_catch (let* r := operation in ret (Some r)) retried
        (fun e =>
           let retries := retries + 1 in
           if retries <=? max_retries then
             let* delay :=
               gets (fun s => retry_delay s * retry_backoff s ^ (retries - 1)) in
             modify reconnect ;;
             modify (sleep delay) ;;
             retry_loop operation max_retries attempts' retries
           else raise e)
  end.

(** [_execute_with_retry(operation, retry_count=...)] *)
Definition _execute_with_retry {A : Type} (operation : S A)
    (retry_count : option Z) : S (option A) :=
  let* max_retries :=
    match retry_count with
    | None => gets max_retries
    | Some n => ret n
    end in
  retry_loop operation max_retries (Z.to_nat (max_retries + 1)) 0.

(** [_login_operation] of [login] *)
Definition _login_operation (username password : string) : S bool :=
  let* sock := gets (fun s => cmd_socket (core s)) in
  if negb sock then raise ConnectionError
  else
    let* response := exchange ("USER " ++ username) in
    let* (code, msg) := pure (parse_response response) in
    let* (response, code) :=
      (if code_eqb code NEED_PASSWORD then
         let* response := exchange ("PASS " ++ password) in
         let* (code, msg) := pure (parse_response response) in
         ret (response, code)
       else ret (response, code)) in
    if code_eqb code LOGGED_IN then
      modify (set_username username) ;;
      modify (fun s => set_core (set_logged_in true (core s)) s) ;;
      ret true
    else raise AuthenticationError.

(** [login] *)
Definition login (username password : string) (retry : Z) : S (option bool) :=
  try_catch (_execute_with_retry (_login_operation username password) (Some retry))
    any_exception (fun _ => raise AuthenticationError).

(** [quit] *)
Definition quit : S bool :=
  let* connected := gets (fun s => connected (core s)) in
  if negb connected then ret true
  else
    try_finally
      (try_catch
         (exchange "QUIT" ;; ret tt)
         any_exception (fun _ => ret tt))
      _close_connection ;;
    ret true.

(** [verify_connection] *)
Definition verify_connection : S bool :=
  let* c := gets core in
  if negb (cmd_socket c) || negb (connected c) then ret false
  else
    try_catch
      (exchange "NOOP" ;;
       gets (fun s => code_is COMMAND_OK (core s)))
      any_exception (fun _ => ret false).

(** The directory between the first two double quotes of a reply. *)
Definition quoted (response : string) : option string :=
  match Rx.search Listing.quoted_pattern response with
  | Some groups => Some (Rx.group 1 groups)
  | None => None
  end.

(** [pwd] *)
Definition pwd : S string :=
  let* response := exchange "PWD" in
  let* ok := gets (fun s => code_is PATH_CREATED (core s)) in
  if negb ok then raise (CommandError ("获取当前工作目录失败: " ++ response))
  else
    match quoted response with
    | Some directory => modify (set_working_directory directory) ;; ret directory
    | None => modify (set_working_directory response) ;; ret response
    end.

(** [cwd] *)
Definition cwd (directory : string) : S bool :=
  let* response := exchange ("CWD " ++ directory) in
  let* class := on_core code_class in
  if negb (class =? POSITIVE_COMPLETION) then
    raise (CommandError ("更改工作目录失败: " ++ response))
  else pwd ;; ret true.

(** [cdup] *)
Definition cdup : S bool :=
  let* response := exchange "CDUP" in
  let* class := on_core code_class in
  if negb (class =? POSITIVE_COMPLETION) then
    raise (CommandError ("返回上级目录失败: " ++ response))
  else pwd ;; ret true.

(** [mkd] *)
Definition mkd (directory : string) : S string :=
  let* response := exchange ("MKD " ++ directory) in
  let* ok := gets (fun s => code_is PATH_CREATED (core s)) in
  if negb ok then raise (CommandError ("创建目录失败: " ++ response))
  else
    match quoted response with
    | Some path => ret path
    | None => ret directory
    end.

(** [rmd] *)
Definition rmd (directory : string) : S bool :=
  let* response := exchange ("RMD " ++ directory) in
  let* class := on_core code_class in
  if negb (class =? POSITIVE_COMPLETION) then
    raise (CommandError ("删除目录失败: " ++ response))
  else ret true.

(** [delete] *)
Definition delete (remote_path : string) : S bool :=
  let* response := exchange ("DELE " ++ remote_path) in
  let* class := on_core code_class in
  if negb (class =? POSITIVE_COMPLETION) then
    raise (CommandError ("删除文件失败: " ++ response))
  else ret true.

(** [rename] *)
Definition rename (from_path to_path : string) : S bool :=
  let* response := exchange ("RNFR " ++ from_path) in
  let* class := on_core code_class in
  if negb (class =? POSITIVE_INTERMEDIATE) then
    raise (CommandError ("重命名文件失败: " ++ response))
  else
    let* response := exchange ("RNTO " ++ to_path) in
    let* class := on_core code_class in
    if negb (class =? POSITIVE_COMPLETION) then
      raise (CommandError ("重命名文件失败: " ++ response))
    else ret true.

(** [set_connection_mode]: the membership test is vacuous for a value of
    the enumeration. *)
Definition set_connection_mode (mode : ConnectionMode) (s : FTP) : FTP :=
  set_core (set_connection_mode_field mode (core s)) s.

(** [client/advanced_client.py], [FTPClientPool._create_client]: a new
    client is connected and logged in; [None] after a [ConnectionError] or
    an [AuthenticationError].  The result is the session made, if any. *)
Definition _create_client (host : option string) (enable_ssl passive_mode : bool)
    (username password : string) (dials : list dial)
    : (option FTP + raised) :=
  let client := new_client host enable_ssl dials in
  let mode := if passive_mode then PASSIVE else ACTIVE in
  let client := set_connection_mode mode client in
  match connect client with
  | (inr (Std ConnectionError), _) | (inr (Std TimeoutError), _)
  | (inr (Std AuthenticationError), _) => inl None
  | (inr e, _) => inr e
  | (inl _, client) =>
      match login username password 2 client with
      | (Ok _, client) => inl (Some client)
      | (Raise ConnectionError, _) | (Raise TimeoutError, _)
      | (Raise AuthenticationError, _) => inl None
      | (Raise e, _) => inr (Std e)
      end
  end.

(** The session as [connect] and [login] are meant to leave it, used to
    state what the other methods do: connected and logged in, with a
    control socket that will deliver [events]. *)
Definition established (events : list recv_event) : FTP :=
  mkFTP (session events) (Some "ftp.example.com") false false (Some "user") None
    3 2 2 1 0 [] [].

(** The next [sendall] does not fail. *)
Definition send_ok (s : FTP) : Prop :=
  match send_faults (core s) with
  | Some _ :: _ => False
  | _ => True
  end.

(** The control connection is up. *)
Definition up (s : FTP) : Prop :=
  cmd_socket (core s) = true /\ connected (core s) = true.

(** A double quote, as text. *)
Definition dq : string := String Listing.quote "".

(** The bytes of a command on the wire, and the commands sent during a
    call. *)
Definition payload (command : string) : list Byte.byte :=
  encode_utf8 (command ++ CRLF).

Definition sent_since (before after : FTP) (commands : list string) : Prop :=
  sent (core after) = (sent (core before) ++ map payload commands)%list.

(** An operation that leaves the retry settings and the record of the
    sleeps alone, and the delays of [n] retries. *)
Definition keeps_schedule {A : Type} (operation : S A) : Prop :=
  forall s,
    slept (snd (operation s)) = slept s
    /\ retry_delay (snd (operation s)) = retry_delay s
    /\ retry_backoff (snd (operation s)) = retry_backoff s.

Definition backoff_delays (s : FTP) (n : nat) : list Z :=
  map (fun k => retry_delay s * retry_backoff s ^ Z.of_nat k) (seq 0 n).

End Session.

(** ** client/transfer_queue.py: the queue and its threads

    The calls that reach a queue, one at a time as the lock orders them:
    [add_task] and [cancel_task] from outside, the turns of the workers,
    and the rounds of the retry thread.  Between its collection of the
    failed tasks and their return to the queue the retry thread holds them
    in a list of its own, [retry_tasks]. *)

Module Life.

Import Queue.

(** [get_task_status]; [None] is Python's [None]. *)
Definition get_task_status (task_id : string) (q : TransferQueue)
    : option TransferTask :=
  if bool_decide (task_id ∈ active_tasks q) then tasks q !! task_id
  else if bool_decide (task_id ∈ completed_tasks q) then tasks q !! task_id
  else if bool_decide (task_id ∈ failed_tasks q) then tasks q !! task_id
  else None.

Record system : Type := mkSystem {
  the_queue : TransferQueue;
  retry_tasks : list string
}.

Definition start : system := mkSystem empty_queue [].

Inductive op : Type :=
  | Add (task_type : TaskType) (priority : TaskPriority)
        (now max_retries retry_delay : Z)
  | Take (now : Z)            (* a worker gets the next entry *)
  | Finish (task_id : string) (now : Z) (o : handler_outcome)
                              (* the worker running [task_id] ends its turn *)
  | Cancel (task_id : string) (now : Z)
  | Collect                   (* the retry thread picks the tasks to retry *)
  | Requeue.                  (* the retry thread puts one of them back *)

Section Float.

Variable round : Q -> Q.

(** One call.  A worker ends only a task it is running (an active task
    that is RUNNING), and the retry thread collects only when it has put
    back all it had collected. *)
Definition step (o : op) (s : system) : option system :=
  let q := the_queue s in
  match o with
  | Add task_type priority now max_retries retry_delay =>
      Some (mkSystem (snd (add_task task_type priority now max_retries retry_delay q))
              (retry_tasks s))
  | Take now => Some (mkSystem (snd (worker_begin now q)) (retry_tasks s))
  | Finish task_id now o =>
      match tasks q !! task_id with
      | Some task =>
          if bool_decide (task_id ∈ active_tasks q)
             && status_eqb (status task) RUNNING
          then Some (mkSystem (worker_end round task_id now o q) (retry_tasks s))
          else None
      | None => None
      end
  | Cancel task_id now =>
      Some (mkSystem (snd (cancel_task task_id now q)) (retry_tasks s))
  | Collect =>
      match retry_tasks s with
      | [] => let '(ids, q) := retry_collect q in Some (mkSystem q ids)
      | _ :: _ => None
      end
  | Requeue =>
      match retry_tasks s with
      | task_id :: rest => Some (mkSystem (snd (retry_one task_id q)) rest)
      | [] => None
      end
  end.

Fixpoint run (ops : list op) (s : system) : option system :=
  match ops with
  | [] => Some s
  | o :: rest =>
      match step o s with
      | Some s' => run rest s'
      | None => None
      end
  end.

End Float.

(** A day of two tasks.  The second, of higher priority, is run first; it
    fails and its [on_error] callback raises.  The first fails, is retried
    once, fails again when its [on_complete] callback raises, and is
    cancelled. *)
Definition sample_calls : list op :=
  [Add DOWNLOAD NORMAL 0 1 5;
   Add UPLOAD HIGH 1 3 5;
   Take 2;
   Finish "task-2" 3
     (mkOutcome [(1, 2)] (Raise TimeoutError) None (Some ValueError));
   Take 4;
   Finish "task-1" 5 (mkOutcome [] (Raise TimeoutError) None None);
   Collect;
   Requeue;
   Take 6;
   Finish "task-1" 7 (mkOutcome [] (Ok None) (Some ValueError) None);
   Cancel "task-1" 8].

(** Vocabulary: the ids waiting in the queue, how often an id occurs in a
    list, and in all the places a task can be. *)
Definition queued (q : TransferQueue) : list string :=
  map (fun e : entry => snd e) (task_queue q).

Definition count (task_id : string) (l : list string) : nat :=
  length (List.filter (String.eqb task_id) l).

Definition occurrences (task_id : string) (s : system) : nat :=
  count task_id (queued (the_queue s))
  + count task_id (active_tasks (the_queue s))
  + count task_id (completed_tasks (the_queue s))
  + count task_id (failed_tasks (the_queue s))
  + count task_id (retry_tasks s).

(** The status of a task fits the place it is in.  An active task is
    RUNNING, or FAILED when its [on_error] callback raised and left it
    there. *)
Definition fits (s : system) (task_id : string) (t : TransferTask) : Prop :=
  (task_id ∈ queued (the_queue s) -> status t = PENDING \/ status t = RETRYING)
  /\ (task_id ∈ active_tasks (the_queue s) ->
      status t = RUNNING \/ status t = FAILED)
  /\ (task_id ∈ completed_tasks (the_queue s) ->
      status t = COMPLETED \/ status t = CANCELED)
  /\ (task_id ∈ failed_tasks (the_queue s) -> status t = FAILED)
  /\ (task_id ∈ retry_tasks s ->
      status t = FAILED /\ retry_count t < max_retries t).

(** An id is in the same places, as often, in two systems. *)
Definition same_places (s s' : system) (task_id : string) : Prop :=
  count task_id (queued (the_queue s')) = count task_id (queued (the_queue s))
  /\ count task_id (active_tasks (the_queue s'))
     = count task_id (active_tasks (the_queue s))
  /\ count task_id (completed_tasks (the_queue s'))
     = count task_id (completed_tasks (the_queue s))
  /\ count task_id (failed_tasks (the_queue s'))
     = count task_id (failed_tasks (the_queue s))
  /\ count task_id (retry_tasks s') = count task_id (retry_tasks s).

(** What holds between the calls. *)
Record tidy (s : system) : Prop := mkTidy {
  counter_nonneg : 0 <= _task_id_counter (the_queue s);
  own_id : forall task_id t,
    tasks (the_queue s) !! task_id = Some t -> id t = task_id;
  numbered : forall task_id t,
    tasks (the_queue s) !! task_id = Some t ->
    exists k, 1 <= k <= _task_id_counter (the_queue s)
              /\ task_id = "task-" ++ Py.str k;
  known : forall task_id,
    (0 < occurrences task_id s)%nat -> is_Some (tasks (the_queue s) !! task_id);
  once : forall task_id, (occurrences task_id s <= 1)%nat;
  placed : forall task_id t,
    tasks (the_queue s) !! task_id = Some t -> fits s task_id t;
  bounded : forall task_id t,
    tasks (the_queue s) !! task_id = Some t ->
    0 <= retry_count t <= Z.max 0 (max_retries t)
}.

End Life.

(** ** The life of a queue on its heap

    The same calls with the heap in the place of the contract of the
    priority queue.  What [put] raises leaves [add_task] after the new task
    is in the list.  What [get] raises ends the turn of the worker, the
    entry at the root lost.  What [time.sleep] or [put] raise ends the
    round of the retry thread in the handler of its loop, and the tasks it
    still held are dropped with its list. *)

Module HeapLife.

Import Queue Life.

Section Float.

Variable round : Q -> Q.

Definition step (o : op) (s : system) : option system :=
  let q := the_queue s in
  match o with
  | Add task_type priority now max_retries retry_delay =>
      Some (mkSystem
              (snd (Heap.add_task task_type priority now max_retries retry_delay q))
              (retry_tasks s))
  | Take now => Some (mkSystem (snd (Heap.worker_begin now q)) (retry_tasks s))
  | Requeue =>
      match retry_tasks s with
      | task_id :: rest =>
          match Heap.retry_one task_id q with
          | (Ok _, q) => Some (mkSystem q rest)
          | (Raise _, q) => Some (mkSystem q [])
          end
      | [] => None
      end
  | Finish _ _ _ | Cancel _ _ | Collect => Life.step round o s
  end.

Fixpoint run (ops : list op) (s : system) : option system :=
  match ops with
  | [] => Some s
  | o :: rest =>
      match step o s with
      | Some s' => run rest s'
      | None => None
      end
  end.

End Float.

(** Vocabulary: the priorities, negated, and the creation times under
    which a sequence of calls submits its tasks. *)
Fixpoint submitted (ops : list op) : list (Z * Z) :=
  match ops with
  | [] => []
  | Add _ priority now _ _ :: rest => (- priority_value priority, now) :: submitted rest
  | _ :: rest => submitted rest
  end.

(** Three tasks, the two last of which tie.  The first worker to ask
    gets [TypeError] and the first task is lost; the second task is run,
    fails, and is taken up by the retry thread, whose [put] ends in
    [TypeError] in its turn. *)
Definition tied_calls : list op :=
  [Add DOWNLOAD URGENT 0 3 5;
   Add DOWNLOAD NORMAL 5 3 5;
   Add UPLOAD NORMAL 5 3 5;
   Take 6;
   Take 7;
   Finish "task-2" 8 (mkOutcome [] (Raise TimeoutError) None None);
   Collect;
   Requeue].

(** What holds between the calls when no two tasks are submitted under
    the same key: the list is a heap of entries with different keys, which
    are the entries of tasks of the queue; the keys of the tasks are among
    those submitted, and no two tasks have the same. *)
Record sorted (keys : list (Z * Z)) (s : system) : Prop := mkSorted {
  is_heap : Heap.heap_ordered (task_queue (the_queue s));
  no_ties : keys_differ (task_queue (the_queue s));
  of_tasks : forall e,
    e ∈ task_queue (the_queue s) ->
    exists t, tasks (the_queue s) !! snd e = Some t /\ entry_of t = e;
  from_calls : forall task_id t,
    tasks (the_queue s) !! task_id = Some t -> key (entry_of t) ∈ keys;
  one_key : forall i j ti tj,
    tasks (the_queue s) !! i = Some ti -> tasks (the_queue s) !! j = Some tj ->
    key (entry_of ti) = key (entry_of tj) -> i = j
}.

End HeapLife.

(** ** The users of the pools

    [FTPPooledClient] of [client/ftp_client.py] and the handlers of
    [FTPQueueManager] in [client/advanced_client.py] take a session, use it
    and give it back. *)

Module PoolUse.

(** [with FTPPooledClient(pool) as client: ...]: [__enter__] takes a
    connection, [__exit__] releases it if there is one.  [connected] is
    the flag of the session when the block ends, [now] the clock.  The
    result is what the block was given. *)
Definition pooled_block (alive : nat -> bool) (failure : option exn)
    (connected : bool) (now : Q) (p : ConnectionPool.FTPConnectionPool)
    : result (option nat) * ConnectionPool.FTPConnectionPool :=
  match ConnectionPool.get_connection alive failure p with
  | (Raise e, p) => (Raise e, p)
  | (Ok None, p) => (Ok None, p)
  | (Ok (Some client), p) =>
      (Ok (Some client),
       ConnectionPool.release_connection (Some client) connected now p)
  end.

(** A handler of [FTPQueueManager]: [get_client], the operation inside
    [try], [release_client] in [finally].  [operation] is what the method
    of the session does; [still_alive] answers the check at the release. *)
Definition handle {A : Type} (alive : bool) (first second : ClientPool.creation)
    (operation : nat -> result A) (still_alive : bool)
    (p : ClientPool.FTPClientPool) : result A * ClientPool.FTPClientPool :=
  match ClientPool.get_client alive first second p with
  | (Raise e, p) => (Raise e, p)
  | (Ok client, p) =>
      (operation client, ClientPool.release_client (Some client) still_alive p)
  end.

(** Calls on an [FTPConnectionPool] in which every new session fails to
    connect with [ConnectionError]. *)
Definition creation_fails (o : ConnectionPool.op) : Prop :=
  match o with
  | ConnectionPool.Checkout _ failure => failure = Some ConnectionError
  | _ => True
  end.

(** Calls on an [FTPClientPool] whose [_create_client] returns [None]
    each time. *)
Definition creation_none (o : ClientPool.op) : Prop :=
  match o with
  | ClientPool.Get _ first second =>
      first = ClientPool.NoClient /\ second = ClientPool.NoClient
  | ClientPool.Release _ _ => True
  end.

End PoolUse.

(** ** client/ftp_client.py: [list] and [get_directory_tree] *)

Module Tree.

Import Protocol Client Listing.
Local Open Scope client_scope.

(** The postcondition of a method on its return. *)
Definition returns {A : Type} (m : M A) (P : A -> Prop) : Prop :=
  forall c a c', m c = (Ok a, c') -> P a.

(** Truth of a value in a condition. *)
Definition truthy (v : value) : bool :=
  match v with
  | Str s => negb (String.eqb s "")
  | Int n => negb (n =? 0)
  end.

(** A value inside an f-string. *)
Definition text (v : value) : string :=
  match v with
  | Str s => s
  | Int n => Py.str n
  end.

Definition value_eqb (a b : value) : bool :=
  match a, b with
  | Str s, Str t => String.eqb s t
  | Int n, Int m => n =? m
  | _, _ => false
  end.

(** A path in a condition: [None] and the empty string are false. *)
Definition given (path : option string) : bool :=
  match path with
  | Some p => negb (String.eqb p "")
  | None => false
  end.

(** The dictionaries [get_directory_tree] builds. *)
#[warnings="-register-all"]
Inductive tree : Type :=
  | Truncated                                  (* [{"truncated": True}] *)
  | Failed (message : string)                  (* [{"error": str(e)}] *)
  | File (size : value)                        (* [{"size": ..., "type": "file"}] *)
  | Entries (entries : list (value * tree)).   (* [result], in insertion order *)

(** [result[name] = x] *)
Fixpoint assign (name : value) (x : tree) (result : list (value * tree))
    : list (value * tree) :=
  match result with
  | [] => [(name, x)]
  | (k, y) :: rest =>
      if value_eqb k name then (k, x) :: rest
      else (k, y) :: assign name x rest
  end.

Section Listing.

(** Taken as given: the reading of the data channel by [list] (the [accept]
    of active mode, the [recv] loop, [decode] and [splitlines]), and
    [str(e)] of an exception. *)
Variable receive_listing : data_endpoint -> M (list string).
Variable exn_text : exn -> string.

(** [list] *)
Definition list_ (path : option string) : M (list (gmap string value)) :=
  try_catch
    (let* data_sock := _create_data_connection in
     let cmd :=
       match path with
       | Some p => if given path then "LIST " ++ p else "LIST"
       | None => "LIST"
       end in
     _send_command cmd ;;
     let* response := _read_response in
     let* ok := get (code_is FILE_STATUS_OK) in
     if negb ok then raise (CommandError ("列出目录失败: " ++ response))
     else
       let* directory_lines := receive_listing data_sock in
       let* response := _read_response in
       let* ok := get (code_is TRANSFER_COMPLETE) in
       if negb ok then
         raise (CommandError ("读取目录列表完成响应失败: " ++ response))
       else lift (parse_list_response directory_lines))
    (fun _ => true)
    (fun e => raise (CommandError ("列出目录时发生错误: " ++ exn_text e))).

(** [_get_tree] of [get_directory_tree]; [levels] is
    [max_depth - depth + 1], the levels still to be listed. *)
Fixpoint _get_tree (levels : nat) (current_path : option string) : M tree :=
  match levels with
  | O => ret Truncated
  | S levels =>
      try_catch
        (let* items := list_ current_path in
         let* result :=
           (fix each (items : list (gmap string value))
                (result : list (value * tree)) : M (list (value * tree)) :=
              match items with
              | [] => ret result
              | item :: rest =>
                  match item !! "name" with
                  | Some name =>
                      if negb (truthy name) then each rest result
                      else
                        let is_dir :=
                          match item !! "is_dir" with
                          | Some v => truthy v
                          | None => false
                          end in
                        let item_path :=
                          match current_path with
                          | Some p =>
                              if given current_path then p ++ "/" ++ text name
                              else text name
                          | None => text name
                          end in
                        if is_dir then
                          let* sub := _get_tree levels (Some item_path) in
                          each rest (assign name sub result)
                        else
                          each rest
                            (assign name
                               (File (default (Int 0) (item !! "size")))
                               result)
                  | None => each rest result
                  end
              end) items [] in
         ret (Entries result))
        (fun _ => true)
        (fun e => ret (Failed (exn_text e)))
  end.

(** [get_directory_tree]: the first call has depth 1. *)
Definition get_directory_tree (path : option string) (max_depth : Z) : M tree :=
  _get_tree (Z.to_nat max_depth) path.

End Listing.

(** An entry of a tree that is a file. *)
Definition is_file (entry : value * tree) : Prop :=
  exists size, snd entry = File size.

End Tree.

(** * Part II: properties *)

(** ** Sample evaluations *)

Example int_samples :
  Py.int "220" = Some 220 /\ Py.int " 12" = Some 12 /\ Py.int "+12" = Some 12
  /\ Py.int "-12" = Some (-12) /\ Py.int "1_2" = Some 12 /\ Py.int "_12" = None
  /\ Py.int "1__" = None /\ Py.int "1_" = None /\ Py.int "" = None
  /\ Py.int "12-" = None /\ Py.int "+ 1" = None /\ Py.int "007" = Some 7
  /\ Py.int (String (ascii_of_nat 28) "12") = None
  /\ Py.int (String (ascii_of_nat 160) "12") = Some 12.
Proof. vm_compute. repeat split. Qed.

Example str_samples :
  Py.str 0 = "0" /\ Py.str 255 = "255" /\ Py.str (-7) = "-7".
Proof. vm_compute. repeat split. Qed.

Example split_join_samples :
  Py.split "." "127.0.0.1" = ["127"; "0"; "0"; "1"]
  /\ Py.split "." "" = [""] /\ Py.split "." "a..b." = ["a"; ""; "b"; ""]
  /\ Py.join "," ["127"; "0"; "0"; "1"] = "127,0,0,1"
  /\ Py.strip "  abc  " = "abc" /\ Py.strip "   " = "".
Proof. vm_compute. repeat split. Qed.

Example parse_response_samples :
  Protocol.parse_response "220 Service ready" = Ok (Some 220, "Service ready")
  /\ Protocol.parse_response "abc def" = Ok (None, "abc def")
  /\ Protocol.parse_response "12" = Ok (Some 12, "")
  /\ Protocol.parse_response "-12 x" = Ok (Some (-12), "x")
  /\ Protocol.parse_response "" = Ok (None, "").
Proof. vm_compute. repeat split. Qed.

Example pasv_samples :
  Protocol.build_port_command "127.0.0.1" 1024 = "127,0,0,1,4,0"
  /\ Protocol.parse_pasv_response "227 Entering Passive Mode (127,0,0,1,4,0)."
     = Ok ("127.0.0.1", 1024)
  /\ Protocol.parse_pasv_response "227 no address" = Raise ValueError
  /\ Protocol.parse_pasv_response "9127,0,0,1,0,21" = Ok ("9127.0.0.1", 21)
  /\ Protocol.parse_pasv_response "1,2 (010,0,0,1,0,21)" = Ok ("10.0.0.1", 21).
Proof. vm_compute. repeat split. Qed.

Example lower_samples :
  Py.lower "README.TXT" = "readme.txt" /\ Py.lower "a-Z_09" = "a-z_09".
Proof. vm_compute. repeat split. Qed.

Example is_binary_file_samples :
  let splitext (p : string) :=
    if String.eqb p "notes.txt" then ("notes", ".txt") else (p, "") in
  Client.is_binary_file splitext "NOTES.TXT" = false
  /\ Client.is_binary_file splitext "archive" = true.
Proof. vm_compute. repeat split. Qed.

Example read_response_samples :
  fst (Client._read_response (Client.session [Client.Data "200 OK"]))
  = Ok "200 OK"
  /\ fst (Client._read_response
            (Client.session [Client.Data "211-Features"; Client.Data "211 End"]))
     = Ok "211-Features211 End"
  /\ fst (Client._read_response (Client.session [Client.Data ""]))
     = Raise ConnectionError
  /\ fst (Client._read_response (Client.session [Client.Deadline]))
     = Raise ConnectionError
  /\ fst (Client._read_response (Client.session [Client.RecvTimeout]))
     = Raise TimeoutError
  /\ fst (Client._read_response (Client.session [Client.Data "220-a"]))
     = Raise TimeoutError.
Proof. vm_compute. repeat split. Qed.

Example passive_connection_sample :
  let c :=
    snd (Client._create_data_connection
           (Client.session
              [Client.Data "227 Entering Passive Mode (10,0,0,5,19,137)."])) in
  Client.data_channels c = [Client.Connected "10.0.0.5" 5001]
  /\ Client.sent c = [Client.encode_utf8 ("PASV" ++ Client.CRLF)].
Proof. vm_compute. repeat split. Qed.

Example size_samples :
  fst (Client.size "a.bin" (Client.session [Client.Data "213 1048576"]))
  = Ok 1048576
  /\ fst (Client.size "a.bin" (Client.session [Client.Data "213 "]))
     = Raise (CommandError "无法解析文件大小: 213 ")
  /\ fst (Client.size "a.bin" (Client.session [Client.Data "150 wait"]))
     = Raise (CommandError "获取文件大小失败: 150 wait")
  /\ fst (Client.size "a.bin" (Client.session [Client.Data "abc def"]))
     = Raise TypeError.
Proof. vm_compute. repeat split. Qed.

Example connection_pool_sample :
  let always (_ : nat) := true in
  match
    ConnectionPool.run
      [ConnectionPool.Checkout always None; ConnectionPool.Checkout always None;
       ConnectionPool.Checkout always None; ConnectionPool.Release 0 true 1%Q;
       ConnectionPool.Checkout always None]
      (ConnectionPool.start 2 300%Q)
  with
  | Some s =>
      ConnectionPool.active_connections (ConnectionPool.the_pool s) = 2
      /\ ConnectionPool.idle s = []
      /\ ConnectionPool.total_connections_created (ConnectionPool.the_pool s) = 2
      /\ ConnectionPool.total_connections_reused (ConnectionPool.the_pool s) = 1
  | None => False
  end.
Proof. vm_compute. repeat split. Qed.

Example task_life_sample :
  let t :=
    Queue.apply_calls (fun x => x)
      [Queue.MarkRunning 1; Queue.UpdateProgress 512 2048;
       Queue.UpdateProgress 4096 2048]
      (Queue.new_task "task-1" Queue.UPLOAD Queue.NORMAL 0 3 5) in
  Queue.status t = Queue.RUNNING /\ (Queue.progress t == 100)%Q.
Proof. vm_compute. repeat split. Qed.

Example dispatch_sample :
  let q := Queue.empty_queue in
  let q := snd (Queue.add_task Queue.DOWNLOAD Queue.NORMAL 10 3 5 q) in
  let q := snd (Queue.add_task Queue.DOWNLOAD Queue.URGENT 20 3 5 q) in
  let q := snd (Queue.add_task Queue.DOWNLOAD Queue.NORMAL 30 3 5 q) in
  let q := snd (Queue.add_task Queue.DOWNLOAD Queue.URGENT 40 3 5 q) in
  let '(turn1, q) := Queue.worker_begin 50 q in
  let '(turn2, q) := Queue.worker_begin 51 q in
  let '(turn3, q) := Queue.worker_begin 52 q in
  let '(turn4, q) := Queue.worker_begin 53 q in
  [turn1; turn2; turn3; turn4; fst (Queue.worker_begin 54 q)]
  = [Ok (Queue.Started "task-2"); Ok (Queue.Started "task-4");
     Ok (Queue.Started "task-1"); Ok (Queue.Started "task-3"); Ok Queue.Idle].
Proof. vm_compute. repeat split. Qed.

Example heap_dispatch_sample :
  let '(_, q) := Heap.add_task Queue.DOWNLOAD Queue.NORMAL 10 3 5 Queue.empty_queue in
  let '(_, q) := Heap.add_task Queue.DOWNLOAD Queue.URGENT 20 3 5 q in
  let '(_, q) := Heap.add_task Queue.DOWNLOAD Queue.NORMAL 30 3 5 q in
  let '(_, q) := Heap.add_task Queue.DOWNLOAD Queue.URGENT 40 3 5 q in
  let '(turn1, q) := Heap.worker_begin 50 q in
  let '(turn2, q) := Heap.worker_begin 51 q in
  let '(turn3, q) := Heap.worker_begin 52 q in
  let '(turn4, q) := Heap.worker_begin 53 q in
  [turn1; turn2; turn3; turn4; fst (Heap.worker_begin 54 q)]
  = [Ok (Queue.Started "task-2"); Ok (Queue.Started "task-4");
     Ok (Queue.Started "task-1"); Ok (Queue.Started "task-3"); Ok Queue.Idle].
Proof. vm_compute. repeat split. Qed.

Example tied_entries_sample :
  Queue.get_entry [(-1, 5, "task-1"); (-1, 5, "task-2")] = Raise TypeError
  /\ Queue.get_entry [(-1, 5, "task-1"); (-1, 6, "task-2")]
     = Ok (Some ((-1, 5, "task-1"), [(-1, 6, "task-2")])).
Proof. vm_compute. repeat split. Qed.

(** ** Strings: digits, printing and reading numbers *)

Module PyFacts.

Lemma app_nil (s : string) : "" ++ s = s.
Proof. reflexivity. Qed.

Lemma app_cons c (a b : string) : String c a ++ b = String c (a ++ b).
Proof. reflexivity. Qed.

Lemma startswith1 x c s :
  Py.startswith (String x EmptyString) (String c s) = Ascii.eqb x c.
Proof. cbn [Py.startswith]. now destruct (Ascii.eqb x c). Qed.

Lemma app_assoc (a b c : string) : (a ++ b) ++ c = a ++ (b ++ c).
Proof.
  induction a as [|x a IH]; [reflexivity|].
  now rewrite !app_cons, IH.
Qed.

Lemma length_app (a b : string) :
  String.length (a ++ b) = (String.length a + String.length b)%nat.
Proof.
  induction a as [|x a IH]; [reflexivity|].
  rewrite app_cons. simpl. now rewrite IH.
Qed.

Lemma app_empty_r (a : string) : a ++ "" = a.
Proof. induction a as [|x a IH]; [reflexivity | now rewrite app_cons, IH]. Qed.

Lemma digit_not_space c : Py.isdigit c = true -> Py.int_space c = false.
Proof.
  unfold Py.isdigit, Py.int_space. cbv zeta. generalize (Py.code c). intros n H.
  apply andb_true_iff in H as [H1 H2].
  apply N.leb_le in H1. apply N.leb_le in H2.
  repeat (apply orb_false_iff; split);
    try (apply andb_false_iff; right; apply N.leb_gt; lia);
    apply N.eqb_neq; lia.
Qed.

Lemma digit_not_sign c :
  Py.isdigit c = true -> c <> "+"%char /\ c <> "-"%char /\ c <> ","%char /\ c <> "."%char.
Proof. intros H. repeat split; intros ->; discriminate H. Qed.

Lemma string_of_uint_digits u : Py.all_digits (NilEmpty.string_of_uint u) = true.
Proof. induction u; simpl; auto. Qed.

Lemma string_of_uint_nonempty u :
  u <> Decimal.Nil -> NilEmpty.string_of_uint u <> EmptyString.
Proof. destruct u; simpl; congruence. Qed.

Lemma to_uint_nonnil n : N.to_uint n <> Decimal.Nil.
Proof.
  destruct n; simpl; [discriminate | apply DecimalPos.Unsigned.to_uint_nonnil].
Qed.

Lemma str_digits n : 0 <= n -> Py.all_digits (Py.str n) = true.
Proof. destruct n; intros H; try lia; apply string_of_uint_digits. Qed.

Lemma str_nonempty n : 0 <= n -> Py.str n <> EmptyString.
Proof.
  destruct n; intros H; try lia;
    apply string_of_uint_nonempty, to_uint_nonnil.
Qed.

Lemma more_digits_all d : Py.all_digits d = true -> Py.int_more_digits d = (d, EmptyString).
Proof.
  induction d as [|c d IH]; simpl; [reflexivity|].
  intros H. apply andb_true_iff in H as [Hc Hd].
  now rewrite Hc, (IH Hd).
Qed.

(** Reading back a printed natural number whose digits are within the
    cap. *)
Lemma int_str n :
  0 <= n -> Z.of_nat (String.length (Py.str n)) <= Py.int_max_str_digits ->
  Py.int (Py.str n) = Some n.
Proof.
  intros Hn Hlen.
  pose proof (str_digits n Hn) as Hd. pose proof (str_nonempty n Hn) as Hne.
  assert (Hv : NilEmpty.uint_of_string (Py.str n) = Some (N.to_uint (Z.to_N n))).
  { destruct n; try lia; apply NilEmpty.usu. }
  destruct (Py.str n) as [|c d] eqn:E; [congruence|].
  simpl in Hd. apply andb_true_iff in Hd as [Hc Hd].
  unfold Py.int. simpl Py.int_lstrip. rewrite (digit_not_space c Hc).
  destruct (digit_not_sign c Hc) as (Hp & Hm & _).
  assert (Hu : Py.int_unsigned (String c d) = Some n).
  { unfold Py.int_unsigned. rewrite Hc, (more_digits_all d Hd). simpl Py.all_int_space.
    cbv iota. apply Z.leb_le in Hlen. rewrite Hlen.
    unfold Py.digits_value. rewrite Hv. simpl.
    rewrite DecimalN.Unsigned.of_to. f_equal. lia. }
  destruct c as [[] [] [] [] [] [] [] []]; try exact Hu; congruence.
Qed.

(** A byte is printed with at most three digits. *)
Lemma str_byte_length n :
  0 <= n <= 255 -> Z.of_nat (String.length (Py.str n)) <= 3.
Proof.
  intros Hn.
  assert (H : forallb (fun k => Z.of_nat (String.length (Py.str (Z.of_nat k))) <=? 3)
                (seq 0 256) = true) by (vm_compute; reflexivity).
  rewrite forallb_forall in H. specialize (H (Z.to_nat n)).
  rewrite Z2Nat.id in H by lia. apply Z.leb_le, H, in_seq. lia.
Qed.

Lemma int_str_byte n : 0 <= n <= 255 -> Py.int (Py.str n) = Some n.
Proof.
  intros Hn. apply int_str; [lia|].
  pose proof (str_byte_length n Hn). unfold Py.int_max_str_digits. lia.
Qed.

Lemma isdigit_cases c :
  Py.isdigit c = true ->
  c = "0"%char \/ c = "1"%char \/ c = "2"%char \/ c = "3"%char \/ c = "4"%char
  \/ c = "5"%char \/ c = "6"%char \/ c = "7"%char \/ c = "8"%char \/ c = "9"%char.
Proof.
  destruct c as [[] [] [] [] [] [] [] []]; vm_compute; intros H;
    try discriminate H; tauto.
Qed.

(** Three digits are read as their decimal value. *)
Lemma int_three_digits d1 d2 d3 :
  Py.isdigit d1 = true -> Py.isdigit d2 = true -> Py.isdigit d3 = true ->
  Py.int (String d1 (String d2 (String d3 "")))
  = Some (100 * Py.digit d1 + 10 * Py.digit d2 + Py.digit d3).
Proof.
  intros H1 H2 H3.
  destruct (isdigit_cases d1 H1) as [->|[->|[->|[->|[->|[->|[->|[->|[->| ->]]]]]]]]];
    destruct (isdigit_cases d2 H2) as [->|[->|[->|[->|[->|[->|[->|[->|[->| ->]]]]]]]]];
    destruct (isdigit_cases d3 H3) as [->|[->|[->|[->|[->|[->|[->|[->|[->| ->]]]]]]]]];
    vm_compute; reflexivity.
Qed.

(** Stripping takes the white space off both ends and nothing else. *)
Lemma lstrip_spaces lead s :
  Rx.all Py.isspace lead = true -> Py.lstrip (lead ++ s) = Py.lstrip s.
Proof.
  induction lead as [|c lead IH]; rewrite ?app_nil, ?app_cons; [reflexivity|].
  cbn [Rx.all Py.lstrip]. intros H. apply andb_true_iff in H as [-> H]. auto.
Qed.

Lemma lstrip_head s : Py.starts_with_space s = false -> Py.lstrip s = s.
Proof. destruct s as [|c s]; cbn; [reflexivity | now intros ->]. Qed.

Lemma rstrip_spaces trail : Rx.all Py.isspace trail = true -> Py.rstrip trail = "".
Proof.
  induction trail as [|c trail IH]; cbn [Rx.all Py.rstrip]; [reflexivity|].
  intros H. apply andb_true_iff in H as [-> H]. now rewrite (IH H).
Qed.

Lemma rstrip_tail body trail :
  Py.ends_with_space body = false -> Rx.all Py.isspace trail = true ->
  Py.rstrip (body ++ trail) = body.
Proof.
  intros Hb Ht. induction body as [|c body IH]; rewrite ?app_nil, ?app_cons;
    [now apply rstrip_spaces|].
  cbn [Py.rstrip]. destruct body as [|c' body'].
  - rewrite app_nil, (rstrip_spaces trail Ht). cbn in Hb. now rewrite Hb.
  - rewrite IH by exact Hb. reflexivity.
Qed.

Lemma strip_spaces lead body trail :
  Rx.all Py.isspace lead = true -> Rx.all Py.isspace trail = true ->
  Py.starts_with_space body = false -> Py.ends_with_space body = false ->
  Py.strip (lead ++ body ++ trail) = body.
Proof.
  intros Hl Ht Hs He. unfold Py.strip. rewrite (lstrip_spaces lead _ Hl).
  destruct body as [|c body].
  - rewrite app_nil. assert (E : Py.lstrip trail = "").
    { clear -Ht. induction trail as [|c trail IH]; cbn [Rx.all Py.lstrip] in *;
        [reflexivity|]. apply andb_true_iff in Ht as [-> Ht]. auto. }
    now rewrite E.
  - rewrite (lstrip_head (String c body ++ trail)) by (rewrite app_cons; exact Hs).
    now apply rstrip_tail.
Qed.

(** What [int] accepts is made of the characters of a literal. *)
Lemma more_digits_chars s :
  forall d t, Py.int_more_digits s = (d, t) ->
    exists u, s = u ++ t /\ Rx.all Py.int_char u = true.
Proof.
  remember (String.length s) as n eqn:En. revert s En.
  induction n as [n IH0] using lt_wf_ind. intros s En.
  assert (IH : forall r, (String.length r < String.length s)%nat ->
            forall d t, Py.int_more_digits r = (d, t) ->
              exists u, r = u ++ t /\ Rx.all Py.int_char u = true).
  { intros r Hr. apply (IH0 (String.length r)); [lia | reflexivity]. }
  clear IH0 En.
  destruct s as [|c s]; cbn [Py.int_more_digits].
  - intros d t [= <- <-]. now exists "".
  - destruct (Py.isdigit c) eqn:Hc.
    + destruct (Py.int_more_digits s) as [d' t'] eqn:E. intros d t [= <- <-].
      destruct (IH s ltac:(cbn; lia) d' t' E) as (u & -> & Hu).
      exists (String c u). split; [now rewrite app_cons|].
      cbn [Rx.all]. unfold Py.int_char at 1. now rewrite Hc, Hu.
    + destruct (Ascii.eqb_spec c "_") as [->|Hne].
      * destruct s as [|c' s'].
        -- intros d t [= <- <-]. now exists "".
        -- destruct (Py.isdigit c') eqn:Hc'.
           ++ destruct (Py.int_more_digits s') as [d' t'] eqn:E.
              intros d t [= <- <-].
              destruct (IH s' ltac:(cbn; lia) d' t' E) as (u & -> & Hu).
              exists (String "_" (String c' u)). split; [now rewrite !app_cons|].
              cbn [Rx.all]. unfold Py.int_char at 2. rewrite Hc', Hu. reflexivity.
           ++ intros d t [= <- <-]. now exists "".
      * intros d t [= <- <-]. now exists "".
Qed.

Lemma all_app cls a b : Rx.all cls (a ++ b) = Rx.all cls a && Rx.all cls b.
Proof.
  induction a as [|c a IH]; rewrite ?app_nil, ?app_cons; cbn [Rx.all];
    [reflexivity | now rewrite IH, andb_assoc].
Qed.

Lemma int_space_chars t : Py.all_int_space t = true -> Rx.all Py.int_char t = true.
Proof.
  induction t as [|c t IH]; cbn [Py.all_int_space Rx.all]; [reflexivity|].
  intros H. apply andb_true_iff in H as [Hc Ht]. rewrite (IH Ht).
  unfold Py.int_char. rewrite Hc. now rewrite orb_true_r.
Qed.

Lemma int_unsigned_chars s n :
  Py.int_unsigned s = Some n -> Rx.all Py.int_char s = true.
Proof.
  destruct s as [|c s]; cbn [Py.int_unsigned]; [discriminate|].
  destruct (Py.isdigit c) eqn:Hc; [|discriminate].
  destruct (Py.int_more_digits s) as [d t] eqn:E.
  destruct (Py.all_int_space t) eqn:Ht; [|discriminate]. intros _.
  destruct (more_digits_chars s d t E) as (u & -> & Hu).
  cbn [Rx.all]. unfold Py.int_char at 1. rewrite Hc. cbn [orb andb].
  now rewrite all_app, Hu, (int_space_chars t Ht).
Qed.

Lemma int_chars s n : Py.int s = Some n -> Rx.all Py.int_char s = true.
Proof.
  unfold Py.int. induction s as [|c s IH]; cbn [Py.int_lstrip Py.int_unsigned];
    [discriminate|].
  destruct (Py.int_space c) eqn:Hc.
  - intros H. cbn [Rx.all]. rewrite (IH H), andb_true_r.
    unfold Py.int_char. rewrite Hc. now rewrite orb_true_r.
  - intros H.
    assert (Hs : forall r m, Py.int_unsigned r = Some m ->
              Rx.all Py.int_char r = true) by exact int_unsigned_chars.
    destruct (Ascii.eqb_spec c "+") as [->|Hp].
    { cbn [Rx.all]. now rewrite (Hs s n H). }
    destruct (Ascii.eqb_spec c "-") as [->|Hm].
    { destruct (Py.int_unsigned s) as [m|] eqn:E; [|discriminate H].
      cbn [Rx.all]. now rewrite (Hs s m E). }
    apply (Hs (String c s) n).
    destruct c as [[] [] [] [] [] [] [] []]; try exact H; congruence.
Qed.

(** [split] undoes [join] on parts free of the separator. *)
Lemma split_free sep w : Py.has_char sep w = false -> Py.split sep w = [w].
Proof.
  induction w as [|c w IH]; simpl; [reflexivity|].
  intros H. apply orb_false_iff in H as [Hc Hw].
  rewrite Hc, (IH Hw). reflexivity.
Qed.

Lemma split_app sep w rest :
  Py.has_char sep w = false ->
  Py.split sep (w ++ String sep EmptyString ++ rest) = w :: Py.split sep rest.
Proof.
  change (String sep EmptyString ++ rest) with (String sep rest).
  induction w as [|c w IH]; rewrite ?app_nil, ?app_cons; simpl.
  - intros _. now rewrite Ascii.eqb_refl.
  - intros H. apply orb_false_iff in H as [Hc Hw].
    rewrite Hc, (IH Hw). reflexivity.
Qed.

Lemma digits_free x d :
  Py.isdigit x = false -> Py.all_digits d = true -> Py.has_char x d = false.
Proof.
  intros Hx. induction d as [|c d IH]; simpl; [reflexivity|].
  intros H. apply andb_true_iff in H as [Hc Hd].
  rewrite (IH Hd), orb_false_r.
  destruct (Ascii.eqb_spec c x); [congruence | reflexivity].
Qed.

(** The digit run at the head of [d ++ t]. *)
Lemma span_digits_app d t :
  Py.all_digits d = true -> Py.starts_with_digit t = false ->
  Py.span_digits (d ++ t) = (d, t).
Proof.
  intros Hd Ht. induction d as [|c d IH]; rewrite ?app_nil, ?app_cons; simpl.
  - destruct t as [|c t]; [reflexivity|]. simpl in *. now rewrite Ht.
  - simpl in Hd. apply andb_true_iff in Hd as [Hc Hd].
    now rewrite Hc, (IH Hd).
Qed.

Lemma span_digits_spec s :
  let '(d, t) := Py.span_digits s in
  s = d ++ t /\ Py.all_digits d = true /\ Py.starts_with_digit t = false.
Proof.
  induction s as [|c s IH]; simpl; [auto|].
  destruct (Py.isdigit c) eqn:Hc.
  - destruct (Py.span_digits s) as [d t]. destruct IH as (-> & Hd & Ht).
    rewrite app_cons. simpl. now rewrite Hc.
  - simpl. now rewrite Hc.
Qed.

Lemma take_app_length d t : Py.take (String.length d) (d ++ t) = d.
Proof.
  induction d as [|c d IH]; rewrite ?app_nil, ?app_cons; simpl;
    [now destruct t | now rewrite IH].
Qed.

Lemma drop_app_length d t : Py.drop (String.length d) (d ++ t) = t.
Proof.
  induction d as [|c d IH]; rewrite ?app_nil, ?app_cons; simpl;
    [now destruct t | exact IH].
Qed.

End PyFacts.

(** ** The matcher on the PASV pattern *)

Module ReFacts.

Import PyFacts.

Lemma match_lit c p s :
  Re.match_here (Re.Lit c :: p) (String c s) = Re.match_here p s.
Proof. cbn [Re.match_here]. now rewrite Ascii.eqb_refl. Qed.

Lemma match_lit_app c p s :
  Re.match_here (Re.Lit c :: p) (String c EmptyString ++ s) = Re.match_here p s.
Proof. apply match_lit. Qed.

(** A greedy group takes a whole digit run when the rest then matches. *)
Lemma match_digits d t p g :
  Py.all_digits d = true -> d <> EmptyString -> Py.starts_with_digit t = false ->
  Re.match_here p t = Some g ->
  Re.match_here (Re.Digits :: p) (d ++ t) = Some (d :: g).
Proof.
  intros Hd Hne Ht Hp.
  change (Re.match_here (Re.Digits :: p) (d ++ t)) with
    (Re.backtrack
       (fun k => cons (Py.take k (d ++ t)) <$> Re.match_here p (Py.drop k (d ++ t)))
       (String.length (fst (Py.span_digits (d ++ t))))).
  rewrite (span_digits_app d t Hd Ht). cbn [fst].
  destruct (String.length d) as [|k] eqn:El.
  { destruct d; [congruence | discriminate El]. }
  cbn [Re.backtrack]. rewrite <- El, take_app_length, drop_app_length, Hp.
  reflexivity.
Qed.

Lemma head_after_digits x d t k :
  Py.isdigit x = false -> Py.all_digits d = true ->
  Py.startswith (String x EmptyString) t = false ->
  (k <= String.length d)%nat ->
  Py.startswith (String x EmptyString) (Py.drop k (d ++ t)) = false.
Proof.
  intros Hx Hd Ht. revert k.
  induction d as [|c d IH]; intros k Hk.
  - rewrite app_nil. destruct k; [|simpl in Hk; lia]. now destruct t.
  - rewrite app_cons. simpl in Hd. apply andb_true_iff in Hd as [Hc Hd].
    destruct k as [|k].
    + cbn [Py.drop]. rewrite startswith1.
      destruct (Ascii.eqb_spec x c); [congruence | reflexivity].
    + cbn [Py.drop]. apply IH; [assumption | simpl in Hk; lia].
Qed.

Lemma lit_fails x p s :
  Py.startswith (String x EmptyString) s = false ->
  Re.match_here (Re.Lit x :: p) s = None.
Proof.
  destruct s as [|c s]; [reflexivity|].
  rewrite startswith1. cbn [Re.match_here]. now intros ->.
Qed.

(** A group followed by a literal fails when the digit run at the head is
    not followed by that literal: giving back digits does not help. *)
Lemma match_digits_fails x p s :
  Py.isdigit x = false ->
  Py.startswith (String x EmptyString) (snd (Py.span_digits s)) = false ->
  Re.match_here (Re.Digits :: Re.Lit x :: p) s = None.
Proof.
  intros Hx Ht.
  change (Re.match_here (Re.Digits :: Re.Lit x :: p) s) with
    (Re.backtrack
       (fun k => cons (Py.take k s) <$> Re.match_here (Re.Lit x :: p) (Py.drop k s))
       (String.length (fst (Py.span_digits s)))).
  pose proof (span_digits_spec s) as Hs.
  destruct (Py.span_digits s) as [d t]. destruct Hs as (-> & Hd & _).
  cbn [fst snd] in *.
  assert (H : forall k, (k <= String.length d)%nat ->
    Re.backtrack
      (fun k => cons (Py.take k (d ++ t)) <$>
                Re.match_here (Re.Lit x :: p) (Py.drop k (d ++ t))) k = None).
  { induction k as [|k IH]; intros Hk; [reflexivity|].
    cbn [Re.backtrack].
    rewrite (lit_fails x p _ (head_after_digits x d t (S k) Hx Hd Ht Hk)).
    cbn. apply IH. lia. }
  apply H. lia.
Qed.

Lemma quiet_span s rest :
  Protocol.quiet s = true -> Py.starts_with_digit s = true ->
  Py.startswith "," (snd (Py.span_digits (s ++ rest))) = false.
Proof.
  induction s as [|c r IH]; [discriminate 2|].
  intros Hq Hc. cbn [Py.starts_with_digit] in Hc. cbn [Protocol.quiet] in Hq. rewrite Hc in Hq.
  rewrite app_cons. cbn [Py.span_digits]. rewrite Hc.
  destruct r as [|c' r']; [discriminate Hq|].
  apply andb_true_iff in Hq as [Hne Hq].
  destruct (Py.isdigit c') eqn:Hc'.
  - specialize (IH Hq Hc').
    destruct (Py.span_digits (String c' r' ++ rest)) as [d t]. exact IH.
  - rewrite app_cons. cbn [Py.span_digits]. rewrite Hc'. cbn [snd].
    rewrite startswith1, Ascii.eqb_sym.
    now apply negb_true_iff.
Qed.

Lemma search_skip p pre rest :
  Protocol.quiet pre = true ->
  Re.search (Re.Digits :: Re.Lit "," :: p) (pre ++ rest)
  = Re.search (Re.Digits :: Re.Lit "," :: p) rest.
Proof.
  induction pre as [|c r IH]; intros Hq; [reflexivity|].
  assert (Hf : Re.match_here (Re.Digits :: Re.Lit "," :: p) (String c r ++ rest) = None).
  { destruct (Py.isdigit c) eqn:Hc.
    - apply match_digits_fails; [reflexivity|].
      apply quiet_span; [assumption | exact Hc].
    - rewrite app_cons.
      change (Re.match_here (Re.Digits :: Re.Lit "," :: p) (String c (r ++ rest))) with
        (Re.backtrack
           (fun k => cons (Py.take k (String c (r ++ rest))) <$>
                     Re.match_here (Re.Lit "," :: p) (Py.drop k (String c (r ++ rest))))
           (String.length (fst (Py.span_digits (String c (r ++ rest)))))).
      simpl Py.span_digits. rewrite Hc. reflexivity. }
  simpl in Hq. apply andb_true_iff in Hq as [_ Hq].
  rewrite app_cons in *.
  change (Re.search (Re.Digits :: Re.Lit "," :: p) (String c (r ++ rest))) with
    (match Re.match_here (Re.Digits :: Re.Lit "," :: p) (String c (r ++ rest)) with
     | Some g => Some g
     | None => Re.search (Re.Digits :: Re.Lit "," :: p) (r ++ rest)
     end).
  rewrite Hf. now apply IH.
Qed.

Lemma search_here p s g :
  Re.match_here p s = Some g -> Re.search p s = Some g.
Proof. intros H. destruct s; simpl; now rewrite H. Qed.

End ReFacts.

(** ** common/protocol.py: the codec *)

Module ProtocolFacts.

Import PyFacts ReFacts Protocol.

Lemma parse_response_value (response : string) :
  parse_response response
  = Ok match Py.int (Py.take 3 response) with
       | Some code => (Some code, Py.strip (Py.drop 3 response))
       | None => (None, response)
       end.
Proof.
  unfold parse_response, int_.
  destruct (Py.int (Py.take 3 response)); reflexivity.
Qed.

(** C10. [parse_response] returns on every string, never raising: the pair
    of the integer read from the first three characters and the stripped
    remainder when [int] accepts those characters, and otherwise the pair
    of [None] and the string itself.  So a reply that begins with three
    digits gives the number they write and what follows them without the
    white space at its two ends; and a reply with a character among its
    first three that no [int] literal holds is returned whole beside
    [None]. *)
Theorem parse_response_total :
  (forall response,
      parse_response response
      = Ok match Py.int (Py.take 3 response) with
           | Some code => (Some code, Py.strip (Py.drop 3 response))
           | None => (None, response)
           end)
  /\ (forall d1 d2 d3 lead body trail,
         Py.isdigit d1 = true -> Py.isdigit d2 = true -> Py.isdigit d3 = true ->
         Rx.all Py.isspace lead = true -> Rx.all Py.isspace trail = true ->
         Py.starts_with_space body = false -> Py.ends_with_space body = false ->
         parse_response (String d1 (String d2 (String d3 (lead ++ body ++ trail))))
         = Ok (Some (100 * Py.digit d1 + 10 * Py.digit d2 + Py.digit d3), body))
  /\ (forall response,
         Rx.all Py.int_char (Py.take 3 response) = false ->
         parse_response response = Ok (None, response)).
Proof.
  split; [exact parse_response_value|]. split.
  - intros d1 d2 d3 lead body trail H1 H2 H3 Hl Ht Hs He.
    rewrite parse_response_value. cbn [Py.take Py.drop].
    rewrite (int_three_digits d1 d2 d3 H1 H2 H3).
    now rewrite (strip_spaces lead body trail Hl Ht Hs He).
  - intros response H. rewrite parse_response_value.
    destruct (Py.int (Py.take 3 response)) as [n|] eqn:E; [|reflexivity].
    apply int_chars in E. congruence.
Qed.

Lemma parse_response_total_witness :
  Py.isdigit "2" = true /\ Py.isdigit "0" = true
  /\ Rx.all Py.isspace " " = true
  /\ Rx.all Py.isspace (String (ascii_of_nat 13) (String (ascii_of_nat 10) "")) = true
  /\ Py.starts_with_space "Service ready" = false
  /\ Py.ends_with_space "Service ready" = false
  /\ parse_response
       (String "2" (String "2" (String "0"
          (" " ++ "Service ready"
           ++ String (ascii_of_nat 13) (String (ascii_of_nat 10) "")))))
     = Ok (Some (100 * Py.digit "2" + 10 * Py.digit "2" + Py.digit "0"),
           "Service ready")
  /\ Rx.all Py.int_char (Py.take 3 "OK done") = false
  /\ parse_response "OK done" = Ok (None, "OK done").
Proof.
  assert (H2 : Py.isdigit "2" = true) by reflexivity.
  assert (H0 : Py.isdigit "0" = true) by reflexivity.
  assert (Hl : Rx.all Py.isspace " " = true) by reflexivity.
  assert (Ht : Rx.all Py.isspace
                 (String (ascii_of_nat 13) (String (ascii_of_nat 10) "")) = true)
    by reflexivity.
  assert (Hs : Py.starts_with_space "Service ready" = false) by reflexivity.
  assert (He : Py.ends_with_space "Service ready" = false) by reflexivity.
  assert (Hc : Rx.all Py.int_char (Py.take 3 "OK done") = false) by reflexivity.
  repeat (split; [assumption|]). split.
  - exact (proj1 (proj2 parse_response_total) _ _ _ _ _ _ H2 H2 H0 Hl Ht Hs He).
  - split; [exact Hc|].
    exact (proj2 (proj2 parse_response_total) "OK done" Hc).
Defined.

Lemma join_dots a b c d :
  Py.join "." [a; b; c; d] = a ++ "." ++ b ++ "." ++ c ++ "." ++ d.
Proof. reflexivity. Qed.

Lemma split_dotted a b c d :
  0 <= a -> 0 <= b -> 0 <= c -> 0 <= d ->
  Py.split "." (dotted_quad a b c d) = [Py.str a; Py.str b; Py.str c; Py.str d].
Proof.
  intros Ha Hb Hc Hd. unfold dotted_quad. cbn [map]. rewrite join_dots.
  assert (F : forall n, 0 <= n -> Py.has_char "." (Py.str n) = false).
  { intros n Hn. apply digits_free; [reflexivity | now apply str_digits]. }
  rewrite !split_app by auto. now rewrite split_free by auto.
Qed.

Lemma port_argument a b c d port :
  0 <= a -> 0 <= b -> 0 <= c -> 0 <= d ->
  build_port_command (dotted_quad a b c d) port
  = Py.str a ++ "," ++ Py.str b ++ "," ++ Py.str c ++ "," ++ Py.str d
    ++ "," ++ Py.str (port / 256) ++ "," ++ Py.str (port mod 256).
Proof.
  intros Ha Hb Hc Hd. unfold build_port_command. cbv zeta.
  rewrite split_dotted by assumption.
  change (Py.join "," [Py.str a; Py.str b; Py.str c; Py.str d])
    with (Py.str a ++ "," ++ Py.str b ++ "," ++ Py.str c ++ "," ++ Py.str d).
  now rewrite !app_assoc.
Qed.

(** The pattern matches six printed numbers separated by commas, taking
    each number whole. *)
Lemma match_six n1 n2 n3 n4 n5 n6 suf :
  0 <= n1 -> 0 <= n2 -> 0 <= n3 -> 0 <= n4 -> 0 <= n5 -> 0 <= n6 ->
  Py.starts_with_digit suf = false ->
  Re.match_here pasv_pattern
    (Py.str n1 ++ "," ++ Py.str n2 ++ "," ++ Py.str n3 ++ "," ++ Py.str n4
     ++ "," ++ Py.str n5 ++ "," ++ Py.str n6 ++ suf)
  = Some [Py.str n1; Py.str n2; Py.str n3; Py.str n4; Py.str n5; Py.str n6].
Proof.
  intros H1 H2 H3 H4 H5 H6 Hs. unfold pasv_pattern.
  do 5 (apply match_digits;
        [now apply str_digits | now apply str_nonempty | reflexivity |];
        rewrite match_lit_app).
  apply match_digits;
    [now apply str_digits | now apply str_nonempty | assumption | reflexivity].
Qed.

(** C9, as amended.  For every IPv4 address written as four decimal octets
    without leading zeros and every port in [0, 65535], a reply that
    embeds the argument built by [build_port_command] between a prefix in
    which no digit is followed by a comma and which does not end in a
    digit, and a suffix that does not begin with a digit, is parsed by
    [parse_pasv_response] to exactly that address and port. *)
Theorem pasv_port_roundtrip a b c d port pre suf :
  octet a -> octet b -> octet c -> octet d -> 0 <= port <= 65535 ->
  quiet pre = true -> Py.starts_with_digit suf = false ->
  parse_pasv_response
    (pre ++ build_port_command (dotted_quad a b c d) port ++ suf)
  = Ok (dotted_quad a b c d, port).
Proof.
  unfold octet. intros Ha Hb Hc Hd Hp Hpre Hsuf.
  assert (Hhi : 0 <= port / 256) by (apply Z.div_pos; lia).
  assert (Hlo : 0 <= port mod 256) by (apply Z.mod_pos_bound; lia).
  assert (Hhi' : port / 256 <= 255)
    by (apply Z.lt_succ_r, Z.div_lt_upper_bound; lia).
  assert (Hlo' : port mod 256 <= 255)
    by (pose proof (Z.mod_pos_bound port 256); lia).
  rewrite port_argument by lia.
  unfold parse_pasv_response.
  rewrite (search_skip (tl (tl pasv_pattern)) pre _ Hpre
             : Re.search pasv_pattern _ = Re.search pasv_pattern _).
  rewrite !app_assoc.
  rewrite (search_here _ _ _
             (match_six a b c d (port / 256) (port mod 256) suf
                ltac:(lia) ltac:(lia) ltac:(lia) ltac:(lia) Hhi Hlo Hsuf)).
  cbn [mapM_]. unfold int_.
  rewrite !int_str_byte by lia. cbn [rbind firstn].
  change (index_ [a; b; c; d; port / 256; port mod 256] 4) with (Ok (port / 256)).
  change (index_ [a; b; c; d; port / 256; port mod 256] 5) with (Ok (port mod 256)).
  cbn [rbind]. unfold dotted_quad. do 2 f_equal.
  rewrite Z.shiftl_mul_pow2 by lia. change (2 ^ 8) with 256.
  rewrite (Z.div_mod port 256) at 3 by lia. lia.
Qed.

Lemma pasv_port_roundtrip_witness :
  parse_pasv_response
    ("227 Entering Passive Mode ("
     ++ build_port_command (dotted_quad 127 0 0 1) 1024 ++ ").")
  = Ok (dotted_quad 127 0 0 1, 1024).
Proof.
  apply pasv_port_roundtrip; unfold octet; try lia; reflexivity.
Defined.

(** C9 as stated fails: a reply that contains the argument right after a
    digit is parsed to another address. *)
Lemma pasv_port_roundtrip_counterexample :
  dotted_quad 127 0 0 1 = "127.0.0.1"
  /\ build_port_command "127.0.0.1" 21 = "127,0,0,1,0,21"
  /\ parse_pasv_response ("9" ++ build_port_command "127.0.0.1" 21)
     = Ok ("9127.0.0.1", 21)
  /\ parse_pasv_response ("9" ++ build_port_command "127.0.0.1" 21)
     <> Ok ("127.0.0.1", 21).
Proof. repeat split; try (vm_compute; reflexivity). vm_compute. discriminate. Qed.

End ProtocolFacts.

(** ** client/ftp_client.py: framing, masking and the resume test *)

Module ClientFacts.

Import PyFacts Protocol Client.

Lemma fourth_blank_length line :
  String.eqb (fourth line) " " = true -> (3 <? String.length line)%nat = true.
Proof.
  intros H. apply String.eqb_eq in H. apply Nat.ltb_lt.
  destruct line as [|a [|b [|c [|d r]]]]; try discriminate H.
  simpl. lia.
Qed.

Lemma fourth_blank_nonempty line :
  String.eqb (fourth line) " " = true -> String.eqb line "" = false.
Proof. destruct line; [discriminate | reflexivity]. Qed.

Lemma read_loop_lines lines :
  forall acc c last rest,
    forallb continues lines = true ->
    String.eqb (fourth last) " " = true ->
    read_loop (map Data lines ++ Data last :: rest) acc c
    = if Py.startswith "5" last
      then (Raise (CommandError (Py.strip last)),
            push_log ERROR ("服务器返回错误: " ++ Py.strip last)
              (set_incoming rest c))
      else (Ok (acc ++ whole lines last), set_incoming rest c).
Proof.
  induction lines as [|l lines IH]; intros acc c last rest Hc Hl.
  - cbn [map app read_loop whole fold_right].
    rewrite (fourth_blank_nonempty last Hl).
    unfold is_error_line, is_last_line.
    rewrite Hl, (fourth_blank_length last Hl), andb_true_r.
    now destruct (Py.startswith "5" last).
  - cbn [forallb] in Hc. apply andb_true_iff in Hc as [Hl1 Hc].
    unfold continues in Hl1. apply andb_true_iff in Hl1 as [Hne Hf].
    apply negb_true_iff in Hne, Hf.
    change (map Data (l :: lines) ++ Data last :: rest)%list
      with (Data l :: (map Data lines ++ Data last :: rest))%list.
    cbn [read_loop]. rewrite Hne. unfold is_error_line, is_last_line.
    rewrite Hf, !andb_false_r.
    rewrite (IH (acc ++ l) c last rest Hc Hl).
    cbn [whole fold_right]. now rewrite app_assoc.
Qed.

(** The test for the last line looks at the fourth character only. *)
Lemma is_last_line_fourth line :
  is_last_line line = String.eqb (fourth line) " ".
Proof.
  unfold is_last_line. destruct (String.eqb (fourth line) " ") eqn:E.
  - now rewrite (fourth_blank_length line E).
  - apply andb_false_r.
Qed.

(** Lines whose fourth character is not a blank never end a reply: when
    nothing else arrives the call runs into the timeout of the socket. *)
Lemma read_loop_unfinished lines :
  forall acc c,
    forallb continues lines = true ->
    read_loop (map Data lines) acc c = (Raise TimeoutError, set_incoming [] c).
Proof.
  induction lines as [|l lines IH]; intros acc c Hc; [reflexivity|].
  cbn [forallb] in Hc. apply andb_true_iff in Hc as [Hl Hc].
  unfold continues in Hl. apply andb_true_iff in Hl as [Hne Hf].
  apply negb_true_iff in Hne, Hf.
  cbn [map read_loop]. rewrite Hne. unfold is_error_line, is_last_line.
  rewrite Hf, !andb_false_r. now apply IH.
Qed.

Lemma read_response_unfinished c lines :
  cmd_socket c = true -> connected c = true ->
  incoming c = map Data lines -> forallb continues lines = true ->
  fst (_read_response c) = Raise TimeoutError.
Proof.
  intros Hs Hc Hin Hl. unfold _read_response. rewrite Hs, Hc, Hin. cbn [negb].
  now rewrite (read_loop_unfinished lines "" c Hl).
Qed.

(** C1, as amended.  [_read_response] takes each delivery of the control
    socket for one line.  A line ends the reply exactly when its fourth
    character is a blank, whatever its first three characters are; the
    lines before it, whose fourth character is not a blank, are kept as
    continuation.  When the last line begins with '5' the call raises
    [CommandError] with that line stripped; otherwise the lines are
    returned whole, and the recorded code is what [int] reads from the
    first three characters of the reply ([None] when it reads nothing). *)
Theorem read_response_framing c lines last rest :
  cmd_socket c = true -> connected c = true ->
  incoming c = (map Data lines ++ Data last :: rest)%list ->
  forallb continues lines = true ->
  String.eqb (fourth last) " " = true ->
  let reply := whole lines last in
  let (r, c') := _read_response c in
  incoming c' = rest
  /\ if Py.startswith "5" last
     then r = Raise (CommandError (Py.strip last))
     else r = Ok reply
          /\ last_response_code c' = Py.int (Py.take 3 reply)
          /\ last_response c' = Some (Py.strip reply).
Proof.
  intros Hs Hc Hin Hl Hf reply. unfold _read_response.
  rewrite Hs, Hc, Hin. cbn [negb].
  rewrite (read_loop_lines lines "" c last rest Hl Hf).
  destruct (Py.startswith "5" last).
  - split; reflexivity.
  - rewrite app_nil. fold reply.
    rewrite ProtocolFacts.parse_response_value.
    destruct (Py.int (Py.take 3 reply)); repeat split; reflexivity.
Qed.

Lemma read_response_framing_witness :
  let (r, c') :=
    _read_response
      (session [Data "220-Welcome"; Data "220 Ready"; Data "331 next"]) in
  incoming c' = [Data "331 next"]
  /\ r = Ok "220-Welcome220 Ready"
  /\ last_response_code c' = Some 220
  /\ last_response c' = Some "220-Welcome220 Ready".
Proof.
  exact (read_response_framing
           (session [Data "220-Welcome"; Data "220 Ready"; Data "331 next"])
           ["220-Welcome"] "220 Ready" [Data "331 next"]
           eq_refl eq_refl eq_refl eq_refl eq_refl).
Defined.

(** C1 as stated fails: a line that does not begin with three digits ends
    the reply when its fourth character is a blank, and a last line of a
    5xx reply is not returned. *)
Lemma read_response_framing_counterexample :
  spec_final_line "abc def" = false
  /\ fst (_read_response (session [Data "abc def"; Data "220 Ready"]))
     = Ok "abc def"
  /\ spec_final_line "550 No such file" = true
  /\ fst (_read_response (session [Data "550 No such file"]))
     = Raise (CommandError "550 No such file").
Proof. vm_compute. repeat split. Qed.

(** *** Masking of the password *)

Lemma decode_encode s : decode_utf8 (encode_utf8 s) = s.
Proof.
  induction s as [|c s IH]; [reflexivity|].
  destruct c as [[] [] [] [] [] [] [] []];
    cbn [encode_utf8]; cbv zeta;
    match goal with
    | |- context [(Py.code ?a <? 128)%N] =>
        let b := eval vm_compute in (Py.code a <? 128)%N in
        change (Py.code a <? 128)%N with b; cbv iota
    end;
    cbn [decode_utf8]; cbv zeta;
    match goal with
    | |- context [(Py.code ?a <? 128)%N] =>
        let b := eval vm_compute in (Py.code a <? 128)%N in
        change (Py.code a <? 128)%N with b; cbv iota
    end;
    rewrite IH; f_equal.
Qed.

Lemma encode_utf8_inj s t : encode_utf8 s = encode_utf8 t -> s = t.
Proof.
  intros H. rewrite <- (decode_encode s), <- (decode_encode t). now rewrite H.
Qed.

Lemma append_inj_l (a s t : string) : a ++ s = a ++ t -> s = t.
Proof.
  induction a as [|x a IH]; [trivial|].
  rewrite !app_cons. intros H. injection H as H. auto.
Qed.

Lemma append_inj_r (a s t : string) : s ++ a = t ++ a -> s = t.
Proof.
  revert t. induction s as [|x s IH]; intros [|y t] H.
  - reflexivity.
  - exfalso. apply (f_equal String.length) in H.
    rewrite !length_app in H. simpl in H. lia.
  - exfalso. apply (f_equal String.length) in H.
    rewrite !length_app in H. simpl in H. lia.
  - rewrite !app_cons in H. injection H as -> H. f_equal. auto.
Qed.

(** C8. Whatever follows "PASS " in a command, [_send_command] logs the
    same text: the log after the call is the same for any two passwords,
    and when the command is sent it is the former log followed by the one
    record "PASS ********", while the bytes handed to the socket are the
    encoding of the command with the password in it, which differ for
    different passwords. *)
Theorem send_pass_masked (p1 p2 : string) (c : FTPClient) :
  let r1 := _send_command ("PASS " ++ p1) c in
  let r2 := _send_command ("PASS " ++ p2) c in
  log (snd r1) = log (snd r2)
  /\ (fst r1 = Ok tt ->
      log (snd r1) = (log c ++ [masked])%list
      /\ sent (snd r1) = (sent c ++ [encode_utf8 ("PASS " ++ p1 ++ CRLF)])%list)
  /\ (p1 <> p2 ->
      encode_utf8 ("PASS " ++ p1 ++ CRLF) <> encode_utf8 ("PASS " ++ p2 ++ CRLF)).
Proof.
  cbv zeta. unfold _send_command.
  change (Py.startswith "PASS " ("PASS " ++ p1)) with true.
  change (Py.startswith "PASS " ("PASS " ++ p2)) with true.
  cbv iota. split; [|split].
  - destruct (cmd_socket c), (connected c); try reflexivity.
    cbn [negb]. cbn [send_faults push_log].
    destruct (send_faults c) as [|[e|] rest]; reflexivity.
  - destruct (cmd_socket c), (connected c); try discriminate.
    cbn [negb]. cbn [send_faults push_log].
    destruct (send_faults c) as [|[e|] rest]; try discriminate;
      intros _; split; reflexivity.
  - intros Hne H. apply Hne. apply encode_utf8_inj in H.
    rewrite <- !app_assoc in H.
    apply append_inj_r in H. now apply append_inj_l in H.
Qed.

Lemma send_pass_masked_witness :
  log (snd (_send_command ("PASS " ++ "hunter2") (session []))) = [masked]
  /\ sent (snd (_send_command ("PASS " ++ "hunter2") (session [])))
     = [encode_utf8 ("PASS " ++ "hunter2" ++ CRLF)]
  /\ encode_utf8 ("PASS " ++ "hunter2" ++ CRLF)
     <> encode_utf8 ("PASS " ++ "letmein" ++ CRLF).
Proof.
  destruct (send_pass_masked "hunter2" "letmein" (session [])) as (_ & H & Hd).
  destruct (H eq_refl) as [Hl Hs].
  split; [exact Hl | split; [exact Hs | apply Hd; discriminate]].
Defined.

(** *** The resume test comes before any data channel *)

Lemma keeps_ret {A} (a : A) : keeps (ret a).
Proof. intros c. reflexivity. Qed.

Lemma keeps_raise {A} e : keeps (@raise A e).
Proof. intros c. reflexivity. Qed.

Lemma keeps_get {A} (f : FTPClient -> A) : keeps (get f).
Proof. intros c. reflexivity. Qed.

Lemma keeps_lift {A} (r : result A) : keeps (lift r).
Proof. intros c. reflexivity. Qed.

Lemma keeps_bind {A B} (m : M A) (k : A -> M B) :
  keeps m -> (forall a, keeps (k a)) -> keeps (bind m k).
Proof.
  intros Hm Hk c. unfold bind. specialize (Hm c).
  destruct (m c) as [[a|e] c']; cbn [snd] in *.
  - now rewrite Hk.
  - exact Hm.
Qed.

Lemma keeps_try_catch {A} (m : M A) handles handler :
  keeps m -> (forall e, keeps (handler e)) -> keeps (try_catch m handles handler).
Proof.
  intros Hm Hh c. unfold try_catch. specialize (Hm c).
  destruct (m c) as [[a|e] c']; cbn [snd] in *; [exact Hm|].
  destruct (handles e); [now rewrite Hh | exact Hm].
Qed.

Lemma keeps_send command : keeps (_send_command command).
Proof.
  intros c. unfold _send_command.
  destruct (cmd_socket c), (connected c); try reflexivity.
  cbn [negb]. cbn [send_faults push_log].
  destruct (send_faults c) as [|[e|] rest]; reflexivity.
Qed.

Lemma keeps_read_loop events :
  forall acc c, data_channels (snd (read_loop events acc c)) = data_channels c.
Proof.
  induction events as [|ev events IH]; intros acc c; [reflexivity|].
  destruct ev; try reflexivity.
  cbn [read_loop]. destruct (String.eqb line ""); [reflexivity|].
  destruct (is_error_line line); [reflexivity|].
  destruct (is_last_line line); [reflexivity | apply IH].
Qed.

Lemma keeps_read : keeps _read_response.
Proof.
  intros c. unfold _read_response.
  destruct (cmd_socket c), (connected c); try reflexivity.
  cbn [negb]. pose proof (keeps_read_loop (incoming c) "" c) as H.
  destruct (read_loop (incoming c) "" c) as [[r|e] c']; cbn [snd] in *; [|exact H].
  destruct (parse_response r) as [[code msg]|e]; exact H.
Qed.

Lemma keeps_code_class : keeps code_class.
Proof. intros c. unfold code_class. now destruct (last_response_code c). Qed.

Lemma keeps_set_transfer_mode mode : keeps (set_transfer_mode mode).
Proof.
  unfold set_transfer_mode.
  apply keeps_bind; [apply keeps_get | intros current].
  destruct (mode_eqb current mode); [apply keeps_ret|].
  apply keeps_bind; [apply keeps_send | intros _].
  apply keeps_bind; [apply keeps_read | intros response].
  apply keeps_bind; [apply keeps_get | intros ok].
  destruct ok; cbn [negb]; [|apply keeps_raise].
  intros c. reflexivity.
Qed.

Lemma keeps_size remote_path : keeps (size remote_path).
Proof.
  unfold size.
  apply keeps_bind; [apply keeps_send | intros _].
  apply keeps_bind; [apply keeps_read | intros response].
  apply keeps_bind; [apply keeps_code_class | intros class].
  destruct (negb (class =? POSITIVE_COMPLETION)); [apply keeps_raise | apply keeps_lift].
Qed.

Lemma keeps_step {A} (m : M A) c r c' :
  keeps m -> m c = (r, c') -> data_channels c' = data_channels c.
Proof. intros H E. specialize (H c). now rewrite E in H. Qed.

Section Transfers.

Variable splitext : string -> string * string.
Variables abspath dirname : string -> string.
Variable exists_ : string -> bool.
Variable getsize : string -> result Z.
Variable makedirs : string -> result unit.
Variables receive_file send_file :
  string -> bool -> Z -> Z -> data_endpoint -> M Z.
Variable elapsed_time : M Q.

Let download :=
  download splitext abspath dirname exists_ getsize makedirs
    receive_file elapsed_time.
Let upload := upload splitext exists_ getsize send_file elapsed_time.

Lemma download_resume_skip remote_path local_path mode verify
    c c1 c2 remote_size local_size :
  logged_in c = true ->
  set_transfer_mode (auto_mode splitext mode remote_path) c = (Ok tt, c1) ->
  exists_ (dirname (abspath local_path)) = true
  \/ makedirs (dirname (abspath local_path)) = Ok tt ->
  size remote_path c1 = (Ok remote_size, c2)
  \/ (exists msg, size remote_path c1 = (Raise (CommandError msg), c2))
     /\ remote_size = 0 ->
  exists_ (abspath local_path) = true ->
  getsize (abspath local_path) = Ok local_size ->
  remote_size <= local_size ->
  download remote_path local_path mode true verify c
  = (Ok (true, remote_size, 0%Q), c2)
  /\ data_channels c2 = data_channels c.
Proof.
  intros Hli Hmode Hdir Hsize Hex Hget Hle. split.
  - unfold download, Client.download, bind, get, try_catch.
    rewrite Hli. cbn [negb]. rewrite Hmode.
    assert (Hd : (if negb (exists_ (dirname (abspath local_path)))
                  then lift (makedirs (dirname (abspath local_path)))
                  else ret tt) c1 = (Ok tt, c1)).
    { destruct Hdir as [-> | Hmk]; [reflexivity|].
      destruct (exists_ (dirname (abspath local_path))); [reflexivity|].
      cbn [negb]. unfold lift. now rewrite Hmk. }
    rewrite Hd.
    assert (Hr : match size remote_path c1 with
                 | (Ok a, c') => (Ok a, c')
                 | (Raise e, c') =>
                     if match e with CommandError _ => true | _ => false end
                     then ret 0 c' else (Raise e, c')
                 end = (Ok remote_size, c2)).
    { destruct Hsize as [-> | [[msg ->] ->]]; reflexivity. }
    rewrite Hr. rewrite Hex. cbn [andb]. unfold lift. rewrite Hget.
    unfold ret. replace (local_size >=? remote_size) with true; [reflexivity|].
    symmetry. apply Z.geb_le. exact Hle.
  - transitivity (data_channels c1).
    + destruct Hsize as [H | [[msg H] _]];
        exact (keeps_step _ _ _ _ (keeps_size remote_path) H).
    + exact (keeps_step _ _ _ _ (keeps_set_transfer_mode _) Hmode).
Qed.

Lemma upload_resume_skip local_path remote_path mode verify
    c c1 c2 remote_size local_size :
  logged_in c = true ->
  exists_ local_path = true ->
  getsize local_path = Ok local_size ->
  set_transfer_mode (auto_mode splitext mode local_path) c = (Ok tt, c1) ->
  size remote_path c1 = (Ok remote_size, c2) ->
  local_size <= remote_size ->
  upload local_path remote_path mode true verify c
  = (Ok (true, local_size, 0%Q), c2)
  /\ data_channels c2 = data_channels c.
Proof.
  intros Hli Hex Hget Hmode Hsize Hle. split.
  - unfold upload, Client.upload, bind, get, try_catch, lift.
    rewrite Hli. cbn [negb]. rewrite Hex. cbn [negb]. rewrite Hget, Hmode, Hsize.
    unfold ret. replace (remote_size >=? local_size) with true; [reflexivity|].
    symmetry. apply Z.geb_le. exact Hle.
  - transitivity (data_channels c1).
    + exact (keeps_step _ _ _ _ (keeps_size remote_path) Hsize).
    + exact (keeps_step _ _ _ _ (keeps_set_transfer_mode _) Hmode).
Qed.

(** C7. With [resume] set, [download] returns success with the remote
    size and no elapsed time, without opening a data channel, when the
    local file exists and is at least as large as the remote size (the
    answer to SIZE, or 0 when SIZE is refused); and [upload] returns
    success with the local size and no elapsed time, without opening a
    data channel, when the remote size is at least the size of the
    local file.  The session is logged in and the steps before the test
    (transfer type, local directory, SIZE) go through. *)
Theorem resume_skips_transfer :
  (forall remote_path local_path mode verify c c1 c2 remote_size local_size,
      logged_in c = true ->
      set_transfer_mode (auto_mode splitext mode remote_path) c
      = (Ok tt, c1) ->
      exists_ (dirname (abspath local_path)) = true
      \/ makedirs (dirname (abspath local_path)) = Ok tt ->
      size remote_path c1 = (Ok remote_size, c2)
      \/ (exists msg, size remote_path c1 = (Raise (CommandError msg), c2))
         /\ remote_size = 0 ->
      exists_ (abspath local_path) = true ->
      getsize (abspath local_path) = Ok local_size ->
      remote_size <= local_size ->
      download remote_path local_path mode true verify c
      = (Ok (true, remote_size, 0%Q), c2)
      /\ data_channels c2 = data_channels c)
  /\ (forall local_path remote_path mode verify c c1 c2 remote_size local_size,
         logged_in c = true ->
         exists_ local_path = true ->
         getsize local_path = Ok local_size ->
         set_transfer_mode (auto_mode splitext mode local_path) c
         = (Ok tt, c1) ->
         size remote_path c1 = (Ok remote_size, c2) ->
         local_size <= remote_size ->
         upload local_path remote_path mode true verify c
         = (Ok (true, local_size, 0%Q), c2)
         /\ data_channels c2 = data_channels c).
Proof.
  split; intros.
  - eapply download_resume_skip; eassumption.
  - eapply upload_resume_skip; eassumption.
Qed.

End Transfers.

Lemma resume_skips_transfer_witness :
  let lost : string -> bool -> Z -> Z -> data_endpoint -> M Z :=
    fun _ _ _ _ _ => raise OSError in
  let c := session [Data "213 10"] in
  let c2 := snd (size "a.bin" c) in
  (download (fun p => (p, "")) (fun p => p) (fun _ => "/tmp") (fun _ => true)
     (fun _ => Ok 10) (fun _ => Ok tt) lost (ret 0%Q)
     "a.bin" "/tmp/a.bin" None true false c
   = (Ok (true, 10, 0%Q), c2)
   /\ data_channels c2 = data_channels c)
  /\ (upload (fun p => (p, "")) (fun _ => true) (fun _ => Ok 10) lost (ret 0%Q)
        "/tmp/a.bin" "a.bin" None true false c
      = (Ok (true, 10, 0%Q), c2)
      /\ data_channels c2 = data_channels c).
Proof.
  intros lost c c2. split.
  - refine (proj1 (resume_skips_transfer (fun p => (p, "")) (fun p => p)
                     (fun _ => "/tmp") (fun _ => true) (fun _ => Ok 10)
                     (fun _ => Ok tt) lost lost (ret 0%Q))
              "a.bin" "/tmp/a.bin" None false c c c2 10 10 _ _ _ _ _ _ _).
    + reflexivity.
    + reflexivity.
    + left. reflexivity.
    + left. vm_compute. reflexivity.
    + reflexivity.
    + reflexivity.
    + lia.
  - refine (proj2 (resume_skips_transfer (fun p => (p, "")) (fun p => p)
                     (fun _ => "/tmp") (fun _ => true) (fun _ => Ok 10)
                     (fun _ => Ok tt) lost lost (ret 0%Q))
              "/tmp/a.bin" "a.bin" None false c c c2 10 10 _ _ _ _ _ _).
    + reflexivity.
    + reflexivity.
    + reflexivity.
    + reflexivity.
    + vm_compute. reflexivity.
    + lia.
Defined.

End ClientFacts.

(** ** The pools: bound and exclusion *)

Module ConnectionPoolFacts.

Import ConnectionPool.
Local Open Scope list_scope.

Lemma take_idle_spec alive entries :
  forall closed r rest closed',
    take_idle alive entries closed = (r, rest, closed') ->
    match r with
    | Some c => exists before t, entries = before ++ (c, t) :: rest
    | None => rest = []
    end.
Proof.
  induction entries as [|[c t] entries IH]; intros closed r rest closed' H.
  - injection H as <- <- _. reflexivity.
  - cbn [take_idle] in H. destruct (alive c).
    + injection H as <- <- _. exists [], t. reflexivity.
    + apply IH in H. destruct r as [c'|]; [|exact H].
      destruct H as (before & t' & ->). exists ((c, t) :: before), t'. reflexivity.
Qed.

Lemma idle_after (before rest : list (nat * Q)) c t x :
  x ∈ map fst rest -> x ∈ map fst (before ++ (c, t) :: rest).
Proof.
  intros H. rewrite map_app. apply elem_of_app. right.
  cbn [map fst]. apply elem_of_cons. now right.
Qed.

Lemma idle_taken (before rest : list (nat * Q)) c t :
  c ∈ map fst (before ++ (c, t) :: rest).
Proof.
  rewrite map_app. apply elem_of_app. right. cbn [map fst].
  apply elem_of_cons. now left.
Qed.

Lemma start_invariant maxc timeout : 0 <= maxc -> invariant (start maxc timeout).
Proof.
  intros H. split; cbn.
  - reflexivity.
  - rewrite size_empty. cbn. lia.
  - constructor.
  - intros c Hc. inversion Hc.
  - intros c Hc. inversion Hc.
  - intros c Hc. now apply not_elem_of_empty in Hc.
Qed.

Lemma checkout_invariant alive failure s s' :
  invariant s -> step (Checkout alive failure) s = Some s' -> invariant s'.
Proof.
  intros [Hcount Hbound Hnd Hex Hik Hhk]. destruct s as [p h].
  unfold step, get_connection, idle in *. cbn [the_pool held] in *.
  destruct (take_idle alive (pool p) (total_connections_closed p))
    as [[r rest] closed] eqn:Et.
  pose proof (take_idle_spec _ _ _ _ _ _ Et) as Hs.
  destruct r as [c|].
  - destruct Hs as (before & t & Hp). intros H. injection H as <-.
    rewrite Hp in *. rewrite map_app, NoDup_app in Hnd. cbn [map fst] in Hnd.
    destruct Hnd as (_ & Hdis & Hnd). apply NoDup_cons in Hnd as [Hc Hnd].
    rewrite map_app, length_app in Hbound. cbn [map length fst] in Hbound.
    assert (Hch : c ∉ h) by apply Hex, idle_taken.
    split; unfold idle;
      cbn [the_pool held pool active_connections max_connections next_client].
    + rewrite size_union by set_solver. rewrite size_singleton. lia.
    + rewrite size_union by set_solver. rewrite size_singleton. lia.
    + exact Hnd.
    + intros x Hx Hin. apply elem_of_union in Hin as [Hin|Hin].
      * apply elem_of_singleton in Hin as ->. contradiction.
      * revert Hin. now apply Hex, idle_after.
    + intros x Hx. now apply Hik, idle_after.
    + intros x Hx. apply elem_of_union in Hx as [Hx|Hx]; [|now apply Hhk].
      apply elem_of_singleton in Hx as ->. apply Hik, idle_taken.
  - subst rest. destruct (active_connections p >=? max_connections p) eqn:Ea.
    + intros H. injection H as <-.
      split; unfold idle;
        cbn [the_pool held pool active_connections max_connections next_client map length];
        try assumption; try lia.
      * constructor.
      * intros c Hc. inversion Hc.
      * intros c Hc. inversion Hc.
    + assert (Hlt : active_connections p < max_connections p).
      { destruct (Z.geb_spec (active_connections p) (max_connections p)); [discriminate | lia]. }
      destruct failure as [e|]; intros H; injection H as <-.
      * split; unfold idle;
          cbn [the_pool held pool active_connections max_connections next_client map length];
          try assumption; try lia.
        -- constructor.
        -- intros c Hc. inversion Hc.
        -- intros c Hc. inversion Hc.
        -- intros c Hc. specialize (Hhk c Hc). lia.
      * assert (Hn : next_client p ∉ h).
        { intros Hin. specialize (Hhk _ Hin). lia. }
        split; unfold idle;
          cbn [the_pool held pool active_connections max_connections next_client map length].
        -- rewrite size_union by set_solver. rewrite size_singleton. lia.
        -- rewrite size_union by set_solver. rewrite size_singleton. lia.
        -- constructor.
        -- intros c Hc. inversion Hc.
        -- intros c Hc. inversion Hc.
        -- intros c Hc. apply elem_of_union in Hc as [Hc|Hc].
           ++ apply elem_of_singleton in Hc as ->. lia.
           ++ specialize (Hhk c Hc). lia.
Qed.

Lemma release_invariant client connected now s s' :
  invariant s -> step (Release client connected now) s = Some s' -> invariant s'.
Proof.
  intros [Hcount Hbound Hnd Hex Hik Hhk]. destruct s as [p h].
  unfold step, release_connection, idle in *. cbn [the_pool held] in *.
  destruct (bool_decide (client ∈ h)) eqn:Eh; [|discriminate].
  apply bool_decide_eq_true in Eh.
  assert (Hsz : size h = S (size (h ∖ {[client]}))).
  { rewrite (union_difference_L {[client]} h) at 1
      by (now apply singleton_subseteq_l).
    assert (Hd : {[client]} ## h ∖ {[client]}).
    { intros x Hx1 Hx2. apply elem_of_difference in Hx2 as [_ Hx2]. exact (Hx2 Hx1). }
    rewrite (size_union _ _ Hd). now rewrite size_singleton. }
  intros H. injection H as <-. destruct connected.
  - split; unfold idle;
      cbn [the_pool held pool active_connections max_connections next_client map length fst].
    + lia.
    + lia.
    + apply NoDup_cons. split; [|assumption].
      intros Hin. now apply (Hex client).
    + intros x Hx Hin. apply elem_of_difference in Hin as [Hin Hne].
      apply elem_of_cons in Hx as [->|Hx].
      * apply Hne. now apply elem_of_singleton.
      * now apply (Hex x).
    + intros x Hx. apply elem_of_cons in Hx as [->|Hx]; [now apply Hhk | now apply Hik].
    + intros x Hx. apply elem_of_difference in Hx as [Hx _]. now apply Hhk.
  - split; unfold idle;
      cbn [the_pool held pool active_connections max_connections next_client map length fst].
    + lia.
    + lia.
    + assumption.
    + intros x Hx Hin. apply elem_of_difference in Hin as [Hin _]. now apply (Hex x).
    + assumption.
    + intros x Hx. apply elem_of_difference in Hx as [Hx _]. now apply Hhk.
Qed.

Lemma kept_idle (P : nat * Q -> bool) (l : list (nat * Q)) x :
  x ∈ map fst (filter (fun e => P e = true) l) -> x ∈ map fst l.
Proof.
  induction l as [|e l IH]; [trivial|].
  rewrite filter_cons. destruct (decide (P e = true)).
  - cbn [map]. rewrite !elem_of_cons. intros [->|H]; [now left | right; auto].
  - cbn [map]. rewrite elem_of_cons. right. auto.
Qed.

Lemma kept_idle_once (P : nat * Q -> bool) (l : list (nat * Q)) :
  NoDup (map fst l) -> NoDup (map fst (filter (fun e => P e = true) l)).
Proof.
  induction l as [|e l IH]; [trivial|].
  cbn [map]. rewrite NoDup_cons. intros [Hn Hd].
  rewrite filter_cons. destruct (decide (P e = true)); [|auto].
  cbn [map]. apply NoDup_cons. split; [|auto].
  intros Hin. apply Hn. now apply kept_idle in Hin.
Qed.

Lemma validate_invariant now alive s s' :
  invariant s -> step (Validate now alive) s = Some s' -> invariant s'.
Proof.
  intros [Hcount Hbound Hnd Hex Hik Hhk]. destruct s as [p h].
  unfold step, _validate_connections, idle in *. cbn [the_pool held] in *.
  intros H. injection H as <-.
  pose proof (length_filter (fun e => still_valid now (idle_timeout p) alive e = true)
                (pool p)) as Hlen.
  rewrite length_map in Hbound.
  split; unfold idle;
    cbn [the_pool held pool active_connections max_connections next_client].
  - assumption.
  - rewrite length_map. lia.
  - now apply kept_idle_once.
  - intros x Hx. apply Hex. now apply kept_idle in Hx.
  - intros x Hx. apply Hik. now apply kept_idle in Hx.
  - assumption.
Qed.

Lemma step_invariant o s s' : invariant s -> step o s = Some s' -> invariant s'.
Proof.
  destruct o; [apply checkout_invariant | apply release_invariant | apply validate_invariant].
Qed.

Lemma step_max o s s' :
  step o s = Some s' -> max_connections (the_pool s') = max_connections (the_pool s).
Proof.
  destruct o as [alive failure|client connected now|now alive]; cbn [step].
  - unfold get_connection.
    destruct (take_idle alive (pool (the_pool s)) (total_connections_closed (the_pool s)))
      as [[[c|] rest] closed].
    + intros H. injection H as <-. reflexivity.
    + destruct (active_connections (the_pool s) >=? max_connections (the_pool s));
        [|destruct failure]; intros H; injection H as <-; reflexivity.
  - destruct (bool_decide (client ∈ held s)); [|discriminate].
    intros H. injection H as <-. unfold release_connection.
    now destruct connected.
  - intros H. injection H as <-. reflexivity.
Qed.

Lemma run_invariant ops :
  forall s s', invariant s -> run ops s = Some s' ->
    invariant s' /\ max_connections (the_pool s') = max_connections (the_pool s).
Proof.
  induction ops as [|o ops IH]; intros s s' Hi Hr.
  - injection Hr as <-. now split.
  - cbn [run] in Hr. destruct (step o s) as [s1|] eqn:Es; [|discriminate].
    destruct (IH s1 s' (step_invariant o s s1 Hi Es) Hr) as [Hi' Hm].
    split; [exact Hi'|]. rewrite Hm. now apply (step_max o).
Qed.

End ConnectionPoolFacts.

Module ClientPoolFacts.

Import ClientPool.
Local Open Scope list_scope.

Lemma init_invariant pool_size created :
  Z.of_nat created <= pool_size -> invariant (init pool_size created).
Proof.
  intros H. split; cbn.
  - apply NoDup_seq.
  - intros c _. apply not_elem_of_empty.
  - intros c Hc. apply elem_of_seq in Hc. lia.
  - intros c Hc. now apply not_elem_of_empty in Hc.
  - intros _. rewrite length_seq. exact H.
Qed.

Lemma init_within pool_size created :
  Z.of_nat created <= pool_size -> within (init pool_size created).
Proof.
  intros H. unfold within. cbn. rewrite length_seq, size_empty. lia.
Qed.

(** The three ways a [get_client] call ends: nothing handed out, the head
    of the queue handed out, or a new session handed out. *)
Lemma get_client_shape alive first second p :
  let p' := snd (get_client alive first second p) in
  _pool_size p' = _pool_size p
  /\ _pool p' = tl (_pool p)
  /\ ((_clients_in_use p' = _clients_in_use p /\ (next_client p <= next_client p')%nat)
      \/ (exists c, head (_pool p) = Some c
                    /\ _clients_in_use p' = {[c]} ∪ _clients_in_use p
                    /\ next_client p' = next_client p)
      \/ (_clients_in_use p' = {[next_client p]} ∪ _clients_in_use p
          /\ next_client p' = S (next_client p))).
Proof.
  unfold get_client. destruct p as [ps q used next]. cbn [_pool].
  destruct q as [|c rest].
  - destruct second; cbn; repeat split; auto.
  - destruct alive.
    + cbn. repeat split. right. left. eauto.
    + destruct first; cbn; [| |destruct second; cbn]; repeat split; auto.
Qed.

Lemma get_client_invariant alive first second p :
  invariant p -> invariant (snd (get_client alive first second p)).
Proof.
  intros [Hnd Hex Hik Huk Hcap].
  destruct (get_client_shape alive first second p) as (Hps & Hq & Hu).
  set (p' := snd (get_client alive first second p)) in *.
  assert (Hsub : forall c, c ∈ _pool p' -> c ∈ _pool p).
  { intros c. rewrite Hq. destruct (_pool p); [trivial|].
    cbn. intros H. apply elem_of_cons. now right. }
  assert (Hnd' : NoDup (_pool p')).
  { rewrite Hq. destruct (_pool p); [constructor|].
    cbn. now apply NoDup_cons in Hnd as [_ Hnd]. }
  assert (Hcap' : 0 < _pool_size p' -> Z.of_nat (length (_pool p')) <= _pool_size p').
  { rewrite Hps, Hq. intros Hp. specialize (Hcap Hp).
    destruct (_pool p); cbn [tl length] in *; lia. }
  destruct Hu as [[Hu Hn] | [(c & Hc & Hu & Hn) | [Hu Hn]]].
  - split; try assumption.
    + intros c Hc. rewrite Hu. auto.
    + intros c Hc. specialize (Hik c (Hsub c Hc)). lia.
    + intros c Hc. rewrite Hu in Hc. specialize (Huk c Hc). lia.
  - destruct (_pool p) as [|c0 rest] eqn:Ep; [discriminate|].
    cbn in Hc. injection Hc as ->. cbn [tl] in Hq.
    apply NoDup_cons in Hnd as [Hc Hnd].
    split; try assumption.
    + intros x Hx. rewrite Hu. intros Hin.
      apply elem_of_union in Hin as [Hin|Hin].
      * apply elem_of_singleton in Hin as ->. now rewrite Hq in Hx.
      * revert Hin. apply Hex. now apply Hsub.
    + intros x Hx. rewrite Hn. apply Hik. now apply Hsub.
    + intros x Hx. rewrite Hn. rewrite Hu in Hx.
      apply elem_of_union in Hx as [Hx|Hx]; [|auto].
      apply elem_of_singleton in Hx as ->. apply Hik. apply elem_of_cons. now left.
  - split; try assumption.
    + intros x Hx. rewrite Hu. intros Hin.
      apply elem_of_union in Hin as [Hin|Hin].
      * apply elem_of_singleton in Hin as ->.
        specialize (Hik _ (Hsub _ Hx)). lia.
      * revert Hin. apply Hex. now apply Hsub.
    + intros x Hx. rewrite Hn. specialize (Hik x (Hsub x Hx)). lia.
    + intros x Hx. rewrite Hn. rewrite Hu in Hx.
      apply elem_of_union in Hx as [Hx|Hx]; [|specialize (Huk x Hx); lia].
      apply elem_of_singleton in Hx as ->. lia.
Qed.

Lemma get_client_within alive first second p :
  invariant p -> within p ->
  Z.of_nat (size (_clients_in_use p)) < _pool_size p ->
  within (snd (get_client alive first second p)).
Proof.
  intros [Hnd Hex Hik Huk Hcap] Hw Hb. unfold within in *.
  destruct (get_client_shape alive first second p) as (Hps & Hq & Hu).
  set (p' := snd (get_client alive first second p)) in *.
  rewrite Hps, Hq.
  destruct Hu as [[Hu Hn] | [(c & Hc & Hu & Hn) | [Hu Hn]]]; rewrite Hu.
  - destruct (_pool p); cbn [tl length] in *; lia.
  - destruct (_pool p) as [|c0 rest] eqn:Ep; [discriminate|].
    cbn in Hc. injection Hc as ->. cbn [tl length] in *.
    assert (Hd : {[c]} ## _clients_in_use p).
    { intros x Hx1 Hx2. apply elem_of_singleton in Hx1 as ->.
      revert Hx2. apply Hex. apply elem_of_cons. now left. }
    rewrite (size_union _ _ Hd), size_singleton. lia.
  - assert (Hd : {[next_client p]} ## _clients_in_use p).
    { intros x Hx1 Hx2. apply elem_of_singleton in Hx1 as ->.
      specialize (Huk _ Hx2). lia. }
    rewrite (size_union _ _ Hd), size_singleton.
    destruct (_pool p); cbn [tl length] in *; lia.
Qed.

Lemma release_client_invariant client alive p :
  invariant p -> invariant (release_client client alive p).
Proof.
  intros Hi. pose proof Hi as [Hnd Hex Hik Huk Hcap].
  unfold release_client. destruct client as [c|]; [|exact Hi].
  destruct (bool_decide (c ∈ _clients_in_use p)) eqn:Ec; [|exact Hi].
  apply bool_decide_eq_true in Ec. cbn zeta.
  assert (Hc : c ∉ _pool p) by (intros H; exact (Hex c H Ec)).
  destruct alive; cbn [andb].
  - unfold full. cbn [_pool_size _pool _clients_in_use next_client].
    destruct (0 <? _pool_size p) eqn:Ep; cbn [andb negb].
    + destruct (Z.leb_spec (_pool_size p) (Z.of_nat (length (_pool p)))); cbn [negb].
      * split; cbn [_pool_size _pool _clients_in_use next_client]; try assumption.
        -- intros x Hx Hin. apply elem_of_difference in Hin as [Hin _].
           exact (Hex x Hx Hin).
        -- intros x Hx. apply elem_of_difference in Hx as [Hx _]. auto.
      * split; cbn [_pool_size _pool _clients_in_use next_client].
        -- apply NoDup_app. repeat split; [assumption | | apply NoDup_singleton].
           intros x Hx Hin. apply list_elem_of_singleton in Hin as ->. contradiction.
        -- intros x Hx Hin. apply elem_of_difference in Hin as [Hin Hne].
           apply elem_of_app in Hx as [Hx|Hx]; [exact (Hex x Hx Hin)|].
           apply list_elem_of_singleton in Hx as ->.
           apply Hne. now apply elem_of_singleton.
        -- intros x Hx. apply elem_of_app in Hx as [Hx|Hx]; [auto|].
           apply list_elem_of_singleton in Hx as ->. auto.
        -- intros x Hx. apply elem_of_difference in Hx as [Hx _]. auto.
        -- intros _. rewrite length_app. cbn [length]. lia.
    + split; cbn [_pool_size _pool _clients_in_use next_client].
      * apply NoDup_app. repeat split; [assumption | | apply NoDup_singleton].
        intros x Hx Hin. apply list_elem_of_singleton in Hin as ->. contradiction.
      * intros x Hx Hin. apply elem_of_difference in Hin as [Hin Hne].
        apply elem_of_app in Hx as [Hx|Hx]; [exact (Hex x Hx Hin)|].
        apply list_elem_of_singleton in Hx as ->.
        apply Hne. now apply elem_of_singleton.
      * intros x Hx. apply elem_of_app in Hx as [Hx|Hx]; [auto|].
        apply list_elem_of_singleton in Hx as ->. auto.
      * intros x Hx. apply elem_of_difference in Hx as [Hx _]. auto.
      * intros Hp. apply Z.ltb_lt in Hp. congruence.
  - split; cbn [_pool_size _pool _clients_in_use next_client]; try assumption.
    + intros x Hx Hin. apply elem_of_difference in Hin as [Hin _].
      exact (Hex x Hx Hin).
    + intros x Hx. apply elem_of_difference in Hx as [Hx _]. auto.
Qed.

Lemma release_client_within client alive p :
  within p -> within (release_client client alive p).
Proof.
  unfold within, release_client. intros Hw. destruct client as [c|]; [|exact Hw].
  destruct (bool_decide (c ∈ _clients_in_use p)) eqn:Ec; [|exact Hw].
  apply bool_decide_eq_true in Ec. cbn zeta.
  assert (Hsz : size (_clients_in_use p) = S (size (_clients_in_use p ∖ {[c]}))).
  { rewrite (union_difference_L {[c]} (_clients_in_use p)) at 1
      by (now apply singleton_subseteq_l).
    assert (Hd : {[c]} ## _clients_in_use p ∖ {[c]}).
    { intros x Hx1 Hx2. apply elem_of_difference in Hx2 as [_ Hx2]. exact (Hx2 Hx1). }
    rewrite (size_union _ _ Hd). now rewrite size_singleton. }
  destruct (alive && negb _);
    cbn [_pool_size _pool _clients_in_use next_client];
    rewrite ?length_app; cbn [length]; lia.
Qed.

Lemma step_keeps_invariant o p : invariant p -> invariant (step o p).
Proof.
  destruct o; [apply get_client_invariant | apply release_client_invariant].
Qed.

Lemma step_size o p : _pool_size (step o p) = _pool_size p.
Proof.
  destruct o as [alive first second|client alive]; cbn [step].
  - apply get_client_shape.
  - unfold release_client. destruct client as [c|]; [|reflexivity].
    destruct (bool_decide _); [|reflexivity]. cbn zeta.
    now destruct (alive && negb _).
Qed.

Lemma run_keeps_invariant ops :
  forall p, invariant p ->
    invariant (run ops p) /\ _pool_size (run ops p) = _pool_size p.
Proof.
  induction ops as [|o ops IH]; intros p Hi; [now split|].
  cbn [run fold_left]. destruct (IH (step o p) (step_keeps_invariant o p Hi)) as [Hi' Hs].
  split; [exact Hi'|]. unfold run in Hs. rewrite Hs. apply step_size.
Qed.

Lemma run_within ops :
  forall p, invariant p -> within p -> callers_bounded ops p -> within (run ops p).
Proof.
  induction ops as [|o ops IH]; intros p Hi Hw Hb; [exact Hw|].
  cbn [run fold_left]. cbn [callers_bounded] in Hb. destruct Hb as [Hb Hrest].
  apply IH; [now apply step_keeps_invariant | | exact Hrest].
  destruct o; cbn [step];
    [now apply get_client_within | now apply release_client_within].
Qed.

End ClientPoolFacts.

(** ** client/transfer_queue.py: the task *)

Module TaskFacts.

Import Queue.
Local Open Scope list_scope.

Section Float.

Variable round : Q -> Q.
Hypothesis round_monotone : forall x y : Q, (x <= y)%Q -> (round x <= round y)%Q.
Hypothesis round_zero : (round 0 == 0)%Q.

Lemma round_nonneg (x : Q) : (0 <= x)%Q -> (0 <= round x)%Q.
Proof. intros H. rewrite <- round_zero. now apply round_monotone. Qed.

Lemma min_bounds (x : Q) : (0 <= x)%Q -> (0 <= min_ 100 x <= 100)%Q.
Proof.
  intros Hx. unfold min_. destruct (Qle_bool 100 x) eqn:E.
  - split; [discriminate | apply Qle_refl].
  - split; [exact Hx|].
    apply Qlt_le_weak, Qnot_le_lt. intros H.
    apply Qle_bool_iff in H. congruence.
Qed.

Lemma ratio_nonneg (current total : Z) :
  0 <= current -> 0 < total -> (0 <= inject_Z current / inject_Z total)%Q.
Proof.
  intros Hc Ht. unfold Qdiv. apply Qmult_le_0_compat.
  - change 0%Q with (inject_Z 0). now rewrite <- Zle_Qle.
  - apply Qinv_le_0_compat. change 0%Q with (inject_Z 0). rewrite <- Zle_Qle. lia.
Qed.

Lemma update_progress_bounds current total t :
  0 <= current ->
  (0 <= progress (update_progress round current total t) <= 100)%Q.
Proof.
  intros Hc. unfold update_progress. cbn [progress].
  destruct (Z.ltb_spec 0 total) as [Ht|Ht].
  - apply min_bounds, round_nonneg, Qmult_le_0_compat; [|discriminate].
    apply round_nonneg. now apply ratio_nonneg.
  - split; [apply Qle_refl | discriminate].
Qed.

Lemma apply_call_in_range c t :
  counts_nonneg c -> in_range t -> in_range (apply_call round c t).
Proof.
  unfold in_range. destruct c; cbn [apply_call counts_nonneg]; intros Hc Ht.
  - apply update_progress_bounds. tauto.
  - exact Ht.
  - cbn. split; [discriminate | apply Qle_refl].
  - exact Ht.
  - exact Ht.
Qed.

Lemma apply_call_complete c t :
  match c with UpdateProgress _ _ => status t <> COMPLETED | _ => True end ->
  complete_at_100 t -> complete_at_100 (apply_call round c t).
Proof.
  unfold complete_at_100. destruct c; cbn [apply_call]; intros Hc Ht.
  - cbn [update_progress status]. intros Hs. contradiction.
  - discriminate.
  - reflexivity.
  - discriminate.
  - discriminate.
Qed.

Lemma apply_calls_in_range calls :
  forall t, Forall counts_nonneg calls -> in_range t ->
    in_range (apply_calls round calls t).
Proof.
  induction calls as [|c calls IH]; intros t Hn Ht; [exact Ht|].
  apply Forall_cons in Hn as [Hc Hn]. cbn [apply_calls fold_left].
  apply IH; [exact Hn | now apply apply_call_in_range].
Qed.

Lemma apply_calls_complete calls :
  forall t, reports_before_completion round calls t -> complete_at_100 t ->
    complete_at_100 (apply_calls round calls t).
Proof.
  induction calls as [|c calls IH]; intros t Hr Ht; [exact Ht|].
  cbn [reports_before_completion] in Hr. destruct Hr as [Hc Hr].
  cbn [apply_calls fold_left]. apply IH; [exact Hr | now apply apply_call_complete].
Qed.

(** C6, as amended.  After any sequence of [update_progress],
    [mark_running], [mark_completed], [mark_failed] and [mark_canceled]
    calls with non-negative byte counts on a new task, its progress lies
    between 0 and 100; and when no [update_progress] call was made on the
    task while it was COMPLETED, a COMPLETED task has progress 100.
    Floats round monotonically and represent 0. *)
Theorem progress_in_range task_id type priority now max_retries retry_delay calls :
  Forall counts_nonneg calls ->
  let start := new_task task_id type priority now max_retries retry_delay in
  let t := apply_calls round calls start in
  (0 <= progress t <= 100)%Q
  /\ (reports_before_completion round calls start ->
      status t = COMPLETED -> progress t = 100%Q).
Proof.
  intros Hn start t. split.
  - apply apply_calls_in_range; [exact Hn|].
    split; [apply Qle_refl | discriminate].
  - intros Hr. apply apply_calls_complete; [exact Hr|]. discriminate.
Qed.

End Float.

Lemma progress_in_range_witness :
  let t :=
    apply_calls (fun x => x)
      [MarkRunning 1; UpdateProgress 5 10; MarkCompleted 2 None]
      (new_task "task-1" DOWNLOAD NORMAL 0 3 5) in
  (0 <= progress t <= 100)%Q /\ progress t = 100%Q.
Proof.
  destruct (progress_in_range (fun x => x) (fun x y H => H) (Qeq_refl 0)
              "task-1" DOWNLOAD NORMAL 0 3 5
              [MarkRunning 1; UpdateProgress 5 10; MarkCompleted 2 None])
    as [Hr Hc].
  - repeat constructor; lia.
  - split; [exact Hr|]. apply Hc; [|reflexivity].
    cbn. repeat split; discriminate.
Defined.

(** C6 as stated fails: a progress report after [mark_completed] leaves a
    COMPLETED task below 100. *)
Lemma progress_in_range_counterexample :
  let t :=
    apply_calls (fun x => x) [MarkCompleted 1 None; UpdateProgress 0 10]
      (new_task "task-1" DOWNLOAD NORMAL 0 3 5) in
  status t = COMPLETED /\ (progress t == 0)%Q /\ ~ (progress t == 100)%Q.
Proof. vm_compute. repeat split; discriminate. Qed.

End TaskFacts.

(** ** client/transfer_queue.py: the queue *)

Module QueueFacts.

Import Queue.
Local Open Scope list_scope.

(** *** Order of dispatch *)

Lemma entry_lt_true a b : entry_lt a b = Ok true -> key_lt a b.
Proof.
  destruct a as [[p1 t1] i1], b as [[p2 t2] i2]. unfold entry_lt, key_lt. cbn.
  destruct (Z.eqb_spec p1 p2); cbn [negb].
  - destruct (Z.eqb_spec t1 t2); cbn [negb].
    + destruct (String.eqb i1 i2); discriminate.
    + intros H. injection H as H. apply Z.ltb_lt in H. auto.
  - intros H. injection H as H. apply Z.ltb_lt in H. auto.
Qed.

Lemma entry_lt_false a b : entry_lt a b = Ok false -> ~ key_lt a b.
Proof.
  destruct a as [[p1 t1] i1], b as [[p2 t2] i2]. unfold entry_lt, key_lt. cbn.
  destruct (Z.eqb_spec p1 p2); cbn [negb].
  - destruct (Z.eqb_spec t1 t2); cbn [negb].
    + intros _. lia.
    + intros H. injection H as H. apply Z.ltb_ge in H. lia.
  - intros H. injection H as H. apply Z.ltb_ge in H. lia.
Qed.

Lemma entry_lt_keys a b : key a <> key b -> exists less, entry_lt a b = Ok less.
Proof.
  destruct a as [[p1 t1] i1], b as [[p2 t2] i2]. unfold entry_lt, key. cbn.
  intros H. destruct (Z.eqb_spec p1 p2); cbn [negb]; [|eauto].
  destruct (Z.eqb_spec t1 t2); cbn [negb]; [|eauto]. congruence.
Qed.

Lemma key_lt_trans_not a b c : ~ key_lt a b -> ~ key_lt b c -> ~ key_lt a c.
Proof. unfold key_lt. lia. Qed.

Lemma key_lt_not_lt a b : key_lt a b -> ~ key_lt b a.
Proof. unfold key_lt. lia. Qed.

Lemma key_in (x : entry) (entries : list entry) :
  x ∈ entries -> key x ∈ map key entries.
Proof.
  intros H. apply list_elem_of_In, in_map. now apply list_elem_of_In.
Qed.

(** [lowest] returns an entry of the list below which no entry lies. *)
Lemma lowest_spec entries :
  forall best m, lowest best entries = Ok m ->
    m ∈ best :: entries /\ forall x, x ∈ best :: entries -> ~ key_lt x m.
Proof.
  induction entries as [|e rest IH]; intros best m H.
  - injection H as <-. split; [apply elem_of_cons; now left|].
    intros x Hx. apply list_elem_of_singleton in Hx as ->. unfold key_lt. lia.
  - cbn [lowest] in H. destruct (entry_lt e best) as [less|] eqn:El; [|discriminate].
    cbn [rbind] in H. apply IH in H as [Hin Hmin].
    assert (Hnew : ~ key_lt e (if less then e else best)
                   /\ ~ key_lt best (if less then e else best)).
    { destruct less.
      - split; [unfold key_lt; lia|].
        apply key_lt_not_lt. now apply entry_lt_true.
      - split; [now apply entry_lt_false | unfold key_lt; lia]. }
    assert (Hm : ~ key_lt (if less then e else best) m).
    { apply Hmin. apply elem_of_cons. now left. }
    split.
    + apply elem_of_cons in Hin as [->|Hin].
      * destruct less; rewrite !elem_of_cons; auto.
      * rewrite !elem_of_cons; auto.
    + intros x Hx. apply elem_of_cons in Hx as [->|Hx].
      * eapply key_lt_trans_not; [apply Hnew | exact Hm].
      * apply elem_of_cons in Hx as [->|Hx].
        -- eapply key_lt_trans_not; [apply Hnew | exact Hm].
        -- apply Hmin. apply elem_of_cons. now right.
Qed.

Lemma lowest_total entries :
  forall best,
    (forall e, e ∈ entries -> key e <> key best) -> NoDup (map key entries) ->
    exists m, lowest best entries = Ok m.
Proof.
  induction entries as [|e rest IH]; intros best Hb Hnd; [eexists; reflexivity|].
  cbn [map] in Hnd. apply NoDup_cons in Hnd as [He Hnd].
  destruct (entry_lt_keys e best) as [less El].
  { apply Hb. apply elem_of_cons. now left. }
  cbn [lowest]. rewrite El. cbn [rbind]. apply IH; [|exact Hnd].
  intros x Hx. destruct less.
  - intros Heq. apply He. rewrite <- Heq. now apply key_in.
  - apply Hb. apply elem_of_cons. now right.
Qed.

Lemma entry_eqb_eq a b : entry_eqb a b = true <-> a = b.
Proof.
  destruct a as [[p1 t1] i1], b as [[p2 t2] i2]. unfold entry_eqb.
  rewrite !andb_true_iff, !Z.eqb_eq, String.eqb_eq.
  split; [intros [[-> ->] ->]; reflexivity | intros H; injection H; auto].
Qed.

Lemma remove_entry_other x m entries :
  x ∈ entries -> x <> m -> x ∈ remove_entry m entries.
Proof.
  induction entries as [|e rest IH]; intros Hx Hne; [inversion Hx|].
  cbn [remove_entry]. destruct (entry_eqb m e) eqn:E.
  - apply entry_eqb_eq in E as <-.
    apply elem_of_cons in Hx as [->|Hx]; [congruence | exact Hx].
  - apply elem_of_cons in Hx as [->|Hx]; rewrite elem_of_cons; auto.
Qed.

Lemma remove_entry_keys m entries :
  keys_differ entries -> keys_differ (remove_entry m entries).
Proof.
  unfold keys_differ. induction entries as [|e rest IH]; [trivial|].
  cbn [map remove_entry]. intros H. apply NoDup_cons in H as [He Hnd].
  destruct (entry_eqb m e); [exact Hnd|].
  cbn [map]. apply NoDup_cons. split; [|auto].
  intros Hin. apply He. clear -Hin.
  induction rest as [|r rest IH]; [inversion Hin|].
  cbn [remove_entry] in Hin. cbn [map]. destruct (entry_eqb m r).
  - apply elem_of_cons. now right.
  - cbn [map] in Hin. apply elem_of_cons in Hin as [->|Hin];
      rewrite elem_of_cons; auto.
Qed.

Lemma get_entry_spec entries m entries' :
  get_entry entries = Ok (Some (m, entries')) ->
  m ∈ entries /\ (forall x, x ∈ entries -> ~ key_lt x m)
  /\ entries' = remove_entry m entries.
Proof.
  destruct entries as [|e rest]; [discriminate|].
  cbn [get_entry]. destruct (lowest e rest) as [best|] eqn:El; [|discriminate].
  cbn [rbind]. intros H. injection H as <- <-.
  apply lowest_spec in El as [Hin Hmin]. auto.
Qed.

Lemma get_entry_total entries :
  keys_differ entries -> entries <> [] ->
  exists m entries', get_entry entries = Ok (Some (m, entries')).
Proof.
  destruct entries as [|e rest]; [congruence|]. intros Hk _.
  unfold keys_differ in Hk. cbn [map] in Hk. apply NoDup_cons in Hk as [He Hnd].
  destruct (lowest_total rest e) as [m Hm]; [|exact Hnd|].
  - intros x Hx Heq. apply He. rewrite <- Heq. now apply key_in.
  - cbn [get_entry]. rewrite Hm. cbn [rbind]. eauto.
Qed.

Lemma goes_before_key a b : goes_before a b -> key_lt (entry_of a) (entry_of b).
Proof. unfold goes_before, key_lt, entry_of, key. cbn. lia. Qed.

(** [add_task] queues the new task under the key made of its priority,
    negated, and its creation time. *)
Lemma add_task_entry task_type priority now max_retries retry_delay q :
  let '(task_id, q') := add_task task_type priority now max_retries retry_delay q in
  task_queue q' = task_queue q ++ [(- priority_value priority, now, task_id)]
  /\ tasks q' !! task_id
     = Some (new_task task_id task_type priority now max_retries retry_delay).
Proof. cbn. rewrite lookup_insert_eq. auto. Qed.

(** *** Retry *)

Lemma retry_collect_picks q task_id task :
  tasks q !! task_id = Some task -> task_id ∈ failed_tasks q ->
  can_retry task = true ->
  task_id ∈ fst (retry_collect q) /\ task_id ∉ failed_tasks (snd (retry_collect q)).
Proof.
  intros Ht Hf Hc. unfold retry_collect. cbn [fst snd failed_tasks].
  assert (Hr : retryable q task_id = true) by (unfold retryable; now rewrite Ht).
  split.
  - apply list_elem_of_In, filter_In. split; [now apply list_elem_of_In | exact Hr].
  - intros Hin. apply list_elem_of_In, filter_In in Hin as [_ Hin].
    rewrite Hr in Hin. discriminate.
Qed.

(** C4, as amended.  A failed task with [retry_count < max_retries] is
    taken out of [failed_tasks] by the retry monitor, which then marks it
    RETRYING, adds one to [retry_count], sleeps [retry_delay] seconds
    whatever the count, and puts the task back into the priority queue
    under its own priority and creation time.  The status stays RETRYING
    until a worker takes the task. *)
Theorem retry_reinjects q task_id task :
  tasks q !! task_id = Some task -> id task = task_id ->
  task_id ∈ failed_tasks q ->
  status task = FAILED -> retry_count task < max_retries task ->
  (task_id ∈ fst (retry_collect q)
   /\ task_id ∉ failed_tasks (snd (retry_collect q)))
  /\ let '(slept, q') := retry_one task_id q in
     slept = retry_delay task
     /\ task_queue q' = task_queue q ++ [entry_of task]
     /\ exists task',
          tasks q' !! task_id = Some task'
          /\ status task' = RETRYING
          /\ retry_count task' = retry_count task + 1
          /\ priority task' = priority task
          /\ created_time task' = created_time task.
Proof.
  intros Ht Hid Hf Hs Hr. split.
  - apply (retry_collect_picks q task_id task Ht Hf).
    unfold can_retry. rewrite Hs. cbn. now apply Z.ltb_lt.
  - unfold retry_one. rewrite Ht. cbn [retry_delay mark_retrying].
    repeat split. exists (mark_retrying task). repeat split.
    cbn [tasks set_task mark_retrying id]. rewrite Hid. apply lookup_insert_eq.
Qed.

Lemma retry_reinjects_witness :
  let task :=
    mkTask "task-1" DOWNLOAD HIGH FAILED 0 (Some 3) (Some 4) 0
      (Some TimeoutError) None 1 3 5 in
  let q := mkQueue {["task-1" := task]} [] [] [] ["task-1"] 1 in
  let '(slept, q') := retry_one "task-1" q in
  slept = 5
  /\ task_queue q' = [] ++ [entry_of task]
  /\ exists task',
       tasks q' !! "task-1" = Some task'
       /\ status task' = RETRYING
       /\ retry_count task' = 1 + 1
       /\ priority task' = HIGH
       /\ created_time task' = 0.
Proof.
  intros task q.
  refine (proj2 (retry_reinjects q "task-1" task _ eq_refl _ eq_refl _)).
  - apply lookup_singleton_eq.
  - apply elem_of_cons. now left.
  - reflexivity.
Defined.

(** C4 as stated fails: before the second retry the monitor sleeps 5
    seconds, where the formula of the specification gives 10, and it leaves
    the task RETRYING, not PENDING. *)
Lemma retry_reinjects_counterexample :
  (retry_count <$> tasks failed_twice !! "task-1") = Some 1
  /\ (spec_backoff_delay 2 <$> tasks failed_twice !! "task-1") = Some 10
  /\ fst (retry_round failed_twice) = [5]
  /\ (status <$> tasks (snd (retry_round failed_twice)) !! "task-1")
     = Some RETRYING.
Proof. vm_compute. repeat split. Qed.

(** *** Cancellation *)

Lemma cancel_queued task_id now q :
  task_id ∉ active_tasks q -> task_id ∉ failed_tasks q ->
  task_id ∉ completed_tasks q ->
  cancel_task task_id now q = (true, q).
Proof.
  intros Ha Hf Hc. unfold cancel_task.
  now rewrite (bool_decide_eq_false_2 _ Ha), (bool_decide_eq_false_2 _ Hf),
    (bool_decide_eq_false_2 _ Hc).
Qed.

(** A worker that gets a task whose status is not CANCELED marks it
    RUNNING and hands it to its handler. *)
Lemma worker_begin_starts now q key1 key2 task_id rest task :
  get_entry (task_queue q) = Ok (Some ((key1, key2, task_id), rest)) ->
  tasks q !! task_id = Some task -> status task <> CANCELED ->
  fst (worker_begin now q) = Ok (Started task_id).
Proof.
  intros Hg Ht Hs. unfold worker_begin. rewrite Hg. cbn [tasks]. rewrite Ht.
  destruct (status task); try reflexivity. contradiction.
Qed.

(** C3 fails on the code.  A task is submitted and cancelled before any
    worker takes it: [cancel_task] answers [True] and changes nothing, the
    task is still PENDING, and the worker that takes it next marks it
    RUNNING and hands it to its handler instead of dropping it. *)
Theorem cancel_pending_not_marked :
  let '(task_id, q1) := add_task DOWNLOAD NORMAL 0 3 5 empty_queue in
  let '(answer, q2) := cancel_task task_id 1 q1 in
  let '(event, q3) := worker_begin 2 q2 in
  task_id = "task-1"
  /\ answer = true
  /\ q2 = q1
  /\ (status <$> tasks q2 !! task_id) = Some PENDING
  /\ event = Ok (Started task_id)
  /\ (status <$> tasks q3 !! task_id) = Some RUNNING
  /\ active_tasks q3 = [task_id].
Proof. vm_compute. repeat split. Qed.

End QueueFacts.

(** ** The heap under the task queue *)

Module HeapFacts.

Import Queue.
Local Open Scope list_scope.

(** Pushes and pops on entries that can be ordered, and on entries that
    tie. *)
Example heap_samples :
  Heap.heappush (-2, 7, "c") [(-3, 1, "a"); (-1, 4, "b")]
  = (Ok tt, [(-3, 1, "a"); (-1, 4, "b"); (-2, 7, "c")])
  /\ Heap.heappush (-3, 0, "c") [(-3, 1, "a"); (-1, 4, "b")]
     = (Ok tt, [(-3, 0, "c"); (-1, 4, "b"); (-3, 1, "a")])
  /\ Heap.heappop [(-3, 0, "c"); (-1, 4, "b"); (-3, 1, "a")]
     = (Ok (-3, 0, "c"), [(-3, 1, "a"); (-1, 4, "b")])
  /\ Heap.heappush (-1, 4, "c") [(-1, 4, "b")]
     = (Raise TypeError, [(-1, 4, "b"); (-1, 4, "c")])
  /\ Heap.heappop [] = (Raise IndexError, []).
Proof. vm_compute. repeat split. Qed.

(** *** The list stays the same but for its order *)

Lemma swap_perm i j heap : Heap.swap i j heap ≡ₚ heap.
Proof.
  unfold Heap.swap. destruct (heap !! i) as [a|] eqn:Hi; [|reflexivity].
  destruct (heap !! j) as [b|] eqn:Hj; [|reflexivity].
  exact (Permutation_insert_swap heap j i b a Hj Hi).
Qed.

Lemma siftdown_perm fuel startpos :
  forall pos heap, snd (Heap.siftdown fuel startpos pos heap) ≡ₚ heap.
Proof.
  induction fuel as [|fuel IH]; intros pos heap; cbn [Heap.siftdown]; [reflexivity|].
  destruct (pos <=? startpos)%nat; [reflexivity|].
  destruct (heap !! pos) as [newitem|]; [|reflexivity].
  destruct (heap !! ((pos - 1) / 2)%nat) as [parent|]; [|reflexivity].
  destruct (entry_lt newitem parent) as [[|]|e]; try reflexivity.
  rewrite IH. apply swap_perm.
Qed.

Lemma to_leaf_perm fuel :
  forall pos heap, snd (Heap.to_leaf fuel pos heap) ≡ₚ heap.
Proof.
  induction fuel as [|fuel IH]; intros pos heap; cbn [Heap.to_leaf]; [reflexivity|].
  destruct (pos <? length heap / 2)%nat; [|reflexivity].
  match goal with |- snd (match ?c with _ => _ end) ≡ₚ _ => destruct c as [childpos|e] end;
    [|reflexivity].
  rewrite IH. apply swap_perm.
Qed.

Lemma siftup_perm pos heap : snd (Heap.siftup pos heap) ≡ₚ heap.
Proof.
  unfold Heap.siftup.
  pose proof (to_leaf_perm (length heap) pos heap) as H.
  destruct (Heap.to_leaf (length heap) pos heap) as [[leaf|e] heap']; cbn [snd] in *;
    [|exact H].
  now rewrite siftdown_perm.
Qed.

Lemma heappush_perm item heap : snd (Heap.heappush item heap) ≡ₚ item :: heap.
Proof.
  unfold Heap.heappush. rewrite siftdown_perm.
  now rewrite Permutation_app_comm.
Qed.

Lemma heappop_perm heap :
  match Heap.heappop heap with
  | (Ok item, heap') => heap ≡ₚ item :: heap'
  | (Raise _, heap') =>
      (heap = [] /\ heap' = []) \/ exists item, heap ≡ₚ item :: heap'
  end.
Proof.
  unfold Heap.heappop. destruct (last heap) as [lastelt|] eqn:Hl.
  - apply last_Some in Hl as [init ->].
    rewrite length_app, Nat.add_sub, take_app_length.
    destruct init as [|returnitem rest]; [reflexivity|].
    pose proof (siftup_perm 0 (lastelt :: rest)) as H.
    destruct (Heap.siftup 0 (lastelt :: rest)) as [[[]|e] heap']; cbn [snd] in H.
    + rewrite H. cbn [app]. f_equiv. now rewrite Permutation_app_comm.
    + right. exists returnitem. rewrite H. cbn [app]. f_equiv.
      now rewrite Permutation_app_comm.
  - apply last_None in Hl as ->. now left.
Qed.

(** *** The list stays a heap *)

Lemma parent_cases (i : nat) :
  (0 < i)%nat -> (i = 2 * Heap.parent i + 1 \/ i = 2 * Heap.parent i + 2)%nat.
Proof.
  intros H. unfold Heap.parent. pose proof (Nat.div_mod_eq (i - 1) 2) as E.
  pose proof (Nat.mod_upper_bound (i - 1) 2). lia.
Qed.

Lemma below_half (n p : nat) : (p < n / 2 <-> 2 * p + 1 < n)%nat.
Proof.
  pose proof (Nat.div_mod_eq n 2) as E.
  pose proof (Nat.mod_upper_bound n 2). lia.
Qed.

Lemma lookup_map_key (heap : list entry) i :
  map key heap !! i = key <$> heap !! i.
Proof.
  revert i. induction heap as [|e heap IH]; intros [|i]; cbn; auto.
Qed.

(** Entries at two places of a list whose keys differ can be compared. *)
Lemma compare_at heap i j a b :
  keys_differ heap -> i <> j -> heap !! i = Some a -> heap !! j = Some b ->
  (key_lt a b /\ entry_lt a b = Ok true)
  \/ (key_lt b a /\ entry_lt a b = Ok false).
Proof.
  intros Hk Hij Ha Hb.
  assert (Hne : key a <> key b).
  { intros E. apply Hij. apply (NoDup_lookup (map key heap) i j (key a) Hk).
    - now rewrite lookup_map_key, Ha.
    - now rewrite lookup_map_key, Hb, E. }
  destruct a as [[p1 t1] i1], b as [[p2 t2] i2].
  unfold key_lt, entry_lt, key in *. cbn [fst snd] in *.
  destruct (Z.eqb_spec p1 p2) as [->|Hp]; cbn [negb].
  - destruct (Z.eqb_spec t1 t2) as [->|Ht]; cbn [negb]; [congruence|].
    destruct (Z.ltb_spec t1 t2); [left | right]; (split; [lia | reflexivity]).
  - destruct (Z.ltb_spec p1 p2); [left | right]; (split; [lia | reflexivity]).
Qed.

Lemma swap_length i j heap : length (Heap.swap i j heap) = length heap.
Proof. apply Permutation_length, swap_perm. Qed.

Lemma swap_lookup i j heap a b k :
  heap !! i = Some a -> heap !! j = Some b ->
  Heap.swap i j heap !! k
  = if decide (k = i) then Some b else if decide (k = j) then Some a else heap !! k.
Proof.
  intros Hi Hj. unfold Heap.swap. rewrite Hi, Hj.
  pose proof (lookup_lt_Some _ _ _ Hi). pose proof (lookup_lt_Some _ _ _ Hj).
  destruct (decide (k = i)) as [->|Hki].
  - rewrite list_lookup_insert_eq; [reflexivity | now rewrite length_insert].
  - rewrite list_lookup_insert_ne by congruence.
    destruct (decide (k = j)) as [->|Hkj].
    + now rewrite list_lookup_insert_eq.
    + now rewrite list_lookup_insert_ne by congruence.
Qed.

Lemma keys_differ_perm (a b : list entry) : a ≡ₚ b -> keys_differ a -> keys_differ b.
Proof.
  unfold keys_differ. intros H. apply NoDup_Permutation_proper.
  symmetry. now apply Permutation_map.
Qed.

Ltac order := unfold key_lt in *; lia.

Lemma parent_below i : (0 < i)%nat -> (Heap.parent i < i)%nat.
Proof. intros H. pose proof (parent_cases i H). lia. Qed.

(** [siftdown] makes a heap of a list that is one but for the entry it is
    given. *)
Lemma siftdown_heap fuel :
  forall pos heap,
    (pos <= fuel)%nat -> (pos < length heap)%nat -> keys_differ heap ->
    Heap.heap_but_up heap pos ->
    exists heap',
      Heap.siftdown fuel 0 pos heap = (Ok tt, heap') /\ Heap.heap_ordered heap'.
Proof.
  induction fuel as [|fuel IH]; intros pos heap Hf Hlen Hk [H1 H2].
  { exists heap. split; [reflexivity|].
    intros i a b Hi Ha Hb. apply (H1 i a b); auto; lia. }
  cbn [Heap.siftdown]. destruct (Nat.leb_spec pos 0) as [Hz|Hz].
  { exists heap. split; [reflexivity|].
    intros i a b Hi Ha Hb. apply (H1 i a b); auto; lia. }
  pose proof (parent_below pos Hz) as Hpp.
  destruct (lookup_lt_is_Some_2 heap pos Hlen) as [x Hx].
  destruct (lookup_lt_is_Some_2 heap (Heap.parent pos)) as [p Hp]; [lia|].
  fold (Heap.parent pos). rewrite Hx, Hp.
  destruct (compare_at heap pos (Heap.parent pos) x p Hk) as [[Hlt ->]|[Hlt ->]];
    [lia | assumption | assumption | |].
  - apply IH.
    + lia.
    + rewrite swap_length. lia.
    + eapply keys_differ_perm; [symmetry; apply swap_perm | exact Hk].
    + split.
      * intros i a b Hi Hne. rewrite !(swap_lookup _ _ heap p x) by assumption.
        destruct (decide (i = Heap.parent pos)) as [|_]; [contradiction|].
        destruct (decide (i = pos)) as [->|Hip].
        -- rewrite decide_True by reflexivity. intros [= <-] [= <-]. order.
        -- intros Ha.
           destruct (decide (Heap.parent i = Heap.parent pos)) as [E|E].
           ++ intros [= <-]. rewrite <- E in Hp.
              pose proof (H1 i a p Hi Hip Ha Hp). order.
           ++ destruct (decide (Heap.parent i = pos)) as [E'|E'].
              ** intros [= <-]. exact (H2 i a p Hz Hi E' Ha Hp).
              ** intros Hb. exact (H1 i a b Hi Hip Ha Hb).
      * intros c a b Hpz Hc Hcp.
        pose proof (parent_below c Hc). pose proof (parent_below _ Hpz).
        rewrite !(swap_lookup _ _ heap p x) by assumption.
        destruct (decide (c = Heap.parent pos)) as [|_]; [lia|].
        destruct (decide (Heap.parent (Heap.parent pos) = Heap.parent pos)) as [|_];
          [lia|].
        destruct (decide (Heap.parent (Heap.parent pos) = pos)) as [|_]; [lia|].
        destruct (decide (c = pos)) as [->|Hcpos].
        -- intros [= <-] Hb. apply (H1 (Heap.parent pos) p b); auto; lia.
        -- intros Ha Hb.
           assert (Hp' : heap !! Heap.parent c = Some p) by now rewrite Hcp.
           pose proof (H1 c a p Hc Hcpos Ha Hp').
           assert (~ key_lt p b) by (apply (H1 (Heap.parent pos) p b); auto; lia).
           order.
  - exists heap. split; [reflexivity|].
    intros i a b Hi Ha Hb. destruct (decide (i = pos)) as [->|Hip].
    + rewrite Hx in Ha. rewrite Hp in Hb. injection Ha as <-. injection Hb as <-. order.
    + exact (H1 i a b Hi Hip Ha Hb).
Qed.

(** The loop of [siftup] takes the entry it is given down to a leaf, the
    smaller child moving up each time. *)
Lemma to_leaf_heap fuel :
  forall pos heap,
    (length heap <= fuel + pos)%nat -> (pos < length heap)%nat -> keys_differ heap ->
    Heap.heap_but heap pos ->
    exists leaf heap',
      Heap.to_leaf fuel pos heap = (Ok leaf, heap')
      /\ (leaf < length heap')%nat /\ keys_differ heap'
      /\ Heap.heap_but_up heap' leaf.
Proof.
  induction fuel as [|fuel IH]; intros pos heap Hf Hlen Hk [H1 H2]; [lia|].
  cbn [Heap.to_leaf]. destruct (Nat.ltb_spec pos (length heap / 2)) as [Hc|Hc].
  - apply below_half in Hc.
    destruct (lookup_lt_is_Some_2 heap pos Hlen) as [x Hx].
    destruct (lookup_lt_is_Some_2 heap (2 * pos + 1) Hc) as [l Hl].
    assert (Hsmall : exists c m,
              (if (2 * pos + 1 + 1 <? length heap)%nat
               then match heap !! (2 * pos + 1)%nat, heap !! (2 * pos + 1 + 1)%nat with
                    | Some a, Some b =>
                        (let* less := entry_lt a b in
                         Ok (if less then (2 * pos + 1)%nat
                             else (2 * pos + 1 + 1)%nat))%result
                    | _, _ => Raise IndexError
                    end
               else Ok (2 * pos + 1)%nat) = Ok c
              /\ (pos < c)%nat /\ Heap.parent c = pos /\ heap !! c = Some m
              /\ forall d y, (0 < d)%nat -> Heap.parent d = pos ->
                             heap !! d = Some y -> ~ key_lt y m).
    { assert (P1 : Heap.parent (2 * pos + 1) = pos).
      { pose proof (parent_cases (2 * pos + 1)). lia. }
      assert (P2 : Heap.parent (2 * pos + 2) = pos).
      { pose proof (parent_cases (2 * pos + 2)). lia. }
      destruct (Nat.ltb_spec (2 * pos + 1 + 1) (length heap)) as [Hr|Hr].
      - destruct (lookup_lt_is_Some_2 heap (2 * pos + 1 + 1) Hr) as [r Hr'].
        rewrite Hl, Hr'.
        replace (2 * pos + 1 + 1)%nat with (2 * pos + 2)%nat in * by lia.
        destruct (compare_at heap (2 * pos + 1) (2 * pos + 2) l r Hk)
          as [[Hlt ->]|[Hlt ->]]; [lia | assumption | assumption | |];
          cbn [rbind].
        + exists (2 * pos + 1)%nat, l. repeat split; auto; [lia|].
          intros d y Hd Hp Hy. pose proof (parent_cases d Hd).
          assert (d = 2 * pos + 1 \/ d = 2 * pos + 2)%nat as [->| ->] by lia.
          * rewrite Hl in Hy. injection Hy as <-. order.
          * rewrite Hr' in Hy. injection Hy as <-. order.
        + exists (2 * pos + 2)%nat, r. repeat split; auto; [lia|].
          intros d y Hd Hp Hy. pose proof (parent_cases d Hd).
          assert (d = 2 * pos + 1 \/ d = 2 * pos + 2)%nat as [->| ->] by lia.
          * rewrite Hl in Hy. injection Hy as <-. order.
          * rewrite Hr' in Hy. injection Hy as <-. order.
      - exists (2 * pos + 1)%nat, l. repeat split; auto; [lia|].
        intros d y Hd Hp Hy. pose proof (parent_cases d Hd).
        pose proof (lookup_lt_Some _ _ _ Hy).
        assert (d = 2 * pos + 1)%nat as -> by lia.
        rewrite Hl in Hy. injection Hy as <-. order. }
    destruct Hsmall as (c & m & -> & Hpc & Hcp & Hm & Hmin).
    pose proof (lookup_lt_Some _ _ _ Hm) as Hclen.
    destruct (IH c (Heap.swap c pos heap)) as (leaf & heap' & E & R).
    + rewrite swap_length. lia.
    + rewrite swap_length. lia.
    + eapply keys_differ_perm; [symmetry; apply swap_perm | exact Hk].
    + split.
      * intros i a b Hi Hic Hpic. rewrite !(swap_lookup _ _ heap m x) by assumption.
        destruct (decide (i = c)) as [|_]; [contradiction|].
        destruct (decide (Heap.parent i = c)) as [|_]; [contradiction|].
        destruct (decide (i = pos)) as [->|Hip].
        -- pose proof (parent_below pos Hi).
           destruct (decide (Heap.parent pos = pos)) as [|_]; [lia|].
           intros [= <-] Hb. exact (H2 c m b Hi ltac:(lia) Hcp Hm Hb).
        -- intros Ha. destruct (decide (Heap.parent i = pos)) as [E|E].
           ++ intros [= <-]. exact (Hmin i a Hi E Ha).
           ++ intros Hb. exact (H1 i a b Hi Hip E Ha Hb).
      * intros d a b Hc0 Hd Hdp. pose proof (parent_below d Hd).
        rewrite !(swap_lookup _ _ heap m x) by assumption.
        destruct (decide (d = c)) as [|_]; [lia|].
        destruct (decide (d = pos)) as [|_]; [lia|].
        destruct (decide (Heap.parent c = c)) as [|_]; [lia|].
        rewrite Hcp. rewrite decide_True by reflexivity.
        intros Ha [= <-].
        apply (H1 d a m Hd); [lia | lia | exact Ha | now rewrite Hdp].
    + exists leaf, heap'. split; [exact E | exact R].
  - exists pos, heap. split; [reflexivity|]. split; [exact Hlen|]. split; [exact Hk|].
    assert (Hnone : forall d y, (0 < d)%nat -> Heap.parent d = pos ->
                                heap !! d = Some y -> False).
    { intros d y Hd Hp Hy. pose proof (parent_cases d Hd).
      pose proof (lookup_lt_Some _ _ _ Hy).
      assert (~ (2 * pos + 1 < length heap)%nat) by (rewrite <- below_half; lia). lia. }
    split.
    + intros i a b Hi Hip Ha Hb.
      destruct (decide (Heap.parent i = pos)) as [E|E]; [now destruct (Hnone i a)|].
      exact (H1 i a b Hi Hip E Ha Hb).
    + intros c a b _ Hc0 Hcp Ha _. now destruct (Hnone c a).
Qed.

Lemma siftup_heap heap :
  (0 < length heap)%nat -> keys_differ heap -> Heap.heap_but heap 0 ->
  exists heap', Heap.siftup 0 heap = (Ok tt, heap') /\ Heap.heap_ordered heap'.
Proof.
  intros Hlen Hk Hb. unfold Heap.siftup.
  destruct (to_leaf_heap (length heap) 0 heap) as (leaf & heap1 & -> & Hl & Hk1 & Hup);
    [lia | exact Hlen | exact Hk | exact Hb |].
  now apply siftdown_heap.
Qed.

(** In a heap no entry lies below the first. *)
Lemma heap_root_min heap r :
  Heap.heap_ordered heap -> heap !! 0%nat = Some r ->
  forall i x, heap !! i = Some x -> ~ key_lt x r.
Proof.
  intros Hh Hr i. induction i as [i IH] using lt_wf_ind. intros x Hx.
  destruct (Nat.eq_dec i 0%nat) as [->|Hi].
  - rewrite Hr in Hx. injection Hx as <-. order.
  - assert (Hpos : (0 < i)%nat) by lia. pose proof (parent_below i Hpos) as Hp.
    destruct (lookup_lt_is_Some_2 heap (Heap.parent i)) as [p Hpp].
    { pose proof (lookup_lt_Some _ _ _ Hx). lia. }
    pose proof (Hh i x p Hpos Hx Hpp). pose proof (IH _ Hp p Hpp). order.
Qed.

(** [heappush] on a heap, the keys being different: the item is added and
    the list is a heap. *)
Lemma heappush_heap item heap :
  Heap.heap_ordered heap -> keys_differ (heap ++ [item]) ->
  exists heap',
    Heap.heappush item heap = (Ok tt, heap')
    /\ Heap.heap_ordered heap' /\ heap' ≡ₚ item :: heap.
Proof.
  intros Hh Hk. unfold Heap.heappush.
  destruct (siftdown_heap (length heap) (length heap) (heap ++ [item]))
    as (heap' & E & Hh'); [lia | rewrite length_app; cbn; lia | exact Hk | |].
  - split.
    + intros i a b Hi Hne Ha Hb. pose proof (parent_below i Hi).
      pose proof (lookup_lt_Some _ _ _ Ha) as Hl. rewrite length_app in Hl. cbn in Hl.
      rewrite lookup_app_l in Ha by lia. rewrite lookup_app_l in Hb by lia.
      exact (Hh i a b Hi Ha Hb).
    + intros c a b _ Hc Hcp Ha _. pose proof (parent_cases c Hc).
      pose proof (lookup_lt_Some _ _ _ Ha) as Hl. rewrite length_app in Hl. cbn in Hl.
      lia.
  - exists heap'. split; [exact E|]. split; [exact Hh'|].
    pose proof (heappush_perm item heap) as P. unfold Heap.heappush in P.
    now rewrite E in P.
Qed.

(** [heappop] on a heap, the keys being different: the first entry is
    returned, no entry lies below it, and the others are a heap. *)
Lemma heappop_heap heap :
  Heap.heap_ordered heap -> keys_differ heap -> heap <> [] ->
  exists item heap',
    Heap.heappop heap = (Ok item, heap')
    /\ Heap.heap_ordered heap' /\ heap ≡ₚ item :: heap'
    /\ forall x, x ∈ heap -> ~ key_lt x item.
Proof.
  intros Hh Hk Hne.
  assert (Hroot : exists r, heap !! 0%nat = Some r).
  { destruct heap; [congruence | eauto]. }
  destruct Hroot as [r Hr].
  assert (Hmin : forall x, x ∈ heap -> ~ key_lt x r).
  { intros x [i Hi]%list_elem_of_lookup. exact (heap_root_min heap r Hh Hr i x Hi). }
  pose proof (heappop_perm heap) as P. revert P. unfold Heap.heappop.
  destruct (last heap) as [lastelt|] eqn:Hl.
  2:{ apply last_None in Hl. congruence. }
  apply last_Some in Hl as [init ->].
  rewrite length_app, Nat.add_sub, take_app_length.
  destruct init as [|returnitem rest].
  - intros P. exists lastelt, []. cbn in Hr. injection Hr as <-.
    repeat split; auto. intros i a b _ Ha. now rewrite lookup_nil in Ha.
  - cbn in Hr. injection Hr as <-.
    destruct (siftup_heap (lastelt :: rest)) as (heap' & -> & Hh'); [cbn; lia | | |].
    + unfold keys_differ in *. cbn [app map] in Hk. apply NoDup_cons in Hk as [_ Hk].
      rewrite map_app in Hk. cbn [map] in Hk.
      cbn [map]. eapply NoDup_Permutation_proper; [|exact Hk].
      now rewrite Permutation_app_comm.
    + split; [|intros c a b Hz; lia].
      intros i a b Hi _ Hpi Ha Hb. pose proof (parent_below i Hi).
      pose proof (lookup_lt_Some _ _ _ Ha) as Hlen. cbn in Hlen.
      assert (Hin : forall k y, (lastelt :: rest) !! S k = Some y ->
                ((returnitem :: rest) ++ [lastelt]) !! S k = Some y).
      { intros k y Hy. pose proof (lookup_lt_Some _ _ _ Hy) as Hk'. simpl in *.
        rewrite lookup_app_l; [exact Hy | lia]. }
      destruct i as [|i]; [lia|].
      destruct (Heap.parent (S i)) as [|j] eqn:Ej; [congruence|].
      apply (Hh (S i) a b Hi); [|rewrite Ej]; now apply Hin.
    + intros P. exists returnitem, heap'. repeat split; auto.
Qed.

(** *** The fuel is enough *)

Lemma siftdown_fuel fuel startpos :
  forall extra pos heap,
    (pos <= fuel)%nat ->
    Heap.siftdown (fuel + extra) startpos pos heap
    = Heap.siftdown fuel startpos pos heap.
Proof.
  induction fuel as [|fuel IH]; intros extra pos heap Hf.
  - assert (pos = 0)%nat as -> by lia. destruct extra; reflexivity.
  - cbn [Nat.add Heap.siftdown]. destruct (pos <=? startpos)%nat eqn:Hp; [reflexivity|].
    destruct (heap !! pos) as [newitem|]; [|reflexivity].
    destruct (heap !! ((pos - 1) / 2)%nat) as [parent|]; [|reflexivity].
    destruct (entry_lt newitem parent) as [[|]|e]; try reflexivity.
    apply IH. apply Nat.leb_gt in Hp.
    assert (0 < pos)%nat by lia. pose proof (parent_below pos). unfold Heap.parent in *.
    lia.
Qed.

Lemma to_leaf_fuel fuel :
  forall extra pos heap,
    (length heap <= fuel + pos)%nat ->
    Heap.to_leaf (fuel + extra) pos heap = Heap.to_leaf fuel pos heap.
Proof.
  induction fuel as [|fuel IH]; intros extra pos heap Hf.
  - destruct extra; [reflexivity|]. cbn [Nat.add Heap.to_leaf].
    destruct (Nat.ltb_spec pos (length heap / 2)) as [Hc|Hc]; [|reflexivity].
    apply below_half in Hc. cbn in Hf. lia.
  - cbn [Nat.add Heap.to_leaf].
    destruct (pos <? length heap / 2)%nat; [|reflexivity].
    destruct (2 * pos + 1 + 1 <? length heap)%nat.
    + destruct (heap !! (2 * pos + 1)%nat) as [a|]; [|reflexivity].
      destruct (heap !! (2 * pos + 1 + 1)%nat) as [b|]; [|reflexivity].
      destruct (entry_lt a b) as [[|]|e]; cbn [rbind]; try reflexivity;
        apply IH; rewrite swap_length; lia.
    + apply IH. rewrite swap_length. lia.
Qed.

(** *** The contract of the priority queue *)

Lemma remove_entry_perm m entries :
  m ∈ entries -> entries ≡ₚ m :: remove_entry m entries.
Proof.
  induction entries as [|e entries IH]; intros H; [now apply elem_of_nil in H|].
  cbn [remove_entry]. destruct (entry_eqb m e) eqn:E.
  - apply QueueFacts.entry_eqb_eq in E. now subst e.
  - apply elem_of_cons in H as [->|H].
    + assert (entry_eqb e e = true) by now apply QueueFacts.entry_eqb_eq. congruence.
    + rewrite (Permutation_swap e m). f_equiv. now apply IH.
Qed.

Lemma same_key_same_entry entries a b :
  keys_differ entries -> a ∈ entries -> b ∈ entries -> key a = key b -> a = b.
Proof.
  intros Hk [i Hi]%list_elem_of_lookup [j Hj]%list_elem_of_lookup E.
  assert (i = j).
  { apply (NoDup_lookup (map key entries) i j (key a) Hk).
    - now rewrite lookup_map_key, Hi.
    - now rewrite lookup_map_key, Hj, E. }
  subst j. congruence.
Qed.

Lemma key_total a b : key a <> key b -> ~ key_lt b a -> key_lt a b.
Proof.
  destruct a as [[p1 t1] i1], b as [[p2 t2] i2]. unfold key_lt, key. cbn [fst snd].
  intros Hne Hlt. destruct (decide (p1 = p2)) as [->|Hp]; [|lia].
  destruct (decide (t1 = t2)) as [->|Ht]; [congruence | lia].
Qed.

(** On entries whose keys differ the heap does what [Queue] takes from the
    contract: [get] returns the entry that [get_entry] returns, and leaves
    the same entries. *)
Lemma get_by_contract heap entries :
  Heap.heap_ordered heap -> keys_differ heap -> heap ≡ₚ entries -> entries <> [] ->
  exists m rest heap',
    get_entry entries = Ok (Some (m, rest))
    /\ Heap.get heap = (Ok (Some m), heap')
    /\ rest ≡ₚ heap' /\ Heap.heap_ordered heap'.
Proof.
  intros Hh Hk P Hne.
  pose proof (keys_differ_perm _ _ P Hk) as Hk'.
  destruct (QueueFacts.get_entry_total entries Hk' Hne) as (m & rest & G).
  pose proof G as G'. apply QueueFacts.get_entry_spec in G' as (Hm & Hmin & ->).
  destruct (heappop_heap heap Hh Hk) as (m' & heap' & E & Hh' & P' & Hmin').
  { intros ->. apply Permutation_nil_l in P. congruence. }
  assert (Hm' : m' ∈ entries).
  { rewrite <- P, P'. apply elem_of_cons. now left. }
  assert (m = m') as <-.
  { apply (same_key_same_entry entries m m' Hk' Hm Hm').
    destruct (decide (key m = key m')) as [Ek|Ek]; [exact Ek|].
    apply key_total in Ek; [|exact (Hmin m' Hm')].
    destruct (Hmin' m); [now rewrite P | exact Ek]. }
  exists m, (remove_entry m entries), heap'. split; [exact G|]. split.
  - unfold Heap.get. destruct heap; [now apply Permutation_nil_l in P|]. now rewrite E.
  - split; [|exact Hh']. apply (Permutation_cons_inv (a := m)).
    now rewrite <- (remove_entry_perm m entries Hm), <- P.
Qed.

Lemma put_by_contract item heap entries :
  Heap.heap_ordered heap -> keys_differ (heap ++ [item]) -> heap ≡ₚ entries ->
  exists heap',
    Heap.put item heap = (Ok tt, heap')
    /\ heap' ≡ₚ put item entries /\ Heap.heap_ordered heap'.
Proof.
  intros Hh Hk P. destruct (heappush_heap item heap Hh Hk) as (heap' & E & Hh' & P').
  exists heap'. split; [exact E|]. split; [|exact Hh'].
  unfold put. now rewrite P', <- P, Permutation_app_comm.
Qed.

(** *** Entries that tie *)

(** C5 fails on the code.  Three tasks are submitted: the first URGENT,
    the two others NORMAL and created at the same reading of the clock.
    No submission compares the two NORMAL entries, each being compared
    with the URGENT one at the root.  When a worker asks for a task,
    [heappop] takes the URGENT entry out and compares the two others to
    restore the heap: they agree on priority and creation time, the
    comparison falls to the tasks, which have no order, and [get] raises
    [TypeError].  The URGENT entry is in the queue no more and is not
    returned: the next turns start the two NORMAL tasks, and the URGENT
    task, still PENDING, is never dispatched.  (A task submitted with the
    priority and the creation time of the only task that waits is met
    with [TypeError] by [add_task] itself.) *)
Theorem tied_tasks_break_dispatch :
  let '(id1, q1) := Heap.add_task DOWNLOAD URGENT 0 3 5 empty_queue in
  let '(id2, q2) := Heap.add_task DOWNLOAD NORMAL 5 3 5 q1 in
  let '(id3, q3) := Heap.add_task UPLOAD NORMAL 5 3 5 q2 in
  let '(turn1, q4) := Heap.worker_begin 6 q3 in
  let '(turn2, q5) := Heap.worker_begin 7 q4 in
  let '(turn3, q6) := Heap.worker_begin 8 q5 in
  let '(turn4, q7) := Heap.worker_begin 9 q6 in
  (id1 = Ok "task-1" /\ id2 = Ok "task-2" /\ id3 = Ok "task-3")
  /\ task_queue q3 = [(-3, 0, "task-1"); (-1, 5, "task-2"); (-1, 5, "task-3")]
  /\ (exists A B, tasks q3 !! "task-1" = Some A /\ tasks q3 !! "task-2" = Some B
                  /\ priority_value (priority A) > priority_value (priority B))
  /\ turn1 = Raise TypeError
  /\ task_queue q4 = [(-1, 5, "task-2"); (-1, 5, "task-3")]
  /\ turn2 = Ok (Started "task-2")
  /\ turn3 = Ok (Started "task-3")
  /\ turn4 = Ok Idle
  /\ task_queue q7 = []
  /\ active_tasks q7 = ["task-2"; "task-3"]
  /\ (status <$> tasks q7 !! "task-1") = Some PENDING
  /\ (let '(first, p1) := Heap.add_task DOWNLOAD NORMAL 5 3 5 empty_queue in
      let '(second, p2) := Heap.add_task UPLOAD NORMAL 5 3 5 p1 in
      first = Ok "task-1" /\ second = Raise TypeError
      /\ task_queue p2 = [(-1, 5, "task-1"); (-1, 5, "task-2")]).
Proof.
  vm_compute. repeat split. do 2 eexists. repeat split.
Qed.

End HeapFacts.

(** ** common/utils.py: permission strings *)

Module UtilsFacts.

Import Utils.

Lemma digit_cases (n : Z) :
  0 <= n <= 7 ->
  n = 0 \/ n = 1 \/ n = 2 \/ n = 3 \/ n = 4 \/ n = 5 \/ n = 6 \/ n = 7.
Proof. lia. Qed.

(** X1.  A mode whose three decimal digits are between 0 and 7 is read back
    from the string [permissions_to_str] prints for it. *)
Theorem permissions_str_roundtrip (mode : Z) :
  permission_digits mode ->
  parse_permissions (permissions_to_str mode) = Some mode.
Proof.
  intros (owner & group & other & Ho & Hg & Ht & ->).
  destruct (digit_cases owner Ho) as [->|[->|[->|[->|[->|[->|[->| ->]]]]]]];
    destruct (digit_cases group Hg) as [->|[->|[->|[->|[->|[->|[->| ->]]]]]]];
    destruct (digit_cases other Ht) as [->|[->|[->|[->|[->|[->|[->| ->]]]]]]];
    vm_compute; reflexivity.
Qed.

Lemma permissions_str_roundtrip_witness :
  permission_digits 754
  /\ parse_permissions (permissions_to_str 754) = Some 754.
Proof.
  assert (H : permission_digits 754).
  { exists 7, 5, 4. lia. }
  split; [exact H | exact (permissions_str_roundtrip 754 H)].
Defined.

Lemma char_is_eq s i c : char_is s i c = true -> String.get i s = Some c.
Proof.
  unfold char_is. destruct (String.get i s) as [x|]; [|discriminate].
  intros H. apply Ascii.eqb_eq in H. now subst.
Qed.

Lemma char_either s i a b :
  char_is s i a || char_is s i b = true ->
  String.get i s = Some a \/ String.get i s = Some b.
Proof.
  intros H. apply orb_true_iff in H as [H|H]; apply char_is_eq in H; auto.
Qed.

Lemma plain_triad_cases s i :
  plain_triad s i = true ->
  (String.get i s = Some "r"%char \/ String.get i s = Some "-"%char)
  /\ (String.get (i + 1) s = Some "w"%char \/ String.get (i + 1) s = Some "-"%char)
  /\ (String.get (i + 2) s = Some "x"%char \/ String.get (i + 2) s = Some "-"%char).
Proof.
  unfold plain_triad. intros H.
  apply andb_true_iff in H as [H Hx]. apply andb_true_iff in H as [Hr Hw].
  auto using char_either.
Qed.

Lemma nine_chars (s : string) :
  String.length s = 9%nat ->
  exists c0 c1 c2 c3 c4 c5 c6 c7 c8,
    s = String c0 (String c1 (String c2 (String c3 (String c4 (String c5
          (String c6 (String c7 (String c8 EmptyString)))))))).
Proof.
  intros H.
  do 9 (destruct s as [|? s]; [discriminate|]).
  destruct s; [|discriminate]. repeat eexists.
Qed.

(** X2.  A nine-character string made of [r], [w], [x] in their places and
    hyphens is read as a mode with digits between 0 and 7, and
    [permissions_to_str] prints that mode as the same string. *)
Theorem permissions_parse_roundtrip (s : string) :
  plain_permissions s = true ->
  exists mode,
    parse_permissions s = Some mode
    /\ permission_digits mode
    /\ permissions_to_str mode = s.
Proof.
  unfold plain_permissions. intros H.
  apply andb_true_iff in H as [H H6]. apply andb_true_iff in H as [H H3].
  apply andb_true_iff in H as [Hlen H0].
  apply Nat.eqb_eq in Hlen.
  destruct (nine_chars s Hlen) as (c0 & c1 & c2 & c3 & c4 & c5 & c6 & c7 & c8 & ->).
  apply plain_triad_cases in H0 as (A0 & A1 & A2).
  apply plain_triad_cases in H3 as (A3 & A4 & A5).
  apply plain_triad_cases in H6 as (A6 & A7 & A8).
  cbn in A0, A1, A2, A3, A4, A5, A6, A7, A8.
  destruct A0 as [[= ->]|[= ->]]; destruct A1 as [[= ->]|[= ->]];
    destruct A2 as [[= ->]|[= ->]]; destruct A3 as [[= ->]|[= ->]];
    destruct A4 as [[= ->]|[= ->]]; destruct A5 as [[= ->]|[= ->]];
    destruct A6 as [[= ->]|[= ->]]; destruct A7 as [[= ->]|[= ->]];
    destruct A8 as [[= ->]|[= ->]];
    (eexists; split; [vm_compute; reflexivity|];
     split; [|vm_compute; reflexivity];
     match goal with
     | |- permission_digits ?m =>
         exists ((m / 100) mod 10), ((m / 10) mod 10), (m mod 10);
         vm_compute; repeat split; congruence
     end).
Qed.

Lemma permissions_parse_roundtrip_witness :
  plain_permissions "rwxr-xr--" = true
  /\ exists mode,
       parse_permissions "rwxr-xr--" = Some mode
       /\ permission_digits mode
       /\ permissions_to_str mode = "rwxr-xr--".
Proof.
  split; [reflexivity | apply permissions_parse_roundtrip; reflexivity].
Defined.

Lemma triad_range s i : 0 <= triad s i <= 7.
Proof.
  unfold triad.
  destruct (char_is s i "r"), (char_is s (i + 1) "w"), (char_is s (i + 2) "x"); lia.
Qed.

(** X3.  [parse_permissions] answers [None] exactly for the strings that do
    not have nine characters; for the others, whatever their characters,
    the mode has three digits between 0 and 7: a character that is not the
    letter of its place counts as a hyphen. *)
Theorem parse_permissions_range (s : string) :
  if (String.length s =? 9)%nat
  then exists mode, parse_permissions s = Some mode /\ permission_digits mode
  else parse_permissions s = None.
Proof.
  unfold parse_permissions.
  destruct (String.length s =? 9)%nat eqn:Hlen.
  - assert (Hne : String.eqb s "" = false).
    { destruct s; [discriminate|reflexivity]. }
    rewrite Hne. cbn [orb negb].
    eexists. split; [reflexivity|].
    exists (triad s 0), (triad s 3), (triad s 6).
    cbn [map nth]. pose proof (triad_range s 0). pose proof (triad_range s 3).
    pose proof (triad_range s 6). repeat split; lia.
  - cbn [negb]. now rewrite orb_true_r.
Qed.

End UtilsFacts.

(** ** common/protocol.py: the directory listings *)

Module StringFacts.

Import PyFacts.

Lemma rstrip_end s u c :
  Py.rstrip s = u ++ String c "" -> Py.isspace c = false.
Proof.
  revert u. induction s as [|x s IH]; intros u; cbn [Py.rstrip].
  - destruct u; discriminate.
  - destruct (Py.rstrip s) as [|y r] eqn:E.
    + destruct (Py.isspace x) eqn:Hx.
      * destruct u; discriminate.
      * destruct u as [|z u]; rewrite ?app_nil, ?app_cons.
        -- now intros [= ->].
        -- intros [= _ H]. destruct u; discriminate.
    + destruct u as [|z u]; rewrite ?app_nil, ?app_cons.
      * discriminate.
      * intros [= _ H]. now apply (IH u).
Qed.

Lemma rstrip_app a b :
  Py.rstrip b = b -> b <> "" -> Py.rstrip (a ++ b) = a ++ b.
Proof.
  intros Hb Hne. induction a as [|x a IH]; rewrite ?app_nil, ?app_cons; [exact Hb|].
  cbn [Py.rstrip]. rewrite IH.
  destruct (a ++ b) as [|y r] eqn:E; [|reflexivity].
  destruct a; rewrite ?app_nil, ?app_cons in E; [contradiction | discriminate].
Qed.

Lemma split1_app sep w rest :
  Py.has_char sep w = false ->
  Listing.split1 sep (w ++ String sep rest) = [w; rest].
Proof.
  induction w as [|c w IH]; rewrite ?app_nil, ?app_cons; cbn [Listing.split1 Py.has_char].
  - intros _. now rewrite Ascii.eqb_refl.
  - intros H. apply orb_false_iff in H as [Hc Hw].
    rewrite Hc, (IH Hw). reflexivity.
Qed.

Lemma split1_cases sep s :
  Listing.split1 sep s = [s]
  \/ exists a b, Listing.split1 sep s = [a; b] /\ s = a ++ String sep b.
Proof.
  induction s as [|c s IH]; cbn [Listing.split1]; [now left|].
  destruct (Ascii.eqb_spec c sep) as [->|Hc].
  - right. exists "", s. now rewrite app_nil.
  - destruct IH as [->|(a & b & -> & ->)]; [now left|].
    right. exists (String c a), b. now rewrite app_cons.
Qed.

Lemma has_char_app x a b :
  Py.has_char x (a ++ b) = Py.has_char x a || Py.has_char x b.
Proof.
  induction a as [|c a IH]; rewrite ?app_nil, ?app_cons; cbn [Py.has_char];
    [reflexivity | now rewrite IH, orb_assoc].
Qed.

Lemma no_space_app a b :
  Listing.no_space (a ++ b) = Listing.no_space a && Listing.no_space b.
Proof.
  induction a as [|c a IH]; rewrite ?app_nil, ?app_cons; cbn [Listing.no_space];
    [reflexivity | now rewrite IH, andb_assoc].
Qed.

Lemma no_space_blank s : Listing.no_space s = true -> Py.has_char " " s = false.
Proof.
  induction s as [|c s IH]; cbn [Listing.no_space Py.has_char]; [reflexivity|].
  intros H. apply andb_true_iff in H as [Hc Hs]. rewrite (IH Hs), orb_false_r.
  destruct (Ascii.eqb_spec c " ") as [->|]; [discriminate Hc | reflexivity].
Qed.

Lemma no_space_lstrip s : Listing.no_space s = true -> Py.lstrip s = s.
Proof.
  destruct s as [|c s]; cbn [Listing.no_space Py.lstrip]; [reflexivity|].
  intros H. apply andb_true_iff in H as [Hc _].
  apply negb_true_iff in Hc. now rewrite Hc.
Qed.

Lemma lstrip_app a b :
  a <> "" -> Listing.no_space a = true -> Py.lstrip (a ++ b) = a ++ b.
Proof.
  destruct a as [|c a]; [contradiction|]. intros _ H.
  rewrite app_cons. cbn [Listing.no_space] in H. cbn [Py.lstrip].
  apply andb_true_iff in H as [Hc _]. apply negb_true_iff in Hc. now rewrite Hc.
Qed.

Lemma eqb_nonempty c s : String.eqb (String c s) "" = false.
Proof. reflexivity. Qed.

Lemma app_nonempty_l (a b : string) : a <> "" -> a ++ b <> "".
Proof. destruct a; [contradiction|]. rewrite app_cons. discriminate. Qed.

Lemma neq_eqb_empty (s : string) : s <> "" -> String.eqb s "" = false.
Proof. destruct s; [contradiction | reflexivity]. Qed.

End StringFacts.

Module MlsdFacts.

Import PyFacts StringFacts Listing.

Lemma parse_mlsd_line_name line facts :
  parse_mlsd_line line = Ok facts ->
  exists name, facts !! "name" = Some name /\ name <> "".
Proof.
  unfold parse_mlsd_line.
  destruct (split1_cases " " (Py.strip line)) as [E|(a & b & E & Hs)]; rewrite E.
  - discriminate.
  - cbn [unpack2 rbind].
    destruct (read_facts (Py.split ";" a) ∅) as [m|e]; [|discriminate].
    cbn [rbind]. intros [= <-]. exists b. split; [apply lookup_insert_eq|].
    intros ->. unfold Py.strip in Hs.
    now pose proof (rstrip_end _ _ _ Hs).
Qed.

(** X4.  Whatever the lines are, [parse_mlsd_response] gives at
    most one dictionary per line, and each dictionary holds a name that is
    not empty. *)
Theorem mlsd_records_named (lines : list string) :
  (length (parse_mlsd_response lines) <= length lines)%nat
  /\ forall facts, facts ∈ parse_mlsd_response lines ->
       exists name, facts !! "name" = Some name /\ name <> "".
Proof.
  induction lines as [|line rest [IHl IHn]]; cbn [parse_mlsd_response length].
  - split; [lia|]. intros facts H. now apply elem_of_nil in H.
  - destruct (String.eqb (Py.strip line) "").
    + split; [lia | exact IHn].
    + destruct (parse_mlsd_line line) as [m|e] eqn:E.
      * split; [cbn [length]; lia|].
        intros facts H. apply elem_of_cons in H as [->|H]; [|now apply IHn].
        now apply (parse_mlsd_line_name line).
      * split; [lia | exact IHn].
Qed.

Lemma fact_text_clean kv :
  key_ok (fst kv) = true -> value_ok (snd kv) = true ->
  no_space (fact_text kv) = true
  /\ Py.has_char ";" (fact_text kv) = false
  /\ Py.has_char "=" (fst kv) = false.
Proof.
  unfold key_ok, value_ok, fact_text. intros Hk Hv.
  apply andb_true_iff in Hk as [Hk Hk3]. apply andb_true_iff in Hk as [Hk1 Hk2].
  apply andb_true_iff in Hv as [Hv1 Hv2].
  apply negb_true_iff in Hk2, Hk3, Hv2.
  rewrite !no_space_app, !has_char_app, Hk1, Hk2, Hv1, Hv2. auto.
Qed.

Lemma mlsd_line_split facts name :
  clean facts ->
  exists F,
    mlsd_line facts name = F ++ String " " name
    /\ no_space F = true
    /\ (facts <> [] -> F <> "")
    /\ Py.split ";" F = (map fact_text facts ++ [""])%list.
Proof.
  induction 1 as [|kv facts [Hk Hv] _ (F & E & Hns & Hne & Hsp)].
  - exists "". repeat split; try reflexivity. intros H; contradiction.
  - destruct (fact_text_clean kv Hk Hv) as (H1 & H2 & _).
    exists (fact_text kv ++ ";" ++ F). cbn [mlsd_line fold_right].
    fold (mlsd_line facts name). rewrite E.
    repeat split.
    + now rewrite !app_assoc.
    + rewrite !no_space_app, H1, Hns. reflexivity.
    + intros _. destruct (fact_text kv) eqn:Ef; rewrite ?app_nil, ?app_cons; discriminate.
    + rewrite (split_app ";" (fact_text kv) F H2), Hsp. reflexivity.
Qed.

Lemma read_facts_clean facts m :
  clean facts ->
  read_facts (map fact_text facts ++ [""])%list m
  = Ok (fold_left (fun m kv => <[Py.lower (fst kv) := snd kv]> m) facts m).
Proof.
  intros H. revert m. induction H as [|kv facts [Hk Hv] _ IH]; intros m.
  - reflexivity.
  - destruct (fact_text_clean kv Hk Hv) as (_ & _ & H3).
    cbn [map app read_facts fold_left].
    assert (Hne : String.eqb (fact_text kv) "" = false).
    { unfold fact_text. destruct (fst kv); rewrite ?app_nil, ?app_cons; reflexivity. }
    rewrite Hne. unfold fact_text at 1.
    change ("=" ++ snd kv) with (String "=" (snd kv)).
    rewrite (split1_app "=" (fst kv) (snd kv) H3). cbn [unpack2 rbind].
    apply IH.
Qed.

(** X5.  The line a server writes for a list of facts and a name
    is read back as the dictionary of the facts, keys in lower case, with
    the name under the key "name".  The keys hold no white space, semicolon
    or equals sign, the values no white space or semicolon; there is at
    least one fact; the name is not empty and does not end in white
    space. *)
Theorem mlsd_line_parsed (facts : list (string * string)) (name : string) :
  facts <> [] -> clean facts -> name <> "" -> Py.rstrip name = name ->
  parse_mlsd_response [mlsd_line facts name]
  = [<["name" := name]> (facts_of facts)].
Proof.
  intros Hfacts Hclean Hname Hr.
  destruct (mlsd_line_split facts name Hclean) as (F & E & Hns & Hne & Hsp).
  specialize (Hne Hfacts).
  assert (Hstrip : Py.strip (mlsd_line facts name) = F ++ String " " name).
  { rewrite E. unfold Py.strip. rewrite (lstrip_app F _ Hne Hns).
    apply rstrip_app; [|discriminate].
    cbn [Py.rstrip]. rewrite Hr. destruct name; [contradiction | reflexivity]. }
  cbn [parse_mlsd_response]. rewrite Hstrip.
  rewrite (neq_eqb_empty _ (app_nonempty_l F _ Hne)).
  unfold parse_mlsd_line. rewrite Hstrip.
  rewrite (split1_app " " F name (no_space_blank F Hns)). cbn [unpack2 rbind].
  rewrite Hsp, (read_facts_clean facts ∅ Hclean). reflexivity.
Qed.

Lemma mlsd_line_parsed_witness :
  parse_mlsd_response [mlsd_line [("Type", "file"); ("size", "12")] "a b.txt"]
  = [<["name" := "a b.txt"]> (facts_of [("Type", "file"); ("size", "12")])].
Proof.
  apply mlsd_line_parsed.
  - discriminate.
  - repeat constructor.
  - discriminate.
  - reflexivity.
Defined.

End MlsdFacts.

Module RxFacts.

Import PyFacts StringFacts Rx.

Lemma backtrack_some {A : Type} (f : nat -> option A) n r :
  Re.backtrack f n = Some r -> exists k, (1 <= k <= n)%nat /\ f k = Some r.
Proof.
  induction n as [|n IH]; cbn [Re.backtrack]; [discriminate|].
  destruct (f (S n)) as [x|] eqn:E.
  - intros [= <-]. exists (S n). split; [lia | exact E].
  - intros H. destruct (IH H) as (k & Hk & Hf). exists k. split; [lia | exact Hf].
Qed.

Lemma backtrack_first {A : Type} (f : nat -> option A) n r :
  (0 < n)%nat -> f n = Some r -> Re.backtrack f n = Some r.
Proof.
  destruct n as [|n]; [lia|]. intros _ H. cbn [Re.backtrack]. now rewrite H.
Qed.

Lemma span_length cls s : (span cls s <= String.length s)%nat.
Proof.
  induction s as [|c s IH]; cbn [span String.length]; [lia|].
  destruct (cls c); lia.
Qed.

Lemma take_span cls k s :
  (k <= span cls s)%nat -> all cls (Py.take k s) = true.
Proof.
  revert s. induction k as [|k IH]; intros s; [now destruct s|].
  destruct s as [|c s]; cbn [span]; [lia|].
  destruct (cls c) eqn:Hc; [|lia]. intros H.
  cbn [Py.take all]. rewrite Hc. apply IH. lia.
Qed.

Lemma take_nonempty k s :
  (1 <= k <= String.length s)%nat -> Py.take k s <> "".
Proof.
  destruct k; [lia|]. destruct s; cbn [String.length]; [lia|]. discriminate.
Qed.

Lemma length_drop k s :
  (k <= String.length s)%nat ->
  String.length (Py.drop k s) = (String.length s - k)%nat.
Proof.
  revert s. induction k as [|k IH]; intros s H.
  - destruct s; cbn; lia.
  - destruct s as [|c s]; cbn [String.length] in *; [lia|].
    cbn [Py.drop]. rewrite IH; lia.
Qed.

Lemma span_app cls w s :
  all cls w = true -> head_not cls s = true ->
  span cls (w ++ s) = String.length w.
Proof.
  intros Hw Hs. induction w as [|c w IH]; rewrite ?app_nil, ?app_cons.
  - destruct s as [|c s]; [reflexivity|]. cbn [head_not] in Hs. cbn [span].
    apply negb_true_iff in Hs. now rewrite Hs.
  - cbn [all] in Hw. apply andb_true_iff in Hw as [Hc Hw].
    cbn [span String.length]. now rewrite Hc, (IH Hw).
Qed.

Lemma span_app_ge cls w s :
  all cls w = true -> (String.length w <= span cls (w ++ s))%nat.
Proof.
  intros Hw. induction w as [|c w IH]; rewrite ?app_nil, ?app_cons.
  - cbn. lia.
  - cbn [all] in Hw. apply andb_true_iff in Hw as [Hc Hw].
    cbn [span String.length]. rewrite Hc. specialize (IH Hw). lia.
Qed.

(** *** Reading a match backwards *)

Lemma inv_close p s st G :
  match_here (Close :: p) s st = Some G ->
  exists G', G = Py.take (String.length st - String.length s) st :: G'
             /\ match_here p s st = Some G'.
Proof.
  cbn [match_here]. destruct (match_here p s st) as [G'|]; [|discriminate].
  intros [= <-]. now exists G'.
Qed.

Lemma inv_one cls p s st G :
  match_here (One cls :: p) s st = Some G ->
  exists c s', s = String c s' /\ cls c = true /\ match_here p s' st = Some G.
Proof.
  cbn [match_here]. destruct s as [|c s']; [discriminate|].
  destruct (cls c) eqn:Hc; [|discriminate]. intros H. now exists c, s'.
Qed.

Lemma inv_many cls p s st G :
  match_here (Many cls :: p) s st = Some G ->
  exists k, (1 <= k <= span cls s)%nat /\ match_here p (Py.drop k s) st = Some G.
Proof. cbn [match_here]. apply backtrack_some. Qed.

Lemma later_many cls p G : later (Many cls :: p) G -> later p G.
Proof.
  intros (s & st & H). apply inv_many in H as (k & _ & H). now exists (Py.drop k s), st.
Qed.

Lemma later_one_group cls p G :
  later (Open :: One cls :: Close :: p) G ->
  exists g G', G = g :: G' /\ later p G'.
Proof.
  intros (s & st & H).
  change (match_here (One cls :: Close :: p) s s = Some G) in H.
  apply inv_one in H as (c & s' & _ & _ & H).
  apply inv_close in H as (G' & -> & H). eexists _, G'. split; [reflexivity|].
  now exists s', s.
Qed.

Lemma later_times_group n cls p G :
  later (Open :: Times n cls :: Close :: p) G ->
  exists g G', G = g :: G' /\ later p G'.
Proof.
  intros (s & st & H).
  change ((if (n <=? span cls s)%nat
           then match_here (Close :: p) (Py.drop n s) s else None) = Some G) in H.
  destruct (n <=? span cls s)%nat; [|discriminate].
  apply inv_close in H as (G' & -> & H).
  eexists _, G'. split; [reflexivity|]. now exists (Py.drop n s), s.
Qed.

Lemma later_many_group cls p G :
  later (Open :: Many cls :: Close :: p) G ->
  exists g G', G = g :: G' /\ token cls g /\ later p G'.
Proof.
  intros (s & st & H).
  change (match_here (Many cls :: Close :: p) s s = Some G) in H.
  apply inv_many in H as (k & Hk & H).
  apply inv_close in H as (G' & -> & H).
  pose proof (span_length cls s) as Hl.
  rewrite length_drop by lia.
  replace (String.length s - (String.length s - k))%nat with k by lia.
  exists (Py.take k s), G'. split; [reflexivity|]. split.
  - split; [apply take_nonempty; lia | apply take_span; lia].
  - now exists (Py.drop k s), s.
Qed.

(** *** A match that succeeds at the first try *)

Lemma step_open p s st G :
  match_here p s s = Some G -> match_here (Open :: p) s st = Some G.
Proof. intros H. exact H. Qed.

Lemma step_close p g s st G :
  st = g ++ s -> match_here p s st = Some G ->
  match_here (Close :: p) s st = Some (g :: G).
Proof.
  intros -> H. cbn [match_here]. rewrite H. cbn.
  rewrite length_app. replace (String.length g + String.length s - String.length s)%nat
    with (String.length g) by lia.
  now rewrite take_app_length.
Qed.

Lemma step_one cls p c s st G :
  cls c = true -> match_here p s st = Some G ->
  match_here (One cls :: p) (String c s) st = Some G.
Proof. intros Hc H. cbn [match_here]. now rewrite Hc. Qed.

Lemma step_times n cls p w s st G :
  String.length w = n -> all cls w = true -> match_here p s st = Some G ->
  match_here (Times n cls :: p) (w ++ s) st = Some G.
Proof.
  intros <- Hw H. cbn [match_here].
  pose proof (span_app_ge cls w s Hw) as Hge.
  apply Nat.leb_le in Hge. rewrite Hge. now rewrite drop_app_length.
Qed.

Lemma step_many cls p w s st G :
  token cls w -> head_not cls s = true -> match_here p s st = Some G ->
  match_here (Many cls :: p) (w ++ s) st = Some G.
Proof.
  intros [Hne Hw] Hs H. cbn [match_here]. rewrite (span_app cls w s Hw Hs).
  apply backtrack_first.
  - destruct w; [contradiction | cbn; lia].
  - now rewrite drop_app_length.
Qed.

Lemma step_star cls p w s st G :
  all cls w = true -> head_not cls s = true -> match_here p s st = Some G ->
  match_here (Star cls :: p) (w ++ s) st = Some G.
Proof.
  intros Hw Hs H. cbn [match_here]. rewrite (span_app cls w s Hw Hs).
  destruct w as [|c w].
  - rewrite app_nil. cbn [String.length Re.backtrack]. exact H.
  - rewrite (backtrack_first _ _ G); [reflexivity | cbn; lia |].
    now rewrite drop_app_length.
Qed.

Lemma search_past cls p pre s :
  all (fun c => negb (cls c)) pre = true ->
  search (One cls :: p) (pre ++ s) = search (One cls :: p) s.
Proof.
  induction pre as [|c pre IH]; rewrite ?app_nil, ?app_cons; [reflexivity|].
  cbn [all]. intros H. apply andb_true_iff in H as [Hc Hpre].
  apply negb_true_iff in Hc.
  rewrite <- (IH Hpre).
  change (search (One cls :: p) (String c (pre ++ s)))
    with (match match_ (One cls :: p) (String c (pre ++ s)) with
          | Some g => Some g
          | None => search (One cls :: p) (pre ++ s)
          end).
  unfold match_. cbn [match_here]. now rewrite Hc.
Qed.

Lemma search_found p s g :
  match_ p s = Some g -> search p s = Some g.
Proof. intros H. destruct s; cbn [search]; now rewrite H. Qed.

Lemma has_char_all x s :
  Py.has_char x s = false -> all (fun c => negb (Ascii.eqb x c)) s = true.
Proof.
  induction s as [|c s IH]; cbn [Py.has_char all]; [reflexivity|].
  intros H. apply orb_false_iff in H as [Hc Hs].
  rewrite (IH Hs), andb_true_r. rewrite Ascii.eqb_sym. now rewrite Hc.
Qed.

Lemma has_char_all_sym x s :
  Py.has_char x s = false -> all (fun c => negb (Ascii.eqb c x)) s = true.
Proof.
  induction s as [|c s IH]; cbn [Py.has_char all]; [reflexivity|].
  intros H. apply orb_false_iff in H as [Hc Hs].
  now rewrite (IH Hs), Hc.
Qed.

Lemma head_not_app (cls cls' : ascii -> bool) w s :
  (forall c, cls' c = true -> cls c = false) ->
  token cls' w -> head_not cls (w ++ s) = true.
Proof.
  intros Hd [Hne Hw]. destruct w as [|c w]; [contradiction|].
  rewrite app_cons. cbn [head_not all] in *.
  apply andb_true_iff in Hw as [Hc _]. now rewrite (Hd c Hc).
Qed.

Lemma all_digit d : all digit d = true -> Py.all_digits d = true.
Proof.
  induction d as [|c d IH]; cbn [all Py.all_digits]; [reflexivity|].
  intros H. apply andb_true_iff in H as [Hc Hd]. unfold digit in Hc.
  now rewrite Hc, IH.
Qed.

Lemma digits_all d : Py.all_digits d = true -> all digit d = true.
Proof.
  induction d as [|c d IH]; cbn [all Py.all_digits]; [reflexivity|].
  intros H. apply andb_true_iff in H as [Hc Hd]. rewrite (IH Hd).
  unfold digit. now rewrite Hc.
Qed.

(** The classes that follow one another in the pattern are disjoint. *)
Lemma space_not_word c : space c = true -> word c = false.
Proof.
  destruct c as [[] [] [] [] [] [] [] []]; vm_compute; congruence.
Qed.

Lemma word_not_space c : word c = true -> space c = false.
Proof.
  intros H. destruct (space c) eqn:E; [|reflexivity].
  now rewrite (space_not_word c E) in H.
Qed.

Lemma digit_word c : digit c = true -> word c = true.
Proof.
  destruct c as [[] [] [] [] [] [] [] []]; vm_compute; congruence.
Qed.

Lemma space_not_time c : space c = true -> Listing.time_char c = false.
Proof.
  destruct c as [[] [] [] [] [] [] [] []]; vm_compute; congruence.
Qed.

Lemma time_not_space c : Listing.time_char c = true -> space c = false.
Proof.
  intros H. destruct (space c) eqn:E; [|reflexivity].
  now rewrite (space_not_time c E) in H.
Qed.

Lemma space_not_digit c : space c = true -> digit c = false.
Proof.
  intros H. destruct (digit c) eqn:E; [|reflexivity].
  apply digit_word in E. now rewrite (space_not_word c H) in E.
Qed.

Lemma digit_not_blank c : digit c = true -> space c = false.
Proof. intros H. apply word_not_space. now apply digit_word. Qed.

Lemma uint_of_digits d :
  Py.all_digits d = true -> exists u, NilEmpty.uint_of_string d = Some u.
Proof.
  induction d as [|c d IH]; cbn [Py.all_digits]; [now exists Decimal.Nil|].
  intros H. apply andb_true_iff in H as [Hc Hd].
  destruct (IH Hd) as (u & Hu). cbn [NilEmpty.uint_of_string]. rewrite Hu.
  destruct (isdigit_cases c Hc) as [->|[->|[->|[->|[->|[->|[->|[->|[->| ->]]]]]]]]];
    cbn; eauto.
Qed.

(** [int] accepts a non-empty string of digits within the cap, and no
    longer one. *)
Lemma int_digits d :
  d <> "" -> Py.all_digits d = true ->
  if Z.of_nat (String.length d) <=? Py.int_max_str_digits
  then exists n, Py.int d = Some n
  else Py.int d = None.
Proof.
  intros Hne Hd. destruct (uint_of_digits d Hd) as (u & Hu).
  destruct d as [|c d]; [contradiction|].
  cbn [Py.all_digits] in Hd. apply andb_true_iff in Hd as [Hc Hd].
  unfold Py.int. cbn [Py.int_lstrip]. rewrite (PyFacts.digit_not_space c Hc).
  destruct (PyFacts.digit_not_sign c Hc) as (Hp & Hm & _).
  assert (Hu' : if Z.of_nat (String.length (String c d)) <=? Py.int_max_str_digits
                then exists n, Py.int_unsigned (String c d) = Some n
                else Py.int_unsigned (String c d) = None).
  { unfold Py.int_unsigned. rewrite Hc, (more_digits_all d Hd). cbn [Py.all_int_space].
    destruct (Z.of_nat (String.length (String c d)) <=? Py.int_max_str_digits);
      [|reflexivity].
    unfold Py.digits_value. rewrite Hu. cbn. eauto. }
  destruct c as [[] [] [] [] [] [] [] []]; try exact Hu'; congruence.
Qed.

End RxFacts.

Module ListFacts.

Import PyFacts StringFacts Rx RxFacts Listing.

Lemma unix_groups line groups :
  match_ unix_pattern line = Some groups ->
  exists g1 g2 g3 g4 g5 g6 rest,
    groups = (g1 :: g2 :: g3 :: g4 :: g5 :: g6 :: rest)%list
    /\ token digit g3 /\ token digit g6.
Proof.
  intros H. assert (L : later unix_pattern groups) by now exists line, line.
  unfold unix_pattern in L.
  apply later_one_group in L as (g1 & G1 & -> & L).
  apply later_times_group in L as (g2 & G2 & -> & L). apply later_many in L.
  apply later_many_group in L as (g3 & G3 & -> & H3 & L). apply later_many in L.
  apply later_many_group in L as (g4 & G4 & -> & _ & L). apply later_many in L.
  apply later_many_group in L as (g5 & G5 & -> & _ & L). apply later_many in L.
  apply later_many_group in L as (g6 & G6 & -> & H6 & L).
  now exists g1, g2, g3, g4, g5, g6, G6.
Qed.

Lemma int_token g :
  token digit g ->
  (exists n, int_ g = Ok n) \/ (int_ g = Raise ValueError /\ too_long g).
Proof.
  intros [Hne Hd]. pose proof (int_digits g Hne (all_digit g Hd)) as H.
  unfold int_, too_long.
  destruct (Z.leb_spec (Z.of_nat (String.length g)) Py.int_max_str_digits).
  - destruct H as (n & ->). left. now exists n.
  - rewrite H. right. split; [reflexivity | assumption].
Qed.

Lemma unix_info_shape line groups :
  match_ unix_pattern line = Some groups ->
  match unix_info groups with
  | Ok info => entry_shape info
  | Raise e =>
      e = ValueError /\ (too_long (group 3 groups) \/ too_long (group 6 groups))
  end.
Proof.
  intros H.
  destruct (unix_groups line groups H)
    as (g1 & g2 & g3 & g4 & g5 & g6 & rest & -> & H3 & H6).
  unfold unix_info. change (group 3 (g1 :: g2 :: g3 :: g4 :: g5 :: g6 :: rest)%list) with g3.
  change (group 6 (g1 :: g2 :: g3 :: g4 :: g5 :: g6 :: rest)%list) with g6.
  destruct (int_token g3 H3) as [(links & ->)|[-> Hl]]; cbn [rbind]; [|auto].
  destruct (int_token g6 H6) as [(size & ->)|[-> Hs]]; cbn [rbind]; [|auto].
  split; [|split].
  - rewrite !lookup_insert_ne by discriminate. apply lookup_empty.
  - eexists. apply lookup_insert_eq.
  - eexists. split.
    + rewrite !lookup_insert_ne by discriminate. apply lookup_insert_eq.
    + destruct (String.eqb _ "d"); auto.
Qed.

Lemma unknown_info_shape line : entry_shape (unknown_info line).
Proof.
  unfold unknown_info. split; [|split].
  - rewrite !lookup_insert_ne by discriminate. apply lookup_empty.
  - eexists. rewrite lookup_insert_ne by discriminate. apply lookup_insert_eq.
  - eexists. split; [apply lookup_insert_eq | auto].
Qed.

Lemma list_records (lines : list string) :
  match parse_list_response lines with
  | Ok records =>
      length records = length (List.filter nonblank lines)
      /\ forall r, r ∈ records -> entry_shape r
  | Raise e =>
      e = ValueError
      /\ exists line groups,
           line ∈ lines /\ match_ unix_pattern line = Some groups
           /\ (too_long (group 3 groups) \/ too_long (group 6 groups))
  end.
Proof.
  induction lines as [|line rest IH].
  - cbn. split; [reflexivity|]. intros r H. now apply elem_of_nil in H.
  - cbn [parse_list_response List.filter]. unfold nonblank at 1.
    assert (Hlater : forall e,
              (e = ValueError
               /\ exists l groups,
                    l ∈ rest /\ match_ unix_pattern l = Some groups
                    /\ (too_long (group 3 groups) \/ too_long (group 6 groups))) ->
              e = ValueError
              /\ exists l groups,
                   l ∈ line :: rest /\ match_ unix_pattern l = Some groups
                   /\ (too_long (group 3 groups) \/ too_long (group 6 groups))).
    { intros e (He & l & groups & Hl & Hg). split; [exact He|].
      exists l, groups. split; [apply elem_of_cons; now right | exact Hg]. }
    destruct (String.eqb (Py.strip line) "") eqn:Hb; cbn [negb].
    + destruct (parse_list_response rest) as [records|e]; [exact IH | auto].
    + destruct (match_ unix_pattern line) as [groups|] eqn:Hm.
      * pose proof (unix_info_shape line groups Hm) as Hi.
        destruct (unix_info groups) as [info|e]; cbn [rbind].
        -- destruct (parse_list_response rest) as [records|e]; cbn [rbind]; [|auto].
           destruct IH as [Hlen Hshape]. split; [cbn [length]; congruence|].
           intros r H. apply elem_of_cons in H as [->|H]; auto.
        -- destruct Hi as [-> Hlong]. split; [reflexivity|].
           exists line, groups. split; [apply elem_of_cons; now left | auto].
      * destruct (parse_list_response rest) as [records|e]; cbn [rbind]; [|auto].
        destruct IH as [Hlen Hshape]. split; [cbn [length]; congruence|].
        intros r H. apply elem_of_cons in H as [->|H];
          auto using unknown_info_shape.
Qed.

(** X6.  [parse_list_response] raises nothing but [ValueError], and that
    only on a line that matches the Unix pattern with a link count or a
    size of more than 4300 digits, which [int] refuses.  On any other
    listing it gives one dictionary for each line that is not blank,
    matching or not, and every dictionary has a name and a type that is
    "dir", "file" or "unknown"; none has a key "is_dir". *)
Theorem list_response_records (lines : list string) :
  match parse_list_response lines with
  | Ok records =>
      length records = length (List.filter nonblank lines)
      /\ forall r, r ∈ records -> entry_shape r
  | Raise e =>
      e = ValueError
      /\ exists line groups,
           line ∈ lines /\ match_ unix_pattern line = Some groups
           /\ (too_long (group 3 groups) \/ too_long (group 6 groups))
  end.
Proof. exact (list_records lines). Qed.

(** A listing of two lines, and a line whose size has 4301 digits. *)
Example list_response_samples :
  parse_list_response ["drwxr-xr-x 2 u g 4096 Jan 1 00:00 docs"; "total 8"]
  = Ok [unix_record "d" "rwxr-xr-x" 2 "u" "g" 4096 "Jan 1 00:00" "docs";
        unknown_info "total 8"]
  /\ parse_list_response
       [("-rw-r--r-- 1 u g " ++ Py.take 4301 (String.concat "" (repeat "7777777777" 431))
         ++ " Jan 1 00:00 a.txt")%string]
     = Raise ValueError.
Proof. split; vm_compute; reflexivity. Qed.

Lemma token_str n : 0 <= n -> token digit (Py.str n).
Proof.
  intros H. split; [now apply str_nonempty | apply digits_all; now apply str_digits].
Qed.

Lemma rstrip_head c s : Py.isspace c = false -> Py.rstrip (String c s) <> "".
Proof.
  intros Hc. cbn [Py.rstrip]. destruct (Py.rstrip s); [now rewrite Hc | discriminate].
Qed.

(** X7.  A line of a Unix listing is read into its columns.  The
    line begins with [d] or a hyphen and nine permission characters; the
    link count and the size are printed numbers of at most 4300 digits,
    the most [int] converts; owner, group and month are
    words, the day is digits, the time is made of word characters and
    colons; the name is not empty, holds no line feed and does not begin
    with white space; the gaps between the columns are runs of white space.
    The date is the month, the day and the time with the gaps between them
    as they are in the line. *)
Theorem unix_line_parsed kind permissions links owner grp size month day time name
    g1 g2 g3 g4 g5 g6 g7 g8 :
  kind = "d" \/ kind = "-" ->
  String.length permissions = 9%nat -> all (one_of "rwxst-") permissions = true ->
  0 <= links -> 0 <= size ->
  Z.of_nat (String.length (Py.str links)) <= Py.int_max_str_digits ->
  Z.of_nat (String.length (Py.str size)) <= Py.int_max_str_digits ->
  token word owner -> token word grp -> token word month ->
  token digit day -> token time_char time ->
  token dot name -> head_not space name = true ->
  token space g1 -> token space g2 -> token space g3 -> token space g4 ->
  token space g5 -> token space g6 -> token space g7 -> token space g8 ->
  parse_list_response
    [unix_line kind permissions links owner grp size month day time name
       g1 g2 g3 g4 g5 g6 g7 g8]
  = Ok [unix_record kind permissions links owner grp size
          (month ++ g6 ++ day ++ g7 ++ time) name].
Proof.
  intros Hkind Hplen Hperm Hlinks Hsize Hldigits Hsdigits
    Howner Hgrp Hmonth Hday Htime Hname Hhead G1 G2 G3 G4 G5 G6 G7 G8.
  pose proof (token_str links Hlinks) as Tl.
  pose proof (token_str size Hsize) as Ts.
  set (line := unix_line _ _ _ _ _ _ _ _ _ _ _ _ _ _ _ _ _ _).
  assert (Hm : match_ unix_pattern line
               = Some [kind; permissions; Py.str links; owner; grp; Py.str size;
                       (month ++ g6 ++ day ++ g7 ++ time)%string; name]%list).
  { unfold match_, unix_pattern, line, unix_line.
    assert (Hk : exists c, kind = String c "" /\ one_of "d-" c = true).
    { destruct Hkind as [->| ->]; eexists; split; reflexivity. }
    destruct Hk as (c & -> & Hc). rewrite app_cons, app_nil.
    apply step_open.
    apply step_one; [exact Hc|].
    apply (step_close _ (String c "")); [reflexivity|].
    apply step_open.
    apply step_times; [exact Hplen | exact Hperm |].
    apply (step_close _ permissions); [reflexivity|].
    apply step_many; [exact G1 | apply (head_not_app space digit); auto using digit_not_blank |].
    apply step_open.
    apply step_many; [exact Tl | apply (head_not_app digit space); auto using space_not_digit |].
    apply (step_close _ (Py.str links)); [reflexivity|].
    apply step_many; [exact G2 | apply (head_not_app space word); auto using word_not_space |].
    apply step_open.
    apply step_many; [exact Howner | apply (head_not_app word space); auto using space_not_word |].
    apply (step_close _ owner); [reflexivity|].
    apply step_many; [exact G3 | apply (head_not_app space word); auto using word_not_space |].
    apply step_open.
    apply step_many; [exact Hgrp | apply (head_not_app word space); auto using space_not_word |].
    apply (step_close _ grp); [reflexivity|].
    apply step_many; [exact G4 | apply (head_not_app space digit); auto using digit_not_blank |].
    apply step_open.
    apply step_many; [exact Ts | apply (head_not_app digit space); auto using space_not_digit |].
    apply (step_close _ (Py.str size)); [reflexivity|].
    apply step_many; [exact G5 | apply (head_not_app space word); auto using word_not_space |].
    apply step_open.
    apply step_many; [exact Hmonth | apply (head_not_app word space); auto using space_not_word |].
    apply step_many; [exact G6 | apply (head_not_app space digit); auto using digit_not_blank |].
    apply step_many; [exact Hday | apply (head_not_app digit space); auto using space_not_digit |].
    apply step_many; [exact G7 | apply (head_not_app space time_char); auto using time_not_space |].
    apply step_many; [exact Htime | apply (head_not_app time_char space); auto using space_not_time |].
    apply (step_close _ (month ++ g6 ++ day ++ g7 ++ time)); [now rewrite !app_assoc|].
    apply step_many; [exact G8 | exact Hhead |].
    apply step_open.
    rewrite <- (app_empty_r name) at 1.
    apply step_many; [exact Hname | reflexivity |].
    apply (step_close _ name); [now rewrite app_empty_r|].
    reflexivity. }
  assert (Hs : String.eqb (Py.strip line) "" = false).
  { apply neq_eqb_empty. unfold Py.strip, line, unix_line.
    destruct Hkind as [->| ->]; rewrite app_cons; cbn [Py.lstrip];
      (match goal with |- context [Py.isspace ?c] => change (Py.isspace c) with false end);
      cbv iota; now apply rstrip_head. }
  cbn [parse_list_response]. rewrite Hs, Hm.
  unfold unix_info.
  change (group 3 _) with (Py.str links). change (group 6 _) with (Py.str size).
  unfold int_. rewrite (int_str links Hlinks Hldigits), (int_str size Hsize Hsdigits).
  reflexivity.
Qed.

Lemma unix_line_parsed_witness :
  parse_list_response
    [unix_line "-" "rw-r--r--" 1 "user" "staff" 4096 "Jan" "1" "12:34" "notes to self.txt"
       "   " " " " " "     " " " "  " " " " "]
  = Ok [unix_record "-" "rw-r--r--" 1 "user" "staff" 4096
          ("Jan" ++ "  " ++ "1" ++ " " ++ "12:34") "notes to self.txt"].
Proof.
  apply unix_line_parsed; try (split; [discriminate | reflexivity]);
    try reflexivity; try lia; try (vm_compute; discriminate).
  now right.
Defined.

End ListFacts.

(** ** client/ftp_client.py: connecting, logging in and the directory commands *)

Module SessionFacts.

Import PyFacts StringFacts RxFacts Protocol Client Session.
Local Open Scope session_scope.

(** *** The two primitives *)

Ltac frame := repeat split; intros; try discriminate; try congruence.

Lemma send_outcome command c :
  (exists c', _send_command command c = (Raise ConnectionError, c')
              /\ sent c' = sent c
              /\ (connected c = false -> c' = c))
  \/ (exists c', _send_command command c = (Ok tt, c')
                 /\ sent c' = (sent c ++ [encode_utf8 (command ++ CRLF)])%list
                 /\ cmd_socket c = true /\ connected c = true
                 /\ cmd_socket c' = true /\ connected c' = true
                 /\ logged_in c' = logged_in c
                 /\ incoming c' = incoming c
                 /\ match send_faults c with Some _ :: _ => False | _ => True end).
Proof.
  unfold _send_command.
  destruct (cmd_socket c) eqn:Hs; cbn [negb].
  2:{ left. exists c. auto. }
  destruct (connected c) eqn:Hc; cbn [negb].
  2:{ left. exists c. auto. }
  destruct c as [cs cn li tm cm lr lc inc sf cf ip ep st lg dc].
  cbn in Hs, Hc. subst. cbn.
  destruct sf as [|[e|] rest]; cbn.
  - right. eexists. repeat split.
  - left. eexists. repeat split. discriminate.
  - right. eexists. repeat split.
Qed.

Lemma send_ok_outcome command c :
  cmd_socket c = true -> connected c = true ->
  match send_faults c with Some _ :: _ => False | _ => True end ->
  exists c', _send_command command c = (Ok tt, c')
             /\ sent c' = (sent c ++ [encode_utf8 (command ++ CRLF)])%list
             /\ cmd_socket c' = true /\ connected c' = true
             /\ logged_in c' = logged_in c
             /\ incoming c' = incoming c.
Proof.
  intros Hs Hc Hf. unfold _send_command. rewrite Hs, Hc. cbn [negb].
  destruct c as [cs cn li tm cm lr lc inc sf cf ip ep st lg dc].
  cbn in Hs, Hc, Hf. subst. cbn.
  destruct sf as [|[e|] rest]; cbn; [|contradiction|]; eexists; repeat split.
Qed.

Lemma read_loop_frame events response c r c' :
  read_loop events response c = (r, c') ->
  sent c' = sent c /\ cmd_socket c' = cmd_socket c /\ logged_in c' = logged_in c
  /\ (forall x, r = Ok x -> connected c' = connected c).
Proof.
  revert response c. induction events as [|ev events IH]; intros response c;
    cbn [read_loop].
  - intros [= <- <-]. frame.
  - destruct ev as [|line| | |].
    + intros [= <- <-]. frame.
    + destruct (String.eqb line "").
      * intros [= <- <-]. frame.
      * destruct (is_error_line line).
        -- intros [= <- <-]. frame.
        -- destruct (is_last_line line).
           ++ intros [= <- <-]. frame.
           ++ apply IH.
    + intros [= <- <-]. frame.
    + intros [= <- <-]. frame.
    + intros [= <- <-]. frame.
Qed.

Lemma read_outcome c r c' :
  _read_response c = (r, c') ->
  sent c' = sent c /\ cmd_socket c' = cmd_socket c /\ logged_in c' = logged_in c
  /\ (connected c = false -> r = Raise ConnectionError /\ c' = c)
  /\ (forall response, r = Ok response ->
        connected c' = true /\ cmd_socket c' = true
        /\ exists message,
             parse_response response = Ok (last_response_code c', message)).
Proof.
  unfold _read_response.
  destruct (cmd_socket c) eqn:Hs; cbn [negb].
  2:{ intros [= <- <-]. frame. }
  destruct (connected c) eqn:Hc; cbn [negb].
  2:{ intros [= <- <-]. frame. }
  destruct (read_loop (incoming c) "" c) as [[response|e] c1] eqn:E.
  - destruct (read_loop_frame _ _ _ _ _ E) as (H1 & H2 & H3 & H4).
    specialize (H4 response eq_refl).
    destruct (parse_response response) as [[code message]|e] eqn:P.
    + intros [= <- <-]. cbn.
      split; [congruence|]. split; [congruence|]. split; [congruence|].
      split; [congruence|].
      intros r [= <-]. split; [congruence|]. split; [congruence|].
      now exists message.
    + rewrite ProtocolFacts.parse_response_value in P. discriminate P.
  - destruct (read_loop_frame _ _ _ _ _ E) as (H1 & H2 & H3 & _).
    intros [= <- <-]. frame.
Qed.

Lemma on_core_eq {A} (m : M A) s r c :
  m (core s) = (r, c) -> on_core m s = (r, set_core c s).
Proof. unfold on_core. now intros ->. Qed.

(** *** [connect] *)

Lemma connect_down s :
  connected (core s) = false ->
  exists e s', connect s = (inr e, s')
               /\ connected (core s') = false
               /\ sent (core s') = sent (core s)
               /\ (cmd_socket (core s) = false ->
                   e = Std ConnectionError).
Proof.
  intros Hc.
  destruct s as [[cs cn li tm cm lr lc inc sf cf ip ep st lg dc]
                   h ssl ds u wd mr rd rb ca ce dl sl].
  cbn in Hc. subst cn. unfold connect. cbn.
  destruct cs.
  - eexists _, _. repeat split. discriminate.
  - destruct dl as [|[|tls events] rest]; cbn.
    + eexists _, _. repeat split.
    + eexists _, _. repeat split.
    + destruct (ssl && negb tls); cbn; eexists _, _; repeat split.
Qed.

(** X8.  On a session whose [connected] flag is off, [connect]
    never returns: it raises, whatever the server does, and the flag stays
    off.  The flag is set only at the end of [connect], after the greeting
    has been read, and [_read_response] refuses to read while it is off.
    Nothing is sent. *)
Theorem connect_never_connects (s : FTP) :
  connected (core s) = false ->
  exists e s',
    connect s = (inr e, s')
    /\ connected (core s') = false
    /\ sent (core s') = sent (core s).
Proof.
  intros H. destruct (connect_down s H) as (e & s' & E & H1 & H2 & _).
  now exists e, s'.
Qed.

Lemma connect_never_connects_witness :
  exists e s',
    connect (new_client (Some "ftp.example.com") false
               [Accepted true [Data ("220 Welcome" ++ CRLF)]])
    = (inr e, s')
    /\ connected (core s') = false
    /\ sent (core s') = sent (core (new_client (Some "ftp.example.com") false
                                      [Accepted true [Data ("220 Welcome" ++ CRLF)]])).
Proof. apply connect_never_connects. reflexivity. Defined.

Lemma create_client_is_none host enable_ssl passive_mode username password dials :
  _create_client host enable_ssl passive_mode username password dials = inl None.
Proof.
  unfold _create_client.
  set (client := set_connection_mode _ _).
  assert (Hc : connected (core client) = false) by now destruct passive_mode.
  assert (Hs : cmd_socket (core client) = false) by now destruct passive_mode.
  destruct (connect_down client Hc) as (e & s' & E & _ & _ & He).
  rewrite E, (He Hs). reflexivity.
Qed.

(** X9.  [FTPClientPool._create_client] never makes a client:
    the [connect] of a new session raises [ConnectionError], which
    [_create_client] turns into [None].  So the pool is built empty, and
    every [get_client] on it raises [ConnectionError]. *)
Theorem create_client_none host enable_ssl passive_mode username password dials :
  _create_client host enable_ssl passive_mode username password dials = inl None
  /\ forall pool_size alive,
       ClientPool.get_client alive ClientPool.NoClient ClientPool.NoClient
         (ClientPool.init pool_size 0)
       = (Raise ConnectionError, ClientPool.init pool_size 0).
Proof.
  split; [apply create_client_is_none | reflexivity].
Qed.

(** *** A command and its reply *)

Lemma exchange_core command s :
  exists r c',
    exchange command s = (r, set_core c' s)
    /\ (sent c' = sent (core s)
        \/ sent c' = (sent (core s) ++ [payload command])%list)
    /\ (connected (core s) = false -> connected c' = false)
    /\ forall response, r = Ok response ->
         sent c' = (sent (core s) ++ [payload command])%list
         /\ cmd_socket (core s) = true /\ connected (core s) = true
         /\ cmd_socket c' = true /\ connected c' = true
         /\ logged_in c' = logged_in (core s)
         /\ exists message,
              parse_response response = Ok (last_response_code c', message).
Proof.
  unfold exchange, bind, on_core, payload.
  destruct (send_outcome command (core s))
    as [(c1 & E & Hs & Hd)|(c1 & E & Hs & H1 & H2 & H3 & H4 & H5 & _)]; rewrite E.
  - exists (Raise ConnectionError), c1. split; [reflexivity|].
    split; [now left|]. split; [|discriminate].
    intros Hc. now rewrite (Hd Hc).
  - change (core (set_core c1 s)) with c1.
    destruct (_read_response c1) as [r c2] eqn:R.
    destruct (read_outcome c1 r c2 R) as (R1 & R2 & R3 & _ & R5).
    exists r, c2. split; [reflexivity|].
    split; [right; congruence|]. split; [congruence|].
    intros response ->. destruct (R5 response eq_refl) as (Q1 & Q2 & Q3).
    repeat split; first [congruence | exact Q3].
Qed.

Lemma read_single c line rest :
  cmd_socket c = true -> connected c = true ->
  incoming c = Data line :: rest ->
  is_last_line line = true -> is_error_line line = false ->
  exists c',
    _read_response c = (Ok line, c')
    /\ last_response_code c' = Py.int (Py.take 3 line)
    /\ sent c' = sent c /\ cmd_socket c' = true /\ connected c' = true
    /\ logged_in c' = logged_in c.
Proof.
  intros Hs Hc Hi Hl He. unfold _read_response. rewrite Hs, Hc, Hi. cbn [negb read_loop].
  assert (Hne : String.eqb line "" = false).
  { destruct line; [discriminate Hl | reflexivity]. }
  rewrite Hne, He, Hl, app_nil, ProtocolFacts.parse_response_value.
  destruct (Py.int (Py.take 3 line)); eexists; (split; [reflexivity|]);
    destruct c; cbn in *; auto.
Qed.

Lemma exchange_reply command s line rest :
  up s -> send_ok s -> incoming (core s) = Data line :: rest ->
  is_last_line line = true -> is_error_line line = false ->
  exists c',
    exchange command s = (Ok line, set_core c' s)
    /\ last_response_code c' = Py.int (Py.take 3 line)
    /\ sent c' = (sent (core s) ++ [payload command])%list
    /\ cmd_socket c' = true /\ connected c' = true
    /\ logged_in c' = logged_in (core s).
Proof.
  intros [Hs Hc] Hf Hi Hl He. unfold exchange, bind, on_core, payload.
  destruct (send_ok_outcome command (core s) Hs Hc Hf) as (c1 & E & S1 & S2 & S3 & S4 & S5).
  rewrite E. change (core (set_core c1 s)) with c1.
  rewrite <- S5 in Hi.
  destruct (read_single c1 line rest S2 S3 Hi Hl He) as (c2 & R & R1 & R2 & R3 & R4 & R5).
  rewrite R. exists c2. split; [reflexivity|]. repeat split; congruence.
Qed.

Lemma sent_since_nil s c : sent c = sent (core s) -> sent_since s (set_core c s) [].
Proof. unfold sent_since. cbn. intros ->. now rewrite app_nil_r. Qed.

Lemma sent_since_one s c command :
  sent c = (sent (core s) ++ [payload command])%list ->
  sent_since s (set_core c s) [command].
Proof. unfold sent_since. cbn. now intros ->. Qed.

(** *** [quit] and [verify_connection] *)

Lemma close_state s :
  connected (core (_close_connection s)) = false
  /\ cmd_socket (core (_close_connection s)) = false
  /\ logged_in (core (_close_connection s)) = false
  /\ data_socket (_close_connection s) = false
  /\ sent (core (_close_connection s)) = sent (core s).
Proof.
  unfold _close_connection.
  destruct s as [[cs cn li tm cm lr lc inc sf cf ip ep st lg dc]
                   h ssl ds u wd mr rd rb ca ce dl sl].
  destruct ds, cs; cbn; auto.
Qed.

(** X10.  [quit] never raises and answers [True].  On a session whose
    [connected] flag is on it leaves the control socket closed and the
    flags [connected] and [logged_in] off, whatever becomes of the QUIT
    command, of which at most one is sent.  On a session whose flag is off
    it does nothing at all: a control socket that is still open, as after a
    failed send, stays open. *)
Theorem quit_closes (s : FTP) :
  exists s',
    quit s = (Ok true, s')
    /\ connected (core s') = false
    /\ (connected (core s) = true ->
        cmd_socket (core s') = false /\ logged_in (core s') = false
        /\ data_socket s' = false)
    /\ (connected (core s) = false -> s' = s)
    /\ (sent_since s s' [] \/ sent_since s s' ["QUIT"]).
Proof.
  unfold quit, bind, gets.
  destruct (connected (core s)) eqn:Hc; cbn [negb].
  - unfold try_finally, try_catch, bind.
    destruct (exchange_core "QUIT" s) as (r & c' & E & Hs & _ & _). rewrite E.
    destruct (close_state (set_core c' s)) as (C1 & C2 & C3 & C4 & C5).
    assert (Hsent : sent_since s (_close_connection (set_core c' s)) []
                    \/ sent_since s (_close_connection (set_core c' s)) ["QUIT"]).
    { unfold sent_since. rewrite C5. cbn [core set_core map].
      destruct Hs as [-> | ->]; [left; now rewrite app_nil_r | right; reflexivity]. }
    exists (_close_connection (set_core c' s)).
    split; [destruct r; reflexivity|]. split; [exact C1|]. split; [auto|].
    split; [discriminate | exact Hsent].
  - exists s. unfold ret. split; [reflexivity|]. split; [exact Hc|].
    split; [discriminate|]. split; [reflexivity|].
    left. unfold sent_since. now rewrite app_nil_r.
Qed.

(** X11.  [verify_connection] never raises.  It answers [True] only
    when a NOOP was sent and answered with code 200, and then the session
    is still connected; without a control socket or with the [connected]
    flag off it answers [False] and sends nothing. *)
Theorem verify_connection_safe (s : FTP) :
  exists b s',
    verify_connection s = (Ok b, s')
    /\ (b = true ->
        up s' /\ last_response_code (core s') = Some COMMAND_OK
        /\ sent_since s s' ["NOOP"])
    /\ (cmd_socket (core s) = false \/ connected (core s) = false ->
        b = false /\ s' = s).
Proof.
  unfold verify_connection, bind, gets.
  destruct (cmd_socket (core s)) eqn:Hs; cbn [negb orb].
  2:{ exists false, s. unfold ret. repeat split; discriminate. }
  destruct (connected (core s)) eqn:Hc; cbn [negb].
  2:{ exists false, s. unfold ret. repeat split; discriminate. }
  unfold try_catch, bind.
  destruct (exchange_core "NOOP" s) as (r & c' & E & _ & _ & Hok). rewrite E.
  destruct r as [response|e].
  - destruct (Hok response eq_refl) as (H1 & _ & _ & H4 & H5 & _ & _).
    exists (code_is COMMAND_OK (core (set_core c' s))), (set_core c' s).
    split; [reflexivity|]. split.
    + cbn [core set_core]. unfold code_is. intros Hb.
      destruct (last_response_code c') as [k|]; [|discriminate].
      apply Z.eqb_eq in Hb. subst k.
      split; [now split|]. split; [reflexivity|]. now apply sent_since_one.
    + intros [H|H]; discriminate.
  - exists false, (set_core c' s). unfold any_exception, ret.
    split; [reflexivity|]. split; [discriminate|]. intros [H|H]; discriminate.
Qed.

(** *** The directory in a reply *)

Lemma quoted_reply pre directory tail :
  Py.has_char Listing.quote pre = false ->
  Py.has_char Listing.quote directory = false ->
  quoted (pre ++ dq ++ directory ++ dq ++ tail) = Some directory.
Proof.
  intros Hpre Hdir. unfold quoted, Listing.quoted_pattern.
  rewrite (search_past _ _ pre); [|now apply has_char_all].
  unfold dq. rewrite !app_cons, !app_nil.
  rewrite (search_found _ _ [directory]); [reflexivity|].
  unfold Rx.match_.
  apply step_one; [apply Ascii.eqb_refl|].
  apply step_open.
  apply step_star.
  - now apply has_char_all_sym.
  - cbn [Rx.head_not]. now rewrite Ascii.eqb_refl.
  - apply (step_close _ directory); [reflexivity|].
    apply step_one; [apply Ascii.eqb_refl | reflexivity].
Qed.

(** X12.  When the server answers PWD, or MKD, with code 257 and a reply
    that holds a directory between double quotes, [pwd] and [mkd] return
    the text between the first two double quotes of the reply, and [pwd]
    stores it as the working directory.  A double quote inside the
    directory, which the server writes doubled, ends the text. *)
Theorem quoted_directory_returned (s : FTP) reply pre directory tail rest argument :
  up s -> send_ok s ->
  incoming (core s) = Data reply :: rest ->
  reply = pre ++ dq ++ directory ++ dq ++ tail ->
  is_last_line reply = true -> is_error_line reply = false ->
  Py.int (Py.take 3 reply) = Some PATH_CREATED ->
  Py.has_char Listing.quote pre = false ->
  Py.has_char Listing.quote directory = false ->
  (exists s', pwd s = (Ok directory, s')
              /\ working_directory s' = Some directory
              /\ sent_since s s' ["PWD"])
  /\ (exists s', mkd argument s = (Ok directory, s')
                 /\ sent_since s s' ["MKD " ++ argument]).
Proof.
  intros Hup Hok Hin Hreply Hl He Hcode Hpre Hdir.
  pose proof (quoted_reply pre directory tail Hpre Hdir) as Hq.
  rewrite <- Hreply in Hq.
  split.
  - destruct (exchange_reply "PWD" s reply rest Hup Hok Hin Hl He)
      as (c' & E & C1 & C2 & _).
    unfold pwd, bind. rewrite E. unfold gets, code_is. cbn [core set_core].
    rewrite C1, Hcode, Z.eqb_refl. cbn [negb]. rewrite Hq.
    eexists. split; [reflexivity|]. split; [reflexivity|].
    unfold sent_since. cbn. now rewrite C2.
  - destruct (exchange_reply ("MKD " ++ argument) s reply rest Hup Hok Hin Hl He)
      as (c' & E & C1 & C2 & _).
    unfold mkd, bind. rewrite E. unfold gets, code_is. cbn [core set_core].
    rewrite C1, Hcode, Z.eqb_refl. cbn [negb]. rewrite Hq.
    eexists. split; [reflexivity|].
    unfold sent_since. cbn. now rewrite C2.
Qed.

Lemma quoted_directory_returned_witness :
  let reply := "257 " ++ dq ++ "/home/user" ++ dq ++ " is current directory" ++ CRLF in
  (exists s', pwd (established [Data reply]) = (Ok "/home/user", s')
              /\ working_directory s' = Some "/home/user"
              /\ sent_since (established [Data reply]) s' ["PWD"])
  /\ (exists s', mkd "user" (established [Data reply]) = (Ok "/home/user", s')
                 /\ sent_since (established [Data reply]) s' ["MKD " ++ "user"]).
Proof.
  intros reply.
  apply (quoted_directory_returned (established [Data reply]) reply "257 "
           "/home/user" (" is current directory" ++ CRLF) [] "user");
    try reflexivity; try (now split); exact I.
Defined.

(** *** A reply without a number *)

(** X13.  On a connected session whose next send goes through, let the
    server answer a command with one line that ends the reply (it has more
    than three characters, the fourth a space), that does not begin with
    [5], and whose first three characters [int] does not accept (as in
    "abc done").  The reply code is then [None], and the commands that
    divide the code by 100 raise [TypeError], not one of the client's own
    exceptions: [cwd], [cdup], [rmd], [delete] and [rename]. *)
Theorem unnumbered_reply_raises (s : FTP) line rest path other :
  up s -> send_ok s ->
  incoming (core s) = Data line :: rest ->
  is_last_line line = true -> is_error_line line = false ->
  Py.int (Py.take 3 line) = None ->
  fst (cwd path s) = Raise TypeError
  /\ fst (cdup s) = Raise TypeError
  /\ fst (rmd path s) = Raise TypeError
  /\ fst (delete path s) = Raise TypeError
  /\ fst (rename path other s) = Raise TypeError.
Proof.
  intros Hup Hok Hin Hl He Hcode.
  assert (H : forall command,
            exists c', exchange command s = (Ok line, set_core c' s)
                       /\ last_response_code c' = None).
  { intros command.
    destruct (exchange_reply command s line rest Hup Hok Hin Hl He)
      as (c' & E & C1 & _).
    exists c'. split; [exact E | congruence]. }
  repeat split.
  - destruct (H ("CWD " ++ path)) as (c' & E & C).
    unfold cwd, bind. rewrite E. unfold on_core, code_class. cbn [core set_core].
    now rewrite C.
  - destruct (H "CDUP") as (c' & E & C).
    unfold cdup, bind. rewrite E. unfold on_core, code_class. cbn [core set_core].
    now rewrite C.
  - destruct (H ("RMD " ++ path)) as (c' & E & C).
    unfold rmd, bind. rewrite E. unfold on_core, code_class. cbn [core set_core].
    now rewrite C.
  - destruct (H ("DELE " ++ path)) as (c' & E & C).
    unfold delete, bind. rewrite E. unfold on_core, code_class. cbn [core set_core].
    now rewrite C.
  - destruct (H ("RNFR " ++ path)) as (c' & E & C).
    unfold rename, bind. rewrite E. unfold on_core, code_class. cbn [core set_core].
    now rewrite C.
Qed.

Lemma unnumbered_reply_raises_witness :
  let s := established [Data ("OK  done" ++ CRLF)] in
  fst (cwd "pub" s) = Raise TypeError
  /\ fst (cdup s) = Raise TypeError
  /\ fst (rmd "pub" s) = Raise TypeError
  /\ fst (delete "pub" s) = Raise TypeError
  /\ fst (rename "pub" "old" s) = Raise TypeError.
Proof.
  intros s.
  apply (unnumbered_reply_raises s ("OK  done" ++ CRLF) []);
    try reflexivity; try (now split); exact I.
Defined.

(** *** [rename] *)

(** X14.  [rename] sends RNTO only after the server has answered
    RNFR with a code of the class 3xx, and it returns only after RNTO was
    answered with a code of the class 2xx: what it sends is nothing, RNFR
    alone, or RNFR followed by RNTO. *)
Theorem rename_sequence (s : FTP) from_path to_path :
  exists r s',
    rename from_path to_path s = (r, s')
    /\ (sent_since s s' []
        \/ sent_since s s' ["RNFR " ++ from_path]
        \/ (sent_since s s' ["RNFR " ++ from_path; "RNTO " ++ to_path]
            /\ exists s1 response k,
                 exchange ("RNFR " ++ from_path) s = (Ok response, s1)
                 /\ last_response_code (core s1) = Some k
                 /\ k / 100 = POSITIVE_INTERMEDIATE))
    /\ (forall b, r = Ok b ->
          b = true
          /\ sent_since s s' ["RNFR " ++ from_path; "RNTO " ++ to_path]
          /\ exists k, last_response_code (core s') = Some k
                       /\ k / 100 = POSITIVE_COMPLETION).
Proof.
  unfold rename, bind.
  destruct (exchange_core ("RNFR " ++ from_path) s) as (r1 & c1 & E1 & S1 & _ & O1).
  rewrite E1. destruct r1 as [response1|e1].
  2:{ exists (Raise e1), (set_core c1 s). split; [reflexivity|]. split; [|discriminate].
      destruct S1 as [S1|S1]; [left; now apply sent_since_nil
                              | right; left; now apply sent_since_one]. }
  destruct (O1 response1 eq_refl) as (S1' & _ & _ & _ & _ & _ & _).
  unfold on_core at 1, code_class at 1. cbn [core set_core].
  destruct (last_response_code c1) as [k1|] eqn:K1.
  2:{ exists (Raise TypeError), (set_core c1 (set_core c1 s)).
      split; [reflexivity|]. split; [|discriminate].
      right; left. unfold sent_since. cbn. now rewrite S1'. }
  destruct (k1 / 100 =? POSITIVE_INTERMEDIATE) eqn:Hk1; cbn [negb].
  2:{ eexists _, _. split; [reflexivity|]. split; [|discriminate].
      right; left. unfold sent_since. cbn. now rewrite S1'. }
  apply Z.eqb_eq in Hk1.
  set (s1 := set_core c1 (set_core c1 s)).
  destruct (exchange_core ("RNTO " ++ to_path) s1) as (r2 & c2 & E2 & S2 & _ & O2).
  rewrite E2.
  assert (Hone : sent_since s (set_core c2 s1) ["RNFR " ++ from_path]
                 \/ sent_since s (set_core c2 s1) ["RNFR " ++ from_path; "RNTO " ++ to_path]).
  { unfold sent_since. cbn [core set_core map]. subst s1. cbn [core set_core] in S2.
    destruct S2 as [-> | ->]; rewrite S1'; [now left | right].
    now rewrite <- List.app_assoc. }
  destruct r2 as [response2|e2].
  2:{ exists (Raise e2), (set_core c2 s1). split; [reflexivity|]. split; [|discriminate].
      destruct Hone as [H|H]; [right; left; exact H
                              | right; right; split; [exact H|];
                                exists (set_core c1 s), response1, k1; auto]. }
  destruct (O2 response2 eq_refl) as (S2' & _ & _ & _ & _ & _ & _).
  assert (Htwo : forall x, sent_since s (set_core x (set_core c2 s1))
                             ["RNFR " ++ from_path; "RNTO " ++ to_path]
                           <-> sent x = (sent (core s) ++ [payload ("RNFR " ++ from_path);
                                                          payload ("RNTO " ++ to_path)])%list).
  { intros x. unfold sent_since. cbn. reflexivity. }
  assert (S2'' : sent c2 = (sent (core s) ++ [payload ("RNFR " ++ from_path);
                                            payload ("RNTO " ++ to_path)])%list).
  { subst s1. cbn [core set_core] in S2'. rewrite S2', S1'. now rewrite <- List.app_assoc. }
  unfold on_core, code_class. cbn [core set_core].
  destruct (last_response_code c2) as [k2|] eqn:K2.
  2:{ eexists _, _. split; [reflexivity|]. split; [|discriminate].
      right; right. split; [now apply Htwo|];
      exists (set_core c1 s), response1, k1; auto. }
  destruct (k2 / 100 =? POSITIVE_COMPLETION) eqn:Hk2; cbn [negb].
  2:{ eexists _, _. split; [reflexivity|]. split; [|discriminate].
      right; right. split; [now apply Htwo|];
      exists (set_core c1 s), response1, k1; auto. }
  apply Z.eqb_eq in Hk2.
  eexists _, _. split; [reflexivity|]. split.
  - right; right. split; [now apply Htwo|];
      exists (set_core c1 s), response1, k1; auto.
  - intros b [= <-]. split; [reflexivity|]. split; [now apply Htwo|].
    exists k2. cbn [core set_core]. auto.
Qed.

(** *** [_execute_with_retry] and [login] *)

Lemma connect_schedule s :
  slept (snd (connect s)) = slept s
  /\ retry_delay (snd (connect s)) = retry_delay s
  /\ retry_backoff (snd (connect s)) = retry_backoff s.
Proof.
  unfold connect.
  destruct (cmd_socket (core (count_attempt s))); [now destruct s|].
  destruct (dials (count_attempt s)) as [|[|tls events] rest]; try now destruct s.
  destruct (enable_ssl _ && negb tls); [now destruct s|].
  unfold on_core.
  destruct (_read_response _) as [[welcome|e] c]; [|now destruct s].
  destruct (parse_response welcome) as [[code msg]|e]; [|now destruct s].
  destruct (negb (code_eqb code READY_FOR_NEW_USER)); now destruct s.
Qed.

Lemma reconnect_schedule s :
  slept (reconnect s) = slept s
  /\ retry_delay (reconnect s) = retry_delay s
  /\ retry_backoff (reconnect s) = retry_backoff s.
Proof.
  unfold reconnect.
  assert (H : slept (_close_connection s) = slept s
              /\ retry_delay (_close_connection s) = retry_delay s
              /\ retry_backoff (_close_connection s) = retry_backoff s).
  { unfold _close_connection. destruct s as [c h ssl [] u wd mr rd rb ca ce dl sl];
      cbn; auto. }
  destruct (has_host (_close_connection s)); [|exact H].
  destruct (connect_schedule (_close_connection s)) as (A & B & C).
  destruct H as (A' & B' & C'). repeat split; congruence.
Qed.

Lemma backoff_delays_next s n :
  backoff_delays s (Datatypes.S n)
  = (backoff_delays s n ++ [retry_delay s * retry_backoff s ^ Z.of_nat n])%list.
Proof. unfold backoff_delays. now rewrite seq_S, map_app. Qed.

Lemma retry_loop_schedule {A : Type} (operation : S A) limit s :
  keeps_schedule operation ->
  forall attempts n s0,
    slept s0 = (slept s ++ backoff_delays s n)%list ->
    retry_delay s0 = retry_delay s -> retry_backoff s0 = retry_backoff s ->
    Z.of_nat n <= Z.max 0 limit ->
    exists m,
      Z.of_nat m <= Z.max 0 limit
      /\ slept (snd (retry_loop operation limit attempts (Z.of_nat n) s0))
         = (slept s ++ backoff_delays s m)%list.
Proof.
  intros Hop. induction attempts as [|attempts IH]; intros n s0 Hsl Hd Hb Hn.
  - exists n. split; [exact Hn | exact Hsl].
  - cbn [retry_loop]. unfold try_catch, bind.
    destruct (Hop s0) as (O1 & O2 & O3).
    destruct (operation s0) as [[a|e] s1]; cbn [snd] in O1, O2, O3.
    + exists n. split; [exact Hn|]. cbn. congruence.
    + destruct (retried e).
      2:{ exists n. split; [exact Hn|]. cbn. congruence. }
      destruct (Z.of_nat n + 1 <=? limit) eqn:Hle.
      2:{ exists n. split; [exact Hn|]. cbn. congruence. }
      apply Z.leb_le in Hle.
      unfold gets, modify. cbn.
      destruct (reconnect_schedule s1) as (R1 & R2 & R3).
      replace (Z.of_nat n + 1) with (Z.of_nat (Datatypes.S n)) by lia.
      apply IH.
      * unfold sleep. cbn [slept].
        rewrite R1, O1, Hsl, backoff_delays_next, <- List.app_assoc.
        do 3 f_equal. rewrite O2, O3, Hd, Hb. do 2 f_equal. lia.
      * unfold sleep. cbn [retry_delay]. congruence.
      * unfold sleep. cbn [retry_backoff]. congruence.
      * lia.
Qed.

(** X15.  [_execute_with_retry] sleeps before each new try, the
    first time [retry_delay] seconds and each further time [retry_backoff]
    times longer, and it retries at most [max_retries] times (the argument
    [retry_count], when given, in its place).  The operation is one that
    does not itself sleep or change the two settings. *)
Theorem retry_backoff_schedule {A : Type} (operation : S A)
    (retry_count : option Z) (s : FTP) :
  keeps_schedule operation ->
  exists n,
    Z.of_nat n <= Z.max 0 (match retry_count with
                           | Some limit => limit
                           | None => max_retries s
                           end)
    /\ slept (snd (_execute_with_retry operation retry_count s))
       = (slept s ++ backoff_delays s n)%list.
Proof.
  intros Hop. unfold _execute_with_retry, bind.
  destruct retry_count as [limit|]; unfold ret, gets.
  - apply (retry_loop_schedule operation limit s Hop _ 0%nat s);
      [cbn; now rewrite app_nil_r | reflexivity | reflexivity | lia].
  - apply (retry_loop_schedule operation (max_retries s) s Hop _ 0%nat s);
      [cbn; now rewrite app_nil_r | reflexivity | reflexivity | lia].
Qed.

Lemma raise_keeps_schedule {A : Type} e : keeps_schedule (@raise A e).
Proof. intros s. cbn. auto. Qed.

Lemma retry_backoff_schedule_witness :
  keeps_schedule (@raise unit TimeoutError)
  /\ exists n,
       Z.of_nat n <= Z.max 0 (max_retries (new_client None false []))
       /\ slept (snd (_execute_with_retry (@raise unit TimeoutError) None
                        (new_client None false [])))
          = (slept (new_client None false [])
             ++ backoff_delays (new_client None false []) n)%list.
Proof.
  split; [apply raise_keeps_schedule|].
  exact (retry_backoff_schedule (@raise unit TimeoutError) None
           (new_client None false []) (raise_keeps_schedule TimeoutError)).
Defined.

(** With the settings of [__init__], an operation that always times out
    is retried three times, after 2, 4 and 8 seconds. *)
Example retry_delays_by_default :
  slept (snd (_execute_with_retry (@raise unit TimeoutError) None
                (new_client None false [])))
  = [2; 4; 8].
Proof. reflexivity. Qed.

Lemma login_operation_ok username password s b s' :
  _login_operation username password s = (Ok b, s') ->
  b = true /\ logged_in (core s') = true /\ Session.username s' = Some username
  /\ up s'.
Proof.
  unfold _login_operation, bind, gets.
  destruct (cmd_socket (core s)); cbn [negb]; [|discriminate].
  destruct (exchange_core ("USER " ++ username) s) as (r1 & c1 & E1 & _ & _ & O1).
  rewrite E1. destruct r1 as [response1|e1]; [|discriminate].
  destruct (O1 response1 eq_refl) as (_ & _ & _ & U1 & U2 & _ & _).
  unfold pure. rewrite ProtocolFacts.parse_response_value.
  set (code1 := fst (match Py.int (Py.take 3 response1) with
                     | Some code => (Some code, Py.strip (Py.drop 3 response1))
                     | None => (None, response1)
                     end)).
  assert (Hfinish : forall code c,
            cmd_socket c = true -> connected c = true ->
            (if code_eqb code LOGGED_IN
             then (modify (set_username username) ;;
                   modify (fun s => set_core (set_logged_in true (core s)) s) ;;
                   ret true)
             else raise AuthenticationError) (set_core c s) = (Ok b, s') ->
            b = true /\ logged_in (core s') = true
            /\ Session.username s' = Some username /\ up s').
  { intros code c Hs Hc. destruct (code_eqb code LOGGED_IN); [|discriminate].
    unfold bind, modify, ret. intros [= <- <-]. cbn. repeat split; destruct c; auto. }
  destruct (Py.int (Py.take 3 response1)) as [k|]; cbn [fst] in code1; subst code1.
  - destruct (code_eqb (Some k) NEED_PASSWORD).
    + destruct (exchange_core ("PASS " ++ password) (set_core c1 s))
        as (r2 & c2 & E2 & _ & _ & O2).
      rewrite E2. destruct r2 as [response2|e2]; [|discriminate].
      destruct (O2 response2 eq_refl) as (_ & _ & _ & V1 & V2 & _ & _).
      rewrite ProtocolFacts.parse_response_value.
      destruct (Py.int (Py.take 3 response2)) as [k2|]; unfold ret;
        change (set_core c2 (set_core c1 s)) with (set_core c2 s);
        now apply Hfinish.
    + unfold ret. now apply Hfinish.
  - cbn [code_eqb]. unfold ret. now apply (Hfinish None).
Qed.

Lemma retry_loop_ok {A : Type} (operation : S A) limit :
  forall attempts retries s x s',
    Z.of_nat attempts + retries = limit + 1 -> (0 < attempts)%nat ->
    retry_loop operation limit attempts retries s = (Ok x, s') ->
    exists a s0, x = Some a /\ operation s0 = (Ok a, s').
Proof.
  induction attempts as [|attempts IH]; intros retries s x s' Hinv Hpos; [lia|].
  cbn [retry_loop]. unfold try_catch, bind.
  destruct (operation s) as [[a|e] s1] eqn:E.
  - unfold ret. intros [= <- <-]. now exists a, s.
  - destruct (retried e); [|discriminate].
    destruct (retries + 1 <=? limit) eqn:Hle; [|discriminate].
    apply Z.leb_le in Hle. unfold gets, modify.
    apply IH; lia.
Qed.

(** X16.  With a retry count that is not negative, [login] either
    returns [True], and then the session is connected and logged in under
    the user name given, or raises [AuthenticationError]; no other
    exception leaves it.  With a negative retry count it returns [None]
    without sending anything. *)
Theorem login_outcome (username password : string) (retry : Z) (s : FTP) :
  (0 <= retry ->
   exists s',
     (login username password retry s = (Ok (Some true), s')
      /\ logged_in (core s') = true
      /\ Session.username s' = Some username
      /\ up s')
     \/ login username password retry s = (Raise AuthenticationError, s'))
  /\ (retry < 0 -> login username password retry s = (Ok None, s)).
Proof.
  split.
  - intros Hretry. unfold login, try_catch, _execute_with_retry, bind, ret.
    destruct (retry_loop (_login_operation username password) retry
                (Z.to_nat (retry + 1)) 0 s) as [[x|e] s'] eqn:E.
    + exists s'. left.
      assert (H1 : Z.of_nat (Z.to_nat (retry + 1)) + 0 = retry + 1) by lia.
      assert (H2 : (0 < Z.to_nat (retry + 1))%nat) by lia.
      destruct (retry_loop_ok _ retry _ 0 s x s' H1 H2 E) as (b & s0 & -> & Hop).
      destruct (login_operation_ok username password s0 b s' Hop) as (-> & H).
      split; [reflexivity | exact H].
    + exists s'. right. reflexivity.
  - intros Hretry. unfold login, try_catch, _execute_with_retry, bind, ret.
    replace (Z.to_nat (retry + 1)) with 0%nat by lia. reflexivity.
Qed.

Lemma login_outcome_witness :
  0 <= 2
  /\ exists s',
       (login "user" "secret" 2
          (established [Data ("331 Password required" ++ CRLF);
                        Data ("230 Logged in" ++ CRLF)])
        = (Ok (Some true), s')
        /\ logged_in (core s') = true
        /\ Session.username s' = Some "user"
        /\ up s')
       \/ login "user" "secret" 2
            (established [Data ("331 Password required" ++ CRLF);
                          Data ("230 Logged in" ++ CRLF)])
          = (Raise AuthenticationError, s').
Proof.
  assert (H : 0 <= 2) by discriminate.
  split; [exact H|].
  exact (proj1 (login_outcome "user" "secret" 2
                  (established [Data ("331 Password required" ++ CRLF);
                                Data ("230 Logged in" ++ CRLF)])) H).
Defined.

(** A server that asks for the password and accepts it. *)
Example login_accepted :
  fst (login "user" "secret" 2
         (established [Data ("331 Password required" ++ CRLF);
                       Data ("230 Logged in" ++ CRLF)]))
  = Ok (Some true).
Proof. vm_compute. reflexivity. Qed.

End SessionFacts.

(** ** client/ftp_client.py: [set_transfer_mode] *)

Module ModeFacts.

Import Protocol Client.
Local Open Scope client_scope.
Local Open Scope list_scope.

Lemma send_keeps_mode command c r c' :
  _send_command command c = (r, c') ->
  transfer_mode c' = transfer_mode c
  /\ (r = Ok tt -> sent c' = sent c ++ [encode_utf8 (command ++ CRLF)%string]).
Proof.
  unfold _send_command.
  destruct (negb (cmd_socket c)); [intros [= <- <-]; split; [reflexivity|discriminate]|].
  destruct (negb (connected c)); [intros [= <- <-]; split; [reflexivity|discriminate]|].
  destruct c as [cs cn li tm cm lr lc inc sf cf ip ep st lg dc]. cbn.
  destruct sf as [|[e|] rest]; intros [= <- <-]; cbn; split;
    reflexivity || discriminate || auto.
Qed.

Lemma read_loop_keeps_mode events response c r c' :
  read_loop events response c = (r, c') ->
  transfer_mode c' = transfer_mode c /\ sent c' = sent c.
Proof.
  revert response c. induction events as [|ev events IH]; intros response c;
    cbn [read_loop].
  - intros [= <- <-]. auto.
  - destruct ev as [|line| | |]; try (intros [= <- <-]; auto).
    destruct (String.eqb line ""); [intros [= <- <-]; auto|].
    destruct (is_error_line line); [intros [= <- <-]; auto|].
    destruct (is_last_line line); [intros [= <- <-]; auto|].
    apply IH.
Qed.

Lemma read_keeps_mode c r c' :
  _read_response c = (r, c') ->
  transfer_mode c' = transfer_mode c /\ sent c' = sent c.
Proof.
  unfold _read_response.
  destruct (negb (cmd_socket c)); [intros [= <- <-]; auto|].
  destruct (negb (connected c)); [intros [= <- <-]; auto|].
  destruct (read_loop (incoming c) "" c) as [[response|e] c1] eqn:E;
    destruct (read_loop_keeps_mode _ _ _ _ _ E) as [H1 H2].
  - destruct (parse_response response) as [[code message]|e];
      intros [= <- <-]; cbn; auto.
  - intros [= <- <-]. auto.
Qed.

Lemma mode_eqb_eq a b : mode_eqb a b = true <-> a = b.
Proof. destruct a, b; cbn; split; congruence. Qed.

(** X17.  The transfer mode the client records follows the server.
    When [set_transfer_mode] returns, the recorded mode is the one asked
    for: either it already was, and nothing was sent, or one [TYPE]
    command was sent and answered with code 200.  When it raises, the
    recorded mode is unchanged. *)
Theorem transfer_mode_follows_server mode c :
  match set_transfer_mode mode c with
  | (Ok _, c') =>
      transfer_mode c' = mode
      /\ (transfer_mode c = mode -> c' = c)
      /\ (transfer_mode c <> mode ->
          last_response_code c' = Some COMMAND_OK
          /\ sent c' = sent c ++ [encode_utf8 (("TYPE " ++ mode_value mode) ++ CRLF)%string])
  | (Raise _, c') =>
      transfer_mode c' = transfer_mode c /\ transfer_mode c <> mode
  end.
Proof.
  unfold set_transfer_mode, bind at 1, get.
  destruct (mode_eqb (transfer_mode c) mode) eqn:Hm.
  - apply mode_eqb_eq in Hm. cbn. split; [exact Hm|]. split; [reflexivity|].
    intros H. contradiction.
  - assert (Hne : transfer_mode c <> mode)
      by (intros H; apply mode_eqb_eq in H; congruence).
    unfold bind at 1.
    destruct (_send_command _ c) as [[[]|e] c1] eqn:E1;
      destruct (send_keeps_mode _ _ _ _ E1) as [M1 S1].
    2:{ split; [exact M1 | exact Hne]. }
    specialize (S1 eq_refl).
    unfold bind at 1.
    destruct (_read_response c1) as [[response|e] c2] eqn:E2;
      destruct (read_keeps_mode _ _ _ E2) as [M2 S2].
    2:{ split; [congruence | exact Hne]. }
    unfold bind, get. unfold code_is.
    destruct (last_response_code c2) as [k|] eqn:Hk; cbn.
    + destruct (k =? COMMAND_OK) eqn:Hc; cbn.
      * apply Z.eqb_eq in Hc. subst k.
        split; [reflexivity|]. split; [intros H; contradiction|].
        intros _. split; [exact Hk|]. rewrite S2, S1. reflexivity.
      * split; [congruence | exact Hne].
    + split; [congruence | exact Hne].
Qed.

End ModeFacts.

(** ** [list] and [get_directory_tree] *)

Module TreeFacts.

Import Protocol Client Listing Tree.
Local Open Scope client_scope.
Local Open Scope list_scope.

Lemma returns_bind {A B : Type} (m : M A) (k : A -> M B) (P : B -> Prop) :
  (forall a, returns (k a) P) -> returns (bind m k) P.
Proof.
  intros H c b c'. unfold bind. destruct (m c) as [[a|e] c1]; [|discriminate].
  apply H.
Qed.

Lemma returns_raise {A : Type} (e : exn) (P : A -> Prop) : returns (raise e) P.
Proof. intros c a c'. discriminate. Qed.

Lemma returns_try_catch {A : Type} (body : M A) handles handler (P : A -> Prop) :
  returns body P -> (forall e, returns (handler e) P) ->
  returns (try_catch body handles handler) P.
Proof.
  intros Hb Hh c a c'. unfold try_catch.
  destruct (body c) as [[x|e] c1] eqn:E.
  - intros [= <- <-]. exact (Hb c x c1 E).
  - destruct (handles e); [apply Hh | discriminate].
Qed.

Section Listing.

Variable receive_listing : data_endpoint -> M (list string).
Variable exn_text : exn -> string.

(** What [list] returns was made by [parse_list_response]. *)
Lemma list_returns_records path :
  returns (list_ receive_listing exn_text path)
    (fun items => forall item, item ∈ items -> entry_shape item).
Proof.
  unfold list_. apply returns_try_catch; [|intros e; apply returns_raise].
  apply returns_bind. intros data_sock.
  apply returns_bind. intros _.
  apply returns_bind. intros response.
  apply returns_bind. intros ok.
  destruct (negb ok); [apply returns_raise|].
  apply returns_bind. intros directory_lines.
  apply returns_bind. intros response'.
  apply returns_bind. intros ok'.
  destruct (negb ok'); [apply returns_raise|].
  intros c items c'. unfold lift. intros [= E _].
  pose proof (ListFacts.list_records directory_lines) as H.
  rewrite E in H. exact (proj2 H).
Qed.

Lemma assign_files name x result :
  is_file (name, x) -> Forall is_file result -> Forall is_file (assign name x result).
Proof.
  intros Hx. induction 1 as [|[k y] rest Hy Hrest IH]; cbn.
  - constructor; [exact Hx | constructor].
  - destruct (value_eqb k name).
    + constructor; [|exact Hrest]. destruct Hx as [size Hx]. now exists size.
    + constructor; [exact Hy | exact IH].
Qed.

Lemma get_tree_outcome levels current_path c :
  match fst (_get_tree receive_listing exn_text levels current_path c) with
  | Ok Truncated => levels = 0%nat
  | Ok (Failed _) => True
  | Ok (File _) => False
  | Ok (Entries entries) => Forall is_file entries
  | Raise _ => False
  end.
Proof.
  destruct levels as [|levels]; [reflexivity|].
  cbn [_get_tree]. unfold try_catch at 1.
  match goal with |- context [bind (list_ _ _ _) ?k] => set (rest := k) end.
  unfold bind at 1.
  destruct (list_ receive_listing exn_text current_path c) as [[items|e] c1] eqn:E;
    [|exact I].
  pose proof (list_returns_records current_path c items c1 E) as Hitems.
  subst rest. cbn beta.
  match goal with |- context [bind (?each items []) _] => set (loop := each) end.
  assert (Hloop : forall items result c,
            (forall item, item ∈ items -> entry_shape item) ->
            Forall is_file result ->
            exists result' c', loop items result c = (Ok result', c')
                               /\ Forall is_file result').
  { clear. induction items as [|item rest IH]; intros result c Hitems Hres.
    - exists result, c. split; [reflexivity | exact Hres].
    - assert (Hrest : forall i, i ∈ rest -> entry_shape i)
        by (intros i Hi; apply Hitems; apply elem_of_cons; now right).
      destruct (Hitems item) as (Hd & _); [apply elem_of_cons; now left|].
      cbn [loop]. fold loop. rewrite Hd.
      destruct (item !! "name") as [name|]; [|now apply IH].
      destruct (negb (truthy name)); [now apply IH|].
      apply IH; [exact Hrest|].
      apply assign_files; [|exact Hres]. now eexists. }
  destruct (Hloop items [] c1 Hitems (List.Forall_nil _)) as (result & c2 & E2 & Hres).
  unfold bind. rewrite E2. cbn. exact Hres.
Qed.

End Listing.

(** X18.  [get_directory_tree] never descends into a directory and
    never raises.  Whatever the server lists, the tree it returns is the
    error dictionary, or one level in which every entry is a file entry:
    it looks for a key "is_dir", which [parse_list_response] never sets.
    The truncation mark is returned only for [max_depth] below 1. *)
Theorem directory_tree_flat receive_listing exn_text path max_depth c :
  match fst (get_directory_tree receive_listing exn_text path max_depth c) with
  | Ok Truncated => max_depth <= 0
  | Ok (Failed _) => True
  | Ok (File _) => False
  | Ok (Entries entries) => Forall is_file entries
  | Raise _ => False
  end.
Proof.
  unfold get_directory_tree.
  pose proof (get_tree_outcome receive_listing exn_text (Z.to_nat max_depth) path c) as H.
  destruct (fst (_get_tree receive_listing exn_text (Z.to_nat max_depth) path c))
    as [[| | |]|]; try exact H.
  lia.
Qed.

(** A listing with a directory and a file: both come back as files. *)
Example directory_listed_as_file :
  fst (get_directory_tree
         (fun _ => ret ["drwxr-xr-x 2 u g 4096 Jan 1 00:00 docs";
                        "-rw-r--r-- 1 u g 12 Jan 1 00:00 a.txt"])
         (fun _ => "") (Some "/pub") 3
         (session [Data ("227 Entering Passive Mode (127,0,0,1,4,1)" ++ CRLF)%string;
                   Data ("150 Here comes the listing" ++ CRLF)%string;
                   Data ("226 Done" ++ CRLF)%string]))
  = Ok (Entries [(Str "docs", File (Int 4096)); (Str "a.txt", File (Int 12))]).
Proof. vm_compute. reflexivity. Qed.

End TreeFacts.

(** ** The users of the pools *)

Module PoolUseFacts.

Import PoolUse.
Local Open Scope list_scope.

(** X19.  A [with] block on [FTPPooledClient] leaves the count
    of active connections of the pool as it found it, whether a session
    was reused, created, refused at the limit, or could not be created. *)
Theorem pooled_block_balanced alive failure connected now p :
  0 <= ConnectionPool.active_connections p ->
  ConnectionPool.active_connections
    (snd (pooled_block alive failure connected now p))
  = ConnectionPool.active_connections p.
Proof.
  intros H. unfold pooled_block, ConnectionPool.get_connection.
  destruct (ConnectionPool.take_idle alive (ConnectionPool.pool p)
              (ConnectionPool.total_connections_closed p)) as [[[client|] rest] closed].
  - cbn. destruct connected; cbn; lia.
  - destruct (ConnectionPool.active_connections p >=? ConnectionPool.max_connections p);
      [reflexivity|].
    destruct failure as [e|]; [reflexivity|].
    cbn. destruct connected; cbn; lia.
Qed.

Lemma pooled_block_balanced_witness :
  0 <= ConnectionPool.active_connections (ConnectionPool.init 2 300%Q)
  /\ ConnectionPool.active_connections
       (snd (pooled_block (fun _ => true) None true 1%Q (ConnectionPool.init 2 300%Q)))
     = ConnectionPool.active_connections (ConnectionPool.init 2 300%Q).
Proof.
  assert (H : 0 <= ConnectionPool.active_connections (ConnectionPool.init 2 300%Q))
    by (cbn; lia).
  split; [exact H | exact (pooled_block_balanced _ _ _ _ _ H)].
Defined.

Lemma get_client_taken alive first second p c p' :
  ClientPool.invariant p ->
  ClientPool.get_client alive first second p = (Ok c, p') ->
  (c ∉ ClientPool._clients_in_use p)
  /\ ClientPool._clients_in_use p' = {[c]} ∪ ClientPool._clients_in_use p.
Proof.
  intros [I1 I2 I3 I4 I5]. unfold ClientPool.get_client.
  assert (Hnew : forall o q r q',
            ClientPool._clients_in_use q = ClientPool._clients_in_use p ->
            ClientPool.next_client q = ClientPool.next_client p ->
            ClientPool._create_client o q = (Ok (Some r), q') ->
            (r ∉ ClientPool._clients_in_use p)
            /\ ClientPool._clients_in_use q' = ClientPool._clients_in_use p).
  { intros o q r q' Hu Hn. destruct o; cbn; intros [= <- <-]; cbn.
    split; [|exact Hu]. rewrite Hn. intros Hin. apply I4 in Hin. lia. }
  destruct (ClientPool._pool p) as [|client rest] eqn:Hp.
  - destruct (ClientPool._create_client second p) as [[[r|]|e] q'] eqn:E;
      intros [= <- <-].
    destruct (Hnew _ p _ _ eq_refl eq_refl E) as [H1 H2].
    cbn. rewrite H2. split; [exact H1 | reflexivity].
  - destruct alive.
    + intros [= <- <-]. cbn. split; [|reflexivity].
      apply I2. apply elem_of_cons. now left.
    + set (q := ClientPool.mkPool _ rest _ _).
      destruct (ClientPool._create_client first q) as [[[r|]|e] q'] eqn:E.
      * intros [= <- <-].
        destruct (Hnew _ q _ _ eq_refl eq_refl E) as [H1 H2].
        cbn. rewrite H2. split; [exact H1 | reflexivity].
      * intros [=].
      * destruct first; cbn in E; try discriminate E. injection E as <- <-.
        destruct (ClientPool._create_client second q) as [[[r|]|e'] q''] eqn:E2;
          intros [= <- <-].
        destruct (Hnew _ q _ _ eq_refl eq_refl E2) as [H1 H2].
        cbn. rewrite H2. split; [exact H1 | reflexivity].
Qed.

Lemma get_client_refused alive first second p e p' :
  ClientPool.get_client alive first second p = (Raise e, p') ->
  ClientPool._clients_in_use p' = ClientPool._clients_in_use p.
Proof.
  unfold ClientPool.get_client.
  destruct (ClientPool._pool p) as [|client rest];
    [|destruct alive; [discriminate|]];
    destruct first, second; cbn; intros [= <- <-]; reflexivity.
Qed.

(** X21.  A handler of [FTPQueueManager] gives back the session it
    took, whether its operation returns or raises: the sessions in use are
    the same after it as before.  (When no session could be had, none was
    taken.) *)
Theorem handle_returns_session {A : Type} alive first second
    (operation : nat -> result A) still_alive p :
  ClientPool.invariant p ->
  ClientPool._clients_in_use
    (snd (handle alive first second operation still_alive p))
  = ClientPool._clients_in_use p.
Proof.
  intros I. unfold handle.
  destruct (ClientPool.get_client alive first second p) as [[c|e] p'] eqn:E.
  - destruct (get_client_taken alive first second p c p' I E) as [Hc Hu].
    cbn [snd]. unfold ClientPool.release_client.
    assert (Hin : bool_decide (c ∈ ClientPool._clients_in_use p') = true).
    { apply bool_decide_eq_true. rewrite Hu. apply elem_of_union. left.
      now apply elem_of_singleton. }
    rewrite Hin. cbn.
    assert (Hd : ClientPool._clients_in_use p' ∖ {[c]} = ClientPool._clients_in_use p).
    { rewrite Hu. apply set_eq. intros x.
      rewrite elem_of_difference, elem_of_union, !elem_of_singleton.
      split; [intros [[->|H] Hx]; [contradiction|exact H]
             | intros H; split; [now right | intros ->; contradiction]]. }
    destruct (still_alive && negb _); cbn; exact Hd.
  - cbn [snd]. exact (get_client_refused alive first second p e p' E).
Qed.

Lemma handle_returns_session_witness :
  ClientPool.invariant (ClientPool.init 2 2)
  /\ ClientPool._clients_in_use
       (snd (handle true ClientPool.Created ClientPool.Created
               (fun _ => @Raise unit (CommandError "550 No such file"))
               true (ClientPool.init 2 2)))
     = ClientPool._clients_in_use (ClientPool.init 2 2).
Proof.
  assert (H : ClientPool.invariant (ClientPool.init 2 2))
    by (apply ClientPoolFacts.init_invariant; cbn; lia).
  split; [exact H|].
  exact (handle_returns_session true ClientPool.Created ClientPool.Created
           (fun _ => @Raise unit (CommandError "550 No such file"))
           true (ClientPool.init 2 2) H).
Defined.

Lemma unserved_step o s s' :
  creation_fails o ->
  ConnectionPool.step o s = Some s' ->
  ConnectionPool.held s = ∅
  /\ ConnectionPool.pool (ConnectionPool.the_pool s) = []
  /\ ConnectionPool.total_connections_created (ConnectionPool.the_pool s) = 0 ->
  ConnectionPool.held s' = ∅
  /\ ConnectionPool.pool (ConnectionPool.the_pool s') = []
  /\ ConnectionPool.total_connections_created (ConnectionPool.the_pool s') = 0.
Proof.
  intros Hf Hs (Hh & Hp & Hc). destruct s as [p h]. cbn in Hh, Hp, Hc. subst h.
  destruct o as [alive failure|client connected now|now alive]; cbn in Hs.
  - cbn in Hf. subst failure. revert Hs.
    unfold ConnectionPool.get_connection. rewrite Hp. cbn.
    destruct (ConnectionPool.active_connections p >=? ConnectionPool.max_connections p);
      intros [= <-]; cbn; auto.
  - rewrite bool_decide_eq_false_2 in Hs by apply not_elem_of_empty.
    discriminate Hs.
  - injection Hs as <-. cbn. rewrite Hp. cbn. auto.
Qed.

(** X20.  An [FTPConnectionPool] never hands out a session.  The
    [connect] of a new client raises [ConnectionError]; and through any
    calls on a pool whose new sessions fail so, no session is held, none is
    idle and none is counted as created. *)
Theorem connection_pool_never_serves ops max_connections idle_timeout s :
  Forall creation_fails ops ->
  ConnectionPool.run ops (ConnectionPool.start max_connections idle_timeout) = Some s ->
  (forall host enable_ssl dials,
     fst (Session.connect (Session.new_client host enable_ssl dials))
     = inr (Session.Std ConnectionError))
  /\ ConnectionPool.held s = ∅
  /\ ConnectionPool.pool (ConnectionPool.the_pool s) = []
  /\ ConnectionPool.total_connections_created (ConnectionPool.the_pool s) = 0.
Proof.
  intros Hf Hr. split.
  { intros host enable_ssl dials.
    destruct (SessionFacts.connect_down (Session.new_client host enable_ssl dials)
                eq_refl) as (e & s' & E & _ & _ & He).
    rewrite E. cbn. now rewrite (He eq_refl). }
  assert (H0 : ConnectionPool.held (ConnectionPool.start max_connections idle_timeout) = ∅
               /\ ConnectionPool.pool (ConnectionPool.the_pool
                     (ConnectionPool.start max_connections idle_timeout)) = []
               /\ ConnectionPool.total_connections_created (ConnectionPool.the_pool
                     (ConnectionPool.start max_connections idle_timeout)) = 0)
    by (cbn; auto).
  revert Hr H0. generalize (ConnectionPool.start max_connections idle_timeout).
  induction Hf as [|o ops Ho Hf IH]; intros s0 Hr H0.
  - injection Hr as <-. exact H0.
  - cbn in Hr. destruct (ConnectionPool.step o s0) as [s1|] eqn:E; [|discriminate Hr].
    exact (IH s1 Hr (unserved_step o s0 s1 Ho E H0)).
Qed.

Lemma connection_pool_never_serves_witness :
  Forall creation_fails
    [ConnectionPool.Checkout (fun _ => true) (Some ConnectionError);
     ConnectionPool.Validate 10%Q (fun _ => true);
     ConnectionPool.Checkout (fun _ => true) (Some ConnectionError)]
  /\ exists s,
       ConnectionPool.run
         [ConnectionPool.Checkout (fun _ => true) (Some ConnectionError);
          ConnectionPool.Validate 10%Q (fun _ => true);
          ConnectionPool.Checkout (fun _ => true) (Some ConnectionError)]
         (ConnectionPool.start 2 300%Q) = Some s
       /\ ConnectionPool.held s = ∅
       /\ ConnectionPool.connection_failures (ConnectionPool.the_pool s) = 2.
Proof.
  assert (Hf : Forall creation_fails
    [ConnectionPool.Checkout (fun _ => true) (Some ConnectionError);
     ConnectionPool.Validate 10%Q (fun _ => true);
     ConnectionPool.Checkout (fun _ => true) (Some ConnectionError)])
    by (repeat constructor).
  split; [exact Hf|].
  eexists. split; [reflexivity|].
  split; [|reflexivity].
  exact (proj1 (proj2 (connection_pool_never_serves _ 2 300%Q _ Hf eq_refl))).
Defined.

End PoolUseFacts.

(** ** The two pools within their size *)

Module PoolFacts.

Import PoolUse.
Local Open Scope list_scope.

Lemma empty_pool_stays pool_size ops :
  Forall creation_none ops ->
  ClientPool.run ops (ClientPool.init pool_size 0) = ClientPool.init pool_size 0.
Proof.
  unfold ClientPool.run. induction 1 as [|o ops Ho _ IH]; [reflexivity|].
  cbn [fold_left].
  assert (E : ClientPool.step o (ClientPool.init pool_size 0)
              = ClientPool.init pool_size 0).
  { destruct o as [alive first second|[c|] alive]; cbn in Ho |- *.
    - destruct Ho as [-> ->]. reflexivity.
    - reflexivity.
    - reflexivity. }
  now rewrite E.
Qed.

(** C2.  At every point of every sequence of checkouts and releases the
    idle sessions of a pool and the sessions checked out of it are together
    at most the size of the pool, and no session is both idle and checked
    out.  [FTPConnectionPool] refuses a checkout at the limit: the bound
    holds whatever becomes of the creation of sessions, through checkouts,
    releases of sessions that are checked out, and validations.
    [FTPClientPool] has no such test; but its [_create_client] returns
    [None] every time, the [connect] of a new session raising, so the pool
    is built empty and stays empty.  The sizes are not negative. *)
Theorem pools_bounded_exclusive :
  (forall maxc timeout ops s,
      0 <= maxc ->
      ConnectionPool.run ops (ConnectionPool.start maxc timeout) = Some s ->
      Z.of_nat (length (ConnectionPool.idle s))
      + Z.of_nat (size (ConnectionPool.held s)) <= maxc
      /\ ConnectionPool.active_connections (ConnectionPool.the_pool s)
         = Z.of_nat (size (ConnectionPool.held s))
      /\ forall c, c ∈ ConnectionPool.idle s -> c ∉ ConnectionPool.held s)
  /\ (forall host enable_ssl passive_mode username password dials,
         Session._create_client host enable_ssl passive_mode username password dials
         = inl None)
  /\ (forall pool_size ops,
         0 <= pool_size -> Forall creation_none ops ->
         let p := ClientPool.run ops (ClientPool.init pool_size 0) in
         Z.of_nat (length (ClientPool._pool p))
         + Z.of_nat (size (ClientPool._clients_in_use p)) <= pool_size
         /\ forall c, c ∈ ClientPool._pool p -> c ∉ ClientPool._clients_in_use p).
Proof.
  split; [|split].
  - intros maxc timeout ops s Hm Hr.
    destruct (ConnectionPoolFacts.run_invariant ops _ s
                (ConnectionPoolFacts.start_invariant maxc timeout Hm) Hr)
      as [[Hcount Hbound _ Hex _ _] Hmax].
    rewrite Hmax in Hbound. repeat split; assumption.
  - exact SessionFacts.create_client_is_none.
  - intros pool_size ops Hp Hn p. subst p.
    rewrite (empty_pool_stays pool_size ops Hn). cbn. split.
    + rewrite size_empty. lia.
    + intros c Hc. now apply elem_of_nil in Hc.
Qed.

Lemma pools_bounded_exclusive_witness :
  match
    ConnectionPool.run
      [ConnectionPool.Checkout (fun _ => true) None;
       ConnectionPool.Checkout (fun _ => true) None;
       ConnectionPool.Release 0 true 1%Q;
       ConnectionPool.Checkout (fun _ => false) None]
      (ConnectionPool.start 2 300%Q)
  with
  | Some s =>
      Z.of_nat (length (ConnectionPool.idle s))
      + Z.of_nat (size (ConnectionPool.held s)) <= 2
  | None => False
  end
  /\ Forall creation_none
       [ClientPool.Get true ClientPool.NoClient ClientPool.NoClient;
        ClientPool.Release (Some 0%nat) true;
        ClientPool.Get false ClientPool.NoClient ClientPool.NoClient]
  /\ (let p :=
        ClientPool.run
          [ClientPool.Get true ClientPool.NoClient ClientPool.NoClient;
           ClientPool.Release (Some 0%nat) true;
           ClientPool.Get false ClientPool.NoClient ClientPool.NoClient]
          (ClientPool.init 3 0) in
      Z.of_nat (length (ClientPool._pool p))
      + Z.of_nat (size (ClientPool._clients_in_use p)) <= 3).
Proof.
  assert (Hn : Forall creation_none
                 [ClientPool.Get true ClientPool.NoClient ClientPool.NoClient;
                  ClientPool.Release (Some 0%nat) true;
                  ClientPool.Get false ClientPool.NoClient ClientPool.NoClient])
    by (repeat constructor).
  assert (H3 : 0 <= 3) by discriminate.
  assert (H2 : 0 <= 2) by discriminate.
  split; [|split; [exact Hn|]].
  - destruct (ConnectionPool.run _ _) as [s|] eqn:E.
    + exact (proj1 (proj1 pools_bounded_exclusive 2 300%Q _ s H2 E)).
    + vm_compute in E. discriminate E.
  - exact (proj1 (proj2 (proj2 pools_bounded_exclusive) 3 _ H3 Hn)).
Defined.

End PoolFacts.

(** ** client/transfer_queue.py: the queue and its threads *)

Module LifeFacts.

Import PyFacts Queue Life.
Local Open Scope list_scope.

(** *** Counting *)

Lemma count_nil task_id : count task_id [] = 0%nat.
Proof. reflexivity. Qed.

Lemma count_cons task_id x l :
  count task_id (x :: l)
  = ((if String.eqb task_id x then 1 else 0) + count task_id l)%nat.
Proof. unfold count. cbn [List.filter]. now destruct (String.eqb task_id x). Qed.

Lemma count_app task_id a b :
  count task_id (a ++ b) = (count task_id a + count task_id b)%nat.
Proof.
  unfold count. now rewrite List.filter_app, List.length_app.
Qed.

Lemma count_pos task_id l : (0 < count task_id l)%nat <-> task_id ∈ l.
Proof.
  induction l as [|x l IH]; [rewrite count_nil, elem_of_nil; lia|].
  rewrite count_cons, elem_of_cons.
  destruct (String.eqb_spec task_id x) as [->|Hne].
  - split; [now left | lia].
  - rewrite <- IH. split; [intros H; right; lia | intros [H|H]; [contradiction | lia]].
Qed.

Lemma count_zero task_id l : count task_id l = 0%nat <-> task_id ∉ l.
Proof. rewrite <- count_pos. lia. Qed.

Lemma count_dict_pop task_id key d :
  count task_id (dict_pop key d)
  = if String.eqb task_id key then 0%nat else count task_id d.
Proof.
  unfold dict_pop. induction d as [|x d IH]; cbn [List.filter].
  - rewrite count_nil. now destruct (String.eqb task_id key).
  - destruct (String.eqb_spec x key) as [->|Hx]; cbn [negb].
    + rewrite IH, count_cons. destruct (String.eqb task_id key); reflexivity.
    + rewrite !count_cons, IH.
      destruct (String.eqb_spec task_id key) as [->|Hk]; [|reflexivity].
      destruct (String.eqb_spec key x); [congruence | reflexivity].
Qed.

Lemma count_dict_set task_id key d :
  count task_id (dict_set key d)
  = if bool_decide (key ∈ d) then count task_id d
    else (count task_id d + if String.eqb task_id key then 1 else 0)%nat.
Proof.
  unfold dict_set. destruct (bool_decide (key ∈ d)); [reflexivity|].
  rewrite count_app, count_cons, count_nil. lia.
Qed.

Lemma count_remove_entry task_id m entries :
  m ∈ entries ->
  (count task_id (map (fun e : entry => snd e) (remove_entry m entries))
   + (if String.eqb task_id (snd m) then 1 else 0))%nat
  = count task_id (map (fun e : entry => snd e) entries).
Proof.
  induction entries as [|e entries IH]; intros H; [now apply elem_of_nil in H|].
  cbn [remove_entry]. destruct (entry_eqb m e) eqn:E.
  - apply QueueFacts.entry_eqb_eq in E. subst e. cbn [map]. rewrite count_cons. lia.
  - apply elem_of_cons in H as [->|H].
    + assert (entry_eqb e e = true) by now apply QueueFacts.entry_eqb_eq. congruence.
    + cbn [map]. rewrite !count_cons. specialize (IH H). lia.
Qed.

Lemma count_partition task_id (f : string -> bool) l :
  (count task_id (List.filter f l)
   + count task_id (List.filter (fun k => negb (f k)) l))%nat
  = count task_id l.
Proof.
  induction l as [|x l IH]; [reflexivity|].
  cbn [List.filter]. destruct (f x); cbn [negb]; rewrite !count_cons; lia.
Qed.

Lemma str_inj a b : 0 <= a -> 0 <= b -> Py.str a = Py.str b -> a = b.
Proof.
  intros Ha Hb H.
  assert (Hv : forall n, 0 <= n ->
            NilEmpty.uint_of_string (Py.str n) = Some (N.to_uint (Z.to_N n))).
  { intros n Hn. destruct n; try lia; apply NilEmpty.usu. }
  pose proof (Hv a Ha) as Ia. rewrite H, (Hv b Hb) in Ia. injection Ia as Ia.
  apply (f_equal N.of_uint) in Ia. rewrite !DecimalN.Unsigned.of_to in Ia. lia.
Qed.

Lemma task_name_inj a b :
  0 <= a -> 0 <= b ->
  ("task-" ++ Py.str a)%string = ("task-" ++ Py.str b)%string -> a = b.
Proof.
  intros Ha Hb H. apply (str_inj a b Ha Hb).
  now apply (ClientFacts.append_inj_l "task-").
Qed.

(** *** What every call keeps *)

Lemma fits_same s s' task_id t :
  same_places s s' task_id -> fits s task_id t -> fits s' task_id t.
Proof.
  intros (P1 & P2 & P3 & P4 & P5) (F1 & F2 & F3 & F4 & F5).
  unfold fits. rewrite <- !count_pos in *.
  rewrite P1, P2, P3, P4, P5. auto.
Qed.

Lemma occurrences_same s s' task_id :
  same_places s s' task_id -> occurrences task_id s' = occurrences task_id s.
Proof. intros (P1 & P2 & P3 & P4 & P5). unfold occurrences. lia. Qed.

(** A call that touches one task. *)
Lemma tidy_update s s' task_id t :
  tidy s ->
  _task_id_counter (the_queue s) <= _task_id_counter (the_queue s') ->
  (forall other, other <> task_id ->
     tasks (the_queue s') !! other = tasks (the_queue s) !! other
     /\ same_places s s' other) ->
  tasks (the_queue s') !! task_id = Some t ->
  id t = task_id ->
  (exists k, 1 <= k <= _task_id_counter (the_queue s')
             /\ task_id = ("task-" ++ Py.str k)%string) ->
  (occurrences task_id s' <= 1)%nat ->
  fits s' task_id t ->
  0 <= retry_count t <= Z.max 0 (max_retries t) ->
  tidy s'.
Proof.
  intros [T0 T1 T2 T3 T4 T5 T6] Hc Hother Hstore Hid Hnum Honce Hfit Hb.
  constructor.
  - lia.
  - intros i x Hx. destruct (decide (i = task_id)) as [->|Hne]; [congruence|].
    destruct (Hother i Hne) as [E _]. rewrite E in Hx. eauto.
  - intros i x Hx. destruct (decide (i = task_id)) as [->|Hne]; [exact Hnum|].
    destruct (Hother i Hne) as [E _]. rewrite E in Hx.
    destruct (T2 i x Hx) as (k & Hk & ->). exists k. split; [lia | reflexivity].
  - intros i Hi. destruct (decide (i = task_id)) as [->|Hne]; [now rewrite Hstore|].
    destruct (Hother i Hne) as [E P]. rewrite E. apply T3.
    now rewrite <- (occurrences_same s s' i P).
  - intros i. destruct (decide (i = task_id)) as [->|Hne]; [exact Honce|].
    destruct (Hother i Hne) as [_ P]. rewrite (occurrences_same s s' i P). apply T4.
  - intros i x Hx. destruct (decide (i = task_id)) as [->|Hne].
    + rewrite Hstore in Hx. injection Hx as <-. exact Hfit.
    + destruct (Hother i Hne) as [E P]. rewrite E in Hx.
      apply (fits_same s s' i x P). eauto.
  - intros i x Hx. destruct (decide (i = task_id)) as [->|Hne].
    + rewrite Hstore in Hx. now injection Hx as <-.
    + destruct (Hother i Hne) as [E _]. rewrite E in Hx. eauto.
Qed.

Lemma eqb_false (a b : string) : a <> b -> String.eqb a b = false.
Proof. intros H. now destruct (String.eqb_spec a b). Qed.

Lemma unknown_nowhere s task_id :
  tidy s -> tasks (the_queue s) !! task_id = None -> occurrences task_id s = 0%nat.
Proof.
  intros T H. destruct (Nat.eq_dec (occurrences task_id s) 0%nat) as [E|E]; [exact E|].
  assert (P : (0 < occurrences task_id s)%nat) by lia.
  apply (known s T) in P. rewrite H in P. now destruct P.
Qed.

Lemma start_tidy : tidy start.
Proof.
  constructor; cbn; try lia; intros i;
    try (intros x; rewrite lookup_empty; discriminate);
    unfold occurrences; cbn; lia.
Qed.

Lemma new_id_fresh s :
  tidy s ->
  tasks (the_queue s)
    !! ("task-" ++ Py.str (_task_id_counter (the_queue s) + 1))%string = None.
Proof.
  intros T. destruct (tasks _ !! _) as [t|] eqn:E; [|reflexivity].
  destruct (numbered s T _ t E) as (k & Hk & Hn).
  pose proof (counter_nonneg s T).
  apply task_name_inj in Hn; lia.
Qed.

Lemma add_tidy s task_type priority now max_retries retry_delay :
  tidy s ->
  tidy (mkSystem
          (snd (add_task task_type priority now max_retries retry_delay (the_queue s)))
          (retry_tasks s)).
Proof.
  intros T. pose proof (new_id_fresh s T) as Hfresh.
  pose proof (unknown_nowhere s _ T Hfresh) as Hzero.
  pose proof (counter_nonneg s T) as Hc.
  set (task_id := ("task-" ++ Py.str (_task_id_counter (the_queue s) + 1))%string) in *.
  set (t := new_task task_id task_type priority now max_retries retry_delay).
  unfold occurrences in Hzero.
  assert (Hq : forall i, count i (queued (snd (add_task task_type priority now
                                                  max_retries retry_delay (the_queue s))))
                         = (count i (queued (the_queue s))
                            + if String.eqb i task_id then 1 else 0)%nat).
  { intros i. unfold queued, add_task, put. cbn [snd task_queue].
    rewrite map_app, count_app. cbn [map]. rewrite count_cons, count_nil.
    cbn [entry_of snd id new_task]. fold task_id. lia. }
  apply (tidy_update s _ task_id t T).
  - cbn. lia.
  - intros other Hne. split.
    + cbn. now rewrite lookup_insert_ne.
    + repeat split; try reflexivity. cbn [the_queue]. rewrite Hq.
      rewrite (eqb_false _ _ Hne). lia.
  - cbn. apply lookup_insert_eq.
  - reflexivity.
  - exists (_task_id_counter (the_queue s) + 1). cbn. split; [lia | reflexivity].
  - unfold occurrences. cbn [the_queue retry_tasks]. rewrite Hq, String.eqb_refl.
    cbn [add_task snd active_tasks completed_tasks failed_tasks]. lia.
  - unfold fits. cbn [the_queue retry_tasks add_task snd active_tasks
                        completed_tasks failed_tasks].
    rewrite <- !count_pos. repeat split; try (intros; lia). now left.
  - cbn. lia.
Qed.

Ltac proj :=
  cbn [the_queue retry_tasks tasks task_queue active_tasks completed_tasks
       failed_tasks _task_id_counter snd fst set_task id status retry_count
       max_retries mark_running mark_completed mark_failed mark_canceled
       mark_retrying update_progress] in *.

Lemma status_eqb_eq a b : status_eqb a b = true <-> a = b.
Proof. destruct a, b; cbn; split; congruence. Qed.

Lemma same_system s : mkSystem (the_queue s) (retry_tasks s) = s.
Proof. now destruct s. Qed.

Lemma queued_in (e : entry) entries :
  e ∈ entries -> snd e ∈ map (fun e : entry => snd e) entries.
Proof.
  induction entries as [|x entries IH]; intros H; [now apply elem_of_nil in H|].
  cbn [map]. apply elem_of_cons in H as [->|H]; apply elem_of_cons; auto.
Qed.

Lemma take_tidy s now :
  tidy s -> tidy (mkSystem (snd (worker_begin now (the_queue s))) (retry_tasks s)).
Proof.
  intros T. unfold worker_begin.
  destruct (get_entry (task_queue (the_queue s))) as [[[[[k1 k2] task_id] rest]|]|e] eqn:G;
    [|cbn [snd]; now rewrite same_system..].
  apply QueueFacts.get_entry_spec in G as (Hin & _ & ->).
  assert (Hq : task_id ∈ queued (the_queue s)).
  { unfold queued. exact (queued_in (k1, k2, task_id) _ Hin). }
  pose proof Hq as Hpos. apply count_pos in Hpos.
  pose proof (once s T task_id) as Honce. unfold occurrences in Honce.
  destruct (known s T task_id) as [task Htask]; [unfold occurrences; lia|].
  proj. rewrite Htask.
  destruct (placed s T task_id task Htask) as (F1 & _).
  destruct (status_eqb (status task) CANCELED) eqn:Hs.
  { apply status_eqb_eq in Hs. destruct (F1 Hq); congruence. }
  pose proof (own_id s T task_id task Htask) as Hid.
  pose proof (count_remove_entry task_id (k1, k2, task_id) _ Hin) as Hrem.
  cbn [snd] in Hrem. rewrite String.eqb_refl in Hrem.
  assert (Hact : bool_decide (task_id ∈ active_tasks (the_queue s)) = false).
  { apply bool_decide_eq_false. rewrite <- count_pos. lia. }
  apply (tidy_update s _ task_id (mark_running now task) T).
  - proj. lia.
  - intros other Hne. proj. rewrite Hid. split.
    + now rewrite lookup_insert_ne.
    + pose proof (count_remove_entry other (k1, k2, task_id) _ Hin) as Hrem'.
      cbn [snd] in Hrem'. rewrite (eqb_false _ _ Hne) in Hrem'.
      unfold same_places, queued. proj.
      rewrite count_dict_set, Hact, (eqb_false _ _ Hne).
      repeat split; lia.
  - proj. rewrite Hid. apply lookup_insert_eq.
  - exact Hid.
  - exact (numbered s T task_id task Htask).
  - unfold occurrences, queued in *. proj.
    rewrite count_dict_set, Hact, String.eqb_refl. lia.
  - unfold fits, queued in *. proj. rewrite <- !count_pos.
    rewrite count_dict_set, Hact, String.eqb_refl.
    repeat split; try (intros; lia). intros _. now left.
  - exact (bounded s T task_id task Htask).
Qed.

Section Float.

Variable round : Q -> Q.

Lemma progress_fields reports :
  forall task,
    let task' := fold_left
                   (fun t (r : Z * Z) => update_progress round (fst r) (snd r) t)
                   reports task in
    id task' = id task /\ retry_count task' = retry_count task
    /\ max_retries task' = max_retries task.
Proof.
  induction reports as [|r reports IH]; intros task; cbn [fold_left]; [auto|].
  destruct (IH (update_progress round (fst r) (snd r) task)) as (A & B & C).
  cbn zeta in *. rewrite A, B, C. auto.
Qed.

Lemma finish_tidy s task_id now o task :
  tidy s -> task_id ∈ active_tasks (the_queue s) ->
  tasks (the_queue s) !! task_id = Some task ->
  tidy (mkSystem (worker_end round task_id now o (the_queue s)) (retry_tasks s)).
Proof.
  intros T Hact Htask. pose proof Hact as Hpos. apply count_pos in Hpos.
  pose proof (once s T task_id) as Honce. unfold occurrences in Honce.
  unfold worker_end. rewrite Htask.
  destruct (progress_fields (reports o) task) as (P1 & P2 & P3). cbn zeta in *.
  set (task1 := fold_left _ (reports o) task) in *.
  pose proof (own_id s T task_id task Htask) as Hid.
  pose proof (bounded s T task_id task Htask) as Hb.
  assert (Hc : bool_decide (task_id ∈ completed_tasks (the_queue s)) = false).
  { apply bool_decide_eq_false. rewrite <- count_pos. lia. }
  assert (Hf : bool_decide (task_id ∈ failed_tasks (the_queue s)) = false).
  { apply bool_decide_eq_false. rewrite <- count_pos. lia. }
  (* the failure path, on a task with the fields of [task] *)
  assert (Hfail : forall e task2,
            id task2 = id task -> retry_count task2 = retry_count task ->
            max_retries task2 = max_retries task ->
            tidy (mkSystem
                    (let q := set_task (mark_failed now (Some e) task2) (the_queue s) in
                     match on_error o with
                     | Some _ => q
                     | None =>
                         mkQueue (tasks q) (task_queue q)
                           (dict_pop task_id (active_tasks q)) (completed_tasks q)
                           (dict_set task_id (failed_tasks q)) (_task_id_counter q)
                     end)
                    (retry_tasks s))).
  { intros e task2 Q1 Q2 Q3.
    apply (tidy_update s _ task_id (mark_failed now (Some e) task2) T).
    - destruct (on_error o); proj; lia.
    - intros other Hne. destruct (on_error o); proj; rewrite Q1, Hid; (split;
        [now rewrite lookup_insert_ne|]); unfold same_places, queued in *; proj;
        rewrite ?count_dict_set, ?count_dict_pop, ?Hc, ?Hf, ?(eqb_false _ _ Hne);
        repeat split; lia.
    - destruct (on_error o); proj; rewrite Q1, Hid; apply lookup_insert_eq.
    - proj. congruence.
    - destruct (on_error o); proj; exact (numbered s T task_id task Htask).
    - unfold occurrences, queued in *. destruct (on_error o); proj;
        rewrite ?count_dict_set, ?count_dict_pop, ?Hf, ?String.eqb_refl; lia.
    - unfold fits, queued in *. destruct (on_error o); proj;
        rewrite <- !count_pos;
        rewrite ?count_dict_set, ?count_dict_pop, ?Hf, ?String.eqb_refl;
        repeat split; try (intros; lia); intros; now right.
    - proj. lia. }
  destruct (finished o) as [result|e].
  - destruct (on_complete o) as [e|].
    + apply Hfail; proj; assumption.
    + apply (tidy_update s _ task_id (mark_completed now result task1) T).
      * proj. lia.
      * intros other Hne. proj. rewrite P1, Hid. split.
        -- now rewrite lookup_insert_ne.
        -- unfold same_places, queued in *. proj.
           rewrite count_dict_set, count_dict_pop, ?Hc, ?Hf, (eqb_false _ _ Hne).
           repeat split; lia.
      * proj. rewrite P1, Hid. apply lookup_insert_eq.
      * proj. congruence.
      * exact (numbered s T task_id task Htask).
      * unfold occurrences, queued in *. proj.
        rewrite count_dict_set, count_dict_pop, Hc, String.eqb_refl. lia.
      * unfold fits, queued in *. proj. rewrite <- !count_pos.
        rewrite count_dict_set, count_dict_pop, Hc, String.eqb_refl.
        repeat split; try (intros; lia). now left.
      * proj. lia.
  - apply Hfail; assumption.
Qed.

End Float.

Lemma cancel_tidy s task_id now :
  tidy s -> tidy (mkSystem (snd (cancel_task task_id now (the_queue s))) (retry_tasks s)).
Proof.
  intros T. unfold cancel_task.
  destruct (bool_decide (task_id ∈ active_tasks (the_queue s)));
    [cbn [snd]; now rewrite same_system|].
  destruct (bool_decide (task_id ∈ failed_tasks (the_queue s))) eqn:Hf.
  2:{ destruct (bool_decide (task_id ∈ completed_tasks (the_queue s)));
      cbn [snd]; now rewrite same_system. }
  apply bool_decide_eq_true in Hf. pose proof Hf as Hpos. apply count_pos in Hpos.
  pose proof (once s T task_id) as Honce. unfold occurrences in Honce.
  destruct (known s T task_id) as [task Htask]; [unfold occurrences; lia|].
  rewrite Htask.
  pose proof (own_id s T task_id task Htask) as Hid.
  assert (Hc : bool_decide (task_id ∈ completed_tasks (the_queue s)) = false).
  { apply bool_decide_eq_false. rewrite <- count_pos. lia. }
  apply (tidy_update s _ task_id (mark_canceled now task) T).
  - proj. lia.
  - intros other Hne. proj. rewrite Hid. split.
    + now rewrite lookup_insert_ne.
    + unfold same_places, queued in *. proj.
      rewrite count_dict_set, count_dict_pop, Hc, (eqb_false _ _ Hne).
      repeat split; lia.
  - proj. rewrite Hid. apply lookup_insert_eq.
  - exact Hid.
  - exact (numbered s T task_id task Htask).
  - unfold occurrences, queued in *. proj.
    rewrite count_dict_set, count_dict_pop, Hc, String.eqb_refl. lia.
  - unfold fits, queued in *. proj. rewrite <- !count_pos.
    rewrite count_dict_set, count_dict_pop, Hc, String.eqb_refl.
    repeat split; try (intros; lia). now right.
  - exact (bounded s T task_id task Htask).
Qed.

Lemma requeue_tidy s task_id rest :
  tidy s -> retry_tasks s = task_id :: rest ->
  tidy (mkSystem (snd (retry_one task_id (the_queue s))) rest).
Proof.
  intros T Hr.
  pose proof (once s T task_id) as Honce. unfold occurrences in Honce.
  rewrite Hr, count_cons, String.eqb_refl in Honce.
  destruct (known s T task_id) as [task Htask].
  { unfold occurrences. rewrite Hr, count_cons, String.eqb_refl. lia. }
  unfold retry_one. rewrite Htask.
  pose proof (own_id s T task_id task Htask) as Hid.
  pose proof (bounded s T task_id task Htask) as Hb.
  destruct (placed s T task_id task Htask) as (_ & _ & _ & _ & F5).
  destruct F5 as [Hst Hlt]; [rewrite Hr; apply elem_of_cons; now left|].
  assert (Hq : forall i,
            count i (queued (snd (let task0 := mark_retrying task in
                                  let q := set_task task0 (the_queue s) in
                                  (retry_delay task0,
                                   mkQueue (tasks q) (put (entry_of task0) (task_queue q))
                                     (active_tasks q) (completed_tasks q)
                                     (failed_tasks q) (_task_id_counter q)))))
            = (count i (queued (the_queue s))
               + if String.eqb i task_id then 1 else 0)%nat).
  { intros i. unfold queued, put. cbn [snd task_queue set_task].
    rewrite map_app, count_app. cbn [map]. rewrite count_cons, count_nil.
    cbn [entry_of snd id mark_retrying]. rewrite Hid. lia. }
  apply (tidy_update s _ task_id (mark_retrying task) T).
  - proj. lia.
  - intros other Hne. split.
    + proj. rewrite Hid. now rewrite lookup_insert_ne.
    + unfold same_places. cbn [the_queue retry_tasks]. rewrite Hq.
      proj. rewrite Hr, count_cons, (eqb_false _ _ Hne). repeat split; lia.
  - proj. rewrite Hid. apply lookup_insert_eq.
  - exact Hid.
  - exact (numbered s T task_id task Htask).
  - unfold occurrences. cbn [the_queue retry_tasks]. rewrite Hq, String.eqb_refl.
    proj. lia.
  - unfold fits. cbn [the_queue retry_tasks]. rewrite <- !count_pos, Hq.
    proj. repeat split; try (intros; lia). now right.
  - proj. lia.
Qed.

Lemma filter_elem (f : string -> bool) task_id l :
  task_id ∈ List.filter f l -> task_id ∈ l /\ f task_id = true.
Proof.
  rewrite !list_elem_of_In. apply List.filter_In.
Qed.

Lemma collect_tidy s :
  tidy s -> retry_tasks s = [] ->
  tidy (mkSystem (snd (retry_collect (the_queue s))) (fst (retry_collect (the_queue s)))).
Proof.
  intros [T0 T1 T2 T3 T4 T5 T6] Hr.
  assert (Hocc : forall i,
            occurrences i (mkSystem (snd (retry_collect (the_queue s)))
                             (fst (retry_collect (the_queue s))))
            = occurrences i s).
  { intros i. unfold occurrences, retry_collect, queued. rewrite Hr, count_nil. proj.
    pose proof (count_partition i (retryable (the_queue s)) (failed_tasks (the_queue s))).
    lia. }
  constructor; try exact T0; try exact T1; try exact T2; try exact T6.
  - intros i. rewrite Hocc. apply T3.
  - intros i. rewrite Hocc. apply T4.
  - intros i t Ht. change (tasks (the_queue s) !! i = Some t) in Ht.
    destruct (T5 i t Ht) as (F1 & F2 & F3 & F4 & _).
    unfold fits, retry_collect. proj. repeat split; auto.
    + intros H. apply filter_elem in H as [H _]. auto.
    + apply filter_elem in H as [H _]. auto.
    + apply filter_elem in H as [_ H]. unfold retryable in H. rewrite Ht in H.
      unfold can_retry in H. apply andb_true_iff in H as [_ H]. now apply Z.ltb_lt in H.
Qed.

Lemma step_tidy round o s s' : tidy s -> step round o s = Some s' -> tidy s'.
Proof.
  intros T. destruct o as [ty pr now mr rd|now|task_id now o|task_id now| |];
    cbn [step].
  - intros [= <-]. now apply add_tidy.
  - intros [= <-]. now apply take_tidy.
  - destruct (tasks (the_queue s) !! task_id) as [task|] eqn:Htask; [|discriminate].
    destruct (bool_decide (task_id ∈ active_tasks (the_queue s))) eqn:Hact;
      [|discriminate].
    destruct (status_eqb (status task) RUNNING); [|discriminate].
    apply bool_decide_eq_true in Hact. intros [= <-].
    now apply (finish_tidy round s task_id now o task).
  - intros [= <-]. now apply cancel_tidy.
  - destruct (retry_tasks s) eqn:Hr; [|discriminate].
    pose proof (collect_tidy s T Hr) as H.
    destruct (retry_collect (the_queue s)) as [ids q]. now intros [= <-].
  - destruct (retry_tasks s) as [|task_id rest] eqn:Hr; [discriminate|].
    intros [= <-]. now apply requeue_tidy.
Qed.

Lemma run_tidy round ops : forall s s', tidy s -> run round ops s = Some s' -> tidy s'.
Proof.
  induction ops as [|o ops IH]; intros s s' T; cbn [run].
  - now intros [= <-].
  - destruct (step round o s) as [s1|] eqn:E; [|discriminate].
    apply IH. now apply (step_tidy round o s).
Qed.

(** X22.  Whatever calls have reached a queue, a task is in at
    most one place: waiting in the queue, active, completed, failed, or held
    by the retry thread, and there once.  Its status fits the place: PENDING
    or RETRYING in the queue; RUNNING among the active tasks, or FAILED
    there when its [on_error] callback raised; COMPLETED or CANCELED among
    the completed ones; FAILED among the failed ones and in the hands of
    the retry thread. *)
Theorem task_in_one_place round ops s task_id :
  run round ops start = Some s ->
  (occurrences task_id s <= 1)%nat
  /\ forall t, tasks (the_queue s) !! task_id = Some t -> fits s task_id t.
Proof.
  intros H. pose proof (run_tidy round ops start s start_tidy H) as T.
  split; [apply (once s T) | apply (placed s T)].
Qed.

Lemma task_in_one_place_witness :
  exists s,
    run (fun x => x) sample_calls start = Some s
    /\ active_tasks (the_queue s) = ["task-2"]
    /\ completed_tasks (the_queue s) = ["task-1"]
    /\ (status <$> tasks (the_queue s) !! "task-2") = Some FAILED
    /\ (status <$> tasks (the_queue s) !! "task-1") = Some CANCELED
    /\ ((occurrences "task-2" s <= 1)%nat
        /\ forall t, tasks (the_queue s) !! "task-2" = Some t -> fits s "task-2" t)
    /\ ((occurrences "task-1" s <= 1)%nat
        /\ forall t, tasks (the_queue s) !! "task-1" = Some t -> fits s "task-1" t).
Proof.
  destruct (run (fun x => x) sample_calls start) as [s|] eqn:E;
    [|vm_compute in E; discriminate E].
  exists s. split; [reflexivity|].
  pose proof E as E'. vm_compute in E'. injection E' as E'.
  split; [now rewrite <- E'|]. split; [now rewrite <- E'|].
  split; [rewrite <- E'; vm_compute; reflexivity|].
  split; [rewrite <- E'; vm_compute; reflexivity|].
  split; exact (task_in_one_place (fun x => x) sample_calls s _ E).
Defined.

(** X23.  Whatever calls have reached a queue, the retry count of a
    task is at least zero and at most its [max_retries] (zero when that is
    negative). *)
Theorem retries_bounded round ops s task_id t :
  run round ops start = Some s ->
  tasks (the_queue s) !! task_id = Some t ->
  0 <= retry_count t <= Z.max 0 (max_retries t).
Proof.
  intros H. pose proof (run_tidy round ops start s start_tidy H) as T.
  apply (bounded s T).
Qed.

Lemma retries_bounded_witness :
  exists s t,
    run (fun x => x) sample_calls start = Some s
    /\ tasks (the_queue s) !! "task-1" = Some t
    /\ retry_count t = 1 /\ max_retries t = 1
    /\ 0 <= retry_count t <= Z.max 0 (max_retries t).
Proof.
  destruct (run (fun x => x) sample_calls start) as [s|] eqn:E;
    [|vm_compute in E; discriminate E].
  destruct (tasks (the_queue s) !! "task-1") as [t|] eqn:Et.
  2:{ pose proof E as E'. vm_compute in E'. injection E' as E'.
      rewrite <- E' in Et. vm_compute in Et. discriminate Et. }
  exists s, t. split; [reflexivity|]. split; [exact Et|].
  assert (F : retry_count t = 1 /\ max_retries t = 1).
  { pose proof E as E'. vm_compute in E'. injection E' as E'.
    rewrite <- E' in Et. vm_compute in Et. injection Et as <-. split; reflexivity. }
  split; [apply F|]. split; [apply F|].
  exact (retries_bounded (fun x => x) sample_calls s "task-1" t E Et).
Defined.

(** X24.  A task that has just been added is not found by
    [get_task_status]: the answer is [None] although the task waits in the
    queue, since only the active, completed and failed tasks are looked
    at. *)
Theorem added_task_not_found round ops s task_type priority now max_retries
    retry_delay :
  run round ops start = Some s ->
  let '(task_id, q) :=
    add_task task_type priority now max_retries retry_delay (the_queue s) in
  get_task_status task_id q = None
  /\ task_id ∈ queued q
  /\ (status <$> tasks q !! task_id) = Some PENDING.
Proof.
  intros H. pose proof (run_tidy round ops start s start_tidy H) as T.
  pose proof (new_id_fresh s T) as Hfresh.
  pose proof (unknown_nowhere s _ T Hfresh) as Hzero.
  unfold occurrences in Hzero.
  unfold add_task, get_task_status. proj.
  set (task_id := ("task-" ++ Py.str (_task_id_counter (the_queue s) + 1))%string) in *.
  assert (Ha : bool_decide (task_id ∈ active_tasks (the_queue s)) = false).
  { apply bool_decide_eq_false. rewrite <- count_pos. lia. }
  assert (Hc : bool_decide (task_id ∈ completed_tasks (the_queue s)) = false).
  { apply bool_decide_eq_false. rewrite <- count_pos. lia. }
  assert (Hf : bool_decide (task_id ∈ failed_tasks (the_queue s)) = false).
  { apply bool_decide_eq_false. rewrite <- count_pos. lia. }
  rewrite Ha, Hc, Hf. split; [reflexivity|]. split.
  - unfold queued, put. proj. rewrite map_app. apply elem_of_app. right.
    cbn. apply elem_of_cons. now left.
  - now rewrite lookup_insert_eq.
Qed.

Lemma added_task_not_found_witness :
  run (fun x => x) [] start = Some start
  /\ let '(task_id, q) := add_task DOWNLOAD NORMAL 0 3 5 (the_queue start) in
     get_task_status task_id q = None
     /\ task_id ∈ queued q
     /\ (status <$> tasks q !! task_id) = Some PENDING.
Proof.
  split; [reflexivity|].
  apply (added_task_not_found (fun x => x) [] start). reflexivity.
Defined.

(** X25.  Whatever calls have reached a queue, a worker never finds
    a canceled task in it: no call marks a waiting task as canceled, so the
    branch of the worker that skips canceled tasks is never taken. *)
Theorem worker_never_skips round ops s now task_id :
  run round ops start = Some s ->
  fst (worker_begin now (the_queue s)) <> Ok (Skipped task_id).
Proof.
  intros H. pose proof (run_tidy round ops start s start_tidy H) as T.
  unfold worker_begin.
  destruct (get_entry (task_queue (the_queue s))) as [[[[[k1 k2] i] rest]|]|e] eqn:G;
    [|discriminate..].
  apply QueueFacts.get_entry_spec in G as (Hin & _ & ->).
  assert (Hq : i ∈ queued (the_queue s)) by exact (queued_in (k1, k2, i) _ Hin).
  proj. destruct (tasks (the_queue s) !! i) as [task|] eqn:Htask; [|discriminate].
  destruct (placed s T i task Htask) as (F1 & _).
  destruct (status_eqb (status task) CANCELED) eqn:Hs; [|discriminate].
  apply status_eqb_eq in Hs. destruct (F1 Hq); congruence.
Qed.

Lemma worker_never_skips_witness :
  let s := mkSystem (snd (add_task DOWNLOAD NORMAL 0 3 5 empty_queue)) [] in
  run (fun x => x) [Add DOWNLOAD NORMAL 0 3 5; Cancel "task-1" 1] start = Some s
  /\ fst (worker_begin 2 (the_queue s)) <> Ok (Skipped "task-1").
Proof.
  intros s. split; [reflexivity|].
  apply (worker_never_skips (fun x => x)
           [Add DOWNLOAD NORMAL 0 3 5; Cancel "task-1" 1]).
  reflexivity.
Defined.

End LifeFacts.

(** ** The life of a queue on its heap *)

Module HeapLifeFacts.

Import PyFacts Queue Life LifeFacts HeapFacts.
Local Open Scope list_scope.

(** *** What every call keeps, on the heap *)

Lemma count_perm i (a b : list string) : a ≡ₚ b -> count i a = count i b.
Proof.
  induction 1 as [|x a b _ IH|x y a|a b c _ IH1 _ IH2];
    rewrite ?count_cons; lia.
Qed.

Lemma count_queued_perm i (a b : list entry) :
  a ≡ₚ b ->
  count i (map (fun e : entry => snd e) a) = count i (map (fun e : entry => snd e) b).
Proof. intros H. apply count_perm. now apply Permutation_map. Qed.

(** A system with fewer entries in its queue, or fewer tasks in the hands
    of the retry thread, is as tidy. *)
Lemma tidy_fewer s s' :
  tidy s ->
  tasks (the_queue s') = tasks (the_queue s) ->
  active_tasks (the_queue s') = active_tasks (the_queue s) ->
  completed_tasks (the_queue s') = completed_tasks (the_queue s) ->
  failed_tasks (the_queue s') = failed_tasks (the_queue s) ->
  _task_id_counter (the_queue s') = _task_id_counter (the_queue s) ->
  (forall i, count i (queued (the_queue s')) <= count i (queued (the_queue s)))%nat ->
  (forall i, count i (retry_tasks s') <= count i (retry_tasks s))%nat ->
  tidy s'.
Proof.
  intros [T0 T1 T2 T3 T4 T5 T6] Et Ea Ec Ef En Hq Hr.
  assert (Ho : forall i, (occurrences i s' <= occurrences i s)%nat).
  { intros i. unfold occurrences. rewrite Ea, Ec, Ef.
    specialize (Hq i). specialize (Hr i). lia. }
  constructor; rewrite ?Et, ?En; auto.
  - intros i Hi. apply T3. specialize (Ho i). lia.
  - intros i. specialize (Ho i). specialize (T4 i). lia.
  - intros i t Ht. destruct (T5 i t Ht) as (F1 & F2 & F3 & F4 & F5).
    unfold fits. rewrite Ea, Ec, Ef. split; [|split; [|split; [|split]]]; auto.
    + intros H. apply F1. apply count_pos. apply count_pos in H. specialize (Hq i). lia.
    + intros H. apply F5. apply count_pos. apply count_pos in H. specialize (Hr i). lia.
Qed.

Lemma put_perm item heap : snd (Heap.put item heap) ≡ₚ item :: heap.
Proof. apply heappush_perm. Qed.

(** What [get] does to the list, whatever the entries. *)
Lemma get_cases heap :
  match Heap.get heap with
  | (Ok (Some item), heap') => heap ≡ₚ item :: heap'
  | (Ok None, heap') => heap = [] /\ heap' = []
  | (Raise _, heap') => exists item, heap ≡ₚ item :: heap'
  end.
Proof.
  unfold Heap.get. destruct heap as [|e heap]; [auto|].
  pose proof (heappop_perm (e :: heap)) as P.
  destruct (Heap.heappop (e :: heap)) as [[item|x] heap']; [exact P|].
  destruct P as [[? _]|P]; [discriminate | exact P].
Qed.

Lemma heap_add_tidy s task_type priority now max_retries retry_delay :
  tidy s ->
  tidy (mkSystem
          (snd (Heap.add_task task_type priority now max_retries retry_delay
                  (the_queue s)))
          (retry_tasks s)).
Proof.
  intros T.
  pose proof (add_tidy s task_type priority now max_retries retry_delay T) as Tc.
  unfold Heap.add_task.
  pose proof (put_perm
                (entry_of (new_task
                             ("task-" ++ Py.str (_task_id_counter (the_queue s) + 1))
                             task_type priority now max_retries retry_delay))
                (task_queue (the_queue s))) as P.
  destruct (Heap.put _ _) as [outcome heap]. cbn [snd] in P.
  assert (Tidy : tidy (mkSystem
            (mkQueue
               (<[("task-" ++ Py.str (_task_id_counter (the_queue s) + 1))%string :=
                    new_task ("task-" ++ Py.str (_task_id_counter (the_queue s) + 1))
                      task_type priority now max_retries retry_delay]>
                  (tasks (the_queue s)))
               heap (active_tasks (the_queue s)) (completed_tasks (the_queue s))
               (failed_tasks (the_queue s)) (_task_id_counter (the_queue s) + 1))
            (retry_tasks s))).
  { apply (tidy_fewer _ _ Tc); try reflexivity; [].
    intros i. unfold queued, add_task, put. cbn [the_queue snd task_queue].
    rewrite (count_queued_perm i _ _ P). cbn [map]. rewrite map_app, count_app.
    cbn [map]. rewrite !count_cons, count_nil. lia. }
  destruct outcome; exact Tidy.
Qed.

Lemma heap_take_tidy s now :
  tidy s ->
  tidy (mkSystem (snd (Heap.worker_begin now (the_queue s))) (retry_tasks s)).
Proof.
  intros T. unfold Heap.worker_begin.
  pose proof (get_cases (task_queue (the_queue s))) as G.
  destruct (Heap.get (task_queue (the_queue s)))
    as [[[[[k1 k2] task_id]|]|e] heap'].
  - assert (Hcount : forall i,
              (count i (map (fun e : entry => snd e) heap')
               + (if String.eqb i task_id then 1 else 0))%nat
              = count i (queued (the_queue s))).
    { intros i. unfold queued. rewrite (count_queued_perm i _ _ G). cbn [map snd].
      rewrite count_cons. lia. }
    assert (Hq : task_id ∈ queued (the_queue s)).
    { apply count_pos. specialize (Hcount task_id).
      rewrite String.eqb_refl in Hcount. lia. }
    pose proof Hq as Hpos. apply count_pos in Hpos.
    pose proof (once s T task_id) as Honce. unfold occurrences in Honce.
    destruct (known s T task_id) as [task Htask]; [unfold occurrences; lia|].
    unfold Heap.set_task_queue. proj. rewrite Htask.
    destruct (placed s T task_id task Htask) as (F1 & _).
    destruct (status_eqb (status task) CANCELED) eqn:Hs.
    { apply status_eqb_eq in Hs. destruct (F1 Hq); congruence. }
    pose proof (own_id s T task_id task Htask) as Hid.
    pose proof (Hcount task_id) as Hrem. rewrite String.eqb_refl in Hrem.
    assert (Hact : bool_decide (task_id ∈ active_tasks (the_queue s)) = false).
    { apply bool_decide_eq_false. rewrite <- count_pos. lia. }
    apply (tidy_update s _ task_id (mark_running now task) T).
    + proj. lia.
    + intros other Hne. proj. rewrite Hid. split.
      * now rewrite lookup_insert_ne.
      * pose proof (Hcount other) as Hrem'. rewrite (eqb_false _ _ Hne) in Hrem'.
        unfold same_places, queued in *. proj.
        rewrite count_dict_set, Hact, (eqb_false _ _ Hne).
        repeat split; lia.
    + proj. rewrite Hid. apply lookup_insert_eq.
    + exact Hid.
    + exact (numbered s T task_id task Htask).
    + unfold occurrences, queued in *. proj.
      rewrite count_dict_set, Hact, String.eqb_refl. lia.
    + unfold fits, queued in *. proj. rewrite <- !count_pos.
      rewrite count_dict_set, Hact, String.eqb_refl.
      repeat split; try (intros; lia). intros _. now left.
    + exact (bounded s T task_id task Htask).
  - cbn [snd]. now rewrite same_system.
  - destruct G as [item G]. cbn [snd].
    apply (tidy_fewer s _ T); try reflexivity; [].
    intros i. unfold queued. cbn [the_queue Heap.set_task_queue task_queue].
    rewrite (count_queued_perm i _ _ G). cbn [map]. rewrite count_cons. lia.
Qed.

Lemma heap_requeue_tidy s task_id rest :
  tidy s -> retry_tasks s = task_id :: rest ->
  tidy (mkSystem (snd (Heap.retry_one task_id (the_queue s)))
          (match fst (Heap.retry_one task_id (the_queue s)) with
           | Ok _ => rest
           | Raise _ => []
           end)).
Proof.
  intros T Hr. pose proof (requeue_tidy s task_id rest T Hr) as Tc.
  assert (Hnil : forall i, (count i [] <= count i rest)%nat)
    by (intros i; rewrite count_nil; lia).
  unfold Heap.retry_one. unfold retry_one in Tc.
  destruct (tasks (the_queue s) !! task_id) as [task|] eqn:Htask.
  - cbn [snd] in Tc. cbn zeta in Tc.
    destruct (Queue.retry_delay (mark_retrying task) <? 0).
    + cbn [fst snd].
      apply (tidy_fewer _ _ Tc); try reflexivity; try exact Hnil; [].
      intros i. unfold queued, put. proj. rewrite map_app, count_app. lia.
    + pose proof (put_perm (entry_of (mark_retrying task))
                    (task_queue (set_task (mark_retrying task) (the_queue s)))) as P.
      destruct (Heap.put _ _) as [outcome heap]. cbn [snd] in P.
      assert (Hq : forall i,
                (count i (map (fun e : entry => snd e) heap)
                 <= count i (map (fun e : entry => snd e)
                               (put (entry_of (mark_retrying task))
                                  (task_queue (the_queue s)))))%nat).
      { intros i. rewrite (count_queued_perm i _ _ P). unfold put.
        cbn [map set_task task_queue]. rewrite map_app, count_app. cbn [map].
        rewrite !count_cons, count_nil. lia. }
      destruct outcome; cbn [fst snd];
        apply (tidy_fewer _ _ Tc); try reflexivity; auto; intros i; proj; lia.
  - cbn [fst snd] in *. exact Tc.
Qed.

Lemma heap_step_tidy round o s s' :
  tidy s -> HeapLife.step round o s = Some s' -> tidy s'.
Proof.
  intros T. destruct o as [ty pr now mr rd|now|task_id now o|task_id now| |];
    cbn [HeapLife.step];
    try (apply (step_tidy round _ s s' T)).
  - intros [= <-]. now apply heap_add_tidy.
  - intros [= <-]. now apply heap_take_tidy.
  - destruct (retry_tasks s) as [|task_id rest] eqn:Hr; [discriminate|].
    pose proof (heap_requeue_tidy s task_id rest T Hr) as H.
    destruct (Heap.retry_one task_id (the_queue s)) as [[slept|e] q];
      cbn [fst snd] in H; now intros [= <-].
Qed.

Lemma heap_run_tidy round ops :
  forall s s', tidy s -> HeapLife.run round ops s = Some s' -> tidy s'.
Proof.
  induction ops as [|o ops IH]; intros s s' T; cbn [HeapLife.run].
  - now intros [= <-].
  - destruct (HeapLife.step round o s) as [s1|] eqn:E; [|discriminate].
    apply IH. now apply (heap_step_tidy round o s).
Qed.

(** *** The heap when no two tasks tie *)

Lemma entry_of_progress round reports :
  forall task,
    entry_of (fold_left
                (fun t (r : Z * Z) => update_progress round (fst r) (snd r) t)
                reports task)
    = entry_of task.
Proof.
  induction reports as [|r reports IH]; intros task; cbn [fold_left]; [reflexivity|].
  now rewrite IH.
Qed.

Lemma set_task_entries t q t0 i :
  tasks q !! id t = Some t0 -> entry_of t = entry_of t0 ->
  entry_of <$> tasks (set_task t q) !! i = entry_of <$> tasks q !! i.
Proof.
  intros H E. cbn [set_task tasks]. destruct (decide (i = id t)) as [->|Hne].
  - rewrite lookup_insert_eq, H. cbn. now rewrite E.
  - now rewrite lookup_insert_ne by congruence.
Qed.

(** A call that leaves the tasks their entries. *)
Lemma sorted_keep keys s s' :
  HeapLife.sorted keys s ->
  (forall i, entry_of <$> tasks (the_queue s') !! i
             = entry_of <$> tasks (the_queue s) !! i) ->
  Heap.heap_ordered (task_queue (the_queue s')) ->
  keys_differ (task_queue (the_queue s')) ->
  (forall e, e ∈ task_queue (the_queue s') ->
             exists t, tasks (the_queue s) !! snd e = Some t /\ entry_of t = e) ->
  HeapLife.sorted keys s'.
Proof.
  intros [S1 S2 S3 S4 S5] He Hh Hk Hin.
  assert (Hback : forall i t', tasks (the_queue s') !! i = Some t' ->
            exists t, tasks (the_queue s) !! i = Some t /\ entry_of t = entry_of t').
  { intros i t' Ht'. pose proof (He i) as E. rewrite Ht' in E.
    destruct (tasks (the_queue s) !! i) as [t|]; [|discriminate].
    cbn in E. exists t. split; [reflexivity | congruence]. }
  constructor; auto.
  - intros e H. destruct (Hin e H) as (t & Ht & Et).
    pose proof (He (snd e)) as E. rewrite Ht in E.
    destruct (tasks (the_queue s') !! snd e) as [t'|]; [|discriminate].
    cbn in E. exists t'. split; [reflexivity | congruence].
  - intros i t' Ht'. destruct (Hback i t' Ht') as (t & Ht & <-). eauto.
  - intros i j ti tj Hi Hj.
    destruct (Hback i ti Hi) as (ti0 & Hi0 & <-).
    destruct (Hback j tj Hj) as (tj0 & Hj0 & <-). eauto.
Qed.

Lemma key_in_queue (heap : list entry) k :
  k ∈ map key heap -> exists e, e ∈ heap /\ key e = k.
Proof.
  induction heap as [|x heap IH]; cbn [map]; intros H; [now apply elem_of_nil in H|].
  apply elem_of_cons in H as [->|H].
  - exists x. split; [apply elem_of_cons; now left | reflexivity].
  - destruct (IH H) as (y & Hy & <-). exists y. split; [apply elem_of_cons; now right|].
    reflexivity.
Qed.

(** An entry whose key no entry of the list has can be put. *)
Lemma keys_differ_snoc (e : entry) heap :
  keys_differ heap -> (forall x, x ∈ heap -> key x <> key e) ->
  keys_differ (heap ++ [e]).
Proof.
  unfold keys_differ. intros Hk Hne. rewrite map_app. cbn [map].
  apply NoDup_app. split; [exact Hk|]. split.
  - intros k Hin Hk'. apply list_elem_of_singleton in Hk'. subst k.
    destruct (key_in_queue heap _ Hin) as (x & Hx & E). exact (Hne x Hx E).
  - apply NoDup_singleton.
Qed.

Lemma sorted_add keys s task_type priority now max_retries retry_delay :
  tidy s -> HeapLife.sorted keys s -> (- priority_value priority, now) ∉ keys ->
  let task_id := ("task-" ++ Py.str (_task_id_counter (the_queue s) + 1))%string in
  let r := Heap.add_task task_type priority now max_retries retry_delay (the_queue s) in
  fst r = Ok task_id
  /\ (- priority_value priority, now, task_id) ∈ task_queue (snd r)
  /\ HeapLife.sorted (keys ++ [(- priority_value priority, now)])
       (mkSystem (snd r) (retry_tasks s)).
Proof.
  intros T [S1 S2 S3 S4 S5] Hnew task_id r. subst r. unfold Heap.add_task.
  fold task_id.
  set (task := new_task task_id task_type priority now max_retries retry_delay).
  pose proof (new_id_fresh s T) as Hfresh. fold task_id in Hfresh.
  assert (Hkey : key (entry_of task) = (- priority_value priority, now)) by reflexivity.
  assert (Hold : forall i t, tasks (the_queue s) !! i = Some t ->
                             key (entry_of t) <> key (entry_of task)).
  { intros i t Ht E. apply Hnew. rewrite <- Hkey, <- E. eauto. }
  destruct (heappush_heap (entry_of task) (task_queue (the_queue s)) S1)
    as (heap' & E & Hh' & P).
  { apply keys_differ_snoc; [exact S2|].
    intros x Hx. destruct (S3 x Hx) as (t & Ht & <-). eauto. }
  unfold Heap.put. rewrite E. cbn [fst snd].
  split; [reflexivity|]. split.
  { cbn [task_queue]. rewrite P. apply elem_of_cons. now left. }
  constructor; cbn [the_queue task_queue tasks].
  - exact Hh'.
  - apply (keys_differ_perm (entry_of task :: task_queue (the_queue s)));
      [now symmetry|].
    unfold keys_differ. cbn [map]. apply NoDup_cons. split; [|exact S2].
    intros Hin. destruct (key_in_queue _ _ Hin) as (x & Hx & Ex).
    destruct (S3 x Hx) as (t & Ht & <-). exact (Hold _ t Ht Ex).
  - intros e He. rewrite P in He. apply elem_of_cons in He as [->|He].
    + exists task. split; [|reflexivity]. cbn [entry_of snd new_task task id].
      apply lookup_insert_eq.
    + destruct (S3 e He) as (t & Ht & Et). exists t. split; [|exact Et].
      rewrite lookup_insert_ne; [exact Ht|]. intros Eq. rewrite <- Eq in Ht. congruence.
  - intros i t. destruct (decide (i = task_id)) as [->|Hne].
    + rewrite lookup_insert_eq. intros [= <-]. rewrite Hkey. apply elem_of_app.
      right. apply elem_of_cons. now left.
    + rewrite lookup_insert_ne by congruence. intros Ht. apply elem_of_app. left. eauto.
  - intros i j ti tj.
    destruct (decide (i = task_id)) as [->|Hi], (decide (j = task_id)) as [->|Hj];
      rewrite ?lookup_insert_eq, ?lookup_insert_ne by congruence; auto.
    + intros [= <-] Hj' Ek. symmetry in Ek. now destruct (Hold j tj Hj').
    + intros Hi' [= <-] Ek. now destruct (Hold i ti Hi').
    + apply S5.
Qed.

Lemma sorted_system keys s rest :
  HeapLife.sorted keys s -> HeapLife.sorted keys (mkSystem (the_queue s) rest).
Proof. intros [S1 S2 S3 S4 S5]. constructor; auto. Qed.

Lemma worker_end_entries round task_id now o q :
  (forall i t, tasks q !! i = Some t -> id t = i) ->
  task_queue (worker_end round task_id now o q) = task_queue q
  /\ forall i,
       entry_of <$> tasks (worker_end round task_id now o q) !! i
       = entry_of <$> tasks q !! i.
Proof.
  intros Hid. unfold worker_end.
  destruct (tasks q !! task_id) as [task|] eqn:Ht; [|auto].
  pose proof (entry_of_progress round (reports o) task) as Ep.
  destruct (progress_fields round (reports o) task) as (P1 & _). cbn zeta in *.
  set (task1 := fold_left _ (reports o) task) in *.
  assert (Hstore : tasks q !! id task1 = Some task).
  { rewrite P1, (Hid _ _ Ht). exact Ht. }
  destruct (finished o) as [result|e]; [destruct (on_complete o) as [e|]|];
    try destruct (on_error o); (split; [reflexivity|]); intros i; cbn [tasks];
    (apply (set_task_entries _ q task i); [exact Hstore | exact Ep]).
Qed.

Lemma cancel_task_entries task_id now q :
  (forall i t, tasks q !! i = Some t -> id t = i) ->
  task_queue (snd (cancel_task task_id now q)) = task_queue q
  /\ forall i,
       entry_of <$> tasks (snd (cancel_task task_id now q)) !! i
       = entry_of <$> tasks q !! i.
Proof.
  intros Hid. unfold cancel_task.
  destruct (bool_decide (task_id ∈ active_tasks q)); [auto|].
  destruct (bool_decide (task_id ∈ failed_tasks q)).
  - destruct (tasks q !! task_id) as [task|] eqn:Ht; [|auto].
    split; [reflexivity|]. intros i.
    apply (set_task_entries (mark_canceled now task) q task i); [|reflexivity].
    cbn [mark_canceled id]. now rewrite (Hid _ _ Ht).
  - destruct (bool_decide (task_id ∈ completed_tasks q)); auto.
Qed.

Lemma key_goes_before a b : key_lt (entry_of a) (entry_of b) -> goes_before a b.
Proof. unfold goes_before, key_lt, entry_of, key. cbn. lia. Qed.

(** A worker is given the entry below which there is none. *)
Lemma sorted_take keys s now :
  tidy s -> HeapLife.sorted keys s ->
  HeapLife.sorted keys
    (mkSystem (snd (Heap.worker_begin now (the_queue s))) (retry_tasks s))
  /\ match task_queue (the_queue s) with
     | [] => fst (Heap.worker_begin now (the_queue s)) = Ok Idle
     | _ :: _ =>
         exists A,
           fst (Heap.worker_begin now (the_queue s)) = Ok (Started (id A))
           /\ tasks (the_queue s) !! id A = Some A
           /\ task_queue (the_queue s)
              ≡ₚ entry_of A :: task_queue (snd (Heap.worker_begin now (the_queue s)))
           /\ forall B,
                tasks (the_queue s) !! id B = Some B ->
                entry_of B ∈ task_queue (the_queue s) ->
                B <> A -> goes_before A B
     end.
Proof.
  intros T S. pose proof S as [S1 S2 S3 S4 S5]. unfold Heap.worker_begin.
  destruct (task_queue (the_queue s)) as [|e0 rest0] eqn:Eq.
  { cbn [Heap.get fst snd]. split; [|reflexivity]. now rewrite same_system. }
  rewrite <- Eq in *.
  destruct (heappop_heap (task_queue (the_queue s)) S1 S2) as (m & heap' & E & Hh & P & Hmin).
  { rewrite Eq. discriminate. }
  assert (G : Heap.get (task_queue (the_queue s)) = (Ok (Some m), heap')).
  { unfold Heap.get. rewrite Eq in *. now rewrite E. }
  rewrite G.
  assert (Hm : m ∈ task_queue (the_queue s)).
  { rewrite P. apply elem_of_cons. now left. }
  destruct (S3 m Hm) as (A & HA & EA).
  destruct m as [[k1 k2] task_id]. cbn [snd] in HA.
  assert (Hid : id A = task_id) by (apply (f_equal snd) in EA; exact EA).
  unfold Heap.set_task_queue. cbn [tasks]. rewrite HA.
  assert (Hq : task_id ∈ queued (the_queue s)).
  { exact (queued_in (k1, k2, task_id) _ Hm). }
  destruct (placed s T task_id A HA) as (F1 & _).
  destruct (status_eqb (status A) CANCELED) eqn:Hs.
  { apply status_eqb_eq in Hs. destruct (F1 Hq); congruence. }
  cbn [fst snd]. split.
  - apply (sorted_keep keys s _ S).
    + intros i. cbn [the_queue tasks].
      apply (set_task_entries (mark_running now A)
               (mkQueue (tasks (the_queue s)) heap' (active_tasks (the_queue s))
                  (completed_tasks (the_queue s)) (failed_tasks (the_queue s))
                  (_task_id_counter (the_queue s))) A i); [|reflexivity].
      cbn [mark_running id tasks]. now rewrite Hid.
    + exact Hh.
    + cbn [the_queue task_queue set_task].
      apply (keys_differ_perm _ _ P) in S2. unfold keys_differ in *.
      cbn [map] in S2. now apply NoDup_cons in S2 as [_ S2].
    + intros e He. apply S3. rewrite P. apply elem_of_cons. right. exact He.
  - exists A. rewrite Hid. split; [reflexivity|]. split; [exact HA|].
    split; [now rewrite EA|].
    intros B HB HinB Hne. apply key_goes_before, key_total.
    + intros Ek. apply Hne. pose proof (S5 _ _ A B HA HB Ek) as Ei.
      rewrite <- Ei in HB. congruence.
    + rewrite EA. now apply Hmin.
Qed.

Lemma sorted_requeue keys s task_id rest rest' :
  tidy s -> HeapLife.sorted keys s -> retry_tasks s = task_id :: rest ->
  HeapLife.sorted keys (mkSystem (snd (Heap.retry_one task_id (the_queue s))) rest').
Proof.
  intros T S Hr. pose proof S as [S1 S2 S3 S4 S5]. unfold Heap.retry_one.
  destruct (tasks (the_queue s) !! task_id) as [task|] eqn:Htask;
    [|now apply sorted_system].
  pose proof (own_id s T task_id task Htask) as Hid.
  assert (Hstore : tasks (the_queue s) !! id (mark_retrying task) = Some task).
  { cbn [mark_retrying id]. now rewrite Hid. }
  cbn zeta. destruct (Queue.retry_delay (mark_retrying task) <? 0).
  - cbn [snd]. apply (sorted_keep keys s _ S); auto.
    intros i. exact (set_task_entries (mark_retrying task) _ task i Hstore eq_refl).
  - assert (Hk : keys_differ (task_queue (the_queue s) ++ [entry_of (mark_retrying task)])).
    { apply keys_differ_snoc; [exact S2|]. intros x Hx Ek.
      destruct (S3 x Hx) as (t & Ht & Et). rewrite <- Et in Ek.
      pose proof (S5 _ _ t task Ht Htask Ek) as Ei.
      pose proof (queued_in x _ Hx) as Hq. rewrite Ei in Hq.
      pose proof (once s T task_id) as Honce. unfold occurrences in Honce.
      apply count_pos in Hq. unfold queued in Honce.
      rewrite Hr, count_cons, String.eqb_refl in Honce. lia. }
    destruct (heappush_heap (entry_of (mark_retrying task)) (task_queue (the_queue s))
                S1 Hk) as (heap' & E & Hh & P).
    unfold Heap.put. cbn [set_task task_queue]. rewrite E. cbn [snd].
    apply (sorted_keep keys s _ S).
    + intros i. exact (set_task_entries (mark_retrying task) _ task i Hstore eq_refl).
    + exact Hh.
    + cbn [the_queue Heap.set_task_queue task_queue].
      apply (keys_differ_perm _ _ (Permutation_app_comm _ _)) in Hk.
      apply (keys_differ_perm (entry_of (mark_retrying task) :: task_queue (the_queue s)));
        [now symmetry | exact Hk].
    + intros e He. cbn [the_queue Heap.set_task_queue task_queue] in He.
      rewrite P in He. apply elem_of_cons in He as [->|He]; [|now apply S3].
      exists task. split; [|reflexivity]. cbn [entry_of snd mark_retrying id].
      now rewrite Hid.
Qed.

Lemma sorted_step round o s s' keys :
  tidy s -> HeapLife.sorted keys s -> NoDup (keys ++ HeapLife.submitted [o]) ->
  HeapLife.step round o s = Some s' ->
  HeapLife.sorted (keys ++ HeapLife.submitted [o]) s'.
Proof.
  intros T S Hnd.
  destruct o as [ty pr now mr rd|now|task_id now o|task_id now| |];
    cbn [HeapLife.step HeapLife.submitted step] in *; rewrite ?app_nil_r in *.
  - intros [= <-]. apply sorted_add; [exact T | exact S |].
    apply NoDup_app in Hnd as (_ & Hnd & _). intros Hin.
    apply (Hnd _ Hin). apply elem_of_cons. now left.
  - intros [= <-]. now apply sorted_take.
  - destruct (tasks (the_queue s) !! task_id) as [task|]; [|discriminate].
    destruct (_ && _); [|discriminate]. intros [= <-].
    destruct (worker_end_entries round task_id now o (the_queue s) (own_id s T))
      as [Eq He].
    pose proof S as [S1 S2 S3 S4 S5].
    apply (sorted_keep keys s _ S); cbn [the_queue]; rewrite ?Eq; auto.
  - intros [= <-].
    destruct (cancel_task_entries task_id now (the_queue s) (own_id s T)) as [Eq He].
    pose proof S as [S1 S2 S3 S4 S5].
    apply (sorted_keep keys s _ S); cbn [the_queue]; rewrite ?Eq; auto.
  - destruct (retry_tasks s); [|discriminate]. unfold retry_collect.
    intros [= <-]. pose proof S as [S1 S2 S3 S4 S5].
    apply (sorted_keep keys s _ S); auto.
  - destruct (retry_tasks s) as [|task_id rest] eqn:Hr; [discriminate|].
    pose proof (fun rest' => sorted_requeue keys s task_id rest rest' T S Hr) as H.
    destruct (Heap.retry_one task_id (the_queue s)) as [[slept|e] q];
      cbn [snd] in H; intros [= <-]; apply H.
Qed.

Lemma heap_run_snoc round ops o :
  forall s,
    HeapLife.run round (ops ++ [o]) s
    = match HeapLife.run round ops s with
      | Some s1 => HeapLife.step round o s1
      | None => None
      end.
Proof.
  induction ops as [|x ops IH]; intros s; cbn [app HeapLife.run].
  - now destruct (HeapLife.step round o s).
  - destruct (HeapLife.step round x s) as [s1|]; [apply IH | reflexivity].
Qed.

Lemma submitted_app a b :
  HeapLife.submitted (a ++ b) = HeapLife.submitted a ++ HeapLife.submitted b.
Proof.
  induction a as [|o a IH]; [reflexivity|].
  destruct o; cbn [app HeapLife.submitted]; now rewrite IH.
Qed.

Lemma start_sorted : HeapLife.sorted [] start.
Proof.
  constructor; cbn.
  - intros i a b _ Ha. now rewrite lookup_nil in Ha.
  - apply NoDup_nil_2.
  - intros e He. now apply elem_of_nil in He.
  - intros i t. rewrite lookup_empty. discriminate.
  - intros i j ti tj. rewrite lookup_empty. discriminate.
Qed.

Lemma sorted_run round ops :
  forall s,
    NoDup (HeapLife.submitted ops) -> HeapLife.run round ops start = Some s ->
    HeapLife.sorted (HeapLife.submitted ops) s.
Proof.
  induction ops as [|o ops IH] using rev_ind; intros s Hnd.
  - intros [= <-]. exact start_sorted.
  - rewrite heap_run_snoc, submitted_app.
    destruct (HeapLife.run round ops start) as [s1|] eqn:E; [|discriminate].
    intros Hstep. rewrite submitted_app in Hnd.
    apply (sorted_step round o s1 s _
             (heap_run_tidy round ops start s1 start_tidy E)); auto.
    apply IH; [|reflexivity]. now apply NoDup_app in Hnd as (Hnd & _).
Qed.

(** *** Order of dispatch *)

(** X26.  Let no two tasks be submitted at the same priority and the
    same reading of the clock.  Then, whatever calls have reached the
    queue: a task submitted at a priority and a time that were not used
    together is accepted, and waits in the heap; and a worker that asks for
    a task finds none only when none waits, and else is given, of the tasks
    that wait, the one that goes before all the others: none has a higher
    priority, and those of its priority were created later.  The others
    stay in the heap. *)
Theorem highest_priority_first round ops s :
  NoDup (HeapLife.submitted ops) ->
  HeapLife.run round ops start = Some s ->
  (forall task_type priority now max_retries retry_delay,
      (- priority_value priority, now) ∉ HeapLife.submitted ops ->
      exists task_id q,
        Heap.add_task task_type priority now max_retries retry_delay (the_queue s)
        = (Ok task_id, q)
        /\ (- priority_value priority, now, task_id) ∈ task_queue q
        /\ tasks q !! task_id
           = Some (new_task task_id task_type priority now max_retries retry_delay))
  /\ (forall now,
        match task_queue (the_queue s) with
        | [] => fst (Heap.worker_begin now (the_queue s)) = Ok Idle
        | _ :: _ =>
            exists A,
              fst (Heap.worker_begin now (the_queue s)) = Ok (Started (id A))
              /\ tasks (the_queue s) !! id A = Some A
              /\ task_queue (the_queue s)
                 ≡ₚ entry_of A
                    :: task_queue (snd (Heap.worker_begin now (the_queue s)))
              /\ forall B,
                   tasks (the_queue s) !! id B = Some B ->
                   entry_of B ∈ task_queue (the_queue s) ->
                   B <> A -> goes_before A B
        end).
Proof.
  intros Hnd Hrun.
  pose proof (heap_run_tidy round ops start s start_tidy Hrun) as T.
  pose proof (sorted_run round ops s Hnd Hrun) as S.
  split.
  - intros task_type priority now max_retries retry_delay Hnew.
    destruct (sorted_add _ s task_type priority now max_retries retry_delay T S Hnew)
      as (E & Hin & _).
    destruct (Heap.add_task task_type priority now max_retries retry_delay (the_queue s))
      as [r q] eqn:Ea.
    cbn [fst snd] in *. subst r. do 2 eexists. split; [reflexivity|].
    split; [exact Hin|].
    unfold Heap.add_task in Ea. destruct (Heap.put _ _) as [outcome heap].
    destruct outcome; [|discriminate Ea].
    apply (f_equal snd) in Ea. cbn [snd] in Ea. subst q. cbn [tasks].
    apply lookup_insert_eq.
  - intros now. exact (proj2 (sorted_take _ s now T S)).
Qed.

Lemma highest_priority_first_witness :
  let calls :=
    [Add DOWNLOAD NORMAL 10 3 5; Add DOWNLOAD URGENT 20 3 5;
     Add UPLOAD NORMAL 30 3 5; Add UPLOAD URGENT 40 3 5; Take 50;
     Add DOWNLOAD HIGH 60 3 5] in
  exists s,
    HeapLife.run (fun x => x) calls start = Some s
    /\ fst (Heap.worker_begin 70 (the_queue s)) = Ok (Started "task-4")
    /\ (exists task_id q,
          Heap.add_task UPLOAD LOW 80 3 5 (the_queue s) = (Ok task_id, q)
          /\ (- priority_value LOW, 80, task_id) ∈ task_queue q
          /\ tasks q !! task_id = Some (new_task task_id UPLOAD LOW 80 3 5))
    /\ match task_queue (the_queue s) with
       | [] => fst (Heap.worker_begin 70 (the_queue s)) = Ok Idle
       | _ :: _ =>
           exists A,
             fst (Heap.worker_begin 70 (the_queue s)) = Ok (Started (id A))
             /\ tasks (the_queue s) !! id A = Some A
             /\ task_queue (the_queue s)
                ≡ₚ entry_of A
                   :: task_queue (snd (Heap.worker_begin 70 (the_queue s)))
             /\ forall B,
                  tasks (the_queue s) !! id B = Some B ->
                  entry_of B ∈ task_queue (the_queue s) ->
                  B <> A -> goes_before A B
       end.
Proof.
  intros calls.
  assert (Hnd : NoDup (HeapLife.submitted calls)).
  { apply (bool_decide_unpack _). vm_compute. exact I. }
  destruct (HeapLife.run (fun x => x) calls start) as [s|] eqn:E;
    [|vm_compute in E; discriminate E].
  exists s. split; [reflexivity|].
  split.
  { pose proof E as E'. vm_compute in E'. injection E' as E'. rewrite <- E'.
    vm_compute. reflexivity. }
  destruct (highest_priority_first (fun x => x) calls s Hnd E) as [Hadd Htake].
  split; [|exact (Htake 70)].
  apply Hadd. apply (bool_decide_unpack _). vm_compute. exact I.
Defined.

(** X27.  On the heap of the library, whatever calls have reached the
    queue, and also when tasks tie: when [put] or [get] end in [TypeError],
    an entry is lost, or the retry thread drops the tasks it held.  A task
    is in at most one place, and there once: waiting in the heap, active,
    completed, failed, or held by the retry thread.  Its status fits the
    place: PENDING or RETRYING in the heap; RUNNING among the active
    tasks, or FAILED there when its [on_error] callback raised; COMPLETED
    or CANCELED among the completed ones; FAILED among the failed ones and
    in the hands of the retry thread.  Its retry count is at least zero and
    at most its [max_retries] (zero when that is negative). *)
Theorem heap_task_in_one_place round ops s task_id :
  HeapLife.run round ops start = Some s ->
  (occurrences task_id s <= 1)%nat
  /\ forall t,
       tasks (the_queue s) !! task_id = Some t ->
       fits s task_id t /\ 0 <= retry_count t <= Z.max 0 (max_retries t).
Proof.
  intros H. pose proof (heap_run_tidy round ops start s start_tidy H) as T.
  split; [apply (once s T)|].
  intros t Ht. split; [apply (placed s T _ _ Ht) | apply (bounded s T _ _ Ht)].
Qed.

Lemma heap_task_in_one_place_witness :
  exists s,
    HeapLife.run (fun x => x) HeapLife.tied_calls start = Some s
    /\ queued (the_queue s) = ["task-3"; "task-2"]
    /\ retry_tasks s = []
    /\ (status <$> tasks (the_queue s) !! "task-1") = Some PENDING
    /\ (status <$> tasks (the_queue s) !! "task-2") = Some RETRYING
    /\ occurrences "task-1" s = 0%nat
    /\ ((occurrences "task-1" s <= 1)%nat
        /\ forall t,
             tasks (the_queue s) !! "task-1" = Some t ->
             fits s "task-1" t /\ 0 <= retry_count t <= Z.max 0 (max_retries t))
    /\ ((occurrences "task-2" s <= 1)%nat
        /\ forall t,
             tasks (the_queue s) !! "task-2" = Some t ->
             fits s "task-2" t /\ 0 <= retry_count t <= Z.max 0 (max_retries t)).
Proof.
  destruct (HeapLife.run (fun x => x) HeapLife.tied_calls start) as [s|] eqn:E;
    [|vm_compute in E; discriminate E].
  exists s. split; [reflexivity|].
  pose proof E as E'. vm_compute in E'. injection E' as E'.
  split; [now rewrite <- E'|]. split; [now rewrite <- E'|].
  split; [rewrite <- E'; vm_compute; reflexivity|].
  split; [rewrite <- E'; vm_compute; reflexivity|].
  split; [rewrite <- E'; vm_compute; reflexivity|].
  split; exact (heap_task_in_one_place (fun x => x) HeapLife.tied_calls s _ E).
Defined.

End HeapLifeFacts.
